(** * Curved Spaces: the geometric core, embedded in Rocq

    A shallow embedding of the platform-independent C code of Curved Spaces
    (CurvedSpaces-Common.h, CurvedSpacesGestures.c, CurvedSpacesOptions.c,
    CurvedSpacesSimulation.c, CurvedSpacesDirichlet.c, CurvedSpacesFileIO.c,
    CurvedSpacesMouse.c, CurvedSpacesProjection.c)
    together with the properties of it that the design document states and
    further properties that the code shows.

    Conventions of the embedding.
    - A C [double] is an IEEE 754 binary64 number, embedded as Rocq's
      primitive [float]; the comparisons [<], [>], [==], [!=] of C are
      [ltb], the flipped [ltb], [eqb] and its negation.
    - [unsigned int] and [uint64_t] are integers in [Z] with the wrap-around
      written out.
    - A pointer is an address ([ptr]), a nullable pointer an [option];
      the three NULL-terminated linked lists of a polyhedron are lists of
      addresses into three stores (finite maps).
    - A function that reports through [ErrorText] returns an [option string]
      ([None] is the C NULL, that is success).
    - The preprocessor switches of CurvedSpaces-Common.h are all off, as in
      the released configuration. *)

From Stdlib Require Import Floats ZArith.
From Stdlib Require Uint63.
From stdpp Require Import base option list gmap strings.

#[local] Set Warnings "-inexact-float".
#[local] Open Scope Z_scope.

(** ** Scalars *)

Abbreviation double := float (only parsing).

(** C's [a > b] and [a != b] on doubles. *)
Definition gtb (a b : double) : bool := PrimFloat.ltb b a.
Definition neqb (a b : double) : bool := negb (PrimFloat.eqb a b).

(** [unsigned int] (32 bit) and [uint64_t] arithmetic. *)
Definition UINT_MODULUS : Z := 2 ^ 32.
Definition UINT64_MODULUS : Z := 2 ^ 64.
Definition uint_incr (n : Z) : Z := (n + 1) mod UINT_MODULUS.
Definition uint64_incr (n : Z) : Z := (n + 1) mod UINT64_MODULUS.

(** ** CurvedSpaces-Common.h: the transparent types *)

Inductive CliffordMode :=
  | CliffordNone | CliffordBicolor | CliffordCenterlines
  | CliffordOneSet | CliffordTwoSets | CliffordThreeSets.

Inductive SpaceType := SpaceNone | SpaceSpherical | SpaceFlat | SpaceHyperbolic.

Inductive ImageParity := ImagePositive | ImageNegative.

Inductive CenterpieceType :=
  | CenterpieceNone | CenterpieceEarth | CenterpieceGalaxy | CenterpieceGyroscope.

#[global] Instance SpaceType_eq_dec : EqDecision SpaceType.
Proof. solve_decision. Defined.
#[global] Instance ImageParity_eq_dec : EqDecision ImageParity.
Proof. solve_decision. Defined.

(** [double v[4]] *)
Record Vector := mkVector { v0 : double; v1 : double; v2 : double; v3 : double }.

(** [double m[4][4]] row by row, and the parity. *)
Record Matrix := mkMatrix {
  m0 : Vector; m1 : Vector; m2 : Vector; m3 : Vector;
  itsParity : ImageParity
}.

Definition ErrorText := option string.

(** [HSLAColor] and [RGBAColor] *)
Record HSLAColor := mkHSLA { hsla_h : double; hsla_s : double; hsla_l : double; hsla_a : double }.
Record RGBAColor := mkRGBA { rgba_r : double; rgba_g : double; rgba_b : double; rgba_a : double }.

(** [MatrixList]: the array together with its [itsNumMatrices]. *)
Definition MatrixList := list Matrix.
Definition itsNumMatrices (l : MatrixList) : Z := Z.of_nat (length l).

(** ** CurvedSpacesDirichlet.c: the half-edge data structure *)

Abbreviation ptr := nat (only parsing).

Inductive VertexVsHalfspace :=
  | VertexInsideHalfspace | VertexOnBoundary | VertexOutsideHalfspace.

#[global] Instance VertexVsHalfspace_eq_dec : EqDecision VertexVsHalfspace.
Proof. solve_decision. Defined.

Record HEVertex := mkHEVertex {
  itsRawPosition : Vector;
  itsNormalizedPosition : Vector;
  itsOutboundHalfEdge : option ptr;
  itsHalfspaceStatus : VertexVsHalfspace;
  itsCenterPoint : Vector
}.

Record HEHalfEdge := mkHEHalfEdge {
  itsTip : option ptr;
  itsMate : option ptr;
  itsCycle : option ptr;
  itsFace : option ptr;
  itsBase : double;
  itsAltitude : double;
  HEHalfEdge_itsDeletionFlag : bool;
  itsOuterPoint : Vector;
  itsInnerPoint : Vector
}.

Record HEFace := mkHEFace {
  itsHalfEdge : option ptr;
  itsHalfspace : Vector;
  HEFace_itsMatrix : Matrix;
  itsColorIndex : Z;
  itsColorRGBA : RGBAColor;
  itsColorGreyscale : double;
  itsRawCenter : Vector;
  itsNormalizedCenter : Vector;
  HEFace_itsDeletionFlag : bool
}.

(** [struct HEPolyhedron].  The [itsNext] links of the three NULL-terminated
    lists are the three lists of addresses, head first; the nodes live in
    the three stores.  [itsFreeMemory] counts the nodes that [GET_MEMORY]
    can still hand out before it returns NULL. *)
Record HEPolyhedron := mkHEPolyhedron {
  itsVertexList : list ptr;
  itsHalfEdgeList : list ptr;
  itsFaceList : list ptr;
  HEPolyhedron_itsSpaceType : SpaceType;
  itsOutradius : double;
  theVertices : gmap ptr HEVertex;
  theHalfEdges : gmap ptr HEHalfEdge;
  theFaces : gmap ptr HEFace;
  itsNextAddress : ptr;
  itsFreeMemory : nat
}.

Abbreviation DirichletDomain := HEPolyhedron (only parsing).

(** ** Honeycomb *)

Record Honeycell := mkHoneycell {
  Honeycell_itsMatrix : Matrix;
  itsCellCenterInWorldSpace : Vector;
  itsDistanceCameraToCellCenter : double
}.

(** [itsCells] is the array with its [itsNumCells]; [itsVisibleCells] is the
    array of pointers into [itsCells], each an index or NULL. *)
Record Honeycomb := mkHoneycomb {
  itsCells : list Honeycell;
  itsNumVisibleCells : Z;
  itsNumVisiblePlainCells : Z;
  itsNumVisibleReflectedCells : Z;
  itsVisibleCells : list (option nat)
}.

Definition itsNumCells (h : Honeycomb) : Z := Z.of_nat (length (itsCells h)).

(** ** [struct ModelData] *)

Record ModelData := mkModelData {
  itsChangeCount : Z;
  itsSpaceType : SpaceType;
  itsDrawBackHemisphere : bool;
  itsThreeSphereFlag : bool;
  itsHorizonRadius : double;
  itsUserBodyPlacement : Matrix;
  itsUserSpeed : double;
  itsPrePauseUserSpeed : double;
  itsDirichletDomain : option DirichletDomain;
  itsHoneycomb : option Honeycomb;
  itsAperture : double;
  itsDirichletWallsMeshNeedsRefresh : bool;
  itsVertexFigureMeshNeedsReplacement : bool;
  itsCenterpieceType : CenterpieceType;
  itsRotationAngle : double;
  itsShowObserver : bool;
  itsShowColorCoding : bool;
  itsCliffordMode : CliffordMode;
  itsShowVertexFigures : bool;
  itsFogFlag : bool
}.

(** Field updates, one per assigned field. *)
Definition set_itsChangeCount (n : Z) (md : ModelData) : ModelData :=
  mkModelData n (itsSpaceType md) (itsDrawBackHemisphere md) (itsThreeSphereFlag md)
    (itsHorizonRadius md) (itsUserBodyPlacement md) (itsUserSpeed md)
    (itsPrePauseUserSpeed md) (itsDirichletDomain md) (itsHoneycomb md) (itsAperture md)
    (itsDirichletWallsMeshNeedsRefresh md) (itsVertexFigureMeshNeedsReplacement md)
    (itsCenterpieceType md) (itsRotationAngle md) (itsShowObserver md)
    (itsShowColorCoding md) (itsCliffordMode md) (itsShowVertexFigures md) (itsFogFlag md).

Definition set_itsUserBodyPlacement (p : Matrix) (md : ModelData) : ModelData :=
  mkModelData (itsChangeCount md) (itsSpaceType md) (itsDrawBackHemisphere md)
    (itsThreeSphereFlag md) (itsHorizonRadius md) p (itsUserSpeed md)
    (itsPrePauseUserSpeed md) (itsDirichletDomain md) (itsHoneycomb md) (itsAperture md)
    (itsDirichletWallsMeshNeedsRefresh md) (itsVertexFigureMeshNeedsReplacement md)
    (itsCenterpieceType md) (itsRotationAngle md) (itsShowObserver md)
    (itsShowColorCoding md) (itsCliffordMode md) (itsShowVertexFigures md) (itsFogFlag md).

Definition set_itsUserSpeed (s : double) (md : ModelData) : ModelData :=
  mkModelData (itsChangeCount md) (itsSpaceType md) (itsDrawBackHemisphere md)
    (itsThreeSphereFlag md) (itsHorizonRadius md) (itsUserBodyPlacement md) s
    (itsPrePauseUserSpeed md) (itsDirichletDomain md) (itsHoneycomb md) (itsAperture md)
    (itsDirichletWallsMeshNeedsRefresh md) (itsVertexFigureMeshNeedsReplacement md)
    (itsCenterpieceType md) (itsRotationAngle md) (itsShowObserver md)
    (itsShowColorCoding md) (itsCliffordMode md) (itsShowVertexFigures md) (itsFogFlag md).

Definition set_itsPrePauseUserSpeed (s : double) (md : ModelData) : ModelData :=
  mkModelData (itsChangeCount md) (itsSpaceType md) (itsDrawBackHemisphere md)
    (itsThreeSphereFlag md) (itsHorizonRadius md) (itsUserBodyPlacement md)
    (itsUserSpeed md) s (itsDirichletDomain md) (itsHoneycomb md) (itsAperture md)
    (itsDirichletWallsMeshNeedsRefresh md) (itsVertexFigureMeshNeedsReplacement md)
    (itsCenterpieceType md) (itsRotationAngle md) (itsShowObserver md)
    (itsShowColorCoding md) (itsCliffordMode md) (itsShowVertexFigures md) (itsFogFlag md).

Definition set_itsAperture (x : double) (md : ModelData) : ModelData :=
  mkModelData (itsChangeCount md) (itsSpaceType md) (itsDrawBackHemisphere md)
    (itsThreeSphereFlag md) (itsHorizonRadius md) (itsUserBodyPlacement md)
    (itsUserSpeed md) (itsPrePauseUserSpeed md) (itsDirichletDomain md) (itsHoneycomb md) x
    (itsDirichletWallsMeshNeedsRefresh md) (itsVertexFigureMeshNeedsReplacement md)
    (itsCenterpieceType md) (itsRotationAngle md) (itsShowObserver md)
    (itsShowColorCoding md) (itsCliffordMode md) (itsShowVertexFigures md) (itsFogFlag md).

Definition set_itsDirichletWallsMeshNeedsRefresh (b : bool) (md : ModelData) : ModelData :=
  mkModelData (itsChangeCount md) (itsSpaceType md) (itsDrawBackHemisphere md)
    (itsThreeSphereFlag md) (itsHorizonRadius md) (itsUserBodyPlacement md)
    (itsUserSpeed md) (itsPrePauseUserSpeed md) (itsDirichletDomain md) (itsHoneycomb md)
    (itsAperture md) b (itsVertexFigureMeshNeedsReplacement md)
    (itsCenterpieceType md) (itsRotationAngle md) (itsShowObserver md)
    (itsShowColorCoding md) (itsCliffordMode md) (itsShowVertexFigures md) (itsFogFlag md).

Definition set_itsCenterpieceType (c : CenterpieceType) (md : ModelData) : ModelData :=
  mkModelData (itsChangeCount md) (itsSpaceType md) (itsDrawBackHemisphere md)
    (itsThreeSphereFlag md) (itsHorizonRadius md) (itsUserBodyPlacement md)
    (itsUserSpeed md) (itsPrePauseUserSpeed md) (itsDirichletDomain md) (itsHoneycomb md)
    (itsAperture md) (itsDirichletWallsMeshNeedsRefresh md)
    (itsVertexFigureMeshNeedsReplacement md) c (itsRotationAngle md) (itsShowObserver md)
    (itsShowColorCoding md) (itsCliffordMode md) (itsShowVertexFigures md) (itsFogFlag md).

Definition set_itsRotationAngle (x : double) (md : ModelData) : ModelData :=
  mkModelData (itsChangeCount md) (itsSpaceType md) (itsDrawBackHemisphere md)
    (itsThreeSphereFlag md) (itsHorizonRadius md) (itsUserBodyPlacement md)
    (itsUserSpeed md) (itsPrePauseUserSpeed md) (itsDirichletDomain md) (itsHoneycomb md)
    (itsAperture md) (itsDirichletWallsMeshNeedsRefresh md)
    (itsVertexFigureMeshNeedsReplacement md) (itsCenterpieceType md) x (itsShowObserver md)
    (itsShowColorCoding md) (itsCliffordMode md) (itsShowVertexFigures md) (itsFogFlag md).

Definition set_itsShowObserver (b : bool) (md : ModelData) : ModelData :=
  mkModelData (itsChangeCount md) (itsSpaceType md) (itsDrawBackHemisphere md)
    (itsThreeSphereFlag md) (itsHorizonRadius md) (itsUserBodyPlacement md)
    (itsUserSpeed md) (itsPrePauseUserSpeed md) (itsDirichletDomain md) (itsHoneycomb md)
    (itsAperture md) (itsDirichletWallsMeshNeedsRefresh md)
    (itsVertexFigureMeshNeedsReplacement md) (itsCenterpieceType md) (itsRotationAngle md) b
    (itsShowColorCoding md) (itsCliffordMode md) (itsShowVertexFigures md) (itsFogFlag md).

Definition set_itsShowColorCoding (b : bool) (md : ModelData) : ModelData :=
  mkModelData (itsChangeCount md) (itsSpaceType md) (itsDrawBackHemisphere md)
    (itsThreeSphereFlag md) (itsHorizonRadius md) (itsUserBodyPlacement md)
    (itsUserSpeed md) (itsPrePauseUserSpeed md) (itsDirichletDomain md) (itsHoneycomb md)
    (itsAperture md) (itsDirichletWallsMeshNeedsRefresh md)
    (itsVertexFigureMeshNeedsReplacement md) (itsCenterpieceType md) (itsRotationAngle md)
    (itsShowObserver md) b (itsCliffordMode md) (itsShowVertexFigures md) (itsFogFlag md).

Definition set_itsCliffordMode (c : CliffordMode) (md : ModelData) : ModelData :=
  mkModelData (itsChangeCount md) (itsSpaceType md) (itsDrawBackHemisphere md)
    (itsThreeSphereFlag md) (itsHorizonRadius md) (itsUserBodyPlacement md)
    (itsUserSpeed md) (itsPrePauseUserSpeed md) (itsDirichletDomain md) (itsHoneycomb md)
    (itsAperture md) (itsDirichletWallsMeshNeedsRefresh md)
    (itsVertexFigureMeshNeedsReplacement md) (itsCenterpieceType md) (itsRotationAngle md)
    (itsShowObserver md) (itsShowColorCoding md) c (itsShowVertexFigures md) (itsFogFlag md).

Definition set_itsShowVertexFigures (b : bool) (md : ModelData) : ModelData :=
  mkModelData (itsChangeCount md) (itsSpaceType md) (itsDrawBackHemisphere md)
    (itsThreeSphereFlag md) (itsHorizonRadius md) (itsUserBodyPlacement md)
    (itsUserSpeed md) (itsPrePauseUserSpeed md) (itsDirichletDomain md) (itsHoneycomb md)
    (itsAperture md) (itsDirichletWallsMeshNeedsRefresh md)
    (itsVertexFigureMeshNeedsReplacement md) (itsCenterpieceType md) (itsRotationAngle md)
    (itsShowObserver md) (itsShowColorCoding md) (itsCliffordMode md) b (itsFogFlag md).

Definition set_itsFogFlag (b : bool) (md : ModelData) : ModelData :=
  mkModelData (itsChangeCount md) (itsSpaceType md) (itsDrawBackHemisphere md)
    (itsThreeSphereFlag md) (itsHorizonRadius md) (itsUserBodyPlacement md)
    (itsUserSpeed md) (itsPrePauseUserSpeed md) (itsDirichletDomain md) (itsHoneycomb md)
    (itsAperture md) (itsDirichletWallsMeshNeedsRefresh md)
    (itsVertexFigureMeshNeedsReplacement md) (itsCenterpieceType md) (itsRotationAngle md)
    (itsShowObserver md) (itsShowColorCoding md) (itsCliffordMode md)
    (itsShowVertexFigures md) b.

(** [md->itsChangeCount++] *)
Definition incr_itsChangeCount (md : ModelData) : ModelData :=
  set_itsChangeCount (uint64_incr (itsChangeCount md)) md.

(** ** Arrays of four doubles *)

Definition vget (v : Vector) (i : nat) : double :=
  match i with
  | 0%nat => v0 v | 1%nat => v1 v | 2%nat => v2 v | _ => v3 v
  end.

Definition vset (v : Vector) (i : nat) (x : double) : Vector :=
  match i with
  | 0%nat => mkVector x (v1 v) (v2 v) (v3 v)
  | 1%nat => mkVector (v0 v) x (v2 v) (v3 v)
  | 2%nat => mkVector (v0 v) (v1 v) x (v3 v)
  | _ => mkVector (v0 v) (v1 v) (v2 v) x
  end.

(** [aMatrix->m[i]] and [aMatrix->m[i][j]] *)
Definition mrow (M : Matrix) (i : nat) : Vector :=
  match i with
  | 0%nat => m0 M | 1%nat => m1 M | 2%nat => m2 M | _ => m3 M
  end.

Definition mset_row (M : Matrix) (i : nat) (r : Vector) : Matrix :=
  match i with
  | 0%nat => mkMatrix r (m1 M) (m2 M) (m3 M) (itsParity M)
  | 1%nat => mkMatrix (m0 M) r (m2 M) (m3 M) (itsParity M)
  | 2%nat => mkMatrix (m0 M) (m1 M) r (m3 M) (itsParity M)
  | _ => mkMatrix (m0 M) (m1 M) (m2 M) r (itsParity M)
  end.

Definition mget (M : Matrix) (i j : nat) : double := vget (mrow M i) j.
Definition mset (M : Matrix) (i j : nat) (x : double) : Matrix :=
  mset_row M i (vset (mrow M i) j x).

(** ** The collaborators that live outside these files

    [<math.h>], CurvedSpacesMatrices.c and CurvedSpacesColors.c are used by
    the code below but are not part of it; the code is embedded over their
    interfaces. *)

Class LibM := {
  cos : double -> double;
  sin : double -> double;
  cosh : double -> double;
  sinh : double -> double;
  atan2 : double -> double -> double;
  floor : double -> double
}.

(** [VectorNormalize] returns its message and what it wrote to its output
    vector, [None] when it left the output alone. *)
Class Matrices := {
  MatrixIdentity : Matrix;
  MatrixIsIdentity : Matrix -> bool;
  MatrixGeometricInverse : Matrix -> Matrix;
  MatrixEquality : Matrix -> Matrix -> double -> bool;
  MatrixProduct : Matrix -> Matrix -> Matrix;
  VectorTernaryCrossProduct : Vector -> Vector -> Vector -> Vector;
  VectorNegate : Vector -> Vector;
  VectorSum : Vector -> Vector -> Vector;
  VectorDifference : Vector -> Vector -> Vector;
  VectorDotProduct : Vector -> Vector -> double;
  VectorNormalize : Vector -> SpaceType -> ErrorText * option Vector;
  VectorGeometricDistance : Vector -> double;
  VectorGeometricDistance2 : Vector -> Vector -> double;
  VectorTimesMatrix : Vector -> Matrix -> Vector;
  ScalarTimesVector : double -> Vector -> Vector
}.

Class Colors := {
  HSLAtoRGBA : HSLAColor -> RGBAColor
}.

(** [#define PI 3.14159265358979323846] *)
Definition PI : double := 3.14159265358979323846%float.

Section Core.
Context `{LibM} `{Matrices} `{Colors}.

(** ** CurvedSpacesDirichlet.c: [StayInDirichletDomain] *)

Definition RESTORING_EPSILON : double := 1e-8%float.

(** The halfspace equation of a face on the image of the basepoint (0,0,0,1)
    under [aPlacement]: [theFaceValue = 0] and then four [+=]. *)
Definition theFaceValue (theFace : HEFace) (aPlacement : Matrix) : double :=
  let h := itsHalfspace theFace in
  let r := m3 aPlacement in
  (((((0 + v0 h * v0 r) + v1 h * v1 r) + v2 h * v2 r) + v3 h * v3 r))%float.

(** The body of the loop over the face list, for one face. *)
Definition StayInDirichletDomain_step (theFace : HEFace) (aPlacement : Matrix) : Matrix :=
  if gtb (theFaceValue theFace aPlacement) RESTORING_EPSILON
  then MatrixProduct aPlacement (MatrixGeometricInverse (HEFace_itsMatrix theFace))
  else aPlacement.

Fixpoint StayInDirichletDomain_loop (store : gmap ptr HEFace) (l : list ptr)
    (aPlacement : Matrix) : option Matrix :=
  match l with
  | [] => Some aPlacement
  | p :: l' =>
      theFace ← store !! p;
      StayInDirichletDomain_loop store l' (StayInDirichletDomain_step theFace aPlacement)
  end.

(** [None] is a face pointer that points to no face (undefined behaviour). *)
Definition StayInDirichletDomain (aDirichletDomain : option DirichletDomain)
    (aPlacement : Matrix) : option Matrix :=
  match aDirichletDomain with
  | None => Some aPlacement
  | Some d => StayInDirichletDomain_loop (theFaces d) (itsFaceList d) aPlacement
  end.

(** ** CurvedSpacesGestures.c *)

Definition APERTURE_DILATION_CONSTANT : double := 0.5%float.

Definition GestureRotate (md : ModelData) (anAngle : double) : ModelData :=
  let c := cos anAngle in
  let s := sin anAngle in
  let theRotation :=
    mkMatrix (mkVector c (- s) 0 0) (mkVector s c 0 0)
             (mkVector 0 0 1 0) (mkVector 0 0 0 1) ImagePositive in
  incr_itsChangeCount
    (set_itsUserBodyPlacement (MatrixProduct theRotation (itsUserBodyPlacement md)) md).

Definition GesturePinch (md : ModelData) (anExpansionFactor : double) : ModelData :=
  let a1 := (itsAperture md + APERTURE_DILATION_CONSTANT * (anExpansionFactor - 1))%float in
  let a2 := if PrimFloat.ltb a1 0 then 0%float else a1 in
  let a3 := if gtb a2 1 then 1%float else a2 in
  incr_itsChangeCount (set_itsDirichletWallsMeshNeedsRefresh true (set_itsAperture a3 md)).

Definition GestureTap (md : ModelData) : ModelData :=
  if neqb (itsUserSpeed md) 0
  then set_itsUserSpeed 0 (set_itsPrePauseUserSpeed (itsUserSpeed md) md)
  else set_itsPrePauseUserSpeed 0 (set_itsUserSpeed (itsPrePauseUserSpeed md) md).

(** ** CurvedSpacesOptions.c *)

Definition SetCenterpiece (md : ModelData) (aCenterpieceChoice : CenterpieceType) :=
  incr_itsChangeCount (set_itsCenterpieceType aCenterpieceChoice md).

Definition SetShowObserver (md : ModelData) (aShowObserverChoice : bool) :=
  incr_itsChangeCount (set_itsShowObserver aShowObserverChoice md).

Definition SetShowColorCoding (md : ModelData) (aShowColorCodingChoice : bool) :=
  incr_itsChangeCount
    (set_itsDirichletWallsMeshNeedsRefresh true
       (set_itsShowColorCoding aShowColorCodingChoice md)).

Definition SetShowCliffordParallels (md : ModelData) (aCliffordMode : CliffordMode) :=
  incr_itsChangeCount (set_itsCliffordMode aCliffordMode md).

Definition SetShowVertexFigures (md : ModelData) (aShowVertexFiguresChoice : bool) :=
  incr_itsChangeCount (set_itsShowVertexFigures aShowVertexFiguresChoice md).

Definition SetFogFlag (md : ModelData) (aFogFlag : bool) :=
  incr_itsChangeCount (set_itsFogFlag aFogFlag md).

(** ** CurvedSpacesSimulation.c *)

Definition MAX_FRAME_PERIOD : double := 0.1%float.
Definition CENTERPIECE_ANGULAR_VELOCITY : double := 0.1%float.

Definition UpdateCenterpieceRotation (md : ModelData) (aFramePeriod : double) : ModelData :=
  let a := (itsRotationAngle md - aFramePeriod * CENTERPIECE_ANGULAR_VELOCITY)%float in
  let a' := if PrimFloat.ltb a 0 then (a + 2 * PI)%float else a in
  set_itsRotationAngle a' md.

(** [theMetricChoices] *)
Definition theMetricChoices (aSpaceType : SpaceType) : option (Vector * Vector) :=
  match aSpaceType with
  | SpaceSpherical => Some (mkVector 1 1 1 1, mkVector 1 1 1 1)
  | SpaceFlat => Some (mkVector 1 1 1 0, mkVector 0 0 0 1)
  | SpaceHyperbolic => Some (mkVector 1 1 1 (-1), mkVector (-1) (-1) (-1) 1)
  | SpaceNone => None
  end.

Definition theMetricFor (theMetricPair : Vector * Vector) (i : nat) : Vector :=
  if decide (i = 3%nat) then snd theMetricPair else fst theMetricPair.

(** [theInnerProduct = 0.0] followed by [+= theMetric[k] * a[k] * b[k]]. *)
Definition MetricInnerProduct (theMetric a b : Vector) : double :=
  ((((0 + v0 theMetric * v0 a * v0 b) + v1 theMetric * v1 a * v1 b)
      + v2 theMetric * v2 a * v2 b) + v3 theMetric * v3 a * v3 b)%float.

Definition NormalizeRow (theMetricPair : Vector * Vector) (aMatrix : Matrix) (i : nat) : Matrix :=
  let theRow := mrow aMatrix i in
  let theInnerProduct := MetricInnerProduct (theMetricFor theMetricPair i) theRow theRow in
  let theFactor := (1 / PrimFloat.sqrt theInnerProduct)%float in
  mset_row aMatrix i
    (mkVector (v0 theRow * theFactor) (v1 theRow * theFactor)
              (v2 theRow * theFactor) (v3 theRow * theFactor))%float.

(** One pass of the inner loop: row [j] loses its component along row [i]. *)
Definition SubtractProjection (theMetricPair : Vector * Vector) (i : nat)
    (aMatrix : Matrix) (j : nat) : Matrix :=
  let ri := mrow aMatrix i in
  let rj := mrow aMatrix j in
  let theInnerProduct := MetricInnerProduct (theMetricFor theMetricPair i) ri rj in
  mset_row aMatrix j
    (mkVector (v0 rj - theInnerProduct * v0 ri) (v1 rj - theInnerProduct * v1 ri)
              (v2 rj - theInnerProduct * v2 ri) (v3 rj - theInnerProduct * v3 ri))%float.

(** [for (j = i; j-- > 0; )] visits [i-1], ..., [0]. *)
Definition OrthogonalizeAgainst (theMetricPair : Vector * Vector) (aMatrix : Matrix)
    (i : nat) : Matrix :=
  foldl (SubtractProjection theMetricPair i) aMatrix (reverse (seq 0 i)).

Definition FastGramSchmidt (aMatrix : Matrix) (aSpaceType : SpaceType) : Matrix :=
  match theMetricChoices aSpaceType with
  | None => aMatrix
  | Some theMetricPair =>
      let normalized := foldl (NormalizeRow theMetricPair) aMatrix (seq 0 4) in
      foldl (OrthogonalizeAgainst theMetricPair) normalized (reverse (seq 0 4))
  end.

Definition UpdateUserPlacement (md : ModelData) (aFramePeriod : double) : option ModelData :=
  let d := (itsUserSpeed md * aFramePeriod)%float in
  let theIncrement :=
    match itsSpaceType md with
    | SpaceSpherical =>
        mset (mset (mset (mset MatrixIdentity 2 2 (cos d)) 2 3 (- sin d)%float)
                3 2 (sin d)) 3 3 (cos d)
    | SpaceFlat => mset MatrixIdentity 3 2 d
    | SpaceHyperbolic =>
        mset (mset (mset (mset MatrixIdentity 2 2 (cosh d)) 2 3 (sinh d))
                3 2 (sinh d)) 3 3 (cosh d)
    | SpaceNone => MatrixIdentity
    end in
  let moved := MatrixProduct theIncrement (itsUserBodyPlacement md) in
  stayed ← StayInDirichletDomain (itsDirichletDomain md) moved;
  Some (set_itsUserBodyPlacement (FastGramSchmidt stayed (itsSpaceType md)) md).

Definition SimulationUpdate (md : ModelData) (aFramePeriod : double) : option ModelData :=
  let aFramePeriod :=
    if gtb aFramePeriod MAX_FRAME_PERIOD then MAX_FRAME_PERIOD else aFramePeriod in
  md' ← UpdateUserPlacement (UpdateCenterpieceRotation md aFramePeriod) aFramePeriod;
  Some (incr_itsChangeCount md').

Definition GetChangeCount (md : ModelData) : Z := itsChangeCount md.

End Core.

(** ** The node stores of a polyhedron *)

Definition set_lists (vl hl fl : list ptr) (d : HEPolyhedron) : HEPolyhedron :=
  mkHEPolyhedron vl hl fl (HEPolyhedron_itsSpaceType d) (itsOutradius d)
    (theVertices d) (theHalfEdges d) (theFaces d) (itsNextAddress d) (itsFreeMemory d).

Definition set_theVertices (s : gmap ptr HEVertex) (d : HEPolyhedron) : HEPolyhedron :=
  mkHEPolyhedron (itsVertexList d) (itsHalfEdgeList d) (itsFaceList d)
    (HEPolyhedron_itsSpaceType d) (itsOutradius d)
    s (theHalfEdges d) (theFaces d) (itsNextAddress d) (itsFreeMemory d).

Definition set_theHalfEdges (s : gmap ptr HEHalfEdge) (d : HEPolyhedron) : HEPolyhedron :=
  mkHEPolyhedron (itsVertexList d) (itsHalfEdgeList d) (itsFaceList d)
    (HEPolyhedron_itsSpaceType d) (itsOutradius d)
    (theVertices d) s (theFaces d) (itsNextAddress d) (itsFreeMemory d).

Definition set_theFaces (s : gmap ptr HEFace) (d : HEPolyhedron) : HEPolyhedron :=
  mkHEPolyhedron (itsVertexList d) (itsHalfEdgeList d) (itsFaceList d)
    (HEPolyhedron_itsSpaceType d) (itsOutradius d)
    (theVertices d) (theHalfEdges d) s (itsNextAddress d) (itsFreeMemory d).

Definition set_HEPolyhedron_itsSpaceType (t : SpaceType) (d : HEPolyhedron) : HEPolyhedron :=
  mkHEPolyhedron (itsVertexList d) (itsHalfEdgeList d) (itsFaceList d) t (itsOutradius d)
    (theVertices d) (theHalfEdges d) (theFaces d) (itsNextAddress d) (itsFreeMemory d).

Definition set_itsOutradius (r : double) (d : HEPolyhedron) : HEPolyhedron :=
  mkHEPolyhedron (itsVertexList d) (itsHalfEdgeList d) (itsFaceList d)
    (HEPolyhedron_itsSpaceType d) r
    (theVertices d) (theHalfEdges d) (theFaces d) (itsNextAddress d) (itsFreeMemory d).

(** [GET_MEMORY]: a fresh address, or NULL when the memory is used up. *)
Definition GET_MEMORY (d : HEPolyhedron) : option ptr * HEPolyhedron :=
  match itsFreeMemory d with
  | O => (None, d)
  | S n =>
      (Some (itsNextAddress d),
       mkHEPolyhedron (itsVertexList d) (itsHalfEdgeList d) (itsFaceList d)
         (HEPolyhedron_itsSpaceType d) (itsOutradius d)
         (theVertices d) (theHalfEdges d) (theFaces d) (S (itsNextAddress d)) n)
  end.

(** [FREE_MEMORY]: the node's memory is available again. *)
Definition FREE_MEMORY (d : HEPolyhedron) : HEPolyhedron :=
  mkHEPolyhedron (itsVertexList d) (itsHalfEdgeList d) (itsFaceList d)
    (HEPolyhedron_itsSpaceType d) (itsOutradius d)
    (theVertices d) (theHalfEdges d) (theFaces d) (itsNextAddress d) (S (itsFreeMemory d)).

(** What a node holds before its fields are assigned. *)
Definition zeroVector : Vector := mkVector 0 0 0 0.
Definition zeroMatrix : Matrix :=
  mkMatrix zeroVector zeroVector zeroVector zeroVector ImagePositive.
Definition rawVertex : HEVertex :=
  mkHEVertex zeroVector zeroVector None VertexInsideHalfspace zeroVector.
Definition rawHalfEdge : HEHalfEdge :=
  mkHEHalfEdge None None None None 0 0 false zeroVector zeroVector.
Definition rawFace : HEFace :=
  mkHEFace None zeroVector zeroMatrix 0 (mkRGBA 0 0 0 0) 0 zeroVector zeroVector false.

(** Allocate a node and put it at the head of its list. *)
Definition NewVertex (d : HEPolyhedron) : option ptr * HEPolyhedron :=
  match GET_MEMORY d with
  | (Some p, d') =>
      (Some p, set_lists (p :: itsVertexList d') (itsHalfEdgeList d') (itsFaceList d')
                 (set_theVertices (<[p := rawVertex]> (theVertices d')) d'))
  | (None, d') => (None, d')
  end.

Definition NewHalfEdge (d : HEPolyhedron) : option ptr * HEPolyhedron :=
  match GET_MEMORY d with
  | (Some p, d') =>
      (Some p, set_lists (itsVertexList d') (p :: itsHalfEdgeList d') (itsFaceList d')
                 (set_theHalfEdges (<[p := rawHalfEdge]> (theHalfEdges d')) d'))
  | (None, d') => (None, d')
  end.

Definition NewFace (d : HEPolyhedron) : option ptr * HEPolyhedron :=
  match GET_MEMORY d with
  | (Some p, d') =>
      (Some p, set_lists (itsVertexList d') (itsHalfEdgeList d') (p :: itsFaceList d')
                 (set_theFaces (<[p := rawFace]> (theFaces d')) d'))
  | (None, d') => (None, d')
  end.

(** Field assignments of the three node types. *)
Definition with_itsRawPosition (x : Vector) (v : HEVertex) : HEVertex :=
  mkHEVertex x (itsNormalizedPosition v) (itsOutboundHalfEdge v) (itsHalfspaceStatus v)
    (itsCenterPoint v).
Definition with_itsNormalizedPosition (x : Vector) (v : HEVertex) : HEVertex :=
  mkHEVertex (itsRawPosition v) x (itsOutboundHalfEdge v) (itsHalfspaceStatus v)
    (itsCenterPoint v).
Definition with_itsOutboundHalfEdge (x : option ptr) (v : HEVertex) : HEVertex :=
  mkHEVertex (itsRawPosition v) (itsNormalizedPosition v) x (itsHalfspaceStatus v)
    (itsCenterPoint v).
Definition with_itsHalfspaceStatus (x : VertexVsHalfspace) (v : HEVertex) : HEVertex :=
  mkHEVertex (itsRawPosition v) (itsNormalizedPosition v) (itsOutboundHalfEdge v) x
    (itsCenterPoint v).
Definition with_itsCenterPoint (x : Vector) (v : HEVertex) : HEVertex :=
  mkHEVertex (itsRawPosition v) (itsNormalizedPosition v) (itsOutboundHalfEdge v)
    (itsHalfspaceStatus v) x.

Definition with_itsTip (x : option ptr) (e : HEHalfEdge) : HEHalfEdge :=
  mkHEHalfEdge x (itsMate e) (itsCycle e) (itsFace e) (itsBase e) (itsAltitude e)
    (HEHalfEdge_itsDeletionFlag e) (itsOuterPoint e) (itsInnerPoint e).
Definition with_itsMate (x : option ptr) (e : HEHalfEdge) : HEHalfEdge :=
  mkHEHalfEdge (itsTip e) x (itsCycle e) (itsFace e) (itsBase e) (itsAltitude e)
    (HEHalfEdge_itsDeletionFlag e) (itsOuterPoint e) (itsInnerPoint e).
Definition with_itsCycle (x : option ptr) (e : HEHalfEdge) : HEHalfEdge :=
  mkHEHalfEdge (itsTip e) (itsMate e) x (itsFace e) (itsBase e) (itsAltitude e)
    (HEHalfEdge_itsDeletionFlag e) (itsOuterPoint e) (itsInnerPoint e).
Definition with_itsFace (x : option ptr) (e : HEHalfEdge) : HEHalfEdge :=
  mkHEHalfEdge (itsTip e) (itsMate e) (itsCycle e) x (itsBase e) (itsAltitude e)
    (HEHalfEdge_itsDeletionFlag e) (itsOuterPoint e) (itsInnerPoint e).
Definition with_itsBase_itsAltitude (b a : double) (e : HEHalfEdge) : HEHalfEdge :=
  mkHEHalfEdge (itsTip e) (itsMate e) (itsCycle e) (itsFace e) b a
    (HEHalfEdge_itsDeletionFlag e) (itsOuterPoint e) (itsInnerPoint e).
Definition with_HEHalfEdge_itsDeletionFlag (x : bool) (e : HEHalfEdge) : HEHalfEdge :=
  mkHEHalfEdge (itsTip e) (itsMate e) (itsCycle e) (itsFace e) (itsBase e) (itsAltitude e)
    x (itsOuterPoint e) (itsInnerPoint e).
Definition with_itsOuterPoint (x : Vector) (e : HEHalfEdge) : HEHalfEdge :=
  mkHEHalfEdge (itsTip e) (itsMate e) (itsCycle e) (itsFace e) (itsBase e) (itsAltitude e)
    (HEHalfEdge_itsDeletionFlag e) x (itsInnerPoint e).
Definition with_itsInnerPoint (x : Vector) (e : HEHalfEdge) : HEHalfEdge :=
  mkHEHalfEdge (itsTip e) (itsMate e) (itsCycle e) (itsFace e) (itsBase e) (itsAltitude e)
    (HEHalfEdge_itsDeletionFlag e) (itsOuterPoint e) x.

Definition with_itsHalfEdge (x : option ptr) (f : HEFace) : HEFace :=
  mkHEFace x (itsHalfspace f) (HEFace_itsMatrix f) (itsColorIndex f) (itsColorRGBA f)
    (itsColorGreyscale f) (itsRawCenter f) (itsNormalizedCenter f) (HEFace_itsDeletionFlag f).
Definition with_itsHalfspace (x : Vector) (f : HEFace) : HEFace :=
  mkHEFace (itsHalfEdge f) x (HEFace_itsMatrix f) (itsColorIndex f) (itsColorRGBA f)
    (itsColorGreyscale f) (itsRawCenter f) (itsNormalizedCenter f) (HEFace_itsDeletionFlag f).
Definition with_HEFace_itsMatrix (x : Matrix) (f : HEFace) : HEFace :=
  mkHEFace (itsHalfEdge f) (itsHalfspace f) x (itsColorIndex f) (itsColorRGBA f)
    (itsColorGreyscale f) (itsRawCenter f) (itsNormalizedCenter f) (HEFace_itsDeletionFlag f).
Definition with_itsColorIndex (x : Z) (f : HEFace) : HEFace :=
  mkHEFace (itsHalfEdge f) (itsHalfspace f) (HEFace_itsMatrix f) x (itsColorRGBA f)
    (itsColorGreyscale f) (itsRawCenter f) (itsNormalizedCenter f) (HEFace_itsDeletionFlag f).
Definition with_colors (c : RGBAColor) (g : double) (f : HEFace) : HEFace :=
  mkHEFace (itsHalfEdge f) (itsHalfspace f) (HEFace_itsMatrix f) (itsColorIndex f) c
    g (itsRawCenter f) (itsNormalizedCenter f) (HEFace_itsDeletionFlag f).
Definition with_centers (rc nc : Vector) (f : HEFace) : HEFace :=
  mkHEFace (itsHalfEdge f) (itsHalfspace f) (HEFace_itsMatrix f) (itsColorIndex f)
    (itsColorRGBA f) (itsColorGreyscale f) rc nc (HEFace_itsDeletionFlag f).
Definition with_HEFace_itsDeletionFlag (x : bool) (f : HEFace) : HEFace :=
  mkHEFace (itsHalfEdge f) (itsHalfspace f) (HEFace_itsMatrix f) (itsColorIndex f)
    (itsColorRGBA f) (itsColorGreyscale f) (itsRawCenter f) (itsNormalizedCenter f) x.

(** [p->field = x]: [None] when [p] points to no node. *)
Definition onVertex (p : ptr) (f : HEVertex -> HEVertex) (d : HEPolyhedron)
    : option HEPolyhedron :=
  v ← theVertices d !! p; Some (set_theVertices (<[p := f v]> (theVertices d)) d).
Definition onHalfEdge (p : ptr) (f : HEHalfEdge -> HEHalfEdge) (d : HEPolyhedron)
    : option HEPolyhedron :=
  e ← theHalfEdges d !! p; Some (set_theHalfEdges (<[p := f e]> (theHalfEdges d)) d).
Definition onFace (p : ptr) (f : HEFace -> HEFace) (d : HEPolyhedron)
    : option HEPolyhedron :=
  x ← theFaces d !! p; Some (set_theFaces (<[p := f x]> (theFaces d)) d).

(** Dereferencing chains: [p->itsTip], [p->itsMate], ... *)
Definition tipOf (d : HEPolyhedron) (p : ptr) : option ptr :=
  e ← theHalfEdges d !! p; itsTip e.
Definition mateOf (d : HEPolyhedron) (p : ptr) : option ptr :=
  e ← theHalfEdges d !! p; itsMate e.
Definition cycleOf (d : HEPolyhedron) (p : ptr) : option ptr :=
  e ← theHalfEdges d !! p; itsCycle e.
Definition faceOf (d : HEPolyhedron) (p : ptr) : option ptr :=
  e ← theHalfEdges d !! p; itsFace e.
Definition flagOf (d : HEPolyhedron) (p : ptr) : option bool :=
  e ← theHalfEdges d !! p; Some (HEHalfEdge_itsDeletionFlag e).
Definition statusOf (d : HEPolyhedron) (p : ptr) : option VertexVsHalfspace :=
  v ← theVertices d !! p; Some (itsHalfspaceStatus v).
(** [p->itsTip->itsHalfspaceStatus] *)
Definition tipStatusOf (d : HEPolyhedron) (p : ptr) : option VertexVsHalfspace :=
  t ← tipOf d p; statusOf d t.

(** The empty polyhedron that [MakeBanana] and [MakeLens] start from:
    the three lists are NULL. *)
Definition emptyPolyhedron (memory : nat) : HEPolyhedron :=
  mkHEPolyhedron [] [] [] SpaceNone 0 ∅ ∅ ∅ 0 memory.

(** Conversions between [double] and [unsigned int].  The conversion of a
    double that does not fit is undefined behaviour ([None]). *)
Definition double_to_uint (x : double) : option Z :=
  match Prim2SF x with
  | S754_zero _ => Some 0
  | S754_finite s m e =>
      let t := if 0 <=? e then Z.pos m * 2 ^ e else Z.pos m / 2 ^ (- e) in
      if s then (if t =? 0 then Some 0 else None)
      else if t <? UINT_MODULUS then Some t else None
  | _ => None
  end.

Definition uint_to_double (n : Z) : double := PrimFloat.of_uint63 (Uint63.of_Z n).

(** Sequencing of steps that may hit undefined behaviour. *)
Fixpoint iterM {A B : Type} (f : B -> A -> option B) (l : list A) (b : B) : option B :=
  match l with
  | [] => Some b
  | a :: l' => b' ← f b a; iterM f l' b'
  end.

(** [n] allocations in a row; NULL as soon as one fails. *)
Fixpoint NewNodes (new : HEPolyhedron -> option ptr * HEPolyhedron) (n : nat)
    (d : HEPolyhedron) : option (list ptr) * HEPolyhedron :=
  match n with
  | O => (Some [], d)
  | S n' =>
      match new d with
      | (Some p, d') =>
          match NewNodes new n' d' with
          | (Some ps, d'') => (Some (p :: ps), d'')
          | (None, d'') => (None, d'')
          end
      | (None, d') => (None, d')
      end
  end.

Section Dirichlet.
Context `{LibM} `{Matrices} `{Colors}.

Definition PLANARITY_EPSILON : double := 1e-4%float.
Definition HYPERPLANARITY_EPSILON : double := 1e-4%float.
Definition ORDER_EPSILON : double := 1e-6%float.
Definition VERTEX_HALFSPACE_EPSILON : double := 1e-6%float.
Definition MATE_MATRIX_EPSILON : double := 1e-6%float.
Definition VERTEX_FIGURE_SIZE : double := 0.1%float.
Definition VERTEX_FIGURE_CUTOUT : double := 0.7%float.

Definition MakeHalfspaceInequality (aMatrix : Matrix) : Vector :=
  let m33 := v3 (m3 aMatrix) in
  let a := vset (m3 aMatrix) 3 (v3 (m3 aMatrix) - 1)%float in
  let a := if PrimFloat.eqb m33 1
           then vset a 3 (-0.5 * VectorDotProduct a a)%float else a in
  if gtb m33 1 then vset a 3 (- v3 a)%float else a.

(** [FreeDirichletDomain] leaves NULL behind. *)
Definition FreeDirichletDomain (aDirichletDomain : option DirichletDomain)
    : option DirichletDomain := None.

(** [theHalfEdges[i][j]] in an array laid out row by row. *)
Definition at2 (l : list ptr) (i j : nat) : option ptr := l !! (2 * i + j)%nat.
Definition notj (j : nat) : nat := if decide (j = 0%nat) then 1%nat else 0%nat.

Definition MakeBanana (memory : nat) (aMatrixA aMatrixB aMatrixC : Matrix)
    (aDirichletDomain : option DirichletDomain)
    : option (ErrorText * option DirichletDomain) :=
  let theOutOfMemoryMessage : ErrorText := Some "Out of memory in MakeBanana()."%string in
  match aDirichletDomain with
  | Some _ =>
      Some (Some "MakeBanana() received a non-NULL output location."%string,
            aDirichletDomain)
  | None =>
    let theMatrices := [aMatrixA; aMatrixB; aMatrixC] in
    let theHalfspaces := MakeHalfspaceInequality <$> theMatrices in
    match memory with
    | O => Some (theOutOfMemoryMessage, None)
    | S memory' =>
      let d := emptyPolyhedron memory' in
      match NewNodes NewVertex 2 d with
      | (None, _) => Some (theOutOfMemoryMessage, None)
      | (Some theVertices, d) =>
      match NewNodes NewHalfEdge 6 d with
      | (None, _) => Some (theOutOfMemoryMessage, None)
      | (Some theHalfEdges, d) =>
      match NewNodes NewFace 3 d with
      | (None, _) => Some (theOutOfMemoryMessage, None)
      | (Some theFaces, d) =>
        hA ← theHalfspaces !! 0%nat; hB ← theHalfspaces !! 1%nat;
        hC ← theHalfspaces !! 2%nat;
        vp0 ← theVertices !! 0%nat; vp1 ← theVertices !! 1%nat;
        let thePosition := VectorTernaryCrossProduct hA hB hC in
        d ← onVertex vp0 (with_itsRawPosition thePosition) d;
        d ← onVertex vp1 (with_itsRawPosition (VectorNegate thePosition)) d;
        d ← iterM (fun d i =>
               vp ← theVertices !! i;
               onVertex vp (with_itsOutboundHalfEdge (at2 theHalfEdges 0 i)) d)
             (seq 0 2) d;
        d ← iterM (fun d ij =>
               let '(i, j) := ij in
               e ← at2 theHalfEdges i j;
               d ← onHalfEdge e (with_itsTip (theVertices !! notj j)) d;
               d ← onHalfEdge e
                     (with_itsMate (at2 theHalfEdges ((i + 1 + j) mod 3) (notj j))) d;
               d ← onHalfEdge e (with_itsCycle (at2 theHalfEdges i (notj j))) d;
               onHalfEdge e (with_itsFace (theFaces !! i)) d)
             (i ← seq 0 3; j ← seq 0 2; [(i, j)]) d;
        d ← iterM (fun d i =>
               f ← theFaces !! i; M ← theMatrices !! i; h ← theHalfspaces !! i;
               d ← onFace f (with_itsHalfEdge (at2 theHalfEdges i 0)) d;
               d ← onFace f (with_HEFace_itsMatrix M) d;
               onFace f (with_itsHalfspace h) d)
             (seq 0 3) d;
        Some (None, Some d)
      end end end
    end
  end.

Definition MakeLens (memory : nat) (aMatrixA aMatrixB : Matrix)
    (aDirichletDomain : option DirichletDomain)
    : option (ErrorText * option DirichletDomain) :=
  let theOutOfMemoryMessage : ErrorText := Some "Out of memory in MakeLens()."%string in
  match aDirichletDomain with
  | Some _ =>
      Some (Some "MakeLens() received a non-NULL output location."%string,
            aDirichletDomain)
  | None =>
    let A := aMatrixA in
    (* the order n, or the error that ends the function *)
    theOrder ←
      (if PrimFloat.eqb (mget A 3 3) 1 then Some (inr 4)
       else if PrimFloat.ltb (mget A 3 3) 1 then
         if neqb (mget A 0 2) 0 || neqb (mget A 0 3) 0
            || neqb (mget A 1 2) 0 || neqb (mget A 1 3) 0
            || neqb (mget A 2 0) 0 || neqb (mget A 2 1) 0
            || neqb (mget A 3 0) 0 || neqb (mget A 3 1) 0
         then Some (inl "MakeLens() confused by potential lens space."%string)
         else
           let theApproximateN :=
             ((2 * PI) / PrimFloat.abs (atan2 (mget A 3 2) (mget A 3 3)))%float in
           n ← double_to_uint (floor (theApproximateN + 0.5)%float);
           if gtb (PrimFloat.abs (theApproximateN - uint_to_double n)%float) ORDER_EPSILON
           then Some (inl "MakeLens() couldn't deduce order of potential lens space."%string)
           else if n <? 3
           then Some (inl "MakeLens() expected a lens space of order at least 3."%string)
           else Some (inr n)
       else Some (inl "MakeLens() can't handle hyperbolic slab spaces."%string));
    match theOrder with
    | inl theErrorMessage => Some (Some theErrorMessage, None)
    | inr nZ =>
      let n := Z.to_nat nZ in
      match memory with
      | O => Some (theOutOfMemoryMessage, None)
      | S memory' =>
      let d := emptyPolyhedron memory' in
      (* the array theVertices *)
      match GET_MEMORY d with
      | (None, _) => Some (theOutOfMemoryMessage, None)
      | (Some _, d) =>
      match NewNodes NewVertex n d with
      | (None, _) => Some (theOutOfMemoryMessage, None)
      | (Some theVertices, d) =>
      (* the array theHalfEdges *)
      match GET_MEMORY d with
      | (None, _) => Some (theOutOfMemoryMessage, None)
      | (Some _, d) =>
      match NewNodes NewHalfEdge (2 * n) d with
      | (None, _) => Some (theOutOfMemoryMessage, None)
      | (Some theHalfEdges, d) =>
      match NewNodes NewFace 2 d with
      | (None, _) => Some (theOutOfMemoryMessage, None)
      | (Some theFaces, d) =>
        d ← iterM (fun d i =>
               vp ← theVertices !! i;
               let theAngle :=
                 (uint_to_double ((Z.of_nat i * 2) mod UINT_MODULUS) * PI
                    / uint_to_double nZ)%float in
               d ← onVertex vp
                     (with_itsRawPosition (mkVector (cos theAngle) (sin theAngle) 0 0)) d;
               onVertex vp (with_itsOutboundHalfEdge (at2 theHalfEdges i 0)) d)
             (seq 0 n) d;
        d ← iterM (fun d i =>
               e0 ← at2 theHalfEdges i 0; e1 ← at2 theHalfEdges i 1;
               d ← onHalfEdge e0 (with_itsTip (theVertices !! ((i + 1) mod n)%nat)) d;
               d ← onHalfEdge e1 (with_itsTip (theVertices !! i)) d;
               d ← onHalfEdge e0 (with_itsMate (Some e1)) d;
               d ← onHalfEdge e1 (with_itsMate (Some e0)) d;
               d ← onHalfEdge e0 (with_itsCycle (at2 theHalfEdges ((i + 1) mod n) 0)) d;
               d ← onHalfEdge e1
                     (with_itsCycle (at2 theHalfEdges ((i + n - 1) mod n) 1)) d;
               d ← onHalfEdge e0 (with_itsFace (theFaces !! 0%nat)) d;
               onHalfEdge e1 (with_itsFace (theFaces !! 1%nat)) d)
             (seq 0 n) d;
        f0 ← theFaces !! 0%nat; f1 ← theFaces !! 1%nat;
        d ← onFace f0 (with_itsHalfEdge (at2 theHalfEdges 0 0)) d;
        d ← onFace f1 (with_itsHalfEdge (at2 theHalfEdges 0 1)) d;
        d ← onFace f0 (with_itsHalfspace (MakeHalfspaceInequality aMatrixA)) d;
        d ← onFace f1 (with_itsHalfspace (MakeHalfspaceInequality aMatrixB)) d;
        d ← onFace f0 (with_HEFace_itsMatrix aMatrixA) d;
        d ← onFace f1 (with_HEFace_itsMatrix aMatrixB) d;
        (* the two arrays are released *)
        Some (None, Some (FREE_MEMORY (FREE_MEMORY d)))
      end end end end end
      end
    end
  end.


(** *** [IntersectWithHalfspace] *)

Definition theMemoryError : ErrorText :=
  Some "Memory request failed in IntersectWithHalfspace()."%string.

(** A loop over a linked list whose body may return an error message:
    the first message ends the function. *)
Fixpoint forEach (body : ptr -> HEPolyhedron -> option (ErrorText * HEPolyhedron))
    (l : list ptr) (d : HEPolyhedron) : option (ErrorText * HEPolyhedron) :=
  match l with
  | [] => Some (None, d)
  | p :: l' =>
      r ← body p d;
      match r with
      | (None, d') => forEach body l' d'
      | (Some e, d') => Some (Some e, d')
      end
  end.

(** The loops that follow [itsCycle] or [itsMate->itsCycle] pointers stop
    when they are back at their start.  Such a walk is the iteration of a
    function on the finitely many half edges, so when it has not come back
    after as many steps as there are half edges it never does: running out
    of [theFuel] is a loop that does not end. *)
Definition theFuel (d : HEPolyhedron) : nat := S (size (theHalfEdges d)).

Definition ClassifyVertex (theHalfspace : Vector) (v : HEVertex) : VertexVsHalfspace :=
  let theDotProduct := VectorDotProduct theHalfspace (itsRawPosition v) in
  if PrimFloat.ltb theDotProduct (- VERTEX_HALFSPACE_EPSILON)%float
  then VertexInsideHalfspace
  else if gtb theDotProduct VERTEX_HALFSPACE_EPSILON
  then VertexOutsideHalfspace
  else VertexOnBoundary.

(** Evaluate the halfspace equation on all vertices; the boolean is
    [theCutIsNontrivial]. *)
Definition ClassifyVertices (theHalfspace : Vector) (d : HEPolyhedron)
    : option (bool * HEPolyhedron) :=
  iterM (fun st p =>
           let '(theCutIsNontrivial, d) := st in
           v ← theVertices d !! p;
           let s := ClassifyVertex theHalfspace v in
           d' ← onVertex p (with_itsHalfspaceStatus s) d;
           Some (theCutIsNontrivial || bool_decide (s = VertexOutsideHalfspace), d'))
        (itsVertexList d) (false, d).

(** Wherever the slicing halfspace crosses an edge, a new vertex. *)
Definition SplitEdge (theHalfspace : Vector) (theHalfEdge1 : ptr) (d : HEPolyhedron)
    : option (ErrorText * HEPolyhedron) :=
  theHalfEdge2 ← mateOf d theHalfEdge1;
  theVertex1 ← tipOf d theHalfEdge1;
  theVertex2 ← tipOf d theHalfEdge2;
  s1 ← statusOf d theVertex1;
  cut ← (if decide (s1 = VertexInsideHalfspace)
         then s2 ← statusOf d theVertex2;
              Some (bool_decide (s2 = VertexOutsideHalfspace))
         else Some false);
  if cut : bool then
    match NewVertex d with
    | (None, d) => Some (theMemoryError, d)
    | (Some theNewVertex, d) =>
      f1 ← faceOf d theHalfEdge1; F1 ← theFaces d !! f1;
      f2 ← faceOf d theHalfEdge2; F2 ← theFaces d !! f2;
      d ← onVertex theNewVertex
            (with_itsRawPosition
               (VectorTernaryCrossProduct (itsHalfspace F1) (itsHalfspace F2) theHalfspace)) d;
      d ← onVertex theNewVertex (with_itsHalfspaceStatus VertexOnBoundary) d;
      match NewHalfEdge d with
      | (None, d) => Some (theMemoryError, d)
      | (Some theHalfEdge1a, d) =>
      match NewHalfEdge d with
      | (None, d) => Some (theMemoryError, d)
      | (Some theHalfEdge2a, d) =>
        let theHalfEdge1b := theHalfEdge1 in
        let theHalfEdge2b := theHalfEdge2 in
        (* the tips *)
        t ← theHalfEdges d !! theHalfEdge1b;
        d ← onHalfEdge theHalfEdge1a (with_itsTip (itsTip t)) d;
        t ← theHalfEdges d !! theHalfEdge2b;
        d ← onHalfEdge theHalfEdge2a (with_itsTip (itsTip t)) d;
        d ← onHalfEdge theHalfEdge1b (with_itsTip (Some theNewVertex)) d;
        d ← onHalfEdge theHalfEdge2b (with_itsTip (Some theNewVertex)) d;
        (* the mates *)
        d ← onHalfEdge theHalfEdge1a (with_itsMate (Some theHalfEdge2b)) d;
        d ← onHalfEdge theHalfEdge2a (with_itsMate (Some theHalfEdge1b)) d;
        d ← onHalfEdge theHalfEdge1b (with_itsMate (Some theHalfEdge2a)) d;
        d ← onHalfEdge theHalfEdge2b (with_itsMate (Some theHalfEdge1a)) d;
        (* the cycles *)
        t ← theHalfEdges d !! theHalfEdge1b;
        d ← onHalfEdge theHalfEdge1a (with_itsCycle (itsCycle t)) d;
        t ← theHalfEdges d !! theHalfEdge2b;
        d ← onHalfEdge theHalfEdge2a (with_itsCycle (itsCycle t)) d;
        d ← onHalfEdge theHalfEdge1b (with_itsCycle (Some theHalfEdge1a)) d;
        d ← onHalfEdge theHalfEdge2b (with_itsCycle (Some theHalfEdge2a)) d;
        (* the faces *)
        t ← theHalfEdges d !! theHalfEdge1b;
        d ← onHalfEdge theHalfEdge1a (with_itsFace (itsFace t)) d;
        t ← theHalfEdges d !! theHalfEdge2b;
        d ← onHalfEdge theHalfEdge2a (with_itsFace (itsFace t)) d;
        d ← onVertex theNewVertex (with_itsOutboundHalfEdge (Some theHalfEdge1a)) d;
        Some (None, d)
      end end
    end
  else Some (None, d).

(** The do-while loop that looks for the half edges where the cycle of a
    face leaves and re-enters the halfspace. *)
Fixpoint FindCrossings (fuel : nat) (d : HEPolyhedron) (start theHalfEdge : ptr)
    (theGoingOutEdge theGoingInEdge : option ptr) : option (option ptr * option ptr) :=
  match fuel with
  | O => None
  | S fuel' =>
      s ← tipStatusOf d theHalfEdge;
      found ← (if decide (s = VertexOnBoundary)
               then c ← cycleOf d theHalfEdge;
                    sc ← tipStatusOf d c;
                    Some (match sc with
                          | VertexInsideHalfspace => (theGoingOutEdge, Some theHalfEdge)
                          | VertexOnBoundary => (theGoingOutEdge, theGoingInEdge)
                          | VertexOutsideHalfspace => (Some theHalfEdge, theGoingInEdge)
                          end)
               else Some (theGoingOutEdge, theGoingInEdge));
      next ← cycleOf d theHalfEdge;
      if decide (next = start) then Some found
      else FindCrossings fuel' d start next (fst found) (snd found)
  end.

(** The do-while loop that hands a cycle of half edges to a face. *)
Fixpoint SetFaceAround (fuel : nat) (d : HEPolyhedron) (start theHalfEdge theFace : ptr)
    : option HEPolyhedron :=
  match fuel with
  | O => None
  | S fuel' =>
      d ← onHalfEdge theHalfEdge (with_itsFace (Some theFace)) d;
      next ← cycleOf d theHalfEdge;
      if decide (next = start) then Some d
      else SetFaceAround fuel' d start next theFace
  end.

(** Wherever the slicing halfspace crosses a face, a new edge. *)
Definition SplitFace (theFace : ptr) (d : HEPolyhedron)
    : option (ErrorText * HEPolyhedron) :=
  F ← theFaces d !! theFace;
  start ← itsHalfEdge F;
  crossings ← FindCrossings (theFuel d) d start start None None;
  match crossings with
  | (Some theGoingOutEdge, Some theGoingInEdge) =>
      match NewHalfEdge d with
      | (None, d) => Some (theMemoryError, d)
      | (Some theInnerHalfEdge, d) =>
      match NewHalfEdge d with
      | (None, d) => Some (theMemoryError, d)
      | (Some theOuterHalfEdge, d) =>
      match NewFace d with
      | (None, d) => Some (theMemoryError, d)
      | (Some theOuterFace, d) =>
        let theInnerFace := theFace in
        (* the tips *)
        t ← theHalfEdges d !! theGoingInEdge;
        d ← onHalfEdge theInnerHalfEdge (with_itsTip (itsTip t)) d;
        t ← theHalfEdges d !! theGoingOutEdge;
        d ← onHalfEdge theOuterHalfEdge (with_itsTip (itsTip t)) d;
        (* the mates *)
        d ← onHalfEdge theInnerHalfEdge (with_itsMate (Some theOuterHalfEdge)) d;
        d ← onHalfEdge theOuterHalfEdge (with_itsMate (Some theInnerHalfEdge)) d;
        (* the cycles *)
        t ← theHalfEdges d !! theGoingInEdge;
        d ← onHalfEdge theInnerHalfEdge (with_itsCycle (itsCycle t)) d;
        t ← theHalfEdges d !! theGoingOutEdge;
        d ← onHalfEdge theOuterHalfEdge (with_itsCycle (itsCycle t)) d;
        d ← onHalfEdge theGoingOutEdge (with_itsCycle (Some theInnerHalfEdge)) d;
        d ← onHalfEdge theGoingInEdge (with_itsCycle (Some theOuterHalfEdge)) d;
        (* the inner face, which is the original face *)
        d ← onHalfEdge theInnerHalfEdge (with_itsFace (Some theInnerFace)) d;
        d ← onFace theInnerFace (with_itsHalfEdge (Some theInnerHalfEdge)) d;
        (* the outer face *)
        d ← SetFaceAround (theFuel d) d theOuterHalfEdge theOuterHalfEdge theOuterFace;
        d ← onFace theOuterFace (with_itsHalfEdge (Some theOuterHalfEdge)) d;
        Some (None, d)
      end end end
  | _ => Some (None, d)
  end.

(** Mark for deletion the half edges and faces incident to an outside vertex. *)
Definition MarkHalfEdge (d : HEPolyhedron) (theHalfEdge : ptr) : option HEPolyhedron :=
  s ← tipStatusOf d theHalfEdge;
  doomed ← (if decide (s = VertexOutsideHalfspace) then Some true
            else m ← mateOf d theHalfEdge;
                 sm ← tipStatusOf d m;
                 Some (bool_decide (sm = VertexOutsideHalfspace)));
  if doomed : bool then
    d ← onHalfEdge theHalfEdge (with_HEHalfEdge_itsDeletionFlag true) d;
    f ← faceOf d theHalfEdge;
    onFace f (with_HEFace_itsDeletionFlag true) d
  else onHalfEdge theHalfEdge (with_HEHalfEdge_itsDeletionFlag false) d.

(** [while (theVertex->itsOutboundHalfEdge->itsDeletionFlag) ...] *)
Fixpoint AdvanceOutbound (fuel : nat) (d : HEPolyhedron) (theVertex : ptr)
    : option HEPolyhedron :=
  match fuel with
  | O => None
  | S fuel' =>
      V ← theVertices d !! theVertex;
      o ← itsOutboundHalfEdge V;
      doomed ← flagOf d o;
      if doomed : bool then
        m ← mateOf d o;
        E ← theHalfEdges d !! m;
        d ← onVertex theVertex (with_itsOutboundHalfEdge (itsCycle E)) d;
        AdvanceOutbound fuel' d theVertex
      else Some d
  end.

Definition KeepOutboundAlive (d : HEPolyhedron) (theVertex : ptr) : option HEPolyhedron :=
  s ← statusOf d theVertex;
  if decide (s ≠ VertexOutsideHalfspace) then AdvanceOutbound (theFuel d) d theVertex
  else Some d.

(** [while (theHalfEdge->itsCycle->itsDeletionFlag) ...] *)
Fixpoint AdvanceCycle (fuel : nat) (d : HEPolyhedron) (theHalfEdge : ptr)
    : option HEPolyhedron :=
  match fuel with
  | O => None
  | S fuel' =>
      c ← cycleOf d theHalfEdge;
      doomed ← flagOf d c;
      if doomed : bool then
        m ← mateOf d c;
        E ← theHalfEdges d !! m;
        d ← onHalfEdge theHalfEdge (with_itsCycle (itsCycle E)) d;
        AdvanceCycle fuel' d theHalfEdge
      else Some d
  end.

Definition InstallNewFace (theNewFace : ptr) (d : HEPolyhedron) (theHalfEdge : ptr)
    : option HEPolyhedron :=
  doomed ← flagOf d theHalfEdge;
  if doomed : bool then Some d
  else
    f ← faceOf d theHalfEdge;
    F ← theFaces d !! f;
    if HEFace_itsDeletionFlag F then
      d ← onHalfEdge theHalfEdge (with_itsFace (Some theNewFace)) d;
      d ← onFace theNewFace (with_itsHalfEdge (Some theHalfEdge)) d;
      AdvanceCycle (theFuel d) d theHalfEdge
    else Some d.

(** Delete excluded vertices, half edges and faces: each walk unlinks and
    frees the marked nodes of one list. *)
Fixpoint DeleteVertices (l : list ptr) (d : HEPolyhedron)
    : option (list ptr * HEPolyhedron) :=
  match l with
  | [] => Some ([], d)
  | p :: l' =>
      s ← statusOf d p;
      if decide (s = VertexOutsideHalfspace) then
        DeleteVertices l' (FREE_MEMORY (set_theVertices (delete p (theVertices d)) d))
      else
        r ← DeleteVertices l' d; Some (p :: fst r, snd r)
  end.

Fixpoint DeleteHalfEdges (l : list ptr) (d : HEPolyhedron)
    : option (list ptr * HEPolyhedron) :=
  match l with
  | [] => Some ([], d)
  | p :: l' =>
      doomed ← flagOf d p;
      if doomed : bool then
        DeleteHalfEdges l' (FREE_MEMORY (set_theHalfEdges (delete p (theHalfEdges d)) d))
      else
        r ← DeleteHalfEdges l' d; Some (p :: fst r, snd r)
  end.

Fixpoint DeleteFaces (l : list ptr) (d : HEPolyhedron)
    : option (list ptr * HEPolyhedron) :=
  match l with
  | [] => Some ([], d)
  | p :: l' =>
      F ← theFaces d !! p;
      if HEFace_itsDeletionFlag F then
        DeleteFaces l' (FREE_MEMORY (set_theFaces (delete p (theFaces d)) d))
      else
        r ← DeleteFaces l' d; Some (p :: fst r, snd r)
  end.

Definition IntersectWithHalfspace (aDirichletDomain : DirichletDomain) (aMatrix : Matrix)
    : option (ErrorText * DirichletDomain) :=
  let d := aDirichletDomain in
  (* Ignore the identity matrix. *)
  if MatrixIsIdentity aMatrix then Some (None, d)
  else
    let theHalfspace := MakeHalfspaceInequality aMatrix in
    classified ← ClassifyVertices theHalfspace d;
    let '(theCutIsNontrivial, d) := classified in
    if negb theCutIsNontrivial then Some (None, d)
    else
      r ← forEach (SplitEdge theHalfspace) (itsHalfEdgeList d) d;
      match r with
      | (Some e, d) => Some (Some e, d)
      | (None, d) =>
      r ← forEach SplitFace (itsFaceList d) d;
      match r with
      | (Some e, d) => Some (Some e, d)
      | (None, d) =>
      match NewFace d with
      | (None, d) => Some (theMemoryError, d)
      | (Some theNewFace, d) =>
        d ← iterM (fun d f => onFace f (with_HEFace_itsDeletionFlag false) d)
              (itsFaceList d) d;
        d ← iterM MarkHalfEdge (itsHalfEdgeList d) d;
        d ← iterM KeepOutboundAlive (itsVertexList d) d;
        d ← iterM (InstallNewFace theNewFace) (itsHalfEdgeList d) d;
        d ← onFace theNewFace (with_itsHalfspace theHalfspace) d;
        d ← onFace theNewFace (with_HEFace_itsMatrix aMatrix) d;
        r ← DeleteVertices (itsVertexList d) d;
        let d := set_lists (fst r) (itsHalfEdgeList (snd r)) (itsFaceList (snd r)) (snd r) in
        r ← DeleteHalfEdges (itsHalfEdgeList d) d;
        let d := set_lists (itsVertexList (snd r)) (fst r) (itsFaceList (snd r)) (snd r) in
        r ← DeleteFaces (itsFaceList d) d;
        let d := set_lists (itsVertexList (snd r)) (itsHalfEdgeList (snd r)) (fst r) (snd r) in
        Some (None, d)
      end end end.

(** *** Post-processing *)

(** [VectorNormalize(&x, aSpaceType, &y)]: the message and the new [y]. *)
Definition NormalizeInto (x : Vector) (aSpaceType : SpaceType) (y : Vector)
    : ErrorText * Vector :=
  let r := VectorNormalize x aSpaceType in (fst r, default y (snd r)).

Definition UNASSIGNED_COLOR_INDEX : Z := 0xFFFFFFFF.

(** The search for the mate of a face among the faces after it. *)
Fixpoint FindMate (d : HEPolyhedron) (theInverseMatrix : Matrix) (l : list ptr)
    : option (option ptr) :=
  match l with
  | [] => Some None
  | q :: l' =>
      Q ← theFaces d !! q;
      if MatrixEquality (HEFace_itsMatrix Q) theInverseMatrix MATE_MATRIX_EPSILON
      then Some (Some q)
      else FindMate d theInverseMatrix l'
  end.

Fixpoint AssignColorIndices (l : list ptr) (theCount : Z) (d : HEPolyhedron)
    : option (Z * HEPolyhedron) :=
  match l with
  | [] => Some (theCount, d)
  | p :: l' =>
      F ← theFaces d !! p;
      if itsColorIndex F =? UNASSIGNED_COLOR_INDEX then
        d ← onFace p (with_itsColorIndex theCount) d;
        theMate ← FindMate d (MatrixGeometricInverse (HEFace_itsMatrix F)) l';
        d ← match theMate with
            | Some q => onFace q (with_itsColorIndex theCount) d
            | None => Some d
            end;
        AssignColorIndices l' (uint_incr theCount) d
      else AssignColorIndices l' theCount d
  end.

Definition ColorFace (theCount : Z) (d : HEPolyhedron) (p : ptr) : option HEPolyhedron :=
  F ← theFaces d !! p;
  let theColorParameter :=
    (uint_to_double (itsColorIndex F) / uint_to_double theCount)%float in
  onFace p (with_colors (HSLAtoRGBA (mkHSLA theColorParameter 0.3 0.5 1))
                        ((theColorParameter + 4) / 5)%float) d.

Definition AssignFaceColors (d : HEPolyhedron) : option HEPolyhedron :=
  d ← iterM (fun d p => onFace p (with_itsColorIndex UNASSIGNED_COLOR_INDEX) d)
        (itsFaceList d) d;
  r ← AssignColorIndices (itsFaceList d) 0 d;
  iterM (ColorFace (fst r)) (itsFaceList (snd r)) (snd r).

Definition ComputeFaceCenter (d : HEPolyhedron) (p : ptr) : option HEPolyhedron :=
  F ← theFaces d !! p;
  let r := m3 (HEFace_itsMatrix F) in
  let c := mkVector (0.5 * v0 r) (0.5 * v1 r) (0.5 * v2 r) (0.5 * v3 r + 0.5)%float in
  let c := snd (NormalizeInto c SpaceSpherical c) in
  let n := snd (NormalizeInto c (HEPolyhedron_itsSpaceType d) (itsNormalizedCenter F)) in
  onFace p (with_centers c n) d.

Definition ComputeFaceCenters (d : HEPolyhedron) : option HEPolyhedron :=
  iterM ComputeFaceCenter (itsFaceList d) d.

(** The do-while loop around one face in [ComputeWallDimensions]. *)
Fixpoint WallDimensionsAround (fuel : nat) (d : HEPolyhedron) (start theHalfEdge : ptr)
    (theFaceCenter : Vector) (theMaxBase : double) : option (double * HEPolyhedron) :=
  match fuel with
  | O => None
  | S fuel' =>
      t ← tipOf d theHalfEdge; T ← theVertices d !! t;
      let theTail := itsNormalizedPosition T in
      next ← cycleOf d theHalfEdge;
      t ← tipOf d next; T ← theVertices d !! t;
      let theTip := itsNormalizedPosition T in
      let theSide0 := VectorGeometricDistance2 theTail theTip in
      let theSide1 := VectorGeometricDistance2 theTail theFaceCenter in
      let theSide2 := VectorGeometricDistance2 theTip theFaceCenter in
      let s := (0.5 * (theSide0 + theSide1 + theSide2))%float in
      let theArea :=
        PrimFloat.sqrt (s * (s - theSide0) * (s - theSide1) * (s - theSide2))%float in
      d ← onHalfEdge next (with_itsBase_itsAltitude theSide0 (2 * theArea / theSide0)%float) d;
      let theMaxBase := if PrimFloat.ltb theMaxBase theSide0 then theSide0 else theMaxBase in
      if decide (next = start) then Some (theMaxBase, d)
      else WallDimensionsAround fuel' d start next theFaceCenter theMaxBase
  end.

Definition ComputeWallDimensions (d : HEPolyhedron) : option HEPolyhedron :=
  r ← iterM (fun st p =>
               let '(theMaxBase, d) := st in
               F ← theFaces d !! p;
               start ← itsHalfEdge F;
               WallDimensionsAround (theFuel d) d start start (itsNormalizedCenter F)
                 theMaxBase)
            (itsFaceList d) (0%float, d);
  let '(theMaxBase, d) := r in
  if gtb theMaxBase 0 then
    iterM (fun d p =>
             E ← theHalfEdges d !! p;
             onHalfEdge p (with_itsBase_itsAltitude (itsBase E / theMaxBase)%float
                                                    (itsAltitude E / theMaxBase)%float) d)
          (itsHalfEdgeList d) d
  else Some d.

(** The three loops of [ComputeVertexFigures]. *)
Definition ComputeOuterPoint (theHalfEdge : ptr) (d : HEPolyhedron)
    : option (ErrorText * HEPolyhedron) :=
  m ← mateOf d theHalfEdge; mt ← tipOf d m; MT ← theVertices d !! mt;
  let theTail := itsRawPosition MT in
  t ← tipOf d theHalfEdge; T ← theVertices d !! t;
  let theTip := itsRawPosition T in
  let theDotProduct := VectorDotProduct theTail theTip in
  let theComponent := ScalarTimesVector theDotProduct theTail in
  let theNormal := VectorDifference theTip theComponent in
  let r := NormalizeInto theNormal SpaceSpherical theNormal in
  match fst r with
  | Some e => Some (Some e, d)
  | None =>
      let theNormal := snd r in
      let theComponentParallel := ScalarTimesVector (cos VERTEX_FIGURE_SIZE) theTail in
      let theComponentPendicular := ScalarTimesVector (sin VERTEX_FIGURE_SIZE) theNormal in
      let theSum := VectorSum theComponentParallel theComponentPendicular in
      d ← onHalfEdge theHalfEdge (with_itsOuterPoint theSum) d;
      let r := NormalizeInto theSum (HEPolyhedron_itsSpaceType d) theSum in
      d ← onHalfEdge theHalfEdge (with_itsOuterPoint (snd r)) d;
      Some (fst r, d)
  end.

Fixpoint SumOuterPoints (fuel : nat) (d : HEPolyhedron) (start theHalfEdge : ptr)
    (theSum : Vector) : option Vector :=
  match fuel with
  | O => None
  | S fuel' =>
      E ← theHalfEdges d !! theHalfEdge;
      let theSum := VectorSum theSum (itsOuterPoint E) in
      m ← itsMate E;
      next ← cycleOf d m;
      if decide (next = start) then Some theSum
      else SumOuterPoints fuel' d start next theSum
  end.

Definition ComputeCenterPoint (theVertex : ptr) (d : HEPolyhedron)
    : option (ErrorText * HEPolyhedron) :=
  V ← theVertices d !! theVertex;
  start ← itsOutboundHalfEdge V;
  theSum ← SumOuterPoints (theFuel d) d start start zeroVector;
  let r := NormalizeInto theSum (HEPolyhedron_itsSpaceType d) theSum in
  d ← onVertex theVertex (with_itsCenterPoint (snd r)) d;
  Some (fst r, d).

Definition ComputeInnerPoint (theHalfEdge : ptr) (d : HEPolyhedron)
    : option (ErrorText * HEPolyhedron) :=
  E ← theHalfEdges d !! theHalfEdge;
  let theScaledPointA := ScalarTimesVector VERTEX_FIGURE_CUTOUT (itsOuterPoint E) in
  m ← itsMate E; mt ← tipOf d m; MT ← theVertices d !! mt;
  let theScaledPointB :=
    ScalarTimesVector (1 - VERTEX_FIGURE_CUTOUT)%float (itsCenterPoint MT) in
  let theSum := VectorSum theScaledPointA theScaledPointB in
  let r := NormalizeInto theSum (HEPolyhedron_itsSpaceType d) theSum in
  d ← onHalfEdge theHalfEdge (with_itsInnerPoint (snd r)) d;
  Some (fst r, d).

Definition ComputeVertexFigures (d : HEPolyhedron) : option (ErrorText * HEPolyhedron) :=
  r ← forEach ComputeOuterPoint (itsHalfEdgeList d) d;
  match r with
  | (Some e, d) => Some (Some e, d)
  | (None, d) =>
  r ← forEach ComputeCenterPoint (itsVertexList d) d;
  match r with
  | (Some e, d) => Some (Some e, d)
  | (None, d) => forEach ComputeInnerPoint (itsHalfEdgeList d) d
  end end.

Definition ComputeOutradius (d : HEPolyhedron) : option HEPolyhedron :=
  r ← iterM (fun theOutradius p =>
               V ← theVertices d !! p;
               let theDistance := VectorGeometricDistance (itsNormalizedPosition V) in
               Some (if PrimFloat.ltb theOutradius theDistance
                     then theDistance else theOutradius))
            (itsVertexList d) 0%float;
  Some (set_itsOutradius r d).

Definition DirichletDomainOutradius (aDirichletDomain : option DirichletDomain) : double :=
  match aDirichletDomain with
  | Some d => itsOutradius d
  | None => PI
  end.

(** *** [ConstructDirichletDomain] *)

(** [for (k = from; k < itsNumMatrices; k++) if (test(matrix k)) break;]
    the index at which the loop stops. *)
Fixpoint FirstIndexFrom (test : Matrix -> option bool) (l : list Matrix) (k : nat)
    : option nat :=
  match l with
  | [] => Some k
  | M :: l' =>
      b ← test M;
      if b : bool then Some k else FirstIndexFrom test l' (S k)
  end.

(** The part of [ConstructDirichletDomain] after the first polyhedron
    (banana cut once, or lens) is in place. *)
Definition FinishDirichletDomain (aHolonomyGroup : MatrixList) (d : HEPolyhedron)
    : option (ErrorText * option DirichletDomain) :=
  r ← forEach (fun i d =>
                 M ← aHolonomyGroup !! i;
                 IntersectWithHalfspace d M)
         (seq 0 (length aHolonomyGroup)) d;
  match r with
  | (Some e, d) => Some (Some e, FreeDirichletDomain (Some d))
  | (None, d) =>
    M1 ← aHolonomyGroup !! 1%nat;
    let d :=
      set_HEPolyhedron_itsSpaceType
        (if PrimFloat.ltb (mget M1 3 3) 1 then SpaceSpherical
         else if PrimFloat.eqb (mget M1 3 3) 1 then SpaceFlat
         else SpaceHyperbolic) d in
    r ← forEach (fun p d =>
                   V ← theVertices d !! p;
                   let r := NormalizeInto (itsRawPosition V) (HEPolyhedron_itsSpaceType d)
                              (itsNormalizedPosition V) in
                   d ← onVertex p (with_itsNormalizedPosition (snd r)) d;
                   Some (fst r, d))
           (itsVertexList d) d;
    match r with
    | (Some e, d) => Some (Some e, FreeDirichletDomain (Some d))
    | (None, d) =>
    r ← forEach (fun p d =>
                   V ← theVertices d !! p;
                   let r := NormalizeInto (itsRawPosition V) SpaceSpherical
                              (itsRawPosition V) in
                   d ← onVertex p (with_itsRawPosition (snd r)) d;
                   Some (fst r, d))
           (itsVertexList d) d;
    match r with
    | (Some e, d) => Some (Some e, FreeDirichletDomain (Some d))
    | (None, d) =>
      d ← AssignFaceColors d;
      d ← ComputeFaceCenters d;
      d ← ComputeWallDimensions d;
      r ← ComputeVertexFigures d;
      match r with
      | (Some e, d) => Some (Some e, FreeDirichletDomain (Some d))
      | (None, d) =>
          d ← ComputeOutradius d;
          Some (None, Some d)
      end
    end end
  end.

Definition ConstructDirichletDomain (memory : nat) (aHolonomyGroup : option MatrixList)
    (aDirichletDomain : option DirichletDomain)
    : option (ErrorText * option DirichletDomain) :=
  match aHolonomyGroup with
  | None =>
      Some (Some "ConstructDirichletDomain() received a NULL holonomy group."%string,
            aDirichletDomain)
  | Some G =>
    match aDirichletDomain with
    | Some _ =>
      Some (Some "ConstructDirichletDomain() received a non-NULL output location."%string,
            aDirichletDomain)
    | None =>
      if itsNumMatrices G <? 3 then
        if 0 <? itsNumMatrices G
        then Some (None, None)
        else Some (Some "ConstructDirichletDomain() received no matrices."%string, None)
      else
        M0 ← G !! 0%nat;
        if negb (MatrixIsIdentity M0) then
          Some (Some "ConstructDirichletDomain() expects the first matrix to be the identity."%string,
                None)
        else
          M1 ← G !! 1%nat; M2 ← G !! 2%nat;
          let theHalfspaceA := MakeHalfspaceInequality M1 in
          let theHalfspaceB := MakeHalfspaceInequality M2 in
          theThirdIndex ←
            FirstIndexFrom
              (fun M =>
                 let theHalfspaceC := MakeHalfspaceInequality M in
                 let theCrossProduct :=
                   VectorTernaryCrossProduct theHalfspaceA theHalfspaceB theHalfspaceC in
                 Some (gtb (PrimFloat.abs (VectorDotProduct theCrossProduct theCrossProduct))
                           PLANARITY_EPSILON))
              (drop 3 G) 3;
          if decide (theThirdIndex < length G)%nat then
            M3 ← G !! theThirdIndex;
            r ← MakeBanana memory M1 M2 M3 None;
            match r with
            | (Some e, out) => Some (Some e, FreeDirichletDomain out)
            | (None, None) => None
            | (None, Some d) =>
              theFourthIndex ←
                FirstIndexFrom
                  (fun M =>
                     let theHalfspaceD := MakeHalfspaceInequality M in
                     p ← head (itsVertexList d);
                     V ← theVertices d !! p;
                     Some (gtb (PrimFloat.abs
                                  (VectorDotProduct theHalfspaceD (itsRawPosition V)))
                               HYPERPLANARITY_EPSILON))
                  (drop (S theThirdIndex) G) (S theThirdIndex);
              if decide (theFourthIndex < length G)%nat then
                M4 ← G !! theFourthIndex;
                r ← IntersectWithHalfspace d M4;
                match r with
                | (Some e, d) => Some (Some e, FreeDirichletDomain (Some d))
                | (None, d) => FinishDirichletDomain G d
                end
              else
                Some (Some "Chimney-like spaces not supported."%string,
                      FreeDirichletDomain (Some d))
            end
          else
            r ← MakeLens memory M1 M2 None;
            match r with
            | (Some e, out) => Some (Some e, FreeDirichletDomain out)
            | (None, None) => None
            | (None, Some d) => FinishDirichletDomain G d
            end
    end
  end.

End Dirichlet.

(** ** CurvedSpacesProjection.c *)

Definition CharacteristicViewSize (aFrameWidth aFrameHeight : double) : double :=
  (0.5 * (if PrimFloat.leb aFrameHeight aFrameWidth then aFrameWidth else aFrameHeight))%float.

(** ** The C library's [qsort]

    [qsort compare base] is the array after the call.  The C standard asks
    of the comparison function that it returns a negative, zero or positive
    integer and orders the elements consistently; of [qsort] it says that
    the array is then in ascending order, elements that compare equal in
    any order. *)
Class LibC := {
  qsort : forall {A : Type}, (A -> A -> Z) -> list A -> list A
}.

Section Honeycombs.
Context `{LibM} `{Matrices} `{LibC}.

Definition set_cell_distance (x : double) (c : Honeycell) : Honeycell :=
  mkHoneycell (Honeycell_itsMatrix c) (itsCellCenterInWorldSpace c) x.

(** [GEOMETRY_GAMES_ASSERT]: the program stops ([None]) when the
    condition fails. *)
Definition GEOMETRY_GAMES_ASSERT (condition : bool) : option unit :=
  if condition then Some tt else None.

(** The four rows of [someCullingPlanes]. *)
Definition MakeCullingHyperplanes (anImageWidth anImageHeight : double)
    : option (list Vector) :=
  let w := (0.5 * anImageWidth)%float in
  let h := (0.5 * anImageHeight)%float in
  let c := CharacteristicViewSize anImageWidth anImageHeight in
  _ ← GEOMETRY_GAMES_ASSERT (gtb w 0 && gtb h 0);
  _ ← GEOMETRY_GAMES_ASSERT (gtb c 0);
  let theInverseLengthWC := (1 / PrimFloat.sqrt (w * w + c * c))%float in
  let theInverseLengthHC := (1 / PrimFloat.sqrt (h * h + c * c))%float in
  Some [ mkVector (- c * theInverseLengthWC) 0 (w * theInverseLengthWC) 0;
         mkVector (c * theInverseLengthWC) 0 (w * theInverseLengthWC) 0;
         mkVector 0 (- c * theInverseLengthHC) (h * theInverseLengthHC) 0;
         mkVector 0 (c * theInverseLengthHC) (h * theInverseLengthHC) 0 ]%float.

Fixpoint BoundingSphereIntersectsViewFrustum (aCellCenterInCameraSpace : Vector)
    (anAdjustedDirichletDomainRadius : double) (someCullingPlanes : list Vector) : bool :=
  match someCullingPlanes with
  | [] => true
  | p :: rest =>
      let theAdjustedDistance :=
        (v0 aCellCenterInCameraSpace * v0 p + v1 aCellCenterInCameraSpace * v1 p
           + v2 aCellCenterInCameraSpace * v2 p)%float in
      if PrimFloat.ltb theAdjustedDistance (- anAdjustedDirichletDomainRadius)%float
      then false
      else BoundingSphereIntersectsViewFrustum aCellCenterInCameraSpace
             anAdjustedDirichletDomainRadius rest
  end.

(** The comparison function handed to [qsort], on the two cells that its
    arguments point to. *)
Definition CompareCellCenterDistances (c1 c2 : Honeycell) : Z :=
  let theDifference :=
    (itsDistanceCameraToCellCenter c1 - itsDistanceCameraToCellCenter c2)%float in
  if PrimFloat.ltb theDifference 0 then -1
  else if gtb theDifference 0 then 1
  else 0.

(** What the culling loop has built so far. *)
Record CullState := mkCullState {
  cs_cells : list Honeycell;
  cs_numVisible : Z;
  cs_numPlain : Z;
  cs_numReflected : Z;
  cs_visible : list (option nat)
}.

(** The body of the loop over the cells, for cell [i]. *)
Definition CullCell (aViewMatrix : Matrix) (aSpaceType : SpaceType)
    (theTilingRadius theAdjustedDirichletDomainRadius : double)
    (theCullingHyperplanes : list Vector) (st : CullState) (i : nat) : option CullState :=
  theHoneycell ← cs_cells st !! i;
  let theCellCenterInCameraSpace :=
    VectorTimesMatrix (itsCellCenterInWorldSpace theHoneycell) aViewMatrix in
  let theDistance := VectorGeometricDistance theCellCenterInCameraSpace in
  let cells := <[i := set_cell_distance theDistance theHoneycell]> (cs_cells st) in
  if bool_decide (aSpaceType = SpaceSpherical)
     || (gtb (v2 theCellCenterInCameraSpace) (- theAdjustedDirichletDomainRadius)%float
         && PrimFloat.ltb theDistance theTilingRadius
         && BoundingSphereIntersectsViewFrustum theCellCenterInCameraSpace
              theAdjustedDirichletDomainRadius theCullingHyperplanes)
  then
    (* a write past the end of itsVisibleCells is undefined behaviour *)
    _ ← cs_visible st !! Z.to_nat (cs_numVisible st);
    let visible := <[Z.to_nat (cs_numVisible st) := Some i]> (cs_visible st) in
    if decide (itsParity (Honeycell_itsMatrix theHoneycell) = itsParity aViewMatrix)
    then Some (mkCullState cells (uint_incr (cs_numVisible st))
                 (uint_incr (cs_numPlain st)) (cs_numReflected st) visible)
    else Some (mkCullState cells (uint_incr (cs_numVisible st))
                 (cs_numPlain st) (uint_incr (cs_numReflected st)) visible)
  else Some (mkCullState cells (cs_numVisible st) (cs_numPlain st)
               (cs_numReflected st) (cs_visible st)).

(** [qsort] on the first [itsNumVisibleCells] pointers: the comparison
    function reads the cells they point to. *)
Definition SortVisibleCells (cells : list Honeycell) (n : nat)
    (visible : list (option nat)) : option (list (option nat)) :=
  pointed ← mapM (fun p : option nat => i ← p; c ← cells !! i; Some (i, c))
             (take n visible);
  let sorted :=
    qsort (fun a b : nat * Honeycell => CompareCellCenterDistances (snd a) (snd b))
      pointed in
  Some ((Some ∘ fst <$> sorted) ++ drop n visible).

(** [CullAndSortVisibleCells] on a honeycomb that is not NULL. *)
Definition CullAndSortVisibleCells (aHoneycomb : Honeycomb) (aViewMatrix : Matrix)
    (anImageWidth anImageHeight aHorizonRadius aDirichletDomainRadius : double)
    (aSpaceType : SpaceType) : option Honeycomb :=
  let theTilingRadius := (aHorizonRadius + aDirichletDomainRadius)%float in
  theAdjustedDirichletDomainRadius ←
    match aSpaceType with
    | SpaceNone => None (* GEOMETRY_GAMES_ABORT *)
    | SpaceSpherical => Some (sin aDirichletDomainRadius)
    | SpaceFlat => Some aDirichletDomainRadius
    | SpaceHyperbolic => Some (sinh aDirichletDomainRadius)
    end;
  theCullingHyperplanes ← MakeCullingHyperplanes anImageWidth anImageHeight;
  st ← iterM (CullCell aViewMatrix aSpaceType theTilingRadius
                theAdjustedDirichletDomainRadius theCullingHyperplanes)
         (seq 0 (length (itsCells aHoneycomb)))
         (mkCullState (itsCells aHoneycomb) 0 0 0 (itsVisibleCells aHoneycomb));
  visible ← SortVisibleCells (cs_cells st) (Z.to_nat (cs_numVisible st)) (cs_visible st);
  Some (mkHoneycomb (cs_cells st) (cs_numVisible st) (cs_numPlain st)
          (cs_numReflected st) visible).

End Honeycombs.

(** ** A reference implementation of the collaborators

    The design document describes the linear-algebra kernel; these
    definitions follow that description and serve to run the embedded code
    on examples.  The transcendental functions are evaluated by their
    power series. *)
Module Reference.

#[local] Open Scope float_scope.

(** *** [<math.h>] *)

(** Sum of the first [n] terms of a power series in [x2], each term obtained
    from the previous one: [term * x2 / ((k+1)(k+2))], with alternating or
    constant sign. *)
Fixpoint series (n : nat) (alternate : bool) (x2 term k acc : float) : float :=
  match n with
  | O => acc
  | S n' =>
      let term' := term * x2 / ((k + 1) * (k + 2)) in
      let term' := if alternate then - term' else term' in
      series n' alternate x2 term' (k + 2) (acc + term')
  end.

Definition TWO_PI : float := 2 * PI.

(** Exact floor of a double. *)
Definition floor_model (x : float) : float :=
  match Prim2SF x with
  | S754_finite s m e =>
      if (0 <=? e)%Z then x
      else
        let q := (Z.pos m / 2 ^ (- e))%Z in
        let exact := (Z.pos m mod 2 ^ (- e) =? 0)%Z in
        if s then - uint_to_double (if exact then q else q + 1)%Z
        else uint_to_double q
  | _ => x
  end.

(** Reduction of an angle to [-PI, PI]. *)
Definition reduce (x : float) : float :=
  x - TWO_PI * floor_model (x / TWO_PI + 0.5).

Definition cos_model (x : float) : float :=
  let r := reduce x in series 16 true (r * r) 1 0 1.
Definition sin_model (x : float) : float :=
  let r := reduce x in series 16 true (r * r) r 1 r.
Definition cosh_model (x : float) : float := series 40 false (x * x) 1 0 1.
Definition sinh_model (x : float) : float := series 40 false (x * x) x 1 x.

(** arctangent on [-1, 1] after two halvings of the angle. *)
Fixpoint atan_series (n : nat) (x2 power k acc : float) : float :=
  match n with
  | O => acc
  | S n' =>
      let power' := - (power * x2) in
      atan_series n' x2 power' (k + 2) (acc + power' / (k + 2))
  end.

Definition atan_model (x : float) : float :=
  let half t := t / (1 + PrimFloat.sqrt (1 + t * t)) in
  let t := half (half x) in
  4 * atan_series 30 (t * t) t 1 t.

Definition atan2_model (y x : float) : float :=
  if 0 <? x then atan_model (y / x)
  else if x <? 0 then
    (if y <? 0 then atan_model (y / x) - PI else atan_model (y / x) + PI)
  else if 0 <? y then PI / 2
  else if y <? 0 then - (PI / 2)
  else 0.

#[export] Instance libm : LibM := {|
  cos := cos_model; sin := sin_model; cosh := cosh_model; sinh := sinh_model;
  atan2 := atan2_model; floor := floor_model
|}.

(** *** The linear-algebra kernel *)

(** Modelled from the spec: the identity matrix (the kernel's "identity"). *)
Definition MatrixIdentity_model : Matrix :=
  mkMatrix (mkVector 1 0 0 0) (mkVector 0 1 0 0) (mkVector 0 0 1 0) (mkVector 0 0 0 1)
    ImagePositive.

Definition vector_eqb (a b : Vector) : bool :=
  (v0 a =? v0 b) && (v1 a =? v1 b) && (v2 a =? v2 b) && (v3 a =? v3 b).

(** Modelled from the spec: a matrix is the identity when its sixteen
    entries are those of the identity. *)
Definition MatrixIsIdentity_model (M : Matrix) : bool :=
  vector_eqb (m0 M) (m0 MatrixIdentity_model) && vector_eqb (m1 M) (m1 MatrixIdentity_model)
  && vector_eqb (m2 M) (m2 MatrixIdentity_model) && vector_eqb (m3 M) (m3 MatrixIdentity_model).

Definition VectorDotProduct_model (a b : Vector) : float :=
  v0 a * v0 b + v1 a * v1 b + v2 a * v2 b + v3 a * v3 b.
Definition VectorNegate_model (a : Vector) : Vector :=
  mkVector (- v0 a) (- v1 a) (- v2 a) (- v3 a).
Definition VectorSum_model (a b : Vector) : Vector :=
  mkVector (v0 a + v0 b) (v1 a + v1 b) (v2 a + v2 b) (v3 a + v3 b).
Definition VectorDifference_model (a b : Vector) : Vector :=
  mkVector (v0 a - v0 b) (v1 a - v1 b) (v2 a - v2 b) (v3 a - v3 b).
Definition ScalarTimesVector_model (s : float) (a : Vector) : Vector :=
  mkVector (s * v0 a) (s * v1 a) (s * v2 a) (s * v3 a).

(** Modelled from the spec: the product of a row vector and a matrix; the
    image of the basepoint (0,0,0,1) is the last row of the matrix. *)
Definition VectorTimesMatrix_model (a : Vector) (M : Matrix) : Vector :=
  let col j := mkVector (mget M 0 j) (mget M 1 j) (mget M 2 j) (mget M 3 j) in
  mkVector (VectorDotProduct_model a (col 0%nat)) (VectorDotProduct_model a (col 1%nat))
           (VectorDotProduct_model a (col 2%nat)) (VectorDotProduct_model a (col 3%nat)).

Definition parity_product (p q : ImageParity) : ImageParity :=
  if decide (p = q) then ImagePositive else ImageNegative.

(** Modelled from the spec: the matrix product; determinant signs multiply. *)
Definition MatrixProduct_model (A B : Matrix) : Matrix :=
  mkMatrix (VectorTimesMatrix_model (m0 A) B) (VectorTimesMatrix_model (m1 A) B)
           (VectorTimesMatrix_model (m2 A) B) (VectorTimesMatrix_model (m3 A) B)
           (parity_product (itsParity A) (itsParity B)).

Definition det3 (a b c d e f g h i : float) : float :=
  a * (e * i - f * h) - b * (d * i - f * g) + c * (d * h - e * g).

(** Modelled from the spec: the ternary cross product, the vector orthogonal
    to three given vectors, by cofactors along a first row of basis vectors.
    The sign is the one that the comment in [MakeBanana] records: the
    product of (1,0,0,-e), (0,1,0,-e), (0,0,1,-e) has last component -1. *)
Definition VectorTernaryCrossProduct_model (a b c : Vector) : Vector :=
  mkVector
    (det3 (v1 a) (v2 a) (v3 a) (v1 b) (v2 b) (v3 b) (v1 c) (v2 c) (v3 c))
    (- det3 (v0 a) (v2 a) (v3 a) (v0 b) (v2 b) (v3 b) (v0 c) (v2 c) (v3 c))
    (det3 (v0 a) (v1 a) (v3 a) (v0 b) (v1 b) (v3 b) (v0 c) (v1 c) (v3 c))
    (- det3 (v0 a) (v1 a) (v2 a) (v0 b) (v1 b) (v2 b) (v0 c) (v1 c) (v2 c)).

(** Modelled from the spec: the "length" of a vector under the metric of the
    geometry; normalization divides by it and reports an error when its
    square is not positive. *)
Definition MetricLengthSquared (a : Vector) (aSpaceType : SpaceType) : float :=
  match aSpaceType with
  | SpaceSpherical => VectorDotProduct_model a a
  | SpaceFlat => v3 a * v3 a
  | SpaceHyperbolic => v3 a * v3 a - (v0 a * v0 a + v1 a * v1 a + v2 a * v2 a)
  | SpaceNone => 0
  end.

Definition VectorNormalize_model (a : Vector) (aSpaceType : SpaceType)
    : ErrorText * option Vector :=
  let l2 := MetricLengthSquared a aSpaceType in
  if 0 <? l2
  then (None, Some (ScalarTimesVector_model (1 / PrimFloat.sqrt l2) a))
  else (Some "VectorNormalize() received a vector of nonpositive length."%string, None).

(** Modelled from the spec: the geometric inverse of an isometry whose
    geometry is read off its (3,3) entry as in [MakeHalfspaceInequality]:
    the transpose in the spherical case, the transpose with the signs of
    the mixed space-time entries reversed in the hyperbolic case, and in
    the flat case the transposed rotation with the translation carried
    back through it. *)
Definition MatrixGeometricInverse_model (M : Matrix) : Matrix :=
  let t i j := mget M j i in
  let m33 := mget M 3 3 in
  if m33 <? 1 then
    mkMatrix (mkVector (t 0 0) (t 0 1) (t 0 2) (t 0 3))%nat
             (mkVector (t 1 0) (t 1 1) (t 1 2) (t 1 3))%nat
             (mkVector (t 2 0) (t 2 1) (t 2 2) (t 2 3))%nat
             (mkVector (t 3 0) (t 3 1) (t 3 2) (t 3 3))%nat (itsParity M)
  else if 1 <? m33 then
    mkMatrix (mkVector (t 0 0) (t 0 1) (t 0 2) (- t 0 3))%nat
             (mkVector (t 1 0) (t 1 1) (t 1 2) (- t 1 3))%nat
             (mkVector (t 2 0) (t 2 1) (t 2 2) (- t 2 3))%nat
             (mkVector (- t 3 0) (- t 3 1) (- t 3 2) (t 3 3))%nat (itsParity M)
  else
    let row i := mkVector (t i 0%nat) (t i 1%nat) (t i 2%nat) 0 in
    let back j :=
      - (mget M 3 0 * mget M j 0 + mget M 3 1 * mget M j 1 + mget M 3 2 * mget M j 2) in
    mkMatrix (row 0%nat) (row 1%nat) (row 2%nat)
             (mkVector (back 0%nat) (back 1%nat) (back 2%nat) 1) (itsParity M).

Definition vector_close (a b : Vector) (anEpsilon : float) : bool :=
  (PrimFloat.abs (v0 a - v0 b) <=? anEpsilon) && (PrimFloat.abs (v1 a - v1 b) <=? anEpsilon)
  && (PrimFloat.abs (v2 a - v2 b) <=? anEpsilon) && (PrimFloat.abs (v3 a - v3 b) <=? anEpsilon).

(** Modelled from the spec: equality within epsilon, on all matrix entries. *)
Definition MatrixEquality_model (A B : Matrix) (anEpsilon : float) : bool :=
  vector_close (m0 A) (m0 B) anEpsilon && vector_close (m1 A) (m1 B) anEpsilon
  && vector_close (m2 A) (m2 B) anEpsilon && vector_close (m3 A) (m3 B) anEpsilon.

(** Modelled from the spec: the geometric distance from the basepoint, in
    the flat case the Euclidean length of the spatial part. *)
Definition VectorGeometricDistance_model (a : Vector) : float :=
  PrimFloat.sqrt (v0 a * v0 a + v1 a * v1 a + v2 a * v2 a).
Definition VectorGeometricDistance2_model (a b : Vector) : float :=
  VectorGeometricDistance_model (VectorDifference_model a b).

#[export] Instance matrices : Matrices := {|
  MatrixIdentity := MatrixIdentity_model;
  MatrixIsIdentity := MatrixIsIdentity_model;
  MatrixGeometricInverse := MatrixGeometricInverse_model;
  MatrixEquality := MatrixEquality_model;
  MatrixProduct := MatrixProduct_model;
  VectorTernaryCrossProduct := VectorTernaryCrossProduct_model;
  VectorNegate := VectorNegate_model;
  VectorSum := VectorSum_model;
  VectorDifference := VectorDifference_model;
  VectorDotProduct := VectorDotProduct_model;
  VectorNormalize := VectorNormalize_model;
  VectorGeometricDistance := VectorGeometricDistance_model;
  VectorGeometricDistance2 := VectorGeometricDistance2_model;
  VectorTimesMatrix := VectorTimesMatrix_model;
  ScalarTimesVector := ScalarTimesVector_model
|}.

(** A grey of the given lightness stands for the color conversion. *)
#[export] Instance colors : Colors := {|
  HSLAtoRGBA c := mkRGBA (hsla_l c * hsla_a c) (hsla_l c * hsla_a c)
                         (hsla_l c * hsla_a c) (hsla_a c)
|}.

(** *** [qsort]: sorting by insertion *)

Fixpoint insert_sorted {A : Type} (compare : A -> A -> Z) (a : A) (l : list A) : list A :=
  match l with
  | [] => [a]
  | b :: l' => if (compare a b <=? 0)%Z then a :: l else b :: insert_sorted compare a l'
  end.

Definition qsort_model {A : Type} (compare : A -> A -> Z) (l : list A) : list A :=
  foldr (insert_sorted compare) [] l.

#[export] Instance libc : LibC := {| qsort := @qsort_model |}.

End Reference.

(** ** The notions the properties are stated with *)

(** The operations of the core on the simulation state. *)
Inductive CoreOperation :=
  | OpGestureRotate (anAngle : double)
  | OpGesturePinch (anExpansionFactor : double)
  | OpGestureTap
  | OpSimulationUpdate (aFramePeriod : double)
  | OpSetCenterpiece (aCenterpieceChoice : CenterpieceType)
  | OpSetShowObserver (aShowObserverChoice : bool)
  | OpSetShowColorCoding (aShowColorCodingChoice : bool)
  | OpSetShowCliffordParallels (aCliffordMode : CliffordMode)
  | OpSetShowVertexFigures (aShowVertexFiguresChoice : bool)
  | OpSetFogFlag (aFogFlag : bool).

Definition perform `{LibM} `{Matrices} (op : CoreOperation) (md : ModelData)
    : option ModelData :=
  match op with
  | OpGestureRotate a => Some (GestureRotate md a)
  | OpGesturePinch f => Some (GesturePinch md f)
  | OpGestureTap => Some (GestureTap md)
  | OpSimulationUpdate t => SimulationUpdate md t
  | OpSetCenterpiece c => Some (SetCenterpiece md c)
  | OpSetShowObserver b => Some (SetShowObserver md b)
  | OpSetShowColorCoding b => Some (SetShowColorCoding md b)
  | OpSetShowCliffordParallels c => Some (SetShowCliffordParallels md c)
  | OpSetShowVertexFigures b => Some (SetShowVertexFigures md b)
  | OpSetFogFlag b => Some (SetFogFlag md b)
  end.

Definition is_tap (op : CoreOperation) : bool :=
  match op with OpGestureTap => true | _ => false end.

(** A placement is reduced when no face value exceeds the restoring
    threshold: each face pointer points to a face whose value is at most
    [RESTORING_EPSILON]. *)
Definition IsReduced (d : DirichletDomain) (aPlacement : Matrix) : bool :=
  forallb (fun p => match theFaces d !! p with
                    | Some f => PrimFloat.leb (theFaceValue f aPlacement) RESTORING_EPSILON
                    | None => false
                    end)
          (itsFaceList d).

(** Vertices, edges (pairs of half edges) and faces of the mesh. *)
Definition NumVertices (d : HEPolyhedron) : Z := Z.of_nat (length (itsVertexList d)).
Definition NumHalfEdges (d : HEPolyhedron) : Z := Z.of_nat (length (itsHalfEdgeList d)).
Definition NumFaces (d : HEPolyhedron) : Z := Z.of_nat (length (itsFaceList d)).

(** Twice V - E + F: the half edges come in pairs, so E is half their
    number. *)
Definition EulerSum (d : HEPolyhedron) : Z :=
  2 * NumVertices d - NumHalfEdges d + 2 * NumFaces d.

(** V - E + F = 2. *)
Definition SatisfiesEuler (d : HEPolyhedron) : Prop := EulerSum d = 4.

(** The matrices of a list that [MatrixIsIdentity] does not accept. *)
Definition NumNonIdentityMatrices `{Matrices} (G : MatrixList) : Z :=
  Z.of_nat (length (filter (fun M => MatrixIsIdentity M = false) G)).

(** [SetUpModelData] of CurvedSpacesInit.c: the state at launch. *)
Definition SetUpModelData `{Matrices} : ModelData :=
  mkModelData 0 SpaceNone false false 0 MatrixIdentity 0 0 None None 0.25 true true
    CenterpieceEarth 0 true false CliffordNone false true.

(** The three linked lists of a polyhedron. *)
Definition theLists (d : HEPolyhedron) : list ptr * list ptr * list ptr :=
  (itsVertexList d, itsHalfEdgeList d, itsFaceList d).

(** The first part of [IntersectWithHalfspace], up to its three deletion
    loops: the polyhedron with its edges and faces split, the new face
    installed and the nodes to delete marked.  There is none when the
    function returns before it gets there: the matrix is the identity, no
    vertex lies outside the halfspace, or the memory has run out. *)
Definition MarkedCut `{Matrices} (aDirichletDomain : DirichletDomain) (aMatrix : Matrix)
    : option HEPolyhedron :=
  let d := aDirichletDomain in
  if MatrixIsIdentity aMatrix then None
  else
    let theHalfspace := MakeHalfspaceInequality aMatrix in
    classified ← ClassifyVertices theHalfspace d;
    let '(theCutIsNontrivial, d) := classified in
    if negb theCutIsNontrivial then None
    else
      r ← forEach (SplitEdge theHalfspace) (itsHalfEdgeList d) d;
      match r with
      | (Some e, d) => None
      | (None, d) =>
      r ← forEach SplitFace (itsFaceList d) d;
      match r with
      | (Some e, d) => None
      | (None, d) =>
      match NewFace d with
      | (None, d) => None
      | (Some theNewFace, d) =>
        d ← iterM (fun d f => onFace f (with_HEFace_itsDeletionFlag false) d) (itsFaceList d) d;
        d ← iterM MarkHalfEdge (itsHalfEdgeList d) d;
        d ← iterM KeepOutboundAlive (itsVertexList d) d;
        d ← iterM (InstallNewFace theNewFace) (itsHalfEdgeList d) d;
        d ← onFace theNewFace (with_itsHalfspace theHalfspace) d;
        onFace theNewFace (with_HEFace_itsMatrix aMatrix) d
      end end end.

(** The last part of [IntersectWithHalfspace]: its three deletion loops,
    over the vertices, the half edges and the faces. *)
Definition DeleteMarked (d : HEPolyhedron) : option HEPolyhedron :=
  r ← DeleteVertices (itsVertexList d) d;
  let d := set_lists (fst r) (itsHalfEdgeList (snd r)) (itsFaceList (snd r)) (snd r) in
  r ← DeleteHalfEdges (itsHalfEdgeList d) d;
  let d := set_lists (itsVertexList (snd r)) (fst r) (itsFaceList (snd r)) (snd r) in
  r ← DeleteFaces (itsFaceList d) d;
  Some (set_lists (itsVertexList (snd r)) (itsHalfEdgeList (snd r)) (fst r) (snd r)).

(** [DeletionOf m d']: the lists of [d'] are those of [m] without the
    nodes that are marked in [m], namely the vertices outside the halfspace
    and the half edges and faces whose deletion flag is set. *)
Definition DeletionOf (m d' : HEPolyhedron) : Prop :=
  itsVertexList d'
    = filter (fun p => statusOf m p <> Some VertexOutsideHalfspace) (itsVertexList m)
  /\ itsHalfEdgeList d' = filter (fun p => flagOf m p <> Some true) (itsHalfEdgeList m)
  /\ itsFaceList d'
     = filter (fun p => HEFace_itsDeletionFlag <$> theFaces m !! p <> Some true)
         (itsFaceList m).

(** The counters of the culling loop after [k] cells have been examined. *)
Definition CountsAgree (k : Z) (st : CullState) : Prop :=
  cs_numPlain st + cs_numReflected st = cs_numVisible st
  /\ 0 <= cs_numPlain st /\ 0 <= cs_numReflected st /\ cs_numVisible st <= k.

(** The design document's sentence about short lists of matrices. *)
Definition FewNonIdentityMatricesClaim `{LibM} `{Matrices} `{Colors}
    (memory : nat) (G : MatrixList) : Prop :=
  NumNonIdentityMatrices G < 3 ->
  ConstructDirichletDomain memory (Some G) None = Some (None, None)
  \/ (G = [] /\ exists e, ConstructDirichletDomain memory (Some G) None = Some (Some e, None)).

(** *** Face pairing *)

Section FacePairing.
Context `{Matrices}.

(** What the search for a mate tests: the matrix of [M] is the geometric
    inverse of the matrix of [F], entry by entry within
    [MATE_MATRIX_EPSILON]. *)
Definition Matches (F M : HEFace) : Prop :=
  MatrixEquality (HEFace_itsMatrix M) (MatrixGeometricInverse (HEFace_itsMatrix F))
    MATE_MATRIX_EPSILON = true.

(** The design document's sentence about paired faces: faces whose
    matrices are inverse to each other are paired both ways and have one
    color index. *)
Definition FacePairingClaim (d : HEPolyhedron) : Prop :=
  forall (i j : nat) (p q : ptr) (F M : HEFace),
    itsFaceList d !! i = Some p -> itsFaceList d !! j = Some q -> i <> j ->
    theFaces d !! p = Some F -> theFaces d !! q = Some M ->
    Matches F M ->
    Matches M F /\ itsColorIndex F = itsColorIndex M.

(** What the search returns for the face [F] at position [k] of the list:
    the first face after it that matches, or no face when none matches. *)
Definition FirstMatch (m : gmap ptr HEFace) (F : HEFace) (l : list ptr) (k : nat)
    (mate : option (nat * ptr * HEFace)) : Prop :=
  match mate with
  | Some (j, q, Q) =>
      l !! j = Some q /\ (k < j)%nat /\ m !! q = Some Q /\ Matches F Q
      /\ forall j' q' Q', (k < j' < j)%nat -> l !! j' = Some q' -> m !! q' = Some Q' ->
                          ~ Matches F Q'
  | None =>
      forall j' q' Q', (k < j')%nat -> l !! j' = Some q' -> m !! q' = Some Q' ->
                       ~ Matches F Q'
  end.

(** The state of the loop of [AssignColorIndices] when it has visited the
    first [k] faces of the list [l]. *)
Record ColorsSound (l : list ptr) (k : nat) (theCount : Z) (m : gmap ptr HEFace)
    : Prop := {
  sound_count : 0 <= theCount <= Z.of_nat k;
  sound_range : forall i p F, l !! i = Some p -> m !! p = Some F ->
      itsColorIndex F <> UNASSIGNED_COLOR_INDEX -> 0 <= itsColorIndex F < theCount;
  sound_visited : forall i p F, l !! i = Some p -> (i < k)%nat -> m !! p = Some F ->
      itsColorIndex F <> UNASSIGNED_COLOR_INDEX;
  sound_shared : forall i j p q F M,
      l !! i = Some p -> l !! j = Some q -> (i < j)%nat ->
      m !! p = Some F -> m !! q = Some M ->
      itsColorIndex M <> UNASSIGNED_COLOR_INDEX ->
      itsColorIndex F = itsColorIndex M -> Matches F M
}.

(** The store after the visit of the unassigned face [p]. *)
Definition AfterVisit (m : gmap ptr HEFace) (p : ptr) (F : HEFace) (theCount : Z)
    (mate : option (nat * ptr * HEFace)) : gmap ptr HEFace :=
  match mate with
  | Some (_, q, Q) =>
      <[q := with_itsColorIndex theCount Q]> (<[p := with_itsColorIndex theCount F]> m)
  | None => <[p := with_itsColorIndex theCount F]> m
  end.

(** Two stores with the same matrices on their faces. *)
Definition SameMatrices (m m0 : gmap ptr HEFace) : Prop :=
  forall a, HEFace_itsMatrix <$> m !! a = HEFace_itsMatrix <$> m0 !! a.







End FacePairing.

(** *** The order of binary64 numbers *)

(** A number as a multiple of the smallest positive one, 2^-1074; the
    infinities lie beyond all finite numbers. *)
Definition rank (x : spec_float) : Z :=
  match x with
  | S754_zero _ => 0
  | S754_infinity s => cond_Zopp s (2 ^ 2200)
  | S754_nan => 0
  | S754_finite s m e => cond_Zopp s (Z.pos m * 2 ^ (e + 1074))
  end.

Definition frank (x : double) : Z := rank (Prim2SF x).

Definition is_number (x : spec_float) : Prop := x <> S754_nan.

(** The results of an operation that have the sign [s] and are not zero. *)
Definition signed (s : bool) (r : spec_float) : Prop :=
  match r with
  | S754_finite s' _ _ | S754_infinity s' => s' = s
  | _ => False
  end.

(** *** The contract of [qsort] *)

(** The comparison function orders the elements of the array
    consistently. *)
Definition ConsistentOn {A : Type} (compare : A -> A -> Z) (l : list A) : Prop :=
  (forall a b, a ∈ l -> b ∈ l -> Z.sgn (compare b a) = - Z.sgn (compare a b))
  /\ (forall a b c, a ∈ l -> b ∈ l -> c ∈ l ->
        compare a b <= 0 -> compare b c <= 0 -> compare a c <= 0).

(** No element compares greater than a later one. *)
Definition InAscendingOrder {A : Type} (compare : A -> A -> Z) (l : list A) : Prop :=
  forall i j a b, (i < j)%nat -> l !! i = Some a -> l !! j = Some b -> compare a b <= 0.

(** What the C standard says of [qsort]: when the comparison function is
    consistent, the array after the call holds the elements it held before,
    in ascending order. *)
Definition qsort_sorts `{LibC} : Prop :=
  forall (A : Type) (compare : A -> A -> Z) (l : list A),
    ConsistentOn compare l ->
    qsort compare l ≡ₚ l /\ InAscendingOrder compare (qsort compare l).

Fixpoint Ascending {A : Type} (compare : A -> A -> Z) (l : list A) : Prop :=
  match l with
  | [] => True
  | a :: l' => Forall (fun b => compare a b <= 0) l' /\ Ascending compare l'
  end.

(** *** Culling *)

Section Culling.
Context `{LibM} `{Matrices}.

(** What the loop stores in [itsDistanceCameraToCellCenter]. *)
Definition CellDistance (aViewMatrix : Matrix) (c : Honeycell) : double :=
  VectorGeometricDistance (VectorTimesMatrix (itsCellCenterInWorldSpace c) aViewMatrix).

(** The test that puts a cell onto the list of visible cells. *)
Definition CellIsAccepted (aViewMatrix : Matrix) (aSpaceType : SpaceType)
    (theTilingRadius theAdjustedDirichletDomainRadius : double)
    (theCullingHyperplanes : list Vector) (c : Honeycell) : bool :=
  let theCellCenterInCameraSpace :=
    VectorTimesMatrix (itsCellCenterInWorldSpace c) aViewMatrix in
  bool_decide (aSpaceType = SpaceSpherical)
  || (gtb (v2 theCellCenterInCameraSpace) (- theAdjustedDirichletDomainRadius)%float
      && PrimFloat.ltb (CellDistance aViewMatrix c) theTilingRadius
      && BoundingSphereIntersectsViewFrustum theCellCenterInCameraSpace
           theAdjustedDirichletDomainRadius theCullingHyperplanes).

(** The indices of the accepted cells among the first [k] cells, in the
    order of the array. *)
Definition AcceptedCells (aViewMatrix : Matrix) (aSpaceType : SpaceType)
    (theTilingRadius theAdjustedDirichletDomainRadius : double)
    (theCullingHyperplanes : list Vector) (cells : list Honeycell) (k : nat) : list nat :=
  filter (fun i => CellIsAccepted aViewMatrix aSpaceType theTilingRadius
                     theAdjustedDirichletDomainRadius theCullingHyperplanes
                   <$> cells !! i = Some true)
         (seq 0 k).

(** What [CullAndSortVisibleCells] computes before its loop. *)
Definition CullingParameters (anImageWidth anImageHeight aDirichletDomainRadius : double)
    (aSpaceType : SpaceType) : option (double * list Vector) :=
  theAdjustedDirichletDomainRadius ←
    match aSpaceType with
    | SpaceNone => None
    | SpaceSpherical => Some (sin aDirichletDomainRadius)
    | SpaceFlat => Some aDirichletDomainRadius
    | SpaceHyperbolic => Some (sinh aDirichletDomainRadius)
    end;
  theCullingHyperplanes ← MakeCullingHyperplanes anImageWidth anImageHeight;
  Some (theAdjustedDirichletDomainRadius, theCullingHyperplanes).

(** The state of the culling loop when it has examined the first [k]
    cells of the array [cells0]. *)
Record Culled (aViewMatrix : Matrix) (accepted : nat -> list nat)
    (cells0 : list Honeycell) (k : nat) (st : CullState) : Prop := {
  culled_length : length (cs_cells st) = length cells0;
  culled_count : cs_numVisible st = Z.of_nat (length (accepted k));
  culled_visible : take (length (accepted k)) (cs_visible st) = Some <$> accepted k;
  culled_done : forall i c, (i < k)%nat -> cs_cells st !! i = Some c ->
      exists c0, cells0 !! i = Some c0
                 /\ c = set_cell_distance (CellDistance aViewMatrix c0) c0;
  culled_todo : forall i, (k <= i)%nat -> cs_cells st !! i = cells0 !! i
}.

End Culling.

(** ** CurvedSpacesFileIO.c: the text of a generator file *)

(** A [Byte] of the input text. *)
Abbreviation Byte := Z.

(** The characters the parser looks for. *)
Definition CHAR_NUL : Byte := 0.
Definition CHAR_TAB : Byte := 9.
Definition CHAR_LF : Byte := 10.
Definition CHAR_CR : Byte := 13.
Definition CHAR_SPACE : Byte := 32.
Definition CHAR_HASH : Byte := 35.

(** [StringBeginsWith]: the two pointers walk the two buffers, given here
    from the pointers on; [None] is a read past the end of a buffer. *)
Fixpoint StringBeginsWith (anInputText aPossibleBeginning : list Byte)
    {struct aPossibleBeginning} : option bool :=
  match aPossibleBeginning with
  | [] => None
  | b :: bs =>
      if b =? CHAR_NUL then Some true
      else
        match anInputText with
        | [] => None
        | a :: as_ => if negb (a =? b) then Some false else StringBeginsWith as_ bs
        end
  end.

(** The inner loop of [RemoveComments]: the read location moves on, at
    least once, until it is at a carriage return, a line feed or the
    zero. *)
Fixpoint SkipComment (fuel : nat) (text : list Byte) (r : nat) : option nat :=
  match fuel with
  | O => None
  | S fuel' =>
      let r := S r in
      c ← text !! r;
      if negb (c =? CHAR_CR) && negb (c =? CHAR_LF) && negb (c =? CHAR_NUL)
      then SkipComment fuel' text r
      else Some r
  end.

(** The outer loop, with the read location [r] and the write location [w]
    as indices into the one buffer. *)
Fixpoint RemoveComments_loop (fuel : nat) (text : list Byte) (r w : nat)
    : option (list Byte) :=
  match fuel with
  | O => None
  | S fuel' =>
      c ← text !! r;
      r ← (if c =? CHAR_HASH then SkipComment (length text) text r else Some r);
      c ← text !! r;
      _ ← text !! w;
      let text := <[w := c]> text in
      if negb (c =? CHAR_NUL) then RemoveComments_loop fuel' text (S r) (S w)
      else Some text
  end.

(** [RemoveComments] on the buffer that [anInputText] points to. *)
Definition RemoveComments (anInputText : list Byte) : option (list Byte) :=
  RemoveComments_loop (length anInputText) anInputText 0 0.

(** The zero-terminated string that a buffer holds: the bytes before the
    first zero. *)
Fixpoint cstring (text : list Byte) : list Byte :=
  match text with
  | [] => []
  | c :: text' => if c =? CHAR_NUL then [] else c :: cstring text'
  end.

(** A text without its comments: a comment begins with [#] and runs to
    the end of the line, which [\r] or [\n] marks. *)
Fixpoint WithoutComments (inComment : bool) (s : list Byte) : list Byte :=
  match s with
  | [] => []
  | c :: s' =>
      if inComment then
        if (c =? CHAR_CR) || (c =? CHAR_LF) then c :: WithoutComments false s'
        else WithoutComments true s'
      else if c =? CHAR_HASH then WithoutComments true s'
      else c :: WithoutComments false s'
  end.

Definition ZeroTerminated (text : list Byte) : Prop := CHAR_NUL ∈ text.


Definition EndsComment (c : Byte) : bool :=
  (c =? CHAR_CR) || (c =? CHAR_LF) || (c =? CHAR_NUL).

(** [DetectSpaceType]: the three tests on the entry [m[3][3]] of one
    generator; [theSpaceType] keeps its value when none of them holds. *)
Definition SpaceTypeOfGenerator (theSpaceType : SpaceType) (M : Matrix) : SpaceType :=
  let theSpaceType := if PrimFloat.ltb (mget M 3 3) 1 then SpaceSpherical else theSpaceType in
  let theSpaceType := if PrimFloat.eqb (mget M 3 3) 1 then SpaceFlat else theSpaceType in
  if gtb (mget M 3 3) 1 then SpaceHyperbolic else theSpaceType.

(** The loop over the generators, with [*aSpaceType] and [theSpaceType]. *)
Fixpoint DetectSpaceType_loop (l : list Matrix) (aSpaceType theSpaceType : SpaceType)
    : ErrorText * SpaceType :=
  match l with
  | [] => (None, aSpaceType)
  | M :: l' =>
      let theSpaceType := SpaceTypeOfGenerator theSpaceType M in
      if decide (aSpaceType = SpaceNone)
      then DetectSpaceType_loop l' theSpaceType theSpaceType
      else if decide (aSpaceType <> theSpaceType)
      then (Some "Matrix generators have inconsistent geometries (spherical, flat, hyperbolic), or perhaps an unneeded identity matrix is present."%string,
            SpaceNone)
      else DetectSpaceType_loop l' aSpaceType theSpaceType
  end.

(** [DetectSpaceType]: the message and the new [*aSpaceType]. *)
Definition DetectSpaceType (aGeneratorList : MatrixList) : ErrorText * SpaceType :=
  if itsNumMatrices aGeneratorList =? 0 then (None, SpaceSpherical)
  else DetectSpaceType_loop aGeneratorList SpaceNone SpaceNone.

(** The geometry that the entry [m[3][3]] of a matrix stands for. *)
Definition GeometryOf (M : Matrix) : SpaceType := SpaceTypeOfGenerator SpaceNone M.

(** ** CurvedSpacesDirichlet.c: [ConstructHoneycomb] *)

(** What the platform decides: the sizes of the two structs, what the
    three calls of [GET_MEMORY] in [AllocateHoneycomb] return (memory or
    NULL), and the distances that the fresh array of cells holds. *)
Record Allocation := mkAllocation {
  sizeof_Honeycell : Z;
  sizeof_Vector : Z;
  gotHoneycomb : bool;
  gotCells : bool;
  gotVisibleCells : bool;
  freshDistance : nat -> double
}.

(** [AllocateHoneycomb]: NULL ([None]), or the two arrays of the new
    honeycomb; [itsCells] is NULL when its [GET_MEMORY] failed, which the
    function does not test. *)
Definition AllocateHoneycomb (memory : Allocation) (aNumCells aNumVertices : Z)
    : option (option (list Honeycell) * list (option nat)) :=
  if (0xFFFFFFFF / sizeof_Honeycell memory <? aNumCells)
     || (0xFFFFFFFF / sizeof_Vector memory <? aNumVertices)
  then None
  else if negb (gotHoneycomb memory) then None
  else
    let theCells :=
      if gotCells memory
      then Some ((fun i => mkHoneycell zeroMatrix zeroVector (freshDistance memory i))
                   <$> seq 0 (Z.to_nat aNumCells))
      else None in
    if gotVisibleCells memory
    then Some (theCells, replicate (Z.to_nat aNumCells) None)
    else None.

Definition theBasepoint : Vector := mkVector 0 0 0 1.

(** The body of the loop over the cells: a write through [itsCells]. *)
Definition SetCell `{Matrices} (M : Matrix) (theCells : option (list Honeycell)) (i : nat)
    : option (option (list Honeycell)) :=
  cells ← theCells;
  c ← cells !! i;
  Some (Some (<[i := mkHoneycell M (VectorTimesMatrix theBasepoint M)
                        (itsDistanceCameraToCellCenter c)]> cells)).

Fixpoint SetCells `{Matrices} (l : list Matrix) (i : nat) (theCells : option (list Honeycell))
    : option (option (list Honeycell)) :=
  match l with
  | [] => Some theCells
  | M :: l' => theCells ← SetCell M theCells i; SetCells l' (S i) theCells
  end.

(** [ConstructHoneycomb]: the message and the new [*aHoneycomb]; [None]
    is a write through a NULL pointer. *)
Definition ConstructHoneycomb `{Matrices} (memory : Allocation)
    (aHolonomyGroup : option MatrixList) (aDirichletDomain : option DirichletDomain)
    (aHoneycomb : option Honeycomb) : option (ErrorText * option Honeycomb) :=
  match aHolonomyGroup with
  | None => Some (Some "ConstructHoneycomb() received a NULL holonomy group."%string,
                  aHoneycomb)
  | Some G =>
    match aHoneycomb with
    | Some _ => Some (Some "ConstructHoneycomb() received a non-NULL output location."%string,
                      aHoneycomb)
    | None =>
      let theNumVertices :=
        match aDirichletDomain with
        | Some d => Z.of_nat (length (itsVertexList d)) mod UINT_MODULUS
        | None => 0
        end in
      match AllocateHoneycomb memory (itsNumMatrices G) theNumVertices with
      | None =>
          Some (Some "Couldn't get memory for aHoneycomb in ConstructHoneycomb()."%string,
                None)
      | Some (theCells, theVisibleCells) =>
          theCells ← SetCells G 0 theCells;
          Some (None, Some (mkHoneycomb (default [] theCells) 0 0 0 theVisibleCells))
      end
    end
  end.

(** [FreeHoneycomb] leaves NULL behind. *)
Definition FreeHoneycomb (aHoneycomb : option Honeycomb) : option Honeycomb := None.

(** The cell that [ConstructHoneycomb] makes of the matrix at position [i]. *)
Definition CellOf `{Matrices} (memory : Allocation) (i : nat) (M : Matrix) : Honeycell :=
  mkHoneycell M (VectorTimesMatrix theBasepoint M) (freshDistance memory i).

(** The faces of a polyhedron, in the order of its list of faces. *)
Definition FacesOf (d : HEPolyhedron) : list HEFace :=
  omap (fun p => theFaces d !! p) (itsFaceList d).

(** What [StayInDirichletDomain] does for the faces it finds the
    placement beyond: one multiplication by the inverse of the face's
    matrix each. *)
Definition Restored `{Matrices} (aPlacement : Matrix) (faces : list HEFace) : Matrix :=
  foldl (fun P f => MatrixProduct P (MatrixGeometricInverse (HEFace_itsMatrix f)))
        aPlacement faces.

(** ** Half-edge meshes *)

(** What the half-edge data structure promises of one half edge [e]: it
    has a mate other than itself whose mate it is; its cycle, its tip and
    its face are nodes of the polyhedron; the next half edge of its cycle
    lies on its face and starts at its tip. *)
Definition HalfEdgeIsSound (d : HEPolyhedron) (e : ptr) : bool :=
  match theHalfEdges d !! e with
  | Some E =>
      match itsMate E, itsCycle E, itsTip E, itsFace E with
      | Some m, Some c, Some t, Some f =>
          bool_decide (m <> e) && bool_decide (mateOf d m = Some e)
          && bool_decide (m ∈ itsHalfEdgeList d) && bool_decide (c ∈ itsHalfEdgeList d)
          && bool_decide (is_Some (theVertices d !! t)) && bool_decide (t ∈ itsVertexList d)
          && bool_decide (is_Some (theFaces d !! f)) && bool_decide (f ∈ itsFaceList d)
          && bool_decide (faceOf d c = Some f)
          && bool_decide (mateOf d c ≫= tipOf d = Some t)
      | _, _, _, _ => false
      end
  | None => false
  end.

(** The outbound half edge of a vertex starts at the vertex. *)
Definition VertexIsSound (d : HEPolyhedron) (v : ptr) : bool :=
  match theVertices d !! v with
  | Some V =>
      match itsOutboundHalfEdge V with
      | Some o => bool_decide (o ∈ itsHalfEdgeList d)
                  && bool_decide (mateOf d o ≫= tipOf d = Some v)
      | None => false
      end
  | None => false
  end.

(** The half edge of a face lies on the face. *)
Definition FaceIsSound (d : HEPolyhedron) (f : ptr) : bool :=
  match theFaces d !! f with
  | Some F =>
      match itsHalfEdge F with
      | Some h => bool_decide (h ∈ itsHalfEdgeList d) && bool_decide (faceOf d h = Some f)
      | None => false
      end
  | None => false
  end.

Definition MeshIsSound (d : HEPolyhedron) : bool :=
  forallb (HalfEdgeIsSound d) (itsHalfEdgeList d)
  && forallb (VertexIsSound d) (itsVertexList d)
  && forallb (FaceIsSound d) (itsFaceList d)
  && bool_decide (NoDup (itsVertexList d))
  && bool_decide (NoDup (itsHalfEdgeList d))
  && bool_decide (NoDup (itsFaceList d)).

(** The geometry that [ConstructDirichletDomain] records: that of the
    matrix after the identity. *)
Definition RecordedSpaceType (M1 : Matrix) : SpaceType :=
  if PrimFloat.ltb (mget M1 3 3) 1 then SpaceSpherical
  else if PrimFloat.eqb (mget M1 3 3) 1 then SpaceFlat
  else SpaceHyperbolic.

(** A vertex without its [itsHalfspaceStatus]. *)
Definition WithoutStatus (v : HEVertex) : HEVertex :=
  with_itsHalfspaceStatus VertexInsideHalfspace v.

(** ** CurvedSpacesFileIO.c: reading the matrices *)

(** What the reader takes from outside the file.  [strtod] of <stdlib.h>
    is given the bytes from the starting point on and returns the number
    and how many bytes it converted (0 when it converted nothing, the
    stopping point is then the starting point); [MatrixDeterminant],
    [AllocateMatrixList] and [FreeMatrixList] are declared in
    CurvedSpaces-Common.h; [FreeMatrixList] returns what it leaves in the
    pointer it is given. *)
Class Reader := {
  strtod : list Byte -> double * nat;
  MatrixDeterminant : Matrix -> double;
  AllocateMatrixList : Z -> option MatrixList;
  FreeMatrixList : option MatrixList -> option MatrixList
}.

Definition set_itsParity (p : ImageParity) (M : Matrix) : Matrix :=
  mkMatrix (m0 M) (m1 M) (m2 M) (m3 M) p.

Definition DOUBLE_QUOTE : string := String (Ascii.ascii_of_nat 34) EmptyString.
Definition NEWLINE : string := String (Ascii.ascii_of_nat 10) EmptyString.

Definition theOtherTextMessage : string :=
  "Matrix file contains text other than numbers.".
Definition theMultipleOf16Message : string :=
  "A matrix generator file should contain a list of 4×4 matrices and nothing else."
  +:+ NEWLINE
  +:+ "Unfortunately the number of entries in the present file is not a multiple of 16.".
Definition theAllocationMessage : string :=
  "Couldn't allocate memory for matrix generators.".
Definition theImpossibleMessage : string :=
  DOUBLE_QUOTE +:+ "Impossible" +:+ DOUBLE_QUOTE +:+ " error in ReadMatrices().".

(** A string literal as the bytes of a buffer, with the terminating zero. *)
Definition textOf (s : string) : list Byte :=
  ((fun a => Z.of_N (Ascii.N_of_ascii a)) <$> String.list_ascii_of_string s) ++ [CHAR_NUL].

(** The loop of [ReadOneNumber] that moves the starting point over spaces,
    tabs, carriage returns and line feeds. *)
Fixpoint SkipWhitespace (theStartingPoint : list Byte) : option (list Byte) :=
  match theStartingPoint with
  | [] => None
  | c :: s =>
      if (c =? CHAR_SPACE) || (c =? CHAR_TAB) || (c =? CHAR_CR) || (c =? CHAR_LF)
      then SkipWhitespace s
      else Some theStartingPoint
  end.

(** [ReadOneNumber]: what it returns and what it writes to [*aValue],
    [*aStoppingPoint] and [*anError] (a caller that passes NULL for one of
    them ignores that component).  A pointer into the text is given as the
    bytes from the pointer on. *)
Definition ReadOneNumber `{Reader} (aString : list Byte)
    : option (bool * double * list Byte * ErrorText) :=
  theStartingPoint ← SkipWhitespace aString;
  let theNumber := fst (strtod theStartingPoint) in
  let theStoppingPoint := drop (snd (strtod theStartingPoint)) theStartingPoint in
  if negb (snd (strtod theStartingPoint) =? 0)%nat
  then Some (true, theNumber, theStoppingPoint, None)
  else
    c ← head theStoppingPoint;
    Some (false, 0%float, aString,
          if negb (c =? CHAR_NUL) then Some theOtherTextMessage else None).

(** The loop that counts the numbers: [theNumNumbers] and the last
    [theErrorMessage]. *)
Fixpoint CountNumbers `{Reader} (fuel : nat) (theMarker : list Byte) (theNumNumbers : Z)
    : option (Z * ErrorText) :=
  match fuel with
  | O => None
  | S fuel' =>
      match ReadOneNumber theMarker with
      | None => None
      | Some (success, _, theStoppingPoint, theErrorMessage) =>
          if success then CountNumbers fuel' theStoppingPoint (uint_incr theNumNumbers)
          else Some (theNumNumbers, theErrorMessage)
      end
  end.

(** The pairs [(j, k)] in the order of the two inner loops. *)
Definition theEntries : list (nat * nat) :=
  j ← seq 0 4; k ← seq 0 4; [(j, k)].

(** The two inner loops of the second pass, on the matrix [i]: the
    message, the marker and the matrices. *)
Fixpoint ReadEntries `{Reader} (jk : list (nat * nat)) (i : nat) (theMarker : list Byte)
    (theMatrices : list Matrix) : option (ErrorText * list Byte * list Matrix) :=
  match jk with
  | [] => Some (None, theMarker, theMatrices)
  | (j, k) :: jk' =>
      match ReadOneNumber theMarker with
      | None => None
      | Some (success, theNumber, theStoppingPoint, _) =>
          M ← theMatrices !! i;
          let theMatrices := <[i := mset M j k theNumber]> theMatrices in
          if negb success
          then Some (Some theImpossibleMessage, theStoppingPoint, theMatrices)
          else ReadEntries jk' i theStoppingPoint theMatrices
      end
  end.

(** The outer loop of the second pass, for [n] more matrices from the
    matrix [i] on. *)
Fixpoint ReadGenerators `{Reader} (n i : nat) (theMarker : list Byte)
    (theMatrices : list Matrix) : option (ErrorText * list Matrix) :=
  match n with
  | O => Some (None, theMatrices)
  | S n' =>
      match ReadEntries theEntries i theMarker theMatrices with
      | None => None
      | Some (Some e, _, theMatrices) => Some (Some e, theMatrices)
      | Some (None, theMarker, theMatrices) =>
          M ← theMatrices !! i;
          let theParity :=
            if gtb (MatrixDeterminant M) 0 then ImagePositive else ImageNegative in
          ReadGenerators n' (S i) theMarker (<[i := set_itsParity theParity M]> theMatrices)
      end
  end.

(** [ReadMatrices]: the message and the new [*aMatrixList]. *)
Definition ReadMatrices `{Reader} (anInputText : list Byte) (aMatrixList : option MatrixList)
    : option (ErrorText * option MatrixList) :=
  match aMatrixList with
  | Some _ =>
      Some (Some "ReadMatrices() was passed a non-NULL output pointer."%string, aMatrixList)
  | None =>
      match CountNumbers (S (length anInputText)) anInputText 0 with
      | None => None
      | Some (_, Some e) => Some (Some e, FreeMatrixList None)
      | Some (theNumNumbers, None) =>
          if negb (theNumNumbers mod 16 =? 0)
          then Some (Some theMultipleOf16Message, FreeMatrixList None)
          else
            let theNumGenerators := theNumNumbers / 16 in
            match AllocateMatrixList theNumGenerators with
            | None => Some (Some theAllocationMessage, FreeMatrixList None)
            | Some theMatrices =>
                match ReadGenerators (Z.to_nat theNumGenerators) 0 anInputText
                        theMatrices with
                | None => None
                | Some (Some e, theMatrices) =>
                    Some (Some e, FreeMatrixList (Some theMatrices))
                | Some (None, theMatrices) => Some (None, Some theMatrices)
                end
            end
      end
  end.

(** *** The notions the properties are stated with *)

(** The numbers of a text, in the order in which [ReadOneNumber] finds
    them. *)
Fixpoint NumbersFrom `{Reader} (fuel : nat) (theMarker : list Byte) : list double :=
  match fuel with
  | O => []
  | S fuel' =>
      match ReadOneNumber theMarker with
      | Some (true, theNumber, theStoppingPoint, _) =>
          theNumber :: NumbersFrom fuel' theStoppingPoint
      | _ => []
      end
  end.

Definition Numbers `{Reader} (anInputText : list Byte) : list double :=
  NumbersFrom (S (length anInputText)) anInputText.

(** The 16 entries of a matrix, row by row. *)
Definition EntriesOf (M : Matrix) : list double :=
  (fun jk => mget M jk.1 jk.2) <$> theEntries.

(** What the inner loops write into a matrix. *)
Definition WriteEntries (M : Matrix) (jk : list (nat * nat)) (xs : list double) : Matrix :=
  foldl (fun M jkx => mset M jkx.1.1 jkx.1.2 jkx.2) M (zip jk xs).

(** [strtod] converts bytes of the string only: it does not go beyond the
    terminating zero. *)
Definition StaysInString `{Reader} : Prop :=
  forall s : list Byte, (snd (strtod s) <= length (cstring s))%nat.

(** [AllocateMatrixList] returns NULL or an array of the length that was
    asked for. *)
Definition AllocatesArrays `{Reader} : Prop :=
  forall (n : Z) (l : MatrixList), AllocateMatrixList n = Some l -> itsNumMatrices l = n.

(** ** CurvedSpacesFileIO.c: loading a space *)

(** The tiling code that [LoadGenerators] calls is declared in
    CurvedSpaces-Common.h.  [ConstructHolonomyGroup] returns its message
    and what it leaves in the NULL pointer it is given;
    [NeedsBackHemisphere] returns its message and what it leaves in the
    flag, whose old value it is given. *)
Class Tiling := {
  ConstructHolonomyGroup : MatrixList -> double -> ErrorText * option MatrixList;
  NeedsBackHemisphere : option MatrixList -> SpaceType -> bool -> ErrorText * bool
}.

Inductive HyperbolicSpaceType :=
  | HyperbolicSpaceGeneric | HyperbolicSpaceMirroredDodecahedron
  | HyperbolicSpaceSeifertWeber.

Definition HYPERBOLIC_TILING_RADIUS_PADDING : double := 1.
Definition USER_SPEED_INCREMENT : double := 0.02.

Definition set_itsSpaceType (t : SpaceType) (md : ModelData) : ModelData :=
  mkModelData (itsChangeCount md) t (itsDrawBackHemisphere md) (itsThreeSphereFlag md)
    (itsHorizonRadius md) (itsUserBodyPlacement md) (itsUserSpeed md)
    (itsPrePauseUserSpeed md) (itsDirichletDomain md) (itsHoneycomb md) (itsAperture md)
    (itsDirichletWallsMeshNeedsRefresh md) (itsVertexFigureMeshNeedsReplacement md)
    (itsCenterpieceType md) (itsRotationAngle md) (itsShowObserver md)
    (itsShowColorCoding md) (itsCliffordMode md) (itsShowVertexFigures md) (itsFogFlag md).

Definition set_itsDrawBackHemisphere (b : bool) (md : ModelData) : ModelData :=
  mkModelData (itsChangeCount md) (itsSpaceType md) b (itsThreeSphereFlag md)
    (itsHorizonRadius md) (itsUserBodyPlacement md) (itsUserSpeed md)
    (itsPrePauseUserSpeed md) (itsDirichletDomain md) (itsHoneycomb md) (itsAperture md)
    (itsDirichletWallsMeshNeedsRefresh md) (itsVertexFigureMeshNeedsReplacement md)
    (itsCenterpieceType md) (itsRotationAngle md) (itsShowObserver md)
    (itsShowColorCoding md) (itsCliffordMode md) (itsShowVertexFigures md) (itsFogFlag md).

Definition set_itsThreeSphereFlag (b : bool) (md : ModelData) : ModelData :=
  mkModelData (itsChangeCount md) (itsSpaceType md) (itsDrawBackHemisphere md) b
    (itsHorizonRadius md) (itsUserBodyPlacement md) (itsUserSpeed md)
    (itsPrePauseUserSpeed md) (itsDirichletDomain md) (itsHoneycomb md) (itsAperture md)
    (itsDirichletWallsMeshNeedsRefresh md) (itsVertexFigureMeshNeedsReplacement md)
    (itsCenterpieceType md) (itsRotationAngle md) (itsShowObserver md)
    (itsShowColorCoding md) (itsCliffordMode md) (itsShowVertexFigures md) (itsFogFlag md).

Definition set_itsHorizonRadius (r : double) (md : ModelData) : ModelData :=
  mkModelData (itsChangeCount md) (itsSpaceType md) (itsDrawBackHemisphere md)
    (itsThreeSphereFlag md) r (itsUserBodyPlacement md) (itsUserSpeed md)
    (itsPrePauseUserSpeed md) (itsDirichletDomain md) (itsHoneycomb md) (itsAperture md)
    (itsDirichletWallsMeshNeedsRefresh md) (itsVertexFigureMeshNeedsReplacement md)
    (itsCenterpieceType md) (itsRotationAngle md) (itsShowObserver md)
    (itsShowColorCoding md) (itsCliffordMode md) (itsShowVertexFigures md) (itsFogFlag md).

Definition set_itsDirichletDomain (d : option DirichletDomain) (md : ModelData)
    : ModelData :=
  mkModelData (itsChangeCount md) (itsSpaceType md) (itsDrawBackHemisphere md)
    (itsThreeSphereFlag md) (itsHorizonRadius md) (itsUserBodyPlacement md)
    (itsUserSpeed md) (itsPrePauseUserSpeed md) d (itsHoneycomb md) (itsAperture md)
    (itsDirichletWallsMeshNeedsRefresh md) (itsVertexFigureMeshNeedsReplacement md)
    (itsCenterpieceType md) (itsRotationAngle md) (itsShowObserver md)
    (itsShowColorCoding md) (itsCliffordMode md) (itsShowVertexFigures md) (itsFogFlag md).

Definition set_itsHoneycomb (h : option Honeycomb) (md : ModelData) : ModelData :=
  mkModelData (itsChangeCount md) (itsSpaceType md) (itsDrawBackHemisphere md)
    (itsThreeSphereFlag md) (itsHorizonRadius md) (itsUserBodyPlacement md)
    (itsUserSpeed md) (itsPrePauseUserSpeed md) (itsDirichletDomain md) h (itsAperture md)
    (itsDirichletWallsMeshNeedsRefresh md) (itsVertexFigureMeshNeedsReplacement md)
    (itsCenterpieceType md) (itsRotationAngle md) (itsShowObserver md)
    (itsShowColorCoding md) (itsCliffordMode md) (itsShowVertexFigures md) (itsFogFlag md).

Definition set_itsVertexFigureMeshNeedsReplacement (b : bool) (md : ModelData)
    : ModelData :=
  mkModelData (itsChangeCount md) (itsSpaceType md) (itsDrawBackHemisphere md)
    (itsThreeSphereFlag md) (itsHorizonRadius md) (itsUserBodyPlacement md)
    (itsUserSpeed md) (itsPrePauseUserSpeed md) (itsDirichletDomain md) (itsHoneycomb md)
    (itsAperture md) (itsDirichletWallsMeshNeedsRefresh md) b
    (itsCenterpieceType md) (itsRotationAngle md) (itsShowObserver md)
    (itsShowColorCoding md) (itsCliffordMode md) (itsShowVertexFigures md) (itsFogFlag md).

(** The [switch] that sets [itsHorizonRadius]. *)
Definition HorizonRadiusOf (aSpaceType : SpaceType)
    (aHyperbolicSpaceType : HyperbolicSpaceType) : double :=
  match aSpaceType with
  | SpaceSpherical => 3.15
  | SpaceFlat => 11
  | SpaceHyperbolic =>
      match aHyperbolicSpaceType with
      | HyperbolicSpaceGeneric => 3
      | _ => 4
      end
  | SpaceNone => 0
  end%float.

(** [LoadGenerators] up to the label [CleanUpLoadGenerators]: the message
    and the model data at the label.  [theDirichletMemory] and
    [theHoneycombMemory] say what the memory requests of
    [ConstructDirichletDomain] and [ConstructHoneycomb] get. *)
Definition LoadGenerators_body `{LibM} `{Matrices} `{Colors} `{Tiling}
    (theDirichletMemory : nat) (theHoneycombMemory : Allocation)
    (md : ModelData) (aGeneratorList : MatrixList)
    (aHyperbolicSpaceType : HyperbolicSpaceType) : option (ErrorText * ModelData) :=
  let md := set_itsSpaceType SpaceNone md in
  let md := set_itsDirichletDomain (FreeDirichletDomain (itsDirichletDomain md)) md in
  let md := set_itsHoneycomb (FreeHoneycomb (itsHoneycomb md)) md in
  let md := set_itsUserBodyPlacement MatrixIdentity md in
  let md := set_itsUserSpeed (8 * USER_SPEED_INCREMENT)%float md in
  let md := set_itsSpaceType (snd (DetectSpaceType aGeneratorList)) md in
  match fst (DetectSpaceType aGeneratorList) with
  | Some e => Some (Some e, md)
  | None =>
    let md :=
      set_itsHorizonRadius (HorizonRadiusOf (itsSpaceType md) aHyperbolicSpaceType) md in
    (* the holonomy group and the Dirichlet domain *)
    r ← (if decide (itsSpaceType md <> SpaceHyperbolic) then
           match ConstructHolonomyGroup aGeneratorList (itsHorizonRadius md) with
           | (Some e, _) => Some (Some e, md, None)
           | (None, theProvisionalHolonomyGroup) =>
               '(e, d) ← ConstructDirichletDomain theDirichletMemory
                           theProvisionalHolonomyGroup (itsDirichletDomain md);
               let md := set_itsDirichletDomain d md in
               match e with
               | Some e => Some (Some e, md, None)
               | None =>
                   let theDirichletDomainOutradius :=
                     DirichletDomainOutradius (itsDirichletDomain md) in
                   match ConstructHolonomyGroup aGeneratorList
                           (itsHorizonRadius md + 2 * theDirichletDomainOutradius)%float
                   with
                   | (Some e, theFullHolonomyGroup) => Some (Some e, md, theFullHolonomyGroup)
                   | (None, theFullHolonomyGroup) => Some (None, md, theFullHolonomyGroup)
                   end
               end
           end
         else
           match ConstructHolonomyGroup aGeneratorList
                   (itsHorizonRadius md + HYPERBOLIC_TILING_RADIUS_PADDING)%float with
           | (Some e, theFullHolonomyGroup) => Some (Some e, md, theFullHolonomyGroup)
           | (None, theFullHolonomyGroup) =>
               '(e, d) ← ConstructDirichletDomain theDirichletMemory theFullHolonomyGroup
                           (itsDirichletDomain md);
               Some (e, set_itsDirichletDomain d md, theFullHolonomyGroup)
           end);
    let '(e, md, theFullHolonomyGroup) := r in
    match e with
    | Some e => Some (Some e, md)
    | None =>
      let b := NeedsBackHemisphere theFullHolonomyGroup (itsSpaceType md)
                 (itsDrawBackHemisphere md) in
      let md := set_itsDrawBackHemisphere (snd b) md in
      match fst b with
      | Some e => Some (Some e, md)
      | None =>
        G ← theFullHolonomyGroup;
        let md := set_itsThreeSphereFlag (itsNumMatrices G =? 1) md in
        '(e, h) ← ConstructHoneycomb theHoneycombMemory theFullHolonomyGroup
                    (itsDirichletDomain md) (itsHoneycomb md);
        let md := set_itsHoneycomb h md in
        match e with
        | Some e => Some (Some e, md)
        | None =>
            Some (None, set_itsVertexFigureMeshNeedsReplacement true
                          (set_itsDirichletWallsMeshNeedsRefresh true md))
        end
      end
    end
  end.

(** [LoadGenerators]: the message and the model data. *)
Definition LoadGenerators `{LibM} `{Matrices} `{Colors} `{Tiling}
    (theDirichletMemory : nat) (theHoneycombMemory : Allocation)
    (md : ModelData) (aGeneratorList : MatrixList)
    (aHyperbolicSpaceType : HyperbolicSpaceType) : option (ErrorText * ModelData) :=
  '(theErrorMessage, md) ← LoadGenerators_body theDirichletMemory theHoneycombMemory md
                             aGeneratorList aHyperbolicSpaceType;
  let md :=
    match theErrorMessage with
    | Some _ =>
        let md := set_itsDirichletDomain (FreeDirichletDomain (itsDirichletDomain md)) md in
        set_itsHoneycomb (FreeHoneycomb (itsHoneycomb md)) md
    | None => md
    end in
  Some (theErrorMessage, set_itsChangeCount (uint64_incr (itsChangeCount md)) md).

(** The two special beginnings, with the tab after the [#]. *)
Definition theMirroredDodecahedronBeginning : list Byte :=
  [CHAR_HASH; CHAR_TAB] ++ textOf "Mirrored Right-Angled Dodecahedron".
Definition theSeifertWeberBeginning : list Byte :=
  [CHAR_HASH; CHAR_TAB] ++ textOf "Seifert-Weber Dodecahedral Space".

Definition theUTF16Message : string :=
  "The matrix file is in UTF-16 format.  Please convert to UTF-8.".

(** [a[0] == x && a[1] == y]: the second byte is read only when the
    first one is [x]. *)
Definition BeginsWithBytes (anInputText : list Byte) (x y : Byte) : option bool :=
  b0 ← anInputText !! 0%nat;
  if b0 =? x then b1 ← anInputText !! 1%nat; Some (b1 =? y) else Some false.

(** The test for the two byte orders of UTF-16, and the test for the
    byte-order mark of UTF-8. *)
Definition IsUTF16 (anInputText : list Byte) : option bool :=
  match BeginsWithBytes anInputText 0xFF 0xFE with
  | Some false => BeginsWithBytes anInputText 0xFE 0xFF
  | r => r
  end.

Definition HasByteOrderMark (anInputText : list Byte) : option bool :=
  match BeginsWithBytes anInputText 0xEF 0xBB with
  | Some true => b2 ← anInputText !! 2%nat; Some (b2 =? 0xBF)
  | r => r
  end.

(** Which of the two special spaces the text announces, if any. *)
Definition HyperbolicSpaceTypeOf (anInputText : list Byte) : option HyperbolicSpaceType :=
  match StringBeginsWith anInputText theMirroredDodecahedronBeginning with
  | Some true => Some HyperbolicSpaceMirroredDodecahedron
  | Some false =>
      match StringBeginsWith anInputText theSeifertWeberBeginning with
      | Some true => Some HyperbolicSpaceSeifertWeber
      | Some false => Some HyperbolicSpaceGeneric
      | None => None
      end
  | None => None
  end.

(** [LoadGeneratorFile]: the message, the model data and the buffer. *)
Definition LoadGeneratorFile `{LibM} `{Matrices} `{Colors} `{Tiling} `{Reader}
    (theDirichletMemory : nat) (theHoneycombMemory : Allocation)
    (md : ModelData) (anInputText : list Byte)
    : option (ErrorText * ModelData * list Byte) :=
  match IsUTF16 anInputText with
  | None => None
  | Some true => Some (Some theUTF16Message, md, anInputText)
  | Some false =>
    match HasByteOrderMark anInputText with
    | None => None
    | Some theMark =>
      let theSkipped := if theMark then take 3 anInputText else [] in
      let anInputText := if theMark then drop 3 anInputText else anInputText in
      theHyperbolicSpaceType ← HyperbolicSpaceTypeOf anInputText;
      anInputText ← RemoveComments anInputText;
      match ReadMatrices anInputText None with
      | None => None
      | Some (Some e, theGenerators) => Some (Some e, md, theSkipped ++ anInputText)
      | Some (None, theGenerators) =>
          aGeneratorList ← theGenerators;
          match LoadGenerators theDirichletMemory theHoneycombMemory md aGeneratorList
                  theHyperbolicSpaceType with
          | None => None
          | Some (theErrorMessage, md) =>
              Some (theErrorMessage, md, theSkipped ++ anInputText)
          end
      end
    end
  end.

(** What [LoadGenerators] does not touch: the choices of the user. *)
Definition SameOptions (md md' : ModelData) : Prop :=
  itsPrePauseUserSpeed md' = itsPrePauseUserSpeed md
  /\ itsAperture md' = itsAperture md
  /\ itsCenterpieceType md' = itsCenterpieceType md
  /\ itsRotationAngle md' = itsRotationAngle md
  /\ itsShowObserver md' = itsShowObserver md
  /\ itsShowColorCoding md' = itsShowColorCoding md
  /\ itsCliffordMode md' = itsCliffordMode md
  /\ itsShowVertexFigures md' = itsShowVertexFigures md
  /\ itsFogFlag md' = itsFogFlag md.

(** What [LoadGenerators] has done to the model data when it reaches
    its label. *)
Definition Reset `{Matrices} (md md' : ModelData) : Prop :=
  itsChangeCount md' = itsChangeCount md
  /\ itsUserBodyPlacement md' = MatrixIdentity
  /\ itsUserSpeed md' = (8 * USER_SPEED_INCREMENT)%float
  /\ SameOptions md md'.

(** ** CurvedSpacesMouse.c *)

(** [MatrixTranslation] and [MatrixRotation] are declared in
    CurvedSpaces-Common.h, [atan] in <math.h>; the two matrix functions
    return what they write to their output matrix. *)
Class Motions := {
  MatrixTranslation : SpaceType -> double -> double -> double -> Matrix;
  MatrixRotation : double -> double -> double -> Matrix;
  atan : double -> double
}.

(** [DisplayPoint] and [DisplayPointMotion], with the fields that
    [MouseMoved] reads. *)
Record DisplayPoint := mkDisplayPoint {
  itsX : double;
  itsY : double;
  DisplayPoint_itsViewWidth : double;
  DisplayPoint_itsViewHeight : double
}.

Record DisplayPointMotion := mkDisplayPointMotion {
  itsDeltaX : double;
  itsDeltaY : double;
  DisplayPointMotion_itsViewWidth : double;
  DisplayPointMotion_itsViewHeight : double
}.

(** [MouseMoved]; [None] is the failed assertion. *)
Definition MouseMoved `{LibM} `{Matrices} `{Colors} `{Motions} (md : ModelData)
    (aMouseLocation : DisplayPoint) (aMouseMotion : DisplayPointMotion)
    (aTranslationFlag aZAxisFlag aCenterpieceFlag : bool) : option ModelData :=
  if PrimFloat.leb (DisplayPointMotion_itsViewWidth aMouseMotion) 0
     || PrimFloat.leb (DisplayPointMotion_itsViewHeight aMouseMotion) 0
     || neqb (DisplayPointMotion_itsViewWidth aMouseMotion)
             (DisplayPoint_itsViewWidth aMouseLocation)
     || neqb (DisplayPointMotion_itsViewHeight aMouseMotion)
             (DisplayPoint_itsViewHeight aMouseLocation)
  then Some md
  else
    let theCharacteristicSize :=
      CharacteristicViewSize (DisplayPointMotion_itsViewWidth aMouseMotion)
        (DisplayPointMotion_itsViewHeight aMouseMotion) in
    _ ← GEOMETRY_GAMES_ASSERT (gtb theCharacteristicSize 0);
    let theConversionFactor := (1 / theCharacteristicSize)%float in
    let x := (theConversionFactor
              * (itsX aMouseLocation - 0.5 * DisplayPoint_itsViewWidth aMouseLocation))%float in
    let y := (theConversionFactor
              * (itsY aMouseLocation - 0.5 * DisplayPoint_itsViewHeight aMouseLocation))%float in
    let dx := (theConversionFactor * itsDeltaX aMouseMotion)%float in
    let dy := (theConversionFactor * itsDeltaY aMouseMotion)%float in
    let theIncrement :=
      if aTranslationFlag then
        let theTranslationDistanceX := (-1 * dx)%float in
        let theTranslationDistanceY := (-1 * dy)%float in
        if aZAxisFlag
        then MatrixTranslation (itsSpaceType md) 0 0 theTranslationDistanceY
        else MatrixTranslation (itsSpaceType md) theTranslationDistanceX
               theTranslationDistanceY 0
      else
        let dTheta := (atan (x + dx) - atan x)%float in
        let dPhi := (atan (y + dy) - atan y)%float in
        if aZAxisFlag
        then MatrixRotation 0 0 dTheta
        else MatrixRotation dPhi (- dTheta) 0 in
    let md :=
      set_itsUserBodyPlacement (MatrixProduct theIncrement (itsUserBodyPlacement md)) md in
    let md :=
      set_itsUserBodyPlacement
        (FastGramSchmidt (itsUserBodyPlacement md) (itsSpaceType md)) md in
    Some (incr_itsChangeCount md).

(** The two view sizes are positive numbers and agree with those of the
    location. *)
Definition ViewsAgree (aMouseLocation : DisplayPoint) (aMouseMotion : DisplayPointMotion)
    : bool :=
  PrimFloat.ltb 0 (DisplayPointMotion_itsViewWidth aMouseMotion)
  && PrimFloat.ltb 0 (DisplayPointMotion_itsViewHeight aMouseMotion)
  && PrimFloat.eqb (DisplayPointMotion_itsViewWidth aMouseMotion)
       (DisplayPoint_itsViewWidth aMouseLocation)
  && PrimFloat.eqb (DisplayPointMotion_itsViewHeight aMouseMotion)
       (DisplayPoint_itsViewHeight aMouseLocation).

(** ** The lens that [MakeLens] builds *)

(** The nodes of a lens of order [n] whose vertices begin at the address
    [v0], half edges at [h0] and faces at [f0]. *)
Definition LensHalfEdge (n v0 h0 f0 i j : nat) : HEHalfEdge :=
  if decide (j = 0%nat)
  then mkHEHalfEdge (Some (v0 + (i + 1) mod n)%nat) (Some (h0 + (2 * i + 1))%nat)
         (Some (h0 + (2 * ((i + 1) mod n) + 0))%nat) (Some f0) 0 0 false
         zeroVector zeroVector
  else mkHEHalfEdge (Some (v0 + i)%nat) (Some (h0 + (2 * i + 0))%nat)
         (Some (h0 + (2 * ((i + n - 1) mod n) + 1))%nat) (Some (S f0)) 0 0 false
         zeroVector zeroVector.

Record IsLens (n v0 h0 f0 : nat) (d : HEPolyhedron) : Prop := {
  lens_vertex_list : itsVertexList d = reverse (seq v0 n);
  lens_half_edge_list : itsHalfEdgeList d = reverse (seq h0 (2 * n));
  lens_face_list : itsFaceList d = [S f0; f0];
  lens_vertices : forall i, (i < n)%nat ->
    exists V, theVertices d !! (v0 + i)%nat = Some V
              /\ itsOutboundHalfEdge V = Some (h0 + (2 * i + 0))%nat;
  lens_half_edges : forall i j, (i < n)%nat -> (j < 2)%nat ->
    theHalfEdges d !! (h0 + (2 * i + j))%nat = Some (LensHalfEdge n v0 h0 f0 i j);
  lens_faces : forall j, (j < 2)%nat ->
    exists F, theFaces d !! (f0 + j)%nat = Some F
              /\ itsHalfEdge F = Some (h0 + j)%nat
}.

(** ** CurvedSpacesDirichlet.c: [MakeDirichletMesh] *)

(** [VectorInterpolate] is declared in CurvedSpaces-Common.h; what it
    writes to its output vector. *)
Class Interpolation := {
  VectorInterpolate : Vector -> Vector -> double -> Vector
}.

(** [double [3]] and [unsigned int [3]] *)
Record TexCoords := mkTexCoords { tex0 : double; tex1 : double; tex2 : double }.
Record MeshFacet := mkMeshFacet { facet0 : Z; facet1 : Z; facet2 : Z }.

#[global] Instance MeshFacet_eq_dec : EqDecision MeshFacet.
Proof. solve_decision. Defined.

(** What the six output pointers point to: [*aNumMeshVertices],
    [*someMeshVertexPositions] and so on, an array being NULL ([None]) or
    its elements. *)
Record DirichletMesh := mkDirichletMesh {
  NumMeshVertices : Z;
  MeshVertexPositions : option (list Vector);
  MeshVertexTexCoords : option (list TexCoords);
  MeshVertexColors : option (list RGBAColor);
  NumMeshFacets : Z;
  MeshFacets : option (list MeshFacet)
}.

(** The running pointers, as offsets into their arrays, and the running
    index. *)
Record MeshCursor := mkMeshCursor {
  thePosition : nat;
  theTexCoords : nat;
  theColor : nat;
  theMeshVertexIndex : Z;
  theMeshFace : nat
}.

(** What the platform decides: what the four calls of [GET_MEMORY] return
    (memory or NULL), and what the fresh arrays hold. *)
Record MeshAllocation := mkMeshAllocation {
  gotPositions : bool;
  gotTexCoords : bool;
  gotColors : bool;
  gotFacets : bool;
  freshPosition : nat -> Vector;
  freshTexCoords : nat -> TexCoords;
  freshColor : nat -> RGBAColor;
  freshFacet : nat -> MeshFacet
}.

Definition GET_MEMORY_array {A : Type} (got : bool) (fresh : nat -> A) (n : Z)
    : option (list A) :=
  if got then Some (fresh <$> seq 0 (Z.to_nat n)) else None.

(** A write through a pointer into an array: the program stops when the
    array is NULL or the element is not one of its elements. *)
Definition writeAt {A : Type} (anArray : option (list A)) (i : nat) (x : A)
    : option (option (list A)) :=
  l ← anArray;
  _ ← l !! i;
  Some (Some (<[i := x]> l)).

Definition uint_plus (a b : Z) : Z := (a + b) mod UINT_MODULUS.
Definition uint_times (a b : Z) : Z := (a * b) mod UINT_MODULUS.

Definition FACE_TEXTURE_MULTIPLE_PLAIN : double := 6.
Definition FACE_TEXTURE_MULTIPLE_WOOD : double := 1.

(** The first do-while loop: the order of the face of [start]. *)
Fixpoint FaceOrderAround (fuel : nat) (d : HEPolyhedron) (start theHalfEdge : ptr)
    (theFaceOrder : Z) : option Z :=
  match fuel with
  | O => None
  | S fuel' =>
      let theFaceOrder := uint_incr theFaceOrder in
      next ← cycleOf d theHalfEdge;
      if decide (next = start) then Some theFaceOrder
      else FaceOrderAround fuel' d start next theFaceOrder
  end.

(** The first loop over the faces: the two counts. *)
Definition CountMesh (d : HEPolyhedron) : option (Z * Z) :=
  iterM (fun counts p =>
           F ← theFaces d !! p;
           start ← itsHalfEdge F;
           theFaceOrder ← FaceOrderAround (theFuel d) d start start 0;
           Some (uint_plus (fst counts) (uint_times 4 theFaceOrder),
                 uint_plus (snd counts) (uint_times 2 theFaceOrder)))
        (itsFaceList d) (0, 0).

(** One vertex of the mesh: its position, its texture coordinates and its
    colour are written, and the three pointers advance. *)
Definition WriteVertex (p : Vector) (t : TexCoords) (c : RGBAColor)
    (w : DirichletMesh * MeshCursor) : option (DirichletMesh * MeshCursor) :=
  let m := fst w in
  let k := snd w in
  ps ← writeAt (MeshVertexPositions m) (thePosition k) p;
  ts ← writeAt (MeshVertexTexCoords m) (theTexCoords k) t;
  cs ← writeAt (MeshVertexColors m) (theColor k) c;
  Some (mkDirichletMesh (NumMeshVertices m) ps ts cs (NumMeshFacets m) (MeshFacets m),
        mkMeshCursor (S (thePosition k)) (S (theTexCoords k)) (S (theColor k))
          (theMeshVertexIndex k) (theMeshFace k)).

(** One triangle: its three indices are written, and [theMeshFace]
    advances. *)
Definition WriteFacet (f : MeshFacet) (w : DirichletMesh * MeshCursor)
    : option (DirichletMesh * MeshCursor) :=
  let m := fst w in
  let k := snd w in
  fs ← writeAt (MeshFacets m) (theMeshFace k) f;
  Some (mkDirichletMesh (NumMeshVertices m) (MeshVertexPositions m)
          (MeshVertexTexCoords m) (MeshVertexColors m) (NumMeshFacets m) fs,
        mkMeshCursor (thePosition k) (theTexCoords k) (theColor k)
          (theMeshVertexIndex k) (S (theMeshFace k))).

(** [theMeshVertexIndex += n] *)
Definition AdvanceMeshVertexIndex (n : Z) (w : DirichletMesh * MeshCursor)
    : DirichletMesh * MeshCursor :=
  let k := snd w in
  (fst w, mkMeshCursor (thePosition k) (theTexCoords k) (theColor k)
            (uint_plus (theMeshVertexIndex k) n) (theMeshFace k)).

Section Mesh.
Context `{Matrices} `{Interpolation}.

(** The second do-while loop: one trapezoid, of four vertices and two
    triangles, for each half edge around the face of [start]. *)
Fixpoint MeshAround (fuel : nat) (d : HEPolyhedron) (aCurrentAperture : double)
    (theTextureMultiple : double) (theFaceCenter : Vector)
    (theDirichletDomainFaceColor : RGBAColor) (start theHalfEdge : ptr)
    (theParity : bool) (w : DirichletMesh * MeshCursor)
    : option (DirichletMesh * MeshCursor) :=
  match fuel with
  | O => None
  | S fuel' =>
      t ← tipOf d theHalfEdge; T ← theVertices d !! t;
      let theNearOuterVertex := itsNormalizedPosition T in
      let theNearInnerVertex :=
        VectorInterpolate theFaceCenter theNearOuterVertex aCurrentAperture in
      let theNearInnerVertex :=
        snd (NormalizeInto theNearInnerVertex (HEPolyhedron_itsSpaceType d)
               theNearInnerVertex) in
      next ← cycleOf d theHalfEdge;
      t ← tipOf d next; T ← theVertices d !! t;
      let theFarOuterVertex := itsNormalizedPosition T in
      let theFarInnerVertex :=
        VectorInterpolate theFaceCenter theFarOuterVertex aCurrentAperture in
      let theFarInnerVertex :=
        snd (NormalizeInto theFarInnerVertex (HEPolyhedron_itsSpaceType d)
               theFarInnerVertex) in
      E ← theHalfEdges d !! next;
      let theBaseTex := (theTextureMultiple * itsBase E)%float in
      let theAltitudeTex := (theTextureMultiple * itsAltitude E)%float in
      w ← WriteVertex theNearInnerVertex
            (mkTexCoords
               (theBaseTex * (if theParity then 0.5 - 0.5 * aCurrentAperture
                              else 0.5 + 0.5 * aCurrentAperture))%float
               (theAltitudeTex * (1 - aCurrentAperture))%float
               0%float)
            theDirichletDomainFaceColor w;
      w ← WriteVertex theFarInnerVertex
            (mkTexCoords
               (theBaseTex * (if theParity then 0.5 + 0.5 * aCurrentAperture
                              else 0.5 - 0.5 * aCurrentAperture))%float
               (theAltitudeTex * (1 - aCurrentAperture))%float
               0%float)
            theDirichletDomainFaceColor w;
      w ← WriteVertex theNearOuterVertex
            (mkTexCoords (theBaseTex * (if theParity then 0 else 1))%float 0%float 0%float)
            theDirichletDomainFaceColor w;
      w ← WriteVertex theFarOuterVertex
            (mkTexCoords (theBaseTex * (if theParity then 1 else 0))%float 0%float 0%float)
            theDirichletDomainFaceColor w;
      let i := theMeshVertexIndex (snd w) in
      w ← WriteFacet (mkMeshFacet (uint_plus i 0) (uint_plus i 1) (uint_plus i 2)) w;
      w ← WriteFacet (mkMeshFacet (uint_plus i 2) (uint_plus i 1) (uint_plus i 3)) w;
      let w := AdvanceMeshVertexIndex 4 w in
      if decide (next = start) then Some w
      else MeshAround fuel' d aCurrentAperture theTextureMultiple theFaceCenter
             theDirichletDomainFaceColor start next (negb theParity) w
  end.

(** The body of the second loop over the faces. *)
Definition MeshFace (d : HEPolyhedron) (aCurrentAperture : double) (aShowColorCoding : bool)
    (w : DirichletMesh * MeshCursor) (p : ptr) : option (DirichletMesh * MeshCursor) :=
  F ← theFaces d !! p;
  let theTextureMultiple :=
    if aShowColorCoding then FACE_TEXTURE_MULTIPLE_PLAIN else FACE_TEXTURE_MULTIPLE_WOOD in
  let theDirichletDomainFaceColor :=
    if aShowColorCoding then itsColorRGBA F
    else mkRGBA (itsColorGreyscale F) (itsColorGreyscale F) (itsColorGreyscale F) 1 in
  start ← itsHalfEdge F;
  MeshAround (theFuel d) d aCurrentAperture theTextureMultiple (itsNormalizedCenter F)
    theDirichletDomainFaceColor start start false w.

(** [MakeDirichletMesh] up to its four final assertions.  An output
    pointer is NULL ([None]) or points to a value. *)
Definition FillDirichletMesh (memory : MeshAllocation)
    (aDirichletDomain : option DirichletDomain)
    (aCurrentAperture : double) (aShowColorCoding : bool)
    (aNumMeshVertices : option Z)
    (someMeshVertexPositions : option (option (list Vector)))
    (someMeshVertexTexCoords : option (option (list TexCoords)))
    (someMeshVertexColors : option (option (list RGBAColor)))
    (aNumMeshFacets : option Z)
    (someMeshFacets : option (option (list MeshFacet)))
    : option (DirichletMesh * MeshCursor) :=
  match aDirichletDomain, aNumMeshVertices, aNumMeshFacets, someMeshVertexPositions,
        someMeshVertexTexCoords, someMeshVertexColors, someMeshFacets with
  | Some d, Some nv, Some nf, Some ps, Some ts, Some cs, Some fs =>
      _ ← GEOMETRY_GAMES_ASSERT
            ((nv =? 0) && (nf =? 0) && bool_decide (ps = None) && bool_decide (ts = None)
             && bool_decide (cs = None) && bool_decide (fs = None));
      counts ← CountMesh d;
      let m :=
        mkDirichletMesh (fst counts)
          (GET_MEMORY_array (gotPositions memory) (freshPosition memory) (fst counts))
          (GET_MEMORY_array (gotTexCoords memory) (freshTexCoords memory) (fst counts))
          (GET_MEMORY_array (gotColors memory) (freshColor memory) (fst counts))
          (snd counts)
          (GET_MEMORY_array (gotFacets memory) (freshFacet memory) (snd counts)) in
      iterM (MeshFace d aCurrentAperture aShowColorCoding) (itsFaceList d)
        (m, mkMeshCursor 0 0 0 0 0)
  | _, _, _, _, _, _, _ => None
  end.

(** [MakeDirichletMesh]: what the six output pointers point to when it
    returns. *)
Definition MakeDirichletMesh (memory : MeshAllocation)
    (aDirichletDomain : option DirichletDomain)
    (aCurrentAperture : double) (aShowColorCoding : bool)
    (aNumMeshVertices : option Z)
    (someMeshVertexPositions : option (option (list Vector)))
    (someMeshVertexTexCoords : option (option (list TexCoords)))
    (someMeshVertexColors : option (option (list RGBAColor)))
    (aNumMeshFacets : option Z)
    (someMeshFacets : option (option (list MeshFacet)))
    : option DirichletMesh :=
  w ← FillDirichletMesh memory aDirichletDomain aCurrentAperture aShowColorCoding
        aNumMeshVertices someMeshVertexPositions someMeshVertexTexCoords
        someMeshVertexColors aNumMeshFacets someMeshFacets;
  let m := fst w in
  let k := snd w in
  _ ← GEOMETRY_GAMES_ASSERT (Z.of_nat (thePosition k) =? NumMeshVertices m);
  _ ← GEOMETRY_GAMES_ASSERT (Z.of_nat (theTexCoords k) =? NumMeshVertices m);
  _ ← GEOMETRY_GAMES_ASSERT (Z.of_nat (theColor k) =? NumMeshVertices m);
  _ ← GEOMETRY_GAMES_ASSERT (Z.of_nat (theMeshFace k) =? NumMeshFacets m);
  Some m.

End Mesh.

(** The two triangles of the trapezoid of index [i], and the triangles of
    the first [n] trapezoids. *)
Definition TrapezoidFacets (i : nat) : list MeshFacet :=
  let b := 4 * Z.of_nat i in
  [mkMeshFacet b (b + 1) (b + 2); mkMeshFacet (b + 2) (b + 1) (b + 3)].

Definition FacetsOfTrapezoids (n : nat) : list MeshFacet :=
  flat_map TrapezoidFacets (seq 0 n).

(** The length of an array, 0 for NULL. *)
Definition arrayLength {A : Type} (anArray : option (list A)) : nat :=
  from_option length 0%nat anArray.

(** The state of the writing: the three pointers of the vertex attributes
    are [a] elements into their arrays, of the lengths [Lp], [Lt] and
    [Lc]; [theMeshFace] is [f] elements into its array, of the length [Lf],
    whose first [f] elements are the [triangles]; the index is [i], and the
    counts are [nv] and [nf]. *)
Record Written (Lp Lt Lc Lf : nat) (nv nf : Z) (a f : nat) (i : Z)
    (triangles : list MeshFacet) (w : DirichletMesh * MeshCursor) : Prop := mkWritten {
  written_thePosition : thePosition (snd w) = a;
  written_theTexCoords : theTexCoords (snd w) = a;
  written_theColor : theColor (snd w) = a;
  written_theMeshFace : theMeshFace (snd w) = f;
  written_theMeshVertexIndex : theMeshVertexIndex (snd w) = i;
  written_positions : arrayLength (MeshVertexPositions (fst w)) = Lp;
  written_texCoords : arrayLength (MeshVertexTexCoords (fst w)) = Lt;
  written_colors : arrayLength (MeshVertexColors (fst w)) = Lc;
  written_facets : arrayLength (MeshFacets (fst w)) = Lf;
  written_positions_bound : (a <= Lp)%nat;
  written_texCoords_bound : (a <= Lt)%nat;
  written_colors_bound : (a <= Lc)%nat;
  written_facets_bound : (f <= Lf)%nat;
  written_NumMeshVertices : NumMeshVertices (fst w) = nv;
  written_NumMeshFacets : NumMeshFacets (fst w) = nf;
  written_triangles : take f (default [] (MeshFacets (fst w))) = triangles
}.

(** The state after [j] trapezoids. *)
Definition TrapezoidsWritten (Lp Lt Lc Lf : nat) (nv nf : Z) (j : nat)
    (w : DirichletMesh * MeshCursor) : Prop :=
  Written Lp Lt Lc Lf nv nf (4 * j) (2 * j) (4 * Z.of_nat j) (FacetsOfTrapezoids j) w.

(** ** CurvedSpacesDirichlet.c: [MakeVertexFigureMesh] *)

Definition theWhiteColor : RGBAColor := mkRGBA 1 1 1 1.
Definition theGreyColor : RGBAColor := mkRGBA 0.5 0.5 0.5 1.

(** The first do-while loop: the order of the vertex whose outbound half
    edge is [start]. *)
Fixpoint VertexOrderAround (fuel : nat) (d : HEPolyhedron) (start theHalfEdge : ptr)
    (theVertexOrder : Z) : option Z :=
  match fuel with
  | O => None
  | S fuel' =>
      let theVertexOrder := uint_incr theVertexOrder in
      m ← mateOf d theHalfEdge;
      next ← cycleOf d m;
      if decide (next = start) then Some theVertexOrder
      else VertexOrderAround fuel' d start next theVertexOrder
  end.

(** The first loop over the vertices: the two counts. *)
Definition CountVertexFigureMesh (d : HEPolyhedron) : option (Z * Z) :=
  iterM (fun counts p =>
           V ← theVertices d !! p;
           start ← itsOutboundHalfEdge V;
           theVertexOrder ← VertexOrderAround (theFuel d) d start start 0;
           Some (uint_plus (fst counts) (uint_times (2 * 4) theVertexOrder),
                 uint_plus (snd counts) (uint_times (2 * 2) theVertexOrder)))
        (itsVertexList d) (0, 0).

(** The second do-while loop: one quad, with its white side and its grey
    side, for each half edge around the vertex. *)
Fixpoint FigureAround (fuel : nat) (d : HEPolyhedron) (start theHalfEdge : ptr)
    (theParity : bool) (w : DirichletMesh * MeshCursor)
    : option (DirichletMesh * MeshCursor) :=
  match fuel with
  | O => None
  | S fuel' =>
      m ← mateOf d theHalfEdge;
      theNextHalfEdge ← cycleOf d m;
      E ← theHalfEdges d !! theHalfEdge;
      N ← theHalfEdges d !! theNextHalfEdge;
      let t0 := mkTexCoords (if theParity then 0.15 else 0.85)%float 1%float 0%float in
      let t1 := mkTexCoords (if theParity then 0 else 1)%float 0%float 0%float in
      let t2 := mkTexCoords (if theParity then 0.85 else 0.15)%float 1%float 0%float in
      let t3 := mkTexCoords (if theParity then 1 else 0)%float 0%float 0%float in
      w ← WriteVertex (itsInnerPoint E) t0 theWhiteColor w;
      w ← WriteVertex (itsOuterPoint E) t1 theWhiteColor w;
      w ← WriteVertex (itsInnerPoint N) t2 theWhiteColor w;
      w ← WriteVertex (itsOuterPoint N) t3 theWhiteColor w;
      w ← WriteVertex (itsInnerPoint E) t0 theGreyColor w;
      w ← WriteVertex (itsOuterPoint E) t1 theGreyColor w;
      w ← WriteVertex (itsInnerPoint N) t2 theGreyColor w;
      w ← WriteVertex (itsOuterPoint N) t3 theGreyColor w;
      let i := theMeshVertexIndex (snd w) in
      w ← WriteFacet (mkMeshFacet (uint_plus i 0) (uint_plus i 1) (uint_plus i 2)) w;
      w ← WriteFacet (mkMeshFacet (uint_plus i 2) (uint_plus i 1) (uint_plus i 3)) w;
      w ← WriteFacet (mkMeshFacet (uint_plus i 4) (uint_plus i 6) (uint_plus i 5)) w;
      w ← WriteFacet (mkMeshFacet (uint_plus i 5) (uint_plus i 6) (uint_plus i 7)) w;
      let w := AdvanceMeshVertexIndex 8 w in
      if decide (theNextHalfEdge = start) then Some w
      else FigureAround fuel' d start theNextHalfEdge (negb theParity) w
  end.

(** The body of the second loop over the vertices. *)
Definition MeshVertexFigure (d : HEPolyhedron) (w : DirichletMesh * MeshCursor) (p : ptr)
    : option (DirichletMesh * MeshCursor) :=
  V ← theVertices d !! p;
  start ← itsOutboundHalfEdge V;
  FigureAround (theFuel d) d start start false w.

(** [MakeVertexFigureMesh] up to its four final assertions. *)
Definition FillVertexFigureMesh (memory : MeshAllocation)
    (aDirichletDomain : option DirichletDomain)
    (aNumMeshVertices : option Z)
    (someMeshVertexPositions : option (option (list Vector)))
    (someMeshVertexTexCoords : option (option (list TexCoords)))
    (someMeshVertexColors : option (option (list RGBAColor)))
    (aNumMeshFacets : option Z)
    (someMeshFacets : option (option (list MeshFacet)))
    : option (DirichletMesh * MeshCursor) :=
  match aDirichletDomain, aNumMeshVertices, aNumMeshFacets, someMeshVertexPositions,
        someMeshVertexTexCoords, someMeshVertexColors, someMeshFacets with
  | Some d, Some nv, Some nf, Some ps, Some ts, Some cs, Some fs =>
      _ ← GEOMETRY_GAMES_ASSERT
            ((nv =? 0) && (nf =? 0) && bool_decide (ps = None) && bool_decide (ts = None)
             && bool_decide (cs = None) && bool_decide (fs = None));
      counts ← CountVertexFigureMesh d;
      let m :=
        mkDirichletMesh (fst counts)
          (GET_MEMORY_array (gotPositions memory) (freshPosition memory) (fst counts))
          (GET_MEMORY_array (gotTexCoords memory) (freshTexCoords memory) (fst counts))
          (GET_MEMORY_array (gotColors memory) (freshColor memory) (fst counts))
          (snd counts)
          (GET_MEMORY_array (gotFacets memory) (freshFacet memory) (snd counts)) in
      iterM (MeshVertexFigure d) (itsVertexList d) (m, mkMeshCursor 0 0 0 0 0)
  | _, _, _, _, _, _, _ => None
  end.

(** [MakeVertexFigureMesh]: what the six output pointers point to when it
    returns. *)
Definition MakeVertexFigureMesh (memory : MeshAllocation)
    (aDirichletDomain : option DirichletDomain)
    (aNumMeshVertices : option Z)
    (someMeshVertexPositions : option (option (list Vector)))
    (someMeshVertexTexCoords : option (option (list TexCoords)))
    (someMeshVertexColors : option (option (list RGBAColor)))
    (aNumMeshFacets : option Z)
    (someMeshFacets : option (option (list MeshFacet)))
    : option DirichletMesh :=
  w ← FillVertexFigureMesh memory aDirichletDomain aNumMeshVertices
        someMeshVertexPositions someMeshVertexTexCoords someMeshVertexColors
        aNumMeshFacets someMeshFacets;
  let m := fst w in
  let k := snd w in
  _ ← GEOMETRY_GAMES_ASSERT (Z.of_nat (thePosition k) =? NumMeshVertices m);
  _ ← GEOMETRY_GAMES_ASSERT (Z.of_nat (theTexCoords k) =? NumMeshVertices m);
  _ ← GEOMETRY_GAMES_ASSERT (Z.of_nat (theColor k) =? NumMeshVertices m);
  _ ← GEOMETRY_GAMES_ASSERT (Z.of_nat (theMeshFace k) =? NumMeshFacets m);
  Some m.

(** The four triangles of the quad of index [i], and the triangles of the
    first [n] quads. *)
Definition QuadFacets (i : nat) : list MeshFacet :=
  let b := 8 * Z.of_nat i in
  [mkMeshFacet b (b + 1) (b + 2); mkMeshFacet (b + 2) (b + 1) (b + 3);
   mkMeshFacet (b + 4) (b + 6) (b + 5); mkMeshFacet (b + 5) (b + 6) (b + 7)].

Definition FacetsOfQuads (n : nat) : list MeshFacet :=
  flat_map QuadFacets (seq 0 n).

(** The state after [j] quads. *)
Definition QuadsWritten (Lp Lt Lc Lf : nat) (nv nf : Z) (j : nat)
    (w : DirichletMesh * MeshCursor) : Prop :=
  Written Lp Lt Lc Lf nv nf (8 * j) (4 * j) (8 * Z.of_nat j) (FacetsOfQuads j) w.

(** *** Inputs of the examples *)

Definition flatTranslation (dx dy dz : double) : Matrix :=
  mkMatrix (mkVector 1 0 0 0) (mkVector 0 1 0 0) (mkVector 0 0 1 0) (mkVector dx dy dz 1)
    ImagePositive.

(** The 3-torus made from the unit cube. *)
Definition cubeGenerators : MatrixList :=
  [ Reference.MatrixIdentity_model;
    flatTranslation 1 0 0; flatTranslation (-1) 0 0;
    flatTranslation 0 1 0; flatTranslation 0 (-1) 0;
    flatTranslation 0 0 1; flatTranslation 0 0 (-1) ].

(** The polyhedron of a successful construction; the empty polyhedron
    stands for every other outcome. *)
Definition constructed (r : option (ErrorText * option DirichletDomain)) : DirichletDomain :=
  match r with
  | Some (None, Some d) => d
  | _ => emptyPolyhedron 0
  end.

Definition cubeDomain : DirichletDomain :=
  constructed (@ConstructDirichletDomain Reference.libm Reference.matrices Reference.colors
                 1000 (Some cubeGenerators) None).

(** The banana of the first three translations of the cube, and what the
    cut by the fourth makes of it. *)
Definition cubeBanana : DirichletDomain :=
  constructed (@MakeBanana Reference.matrices 1000 (flatTranslation 1 0 0)
                 (flatTranslation (-1) 0 0) (flatTranslation 0 1 0) None).

Definition cubeBananaCut : DirichletDomain :=
  match @IntersectWithHalfspace Reference.matrices cubeBanana (flatTranslation 0 0 1) with
  | Some (None, d) => d
  | _ => emptyPolyhedron 0
  end.

(** A translation along the last axis of hyperbolic space. *)
Definition hyperbolicTranslation : Matrix :=
  mkMatrix (mkVector 1 0 0 0) (mkVector 0 1 0 0) (mkVector 0 0 2 1.7320508075688772)
           (mkVector 0 0 1.7320508075688772 2) ImagePositive.

Definition hyperbolicTranslationBack : Matrix :=
  mkMatrix (mkVector 1 0 0 0) (mkVector 0 1 0 0) (mkVector 0 0 2 (-1.7320508075688772))
           (mkVector 0 0 (-1.7320508075688772) 2) ImagePositive.

(** Translations of a large cube, two of them almost equal. *)
Definition nearDuplicateGenerators : MatrixList :=
  [ Reference.MatrixIdentity_model;
    flatTranslation (-10) 0 0; flatTranslation 0 10 0; flatTranslation 0 (-10) 0;
    flatTranslation 0 0 10; flatTranslation 0 0 (-10);
    flatTranslation 10 1e-7 0; flatTranslation 10 (-1e-7) 0 ].

(** Translations by multiples of 1000.1. *)
Definition farTranslation (a b c : double) : Matrix :=
  flatTranslation (a * 1000.1) (b * 1000.1) (c * 1000.1).

Definition farGenerators : MatrixList :=
  [ Reference.MatrixIdentity_model;
    farTranslation (-1) (-2) (-1); farTranslation 0 1 (-2); farTranslation 0 2 0;
    farTranslation (-2) 0 2; farTranslation 1 (-2) 0 ].

(** The state at launch, set in motion. *)
Definition moving : ModelData :=
  set_itsUserSpeed 0.16 (@SetUpModelData Reference.matrices).

(** Three cells of the cubic honeycomb, the farthest first. *)
Definition threeCells : Honeycomb :=
  mkHoneycomb
    [ mkHoneycell (flatTranslation 0 0 3) (mkVector 0 0 3 1) 0;
      mkHoneycell (flatTranslation 0 0 1) (mkVector 0 0 1 1) 0;
      mkHoneycell (flatTranslation 0 0 2) (mkVector 0 0 2 1) 0 ]
    0 0 0 [None; None; None].

Definition threeCellsCulled : option Honeycomb :=
  @CullAndSortVisibleCells Reference.libm Reference.matrices Reference.libc
    threeCells Reference.MatrixIdentity_model 2 2 10 1 SpaceFlat.

Definition threeCellsSorted : Honeycomb := default threeCells threeCellsCulled.

(** The cube, colored once more. *)
Definition cubeRecolored : HEPolyhedron :=
  default (emptyPolyhedron 0)
    (@AssignFaceColors Reference.matrices Reference.colors cubeDomain).

(** The text [1 # one] with a line feed, [2] and the zero, and the
    string [1 #] with the zero. *)
Definition commentedText : list Byte := [49; 32; 35; 32; 111; 110; 101; 10; 50; 0].
Definition commentBeginning : list Byte := [49; 32; 35; 0].

(** A platform with room for everything, one where the array of cells
    cannot be had, and the honeycomb of the cube on the former. *)
Definition plentiful : Allocation := mkAllocation 176 32 true true true (fun _ => 0%float).
Definition withoutCells : Allocation :=
  mkAllocation 176 32 true false true (fun _ => 0%float).

Definition cubeHoneycomb : Honeycomb :=
  match @ConstructHoneycomb Reference.matrices plentiful (Some cubeGenerators)
          (Some cubeDomain) None with
  | Some (None, Some h) => h
  | _ => mkHoneycomb [] 0 0 0 []
  end.

(** The three cells on a 3-sphere. *)
Definition threeCellsOnSphere : Honeycomb :=
  default threeCells
    (@CullAndSortVisibleCells Reference.libm Reference.matrices Reference.libc
       threeCells Reference.MatrixIdentity_model 2 2 3.15 1 SpaceSpherical).

(** Cells at the distances 1 and 2, and one whose distance is no number. *)
Definition nearCell : Honeycell := mkHoneycell (flatTranslation 0 0 1) (mkVector 0 0 1 1) 1.
Definition farCell : Honeycell := mkHoneycell (flatTranslation 0 0 2) (mkVector 0 0 2 1) 2.
Definition lostCell : Honeycell :=
  mkHoneycell (flatTranslation 0 0 2) (mkVector 0 0 2 1) PrimFloat.nan.

(** A placement beyond a face of the unit cube, and where
    [StayInDirichletDomain] takes it. *)
Definition cubeStrayed : Matrix := flatTranslation 0 0 0.75.
Definition cubeRestored : Matrix :=
  default cubeStrayed
    (@StayInDirichletDomain Reference.matrices (Some cubeDomain) cubeStrayed).

(** The cube, measured once more. *)
Definition cubeMeasured : HEPolyhedron :=
  default (emptyPolyhedron 0) (@ComputeOutradius Reference.matrices cubeDomain).

(** The cube cut by a plane far outside it; and a banana that has used
    up the memory, with what the cut by a fourth plane returns. *)
Definition cubeCutFar : DirichletDomain :=
  match @IntersectWithHalfspace Reference.matrices cubeDomain (flatTranslation 0 0 4) with
  | Some (None, d) => d
  | _ => emptyPolyhedron 0
  end.

Definition tightBanana : DirichletDomain :=
  constructed (@MakeBanana Reference.matrices 12 (flatTranslation 1 0 0)
                 (flatTranslation (-1) 0 0) (flatTranslation 0 1 0) None).

Definition tightBananaCut : string * DirichletDomain :=
  match @IntersectWithHalfspace Reference.matrices tightBanana (flatTranslation 0 0 1) with
  | Some (Some e, d) => (e, d)
  | _ => (EmptyString, emptyPolyhedron 0)
  end.

(** A reader for the examples: a [strtod] for texts whose numbers are
    integers, the determinant by expansion along the last column, and
    arrays that are always to be had. *)
Fixpoint digits (s : list Byte) (value : Z) (n : nat) : Z * nat :=
  match s with
  | c :: s' =>
      if (48 <=? c) && (c <=? 57) then digits s' (10 * value + (c - 48)) (S n)
      else (value, n)
  | [] => (value, n)
  end.

Definition strtod_integers (s : list Byte) : double * nat :=
  match s with
  | 45 :: s' =>
      let r := digits s' 0 0 in
      if (r.2 =? 0)%nat then (0%float, 0%nat)
      else ((- uint_to_double r.1)%float, S r.2)
  | _ => let r := digits s 0 0 in (uint_to_double r.1, r.2)
  end.

Definition det3 (a b c : Vector -> double) (r0 r1 r2 : Vector) : double :=
  (a r0 * (b r1 * c r2 - c r1 * b r2)
   - b r0 * (a r1 * c r2 - c r1 * a r2)
   + c r0 * (a r1 * b r2 - b r1 * a r2))%float.

Definition MatrixDeterminant_model (M : Matrix) : double :=
  (v3 (m3 M) * det3 v0 v1 v2 (m0 M) (m1 M) (m2 M)
   - v3 (m2 M) * det3 v0 v1 v2 (m0 M) (m1 M) (m3 M)
   + v3 (m1 M) * det3 v0 v1 v2 (m0 M) (m2 M) (m3 M)
   - v3 (m0 M) * det3 v0 v1 v2 (m1 M) (m2 M) (m3 M))%float.

Definition integerReader : Reader := {|
  strtod := strtod_integers;
  MatrixDeterminant := MatrixDeterminant_model;
  AllocateMatrixList n :=
    if 0 <=? n then Some (replicate (Z.to_nat n) zeroMatrix) else None;
  FreeMatrixList _ := None
|}.

(** A reflection in a plane, as a generator file would give it. *)
Definition reflectionText : list Byte :=
  textOf " -1 0 0 0   0 1 0 0   0 0 1 0   0 0 0 1 ".

Definition reflection : Matrix :=
  mkMatrix (mkVector (-1) 0 0 0) (mkVector 0 1 0 0) (mkVector 0 0 1 0) (mkVector 0 0 0 1)
    ImageNegative.

(** A tiling for the examples: the identity and the generators, nothing
    else. *)
Definition generatorsOnly : Tiling := {|
  ConstructHolonomyGroup G _ := (None, Some (Reference.MatrixIdentity_model :: G));
  NeedsBackHemisphere _ _ _ := (None, false)
|}.

(** What [LoadGenerators] makes of the translations of the cube, and what
    [LoadGeneratorFile] makes of a file with a reflection. *)
Definition loadedCube : ErrorText * ModelData :=
  default (None, moving)
    (@LoadGenerators Reference.libm Reference.matrices Reference.colors generatorsOnly
       1000 plentiful moving (drop 1 cubeGenerators) HyperbolicSpaceGeneric).

Definition commentedReflectionText : list Byte :=
  textOf ("# a mirror" +:+ NEWLINE +:+ " -1 0 0 0   0 1 0 0   0 0 1 0   0 0 0 1 ").

Definition loadedReflection : ErrorText * ModelData * list Byte :=
  default (None, moving, [])
    (@LoadGeneratorFile Reference.libm Reference.matrices Reference.colors generatorsOnly
       integerReader 1000 plentiful moving commentedReflectionText).

(** Motions for the examples: translations as in flat space, rotations
    about the third axis only, and the first term of the series of the arc
    tangent. *)
Definition planeMotions : Motions := {|
  MatrixTranslation _ dx dy dz := flatTranslation dx dy dz;
  MatrixRotation _ _ dc :=
    mkMatrix (mkVector (@cos Reference.libm dc) (@sin Reference.libm dc) 0 0)
             (mkVector (- @sin Reference.libm dc) (@cos Reference.libm dc) 0 0)
             (mkVector 0 0 1 0) (mkVector 0 0 0 1) ImagePositive;
  atan x := x
|}.

(** A drag in a view of 800 by 600, and the same drag reported for a view
    whose width is no number. *)
Definition theClick : DisplayPoint := mkDisplayPoint 100 100 800 600.
Definition theDrag : DisplayPointMotion := mkDisplayPointMotion 5 0 800 600.
Definition theLostDrag : DisplayPointMotion := mkDisplayPointMotion 5 0 PrimFloat.nan 600.

(** The lens of two opposite translations of flat space. *)
Definition slabLens : DirichletDomain :=
  constructed (@MakeLens Reference.libm Reference.matrices 1000 (flatTranslation 0 0 1)
                 (flatTranslation 0 0 (-1)) None).

(** A linear interpolation, and the mesh of the cube. *)
Definition linearInterpolation : Interpolation :=
  Build_Interpolation
    (fun a b t =>
       mkVector ((1 - t) * v0 a + t * v0 b) ((1 - t) * v1 a + t * v1 b)
                ((1 - t) * v2 a + t * v2 b) ((1 - t) * v3 a + t * v3 b))%float.

Definition meshMemory : MeshAllocation :=
  mkMeshAllocation true true true true (fun _ => zeroVector)
    (fun _ => mkTexCoords 0 0 0) (fun _ => mkRGBA 0 0 0 0) (fun _ => mkMeshFacet 0 0 0).

Definition cubeMeshWritten : DirichletMesh * MeshCursor :=
  default (mkDirichletMesh 0 None None None 0 None, mkMeshCursor 0 0 0 0 0)
    (@FillDirichletMesh Reference.matrices linearInterpolation meshMemory (Some cubeDomain)
       0.25 true (Some 0) (Some None) (Some None) (Some None) (Some 0) (Some None)).

(** What [MakeVertexFigureMesh] writes for the cube. *)
Definition cubeFigureWritten : DirichletMesh * MeshCursor :=
  default (mkDirichletMesh 0 None None None 0 None, mkMeshCursor 0 0 0 0 0)
    (FillVertexFigureMesh meshMemory (Some cubeDomain)
       (Some 0) (Some None) (Some None) (Some None) (Some 0) (Some None)).

(** * Properties *)

(** ** Comparisons of doubles *)

Lemma compare_cont_antisym (p q : positive) (c : comparison) :
  PosDef.Pos.compare_cont (CompOpp c) q p = CompOpp (PosDef.Pos.compare_cont c p q).
Proof.
  revert q c; induction p as [p IH|p IH|]; intros [q|q|] c; simpl; auto;
    rewrite <- ?IH; auto.
Qed.

Lemma SFcompare_antisym (x y : spec_float) :
  SFcompare y x = CompOpp <$> SFcompare x y.
Proof.
  destruct x as [[]|[]| |[] mx ex], y as [[]|[]| |[] my ey]; simpl; try reflexivity;
    rewrite (Z.compare_antisym ex ey); destruct (ex ?= ey); simpl; try reflexivity;
    f_equal; rewrite <- (compare_cont_antisym mx my Eq); simpl;
    try reflexivity; destruct (PosDef.Pos.compare_cont Eq my mx); reflexivity.
Qed.

Lemma leb_not_gtb (x y : float) : PrimFloat.leb x y = true -> gtb x y = false.
Proof.
  unfold gtb. rewrite leb_spec, ltb_spec. unfold SFleb, SFltb.
  rewrite (SFcompare_antisym (Prim2SF x) (Prim2SF y)).
  destruct (SFcompare (Prim2SF x) (Prim2SF y)) as [[]|]; simpl; congruence.
Qed.


(** ** The order of binary64 numbers and the sign of a difference *)

Lemma digits2_pos_bounds (m : positive) :
  2 ^ (Z.pos (digits2_pos m) - 1) <= Z.pos m < 2 ^ Z.pos (digits2_pos m).
Proof.
  induction m as [m IH|m IH|]; simpl digits2_pos.
  - rewrite Pos2Z.inj_succ. replace (Z.succ (Z.pos (digits2_pos m)) - 1)
      with (Z.succ (Z.pos (digits2_pos m) - 1)) by lia.
    rewrite !Z.pow_succ_r by lia. lia.
  - rewrite Pos2Z.inj_succ. replace (Z.succ (Z.pos (digits2_pos m)) - 1)
      with (Z.succ (Z.pos (digits2_pos m) - 1)) by lia.
    rewrite !Z.pow_succ_r by lia. lia.
  - simpl. lia.
Qed.

Lemma pow2_le (a b : Z) : 0 <= a <= b -> 2 ^ a <= 2 ^ b.
Proof. intros Hab. apply Z.pow_le_mono_r; lia. Qed.

(** What validity says of the mantissa and the exponent. *)
Lemma bounded_range (m : positive) (e : Z) :
  bounded prec emax m e = true ->
  -1074 <= e <= 971 /\ Z.pos m < 2 ^ 53 /\ (-1074 < e -> 2 ^ 52 <= Z.pos m).
Proof.
  unfold bounded, canonical_mantissa, fexp, emin, prec, emax.
  intros Hb. apply andb_prop in Hb as [Hc He].
  apply Z.eqb_eq in Hc. apply Z.leb_le in He.
  pose proof (digits2_pos_bounds m) as [Hlo Hhi].
  split; [lia|]. split.
  - eapply Z.lt_le_trans; [exact Hhi|]. apply pow2_le. lia.
  - intros Hnormal. eapply Z.le_trans; [|exact Hlo]. apply pow2_le. lia.
Qed.

Lemma finite_rank_range (m : positive) (e : Z) :
  bounded prec emax m e = true ->
  0 < Z.pos m * 2 ^ (e + 1074) < 2 ^ 2200.
Proof.
  intros Hb. destruct (bounded_range m e Hb) as (He & Hm & _).
  assert (Hp : 0 < 2 ^ (e + 1074)) by (apply Z.pow_pos_nonneg; lia).
  split; [lia|].
  assert (Hq : 2 ^ (e + 1074) <= 2 ^ 2045) by (apply pow2_le; lia).
  replace (2 ^ 2200) with (2 ^ 53 * 2 ^ 2147) by (rewrite <- Z.pow_add_r; [reflexivity|lia|lia]).
  assert (Hr : 2 ^ 2045 <= 2 ^ 2147) by (apply pow2_le; lia).
  assert (H53 : 0 < 2 ^ 53) by (apply Z.pow_pos_nonneg; lia).
  nia.
Qed.

(** Of two valid numbers with the same sign, the one with the smaller
    exponent is the smaller. *)
Lemma lower_exponent (m1 m2 : positive) (e1 e2 : Z) :
  bounded prec emax m1 e1 = true -> bounded prec emax m2 e2 = true ->
  e1 < e2 -> Z.pos m1 * 2 ^ (e1 + 1074) < Z.pos m2 * 2 ^ (e2 + 1074).
Proof.
  intros H1 H2 Hlt.
  destruct (bounded_range m1 e1 H1) as (He1 & Hm1 & _).
  destruct (bounded_range m2 e2 H2) as (He2 & _ & Hm2).
  specialize (Hm2 ltac:(lia)).
  replace (e2 + 1074) with ((e1 + 1074) + (e2 - e1)) by lia.
  rewrite (Z.pow_add_r 2 (e1 + 1074) (e2 - e1)) by lia.
  assert (Hp : 0 < 2 ^ (e1 + 1074)) by (apply Z.pow_pos_nonneg; lia).
  assert (Hk : 2 ^ 1 <= 2 ^ (e2 - e1)) by (apply pow2_le; lia).
  change (2 ^ 1) with 2 in Hk.
  change (2 ^ 53) with (2 * 2 ^ 52) in Hm1.
  set (P := 2 ^ (e1 + 1074)) in *. set (Q := 2 ^ (e2 - e1)) in *.
  set (T := 2 ^ 52) in *.
  assert (Z.pos m1 * P < 2 * T * P) by nia.
  assert (2 * T * P <= 2 * Z.pos m2 * P) by nia.
  assert (2 * Z.pos m2 * P <= Z.pos m2 * (P * Q)) by nia.
  lia.
Qed.

Lemma compare_cont_Eq (p q : positive) :
  PosDef.Pos.compare_cont Eq p q = (Z.pos p ?= Z.pos q).
Proof. reflexivity. Qed.

Lemma compare_scaled (a b k : Z) : 0 < k -> (a * k ?= b * k) = (a ?= b).
Proof.
  intros Hk. destruct (Z.compare_spec a b) as [->|Hlt|Hgt].
  - apply Z.compare_refl.
  - apply Z.compare_lt_iff. nia.
  - apply Z.compare_gt_iff. nia.
Qed.

Lemma compare_opp (a b : Z) : (- a ?= - b) = CompOpp (a ?= b).
Proof. rewrite Z.compare_opp. apply Z.compare_antisym. Qed.

(** The comparison of two valid numbers is the comparison of their ranks. *)
Lemma SFcompare_rank (x y : spec_float) :
  SpecFloat.valid_binary prec emax x = true ->
  SpecFloat.valid_binary prec emax y = true ->
  is_number x -> is_number y ->
  SFcompare x y = Some (rank x ?= rank y).
Proof.
  intros Hx Hy Nx Ny.
  destruct x as [sx|sx| |sx mx ex]; [| |by destruct Nx|];
    destruct y as [sy|sy| |sy my ey]; try (by destruct Ny); simpl in Hx, Hy.
  - reflexivity.
  - by destruct sy.
  - pose proof (finite_rank_range my ey Hy). destruct sy; cbn [SFcompare rank cond_Zopp]; f_equal; symmetry.
    + apply Z.compare_gt_iff. lia.
    + apply Z.compare_lt_iff. lia.
  - by destruct sx.
  - by destruct sx, sy.
  - pose proof (finite_rank_range my ey Hy).
    assert (0 < 2 ^ 2200) by (apply Z.pow_pos_nonneg; lia).
    destruct sx, sy; cbn [SFcompare rank cond_Zopp]; f_equal; symmetry;
      first [apply Z.compare_lt_iff; lia|apply Z.compare_gt_iff; lia].
  - pose proof (finite_rank_range mx ex Hx). destruct sx; cbn [SFcompare rank cond_Zopp]; f_equal; symmetry.
    + apply Z.compare_lt_iff. lia.
    + apply Z.compare_gt_iff. lia.
  - pose proof (finite_rank_range mx ex Hx).
    assert (0 < 2 ^ 2200) by (apply Z.pow_pos_nonneg; lia).
    destruct sx, sy; cbn [SFcompare rank cond_Zopp]; f_equal; symmetry;
      first [apply Z.compare_lt_iff; lia|apply Z.compare_gt_iff; lia].
  - pose proof (finite_rank_range mx ex Hx). pose proof (finite_rank_range my ey Hy).
    destruct (bounded_range mx ex Hx) as (Hex & _). destruct (bounded_range my ey Hy) as (Hey & _).
    assert (Hsame : (Z.pos mx * 2 ^ (ex + 1074) ?= Z.pos my * 2 ^ (ey + 1074))
                    = match ex ?= ey with
                      | Lt => Lt
                      | Gt => Gt
                      | Eq => PosDef.Pos.compare_cont Eq mx my
                      end).
    { destruct (Z.compare_spec ex ey) as [->|Hlt|Hgt].
      - rewrite compare_cont_Eq. apply compare_scaled. apply Z.pow_pos_nonneg; lia.
      - apply Z.compare_lt_iff. by apply lower_exponent.
      - apply Z.compare_gt_iff. by apply lower_exponent. }
    destruct sx, sy; cbn [SFcompare rank cond_Zopp]; f_equal.
    + rewrite compare_opp, Hsame. by destruct (ex ?= ey).
    + symmetry. apply Z.compare_lt_iff. lia.
    + symmetry. apply Z.compare_gt_iff. lia.
    + by rewrite Hsame.
Qed.

(** *** Shifts of the mantissa *)

Lemma iter_xO (m d : positive) : Z.pos (Pos.iter xO m d) = Z.pos m * 2 ^ Z.pos d.
Proof.
  induction d as [|d IH] using Pos.peano_ind.
  - simpl. lia.
  - rewrite Pos.iter_succ, Pos2Z.inj_succ, Z.pow_succ_r by lia.
    rewrite Pos2Z.inj_xO, IH. lia.
Qed.

Lemma shl_align_value (mx : positive) (ex ez : Z) :
  ez <= ex -> Z.pos (fst (shl_align mx ex ez)) = Z.pos mx * 2 ^ (ex - ez).
Proof.
  intros Hle. unfold shl_align. destruct (ez - ex) as [|d|d] eqn:Hd.
  - replace (ex - ez) with 0 by lia. simpl. lia.
  - lia.
  - simpl fst. rewrite iter_xO. f_equal. f_equal. lia.
Qed.

Lemma shr_1_m (mrs : shr_record) :
  0 <= shr_m mrs -> shr_m (shr_1 mrs) = shr_m mrs / 2.
Proof.
  destruct mrs as [[|[p|p|]|p] r s]; simpl shr_m; intros Hm; try lia.
  - reflexivity.
  - apply Z.div_unique_pos with (r := 1); lia.
  - apply Z.div_unique_pos with (r := 0); lia.
  - reflexivity.
Qed.

Lemma pow2_xO (p : positive) : 2 ^ Z.pos p~0 = 2 ^ Z.pos p * 2 ^ Z.pos p.
Proof. rewrite <- Z.pow_add_r by lia. f_equal. lia. Qed.

Lemma pow2_xI (p : positive) : 2 ^ Z.pos p~1 = 2 * (2 ^ Z.pos p * 2 ^ Z.pos p).
Proof. rewrite <- Z.pow_add_r, <- Z.pow_succ_r by lia. f_equal. lia. Qed.

Lemma iter_pos_shr_1 (p : positive) (mrs : shr_record) :
  0 <= shr_m mrs -> shr_m (SpecFloat.iter_pos shr_1 p mrs) = shr_m mrs / 2 ^ Z.pos p.
Proof.
  revert mrs. induction p as [p IH|p IH|]; intros mrs Hm; simpl SpecFloat.iter_pos.
  - assert (H1 : 0 <= shr_m (shr_1 mrs)).
    { rewrite shr_1_m by assumption. apply Z.div_pos; lia. }
    assert (Hp : 0 < 2 ^ Z.pos p) by (apply Z.pow_pos_nonneg; lia).
    assert (H2 : 0 <= shr_m (SpecFloat.iter_pos shr_1 p (shr_1 mrs))).
    { rewrite IH by assumption. apply Z.div_pos; lia. }
    rewrite IH, IH, shr_1_m by assumption.
    rewrite !Z.div_div by lia. by rewrite pow2_xI.
  - assert (Hp : 0 < 2 ^ Z.pos p) by (apply Z.pow_pos_nonneg; lia).
    assert (H2 : 0 <= shr_m (SpecFloat.iter_pos shr_1 p mrs)).
    { rewrite IH by assumption. apply Z.div_pos; lia. }
    rewrite IH, IH by assumption.
    rewrite !Z.div_div by lia. by rewrite pow2_xO.
  - rewrite shr_1_m by assumption. reflexivity.
Qed.

Lemma shr_record_of_loc_m (m : Z) (l : location) : shr_m (shr_record_of_loc m l) = m.
Proof. by destruct l as [|[]]. Qed.

(** Rounding a positive multiple of 2^-1074 leaves a positive mantissa. *)
Lemma shr_fexp_positive (m e : Z) (l : location) :
  0 < m -> -1074 <= e ->
  0 < shr_m (fst (shr_fexp prec emax m e l)) /\ -1074 <= snd (shr_fexp prec emax m e l).
Proof.
  intros Hm He. unfold shr_fexp, shr, fexp, emin, prec, emax.
  destruct m as [|p|p]; try lia. simpl Zdigits2.
  pose proof (digits2_pos_bounds p) as [Hlo Hhi].
  set (d := Z.pos (digits2_pos p)) in *.
  destruct (Z.max (d + e - 53) (3 - 1024 - 53) - e) as [|n|n] eqn:Hn; simpl fst; simpl snd.
  - rewrite shr_record_of_loc_m. lia.
  - rewrite iter_pos_shr_1 by (rewrite shr_record_of_loc_m; lia).
    rewrite shr_record_of_loc_m. split; [|lia].
    apply Z.div_str_pos. split; [apply Z.pow_pos_nonneg; lia|].
    eapply Z.le_trans; [|exact Hlo]. apply pow2_le. lia.
  - rewrite shr_record_of_loc_m. lia.
Qed.

Lemma round_nearest_even_positive (m : Z) (l : location) :
  0 < m -> 0 < round_nearest_even m l.
Proof. intros Hm. destruct l as [|[]]; simpl; try destruct (Z.even m); lia. Qed.

Lemma binary_round_aux_signed (s : bool) (m e : Z) (l : location) :
  0 < m -> -1074 <= e -> signed s (binary_round_aux prec emax s m e l).
Proof.
  intros Hm He. unfold binary_round_aux.
  pose proof (shr_fexp_positive m e l Hm He) as [H1m H1e].
  destruct (shr_fexp prec emax m e l) as [mrs' e']. simpl in H1m, H1e.
  pose proof (shr_fexp_positive _ e' loc_Exact
                (round_nearest_even_positive _ (loc_of_shr_record mrs') H1m) H1e)
    as [H2m H2e].
  destruct (shr_fexp prec emax _ e' loc_Exact) as [mrs'' e'']. simpl in H2m, H2e.
  destruct (shr_m mrs''); try lia. by destruct (_ <=? _).
Qed.

Lemma binary_round_signed (s : bool) (m : positive) (e : Z) :
  -1074 <= e -> signed s (binary_round prec emax s m e).
Proof.
  intros He. unfold binary_round.
  destruct (shl_align m e _) as [mz ez] eqn:Halign.
  apply binary_round_aux_signed; [lia|].
  unfold shl_align in Halign.
  destruct (fexp prec emax (Z.pos (digits2_pos m) + e) - e) eqn:Hshift;
    injection Halign as <- <-; try lia.
  unfold fexp, emin, prec, emax. lia.
Qed.

Lemma cond_Zopp_mul (s : bool) (a k : Z) : cond_Zopp s a * k = cond_Zopp s (a * k).
Proof. destruct s; simpl; lia. Qed.

(** The difference of two finite numbers: zero when they are equal, and
    otherwise a number with the sign of the comparison. *)
Lemma SFsub_finite (sx sy : bool) (mx my : positive) (ex ey : Z) :
  bounded prec emax mx ex = true -> bounded prec emax my ey = true ->
  match rank (S754_finite sx mx ex) ?= rank (S754_finite sy my ey) with
  | Eq => SFsub prec emax (S754_finite sx mx ex) (S754_finite sy my ey) = S754_zero false
  | Lt => signed true (SFsub prec emax (S754_finite sx mx ex) (S754_finite sy my ey))
  | Gt => signed false (SFsub prec emax (S754_finite sx mx ex) (S754_finite sy my ey))
  end.
Proof.
  intros Hx Hy.
  destruct (bounded_range mx ex Hx) as (Hex & _).
  destruct (bounded_range my ey Hy) as (Hey & _).
  cbn [SFsub rank].
  set (ez := Z.min ex ey).
  set (D := cond_Zopp sx (Z.pos (fst (shl_align mx ex ez)))
            - cond_Zopp sy (Z.pos (fst (shl_align my ey ez)))).
  assert (Hez : -1074 <= ez) by lia.
  assert (Hk : 0 < 2 ^ (ez + 1074)) by (apply Z.pow_pos_nonneg; lia).
  assert (HD : D * 2 ^ (ez + 1074)
               = cond_Zopp sx (Z.pos mx * 2 ^ (ex + 1074))
                 - cond_Zopp sy (Z.pos my * 2 ^ (ey + 1074))).
  { unfold D. rewrite Z.mul_sub_distr_r, !cond_Zopp_mul.
    rewrite !shl_align_value by lia.
    rewrite <- !Z.mul_assoc, <- !Z.pow_add_r by lia.
    by replace (ex - ez + (ez + 1074)) with (ex + 1074) by lia;
       replace (ey - ez + (ez + 1074)) with (ey + 1074) by lia. }
  set (X := cond_Zopp sx (Z.pos mx * 2 ^ (ex + 1074))) in *.
  set (Y := cond_Zopp sy (Z.pos my * 2 ^ (ey + 1074))) in *.
  unfold binary_normalize.
  destruct (Z.compare_spec X Y) as [Heq|Hlt|Hgt].
  - assert (D = 0) as -> by nia. reflexivity.
  - destruct D as [|p|p] eqn:HDs; try nia. by apply binary_round_signed.
  - destruct D as [|p|p] eqn:HDs; try nia. by apply binary_round_signed.
Qed.

(** The sign of a difference is the comparison of its operands. *)
Lemma SFsub_sign (x y : spec_float) :
  SpecFloat.valid_binary prec emax x = true ->
  SpecFloat.valid_binary prec emax y = true ->
  is_number x -> is_number y ->
  SFltb (SFsub prec emax x y) (S754_zero false) = (rank x <? rank y)
  /\ SFltb (S754_zero false) (SFsub prec emax x y) = (rank y <? rank x).
Proof.
  intros Hx Hy Nx Ny.
  assert (Hsigned : forall r,
            (signed true r -> SFltb r (S754_zero false) = true
                              /\ SFltb (S754_zero false) r = false)
            /\ (signed false r -> SFltb r (S754_zero false) = false
                                  /\ SFltb (S754_zero false) r = true)).
  { intros [s|s| |s m e]; simpl; split; try tauto; intros ->; by split. }
  assert (Hcases : match rank x ?= rank y with
                   | Eq => SFltb (SFsub prec emax x y) (S754_zero false) = false
                           /\ SFltb (S754_zero false) (SFsub prec emax x y) = false
                   | Lt => signed true (SFsub prec emax x y)
                   | Gt => signed false (SFsub prec emax x y)
                   end).
  { destruct x as [sx|sx| |sx mx ex]; [| |by destruct Nx|];
      destruct y as [sy|sy| |sy my ey]; try (by destruct Ny); simpl in Hx, Hy.
    - by destruct sx, sy.
    - by destruct sy.
    - pose proof (finite_rank_range my ey Hy). cbn [rank SFsub].
      destruct sy; cbn [cond_Zopp negb].
      + replace (0 ?= - _) with Gt by (symmetry; apply Z.compare_gt_iff; lia). reflexivity.
      + replace (0 ?= _) with Lt by (symmetry; apply Z.compare_lt_iff; lia). reflexivity.
    - by destruct sx.
    - by destruct sx, sy.
    - pose proof (finite_rank_range my ey Hy).
      assert (0 < 2 ^ 2200) by (apply Z.pow_pos_nonneg; lia).
      cbn [rank SFsub]. destruct sx, sy; cbn [cond_Zopp].
      + replace (_ ?= _) with Lt by (symmetry; apply Z.compare_lt_iff; lia). reflexivity.
      + replace (_ ?= _) with Lt by (symmetry; apply Z.compare_lt_iff; lia). reflexivity.
      + replace (_ ?= _) with Gt by (symmetry; apply Z.compare_gt_iff; lia). reflexivity.
      + replace (_ ?= _) with Gt by (symmetry; apply Z.compare_gt_iff; lia). reflexivity.
    - pose proof (finite_rank_range mx ex Hx). cbn [rank SFsub].
      destruct sx; cbn [cond_Zopp].
      + replace (_ ?= _) with Lt by (symmetry; apply Z.compare_lt_iff; lia). reflexivity.
      + replace (_ ?= _) with Gt by (symmetry; apply Z.compare_gt_iff; lia). reflexivity.
    - pose proof (finite_rank_range mx ex Hx).
      assert (0 < 2 ^ 2200) by (apply Z.pow_pos_nonneg; lia).
      cbn [rank SFsub]. destruct sx, sy; cbn [cond_Zopp negb].
      + replace (_ ?= _) with Gt by (symmetry; apply Z.compare_gt_iff; lia). reflexivity.
      + replace (_ ?= _) with Lt by (symmetry; apply Z.compare_lt_iff; lia). reflexivity.
      + replace (_ ?= _) with Gt by (symmetry; apply Z.compare_gt_iff; lia). reflexivity.
      + replace (_ ?= _) with Lt by (symmetry; apply Z.compare_lt_iff; lia). reflexivity.
    - pose proof (SFsub_finite sx sy mx my ex ey Hx Hy) as Hfinite.
      destruct (_ ?= _); [by rewrite Hfinite|assumption|assumption]. }
  unfold Z.ltb. rewrite (Z.compare_antisym (rank x) (rank y)).
  destruct (rank x ?= rank y); simpl.
  - exact Hcases.
  - by apply Hsigned.
  - by apply Hsigned.
Qed.

(** *** The same for the primitive numbers *)

Lemma is_nan_false (x : float) : PrimFloat.is_nan x = false -> is_number (Prim2SF x).
Proof.
  unfold PrimFloat.is_nan, is_number. rewrite FloatAxioms.eqb_spec. intros Hx Hnan.
  rewrite Hnan in Hx. discriminate Hx.
Qed.

Lemma SFeqb_refl (x : spec_float) :
  SpecFloat.valid_binary prec emax x = true -> is_number x -> SFeqb x x = true.
Proof.
  intros Hx Nx. unfold SFeqb. by rewrite (SFcompare_rank x x Hx Hx Nx Nx), Z.compare_refl.
Qed.

Lemma ltb_is_number (x y : float) :
  PrimFloat.ltb x y = true -> PrimFloat.is_nan x = false /\ PrimFloat.is_nan y = false.
Proof.
  unfold PrimFloat.is_nan. rewrite ltb_spec, !FloatAxioms.eqb_spec. unfold SFltb.
  pose proof (Prim2SF_valid x) as Hx. pose proof (Prim2SF_valid y) as Hy.
  intros Hlt.
  assert (Nx : is_number (Prim2SF x)).
  { intros Hnan. rewrite Hnan in Hlt. discriminate Hlt. }
  assert (Ny : is_number (Prim2SF y)).
  { intros Hnan. rewrite Hnan in Hlt. by destruct (Prim2SF x). }
  by rewrite !SFeqb_refl.
Qed.

Lemma ltb_frank (x y : float) :
  PrimFloat.is_nan x = false -> PrimFloat.is_nan y = false ->
  PrimFloat.ltb x y = (frank x <? frank y).
Proof.
  intros Hx Hy. rewrite ltb_spec. unfold SFltb, frank, Z.ltb.
  by rewrite (SFcompare_rank _ _ (Prim2SF_valid x) (Prim2SF_valid y)
                (is_nan_false x Hx) (is_nan_false y Hy)).
Qed.

Lemma leb_frank (x y : float) :
  PrimFloat.is_nan x = false -> PrimFloat.is_nan y = false ->
  PrimFloat.leb x y = (frank x <=? frank y).
Proof.
  intros Hx Hy. rewrite leb_spec. unfold SFleb, frank, Z.leb.
  rewrite (SFcompare_rank _ _ (Prim2SF_valid x) (Prim2SF_valid y)
             (is_nan_false x Hx) (is_nan_false y Hy)).
  by destruct (_ ?= _).
Qed.

Lemma sub_sign (x y : float) :
  PrimFloat.is_nan x = false -> PrimFloat.is_nan y = false ->
  PrimFloat.ltb (x - y) 0 = (frank x <? frank y)
  /\ PrimFloat.ltb 0 (x - y) = (frank y <? frank x).
Proof.
  intros Hx Hy. rewrite !ltb_spec, sub_spec.
  change (Prim2SF 0) with (S754_zero false).
  apply SFsub_sign; auto using Prim2SF_valid, is_nan_false.
Qed.

(** ** Counters *)

Lemma uint_incr_small (n : Z) : 0 <= n < UINT_MODULUS - 1 -> uint_incr n = n + 1.
Proof. intros Hn. unfold uint_incr. apply Z.mod_small. lia. Qed.

(** ** The observer's motion *)

Lemma GestureTap_moving (md : ModelData) :
  neqb (itsUserSpeed md) 0 = true ->
  itsUserSpeed (GestureTap md) = 0%float
  /\ itsPrePauseUserSpeed (GestureTap md) = itsUserSpeed md.
Proof. intros Hmoving. unfold GestureTap. rewrite Hmoving. by split. Qed.

Lemma GestureTap_paused (md : ModelData) :
  neqb (itsUserSpeed md) 0 = false ->
  itsUserSpeed (GestureTap md) = itsPrePauseUserSpeed md
  /\ itsPrePauseUserSpeed (GestureTap md) = 0%float.
Proof. intros Hpaused. unfold GestureTap. rewrite Hpaused. by split. Qed.

(** C8.  [GestureTap] toggles between moving and paused and remembers the
    speed: in a state whose speed is not zero ([!=] of C) a tap sets the
    speed to 0 and the pre-pause speed to the old speed; in a state whose
    speed is zero a tap sets the speed to the pre-pause speed and the
    pre-pause speed to 0; so two taps from a moving state give the speed
    back.  The space type plays no part: the outcome is the same whatever
    [itsSpaceType] holds. *)
Theorem GestureTap_toggles (md : ModelData) :
  (neqb (itsUserSpeed md) 0 = true ->
     itsUserSpeed (GestureTap md) = 0%float
     /\ itsPrePauseUserSpeed (GestureTap md) = itsUserSpeed md)
  /\ (neqb (itsUserSpeed md) 0 = false ->
     itsUserSpeed (GestureTap md) = itsPrePauseUserSpeed md
     /\ itsPrePauseUserSpeed (GestureTap md) = 0%float)
  /\ (neqb (itsUserSpeed md) 0 = true ->
     itsUserSpeed (GestureTap (GestureTap md)) = itsUserSpeed md)
  /\ (forall t : SpaceType,
     let md' := mkModelData (itsChangeCount md) t (itsDrawBackHemisphere md)
                  (itsThreeSphereFlag md) (itsHorizonRadius md) (itsUserBodyPlacement md)
                  (itsUserSpeed md) (itsPrePauseUserSpeed md) (itsDirichletDomain md)
                  (itsHoneycomb md) (itsAperture md) (itsDirichletWallsMeshNeedsRefresh md)
                  (itsVertexFigureMeshNeedsReplacement md) (itsCenterpieceType md)
                  (itsRotationAngle md) (itsShowObserver md) (itsShowColorCoding md)
                  (itsCliffordMode md) (itsShowVertexFigures md) (itsFogFlag md) in
     itsUserSpeed (GestureTap md') = itsUserSpeed (GestureTap md)
     /\ itsPrePauseUserSpeed (GestureTap md') = itsPrePauseUserSpeed (GestureTap md)).
Proof.
  split; [apply GestureTap_moving|]. split; [apply GestureTap_paused|]. split.
  - intros Hmoving. destruct (GestureTap_moving md Hmoving) as [Hspeed Hkept].
    destruct (GestureTap_paused (GestureTap md)) as [Hback _].
    + rewrite Hspeed. reflexivity.
    + by rewrite Hback, Hkept.
  - intros t md'. unfold GestureTap, md'. simpl.
    destruct (neqb (itsUserSpeed md) 0); by split.
Qed.

Lemma GestureTap_toggles_witness :
  itsUserSpeed (GestureTap (GestureTap moving)) = itsUserSpeed moving.
Proof.
  destruct (GestureTap_toggles moving) as (_ & _ & Htwice & _).
  apply Htwice. reflexivity.
Defined.

Section Simulation.
Context `{LibM} `{Matrices}.

(** C9.  [SimulationUpdate] limits the frame period to [MAX_FRAME_PERIOD],
    which is 0.1: with a frame period greater than 0.1 it does what it does
    with the frame period 0.1. *)
Theorem SimulationUpdate_clamps (md : ModelData) (aFramePeriod : double) :
  gtb aFramePeriod MAX_FRAME_PERIOD = true ->
  SimulationUpdate md aFramePeriod = SimulationUpdate md MAX_FRAME_PERIOD.
Proof.
  intros Hlong. unfold SimulationUpdate. rewrite Hlong.
  replace (gtb MAX_FRAME_PERIOD MAX_FRAME_PERIOD) with false by reflexivity.
  reflexivity.
Qed.

End Simulation.

Lemma SimulationUpdate_clamps_witness :
  @SimulationUpdate Reference.libm Reference.matrices moving 0.5
  = @SimulationUpdate Reference.libm Reference.matrices moving 0.1.
Proof. apply SimulationUpdate_clamps. reflexivity. Defined.

Section ChangeCount.
Context `{LibM} `{Matrices}.

Lemma uint64_incr_lt (n : Z) :
  0 <= n < UINT64_MODULUS - 1 -> n < uint64_incr n.
Proof.
  intros Hn. unfold uint64_incr. rewrite Z.mod_small; unfold UINT64_MODULUS in *; lia.
Qed.

Lemma SimulationUpdate_itsChangeCount (md md' : ModelData) (aFramePeriod : double) :
  SimulationUpdate md aFramePeriod = Some md' ->
  itsChangeCount md' = uint64_incr (itsChangeCount md).
Proof.
  unfold SimulationUpdate, UpdateUserPlacement. intros Hrun.
  destruct (StayInDirichletDomain _ _) as [stayed|]; simpl in Hrun; [|discriminate].
  injection Hrun as <-. reflexivity.
Qed.

(** C7, as amended.  Of the operations of the gestures, the options and
    the simulation, every one but [GestureTap] adds 1 to [itsChangeCount]
    in [uint64_t] arithmetic, so the count after the call is greater than
    before unless it was 2^64 - 1; [GestureTap] leaves the count as it
    is. *)
Theorem ChangeCount_of_core_operations (op : CoreOperation) (md md' : ModelData) :
  perform op md = Some md' ->
  (is_tap op = true -> itsChangeCount md' = itsChangeCount md)
  /\ (is_tap op = false ->
      itsChangeCount md' = uint64_incr (itsChangeCount md)
      /\ (0 <= itsChangeCount md < UINT64_MODULUS - 1 ->
          itsChangeCount md < itsChangeCount md')).
Proof.
  intros Hrun.
  assert (Hcount : is_tap op = false ->
                   itsChangeCount md' = uint64_incr (itsChangeCount md)).
  { destruct op; simpl in Hrun; intros Htap; try discriminate Htap;
      try (injection Hrun as <-; reflexivity).
    eapply SimulationUpdate_itsChangeCount; eassumption. }
  split.
  - destruct op; simpl; intros Htap; try discriminate Htap.
    simpl in Hrun. injection Hrun as <-.
    unfold GestureTap. destruct (neqb _ _); reflexivity.
  - intros Htap. split; [auto|].
    intros Hrange. rewrite (Hcount Htap). by apply uint64_incr_lt.
Qed.

End ChangeCount.

(** C7, as the design document has it, fails: a tap changes the speeds of
    a moving observer, and the count stays 0. *)
Lemma GestureTap_keeps_itsChangeCount :
  ~ (forall (op : CoreOperation) (md md' : ModelData),
       @perform Reference.libm Reference.matrices op md = Some md' ->
       md' <> md -> itsChangeCount md < itsChangeCount md').
Proof.
  intros Hclaim.
  specialize (Hclaim OpGestureTap moving (GestureTap moving) eq_refl).
  assert (Hchanged : GestureTap moving <> moving).
  { intros Heq. apply (f_equal (fun md => PrimFloat.eqb (itsUserSpeed md) 0)) in Heq.
    vm_compute in Heq. discriminate Heq. }
  specialize (Hclaim Hchanged). vm_compute in Hclaim. discriminate Hclaim.
Qed.

Lemma ChangeCount_of_core_operations_witness :
  itsChangeCount (@GestureRotate Reference.libm Reference.matrices moving 0.5)
  = uint64_incr (itsChangeCount moving)
  /\ itsChangeCount moving
     < itsChangeCount (@GestureRotate Reference.libm Reference.matrices moving 0.5).
Proof.
  destruct (@ChangeCount_of_core_operations Reference.libm Reference.matrices
              (OpGestureRotate 0.5) moving _ eq_refl) as [_ Hcount].
  destruct (Hcount eq_refl) as [Hincr Hgreater].
  split; [exact Hincr|]. apply Hgreater. vm_compute. by split.
Defined.

(** ** Staying in the Dirichlet domain, and the cut that cuts nothing *)

Section StayInDomain.
Context `{Matrices}.

Lemma StayInDirichletDomain_step_reduced (f : HEFace) (aPlacement : Matrix) :
  PrimFloat.leb (theFaceValue f aPlacement) RESTORING_EPSILON = true ->
  StayInDirichletDomain_step f aPlacement = aPlacement.
Proof.
  intros Hle. unfold StayInDirichletDomain_step. by rewrite (leb_not_gtb _ _ Hle).
Qed.

Lemma StayInDirichletDomain_loop_reduced (store : gmap nat HEFace) (l : list nat)
    (aPlacement : Matrix) :
  forallb (fun p => match store !! p with
                    | Some f => PrimFloat.leb (theFaceValue f aPlacement) RESTORING_EPSILON
                    | None => false
                    end) l = true ->
  StayInDirichletDomain_loop store l aPlacement = Some aPlacement.
Proof.
  induction l as [|p l IH]; simpl; [reflexivity|].
  intros Hall. apply andb_prop in Hall as [Hp Hl].
  destruct (store !! p) as [f|]; [|discriminate Hp]. simpl.
  rewrite (StayInDirichletDomain_step_reduced _ _ Hp). auto.
Qed.

(** C3.  [StayInDirichletDomain] does nothing to a reduced placement: when
    the value of every face at the placement is at most
    [RESTORING_EPSILON], which is 1e-8, the call returns and the placement
    is the one it was given. *)
Theorem StayInDirichletDomain_idempotent (d : DirichletDomain) (aPlacement : Matrix) :
  IsReduced d aPlacement = true ->
  StayInDirichletDomain (Some d) aPlacement = Some aPlacement.
Proof.
  intros Hreduced. unfold StayInDirichletDomain.
  apply StayInDirichletDomain_loop_reduced. exact Hreduced.
Qed.

(** C10.  [IntersectWithHalfspace] with a matrix that [MatrixIsIdentity]
    accepts returns NULL, that is no error, and the polyhedron is the one
    it was given: lists, nodes and all their fields. *)
Theorem IntersectWithHalfspace_identity (d : DirichletDomain) (aMatrix : Matrix) :
  MatrixIsIdentity aMatrix = true ->
  IntersectWithHalfspace d aMatrix = Some (None, d).
Proof.
  intros Hidentity. unfold IntersectWithHalfspace.
  rewrite Hidentity. reflexivity.
Qed.

End StayInDomain.

Lemma StayInDirichletDomain_idempotent_witness :
  @StayInDirichletDomain Reference.matrices (Some cubeDomain) Reference.MatrixIdentity_model
  = Some Reference.MatrixIdentity_model.
Proof. apply StayInDirichletDomain_idempotent. vm_compute. reflexivity. Defined.

Lemma IntersectWithHalfspace_identity_witness :
  @IntersectWithHalfspace Reference.matrices cubeDomain Reference.MatrixIdentity_model
  = Some (None, cubeDomain).
Proof.
  apply (@IntersectWithHalfspace_identity Reference.matrices). vm_compute. reflexivity.
Defined.

(** ** Euler's formula *)

Lemma onVertex_lists (p : nat) (f : HEVertex -> HEVertex) (d d' : HEPolyhedron) :
  onVertex p f d = Some d' ->
  theLists d' = theLists d /\ theHalfEdges d' = theHalfEdges d /\ theFaces d' = theFaces d.
Proof.
  unfold onVertex. destruct (theVertices d !! p); simpl; [|discriminate].
  by intros [= <-].
Qed.

Lemma onHalfEdge_lists (p : nat) (f : HEHalfEdge -> HEHalfEdge) (d d' : HEPolyhedron) :
  onHalfEdge p f d = Some d' ->
  theLists d' = theLists d /\ theVertices d' = theVertices d /\ theFaces d' = theFaces d.
Proof.
  unfold onHalfEdge. destruct (theHalfEdges d !! p); simpl; [|discriminate].
  by intros [= <-].
Qed.

Lemma onFace_lists (p : nat) (f : HEFace -> HEFace) (d d' : HEPolyhedron) :
  onFace p f d = Some d' ->
  theLists d' = theLists d /\ theVertices d' = theVertices d
  /\ theHalfEdges d' = theHalfEdges d.
Proof.
  unfold onFace. destruct (theFaces d !! p); simpl; [|discriminate].
  by intros [= <-].
Qed.

Lemma NewVertex_lists (d d' : HEPolyhedron) (r : option nat) :
  NewVertex d = (r, d') ->
  theLists d' = match r with
                | Some p => (p :: itsVertexList d, itsHalfEdgeList d, itsFaceList d)
                | None => theLists d
                end.
Proof.
  unfold NewVertex, GET_MEMORY. destruct (itsFreeMemory d); by intros [= <- <-].
Qed.

Lemma NewHalfEdge_lists (d d' : HEPolyhedron) (r : option nat) :
  NewHalfEdge d = (r, d') ->
  theLists d' = match r with
                | Some p => (itsVertexList d, p :: itsHalfEdgeList d, itsFaceList d)
                | None => theLists d
                end.
Proof.
  unfold NewHalfEdge, GET_MEMORY. destruct (itsFreeMemory d); by intros [= <- <-].
Qed.

Lemma NewFace_lists (d d' : HEPolyhedron) (r : option nat) :
  NewFace d = (r, d') ->
  theLists d' = match r with
                | Some p => (itsVertexList d, itsHalfEdgeList d, p :: itsFaceList d)
                | None => theLists d
                end.
Proof.
  unfold NewFace, GET_MEMORY. destruct (itsFreeMemory d); by intros [= <- <-].
Qed.

Lemma iterM_lists {A} (f : HEPolyhedron -> A -> option HEPolyhedron) (l : list A)
    (d d' : HEPolyhedron) :
  (forall a x y, f x a = Some y -> theLists y = theLists x) ->
  iterM f l d = Some d' -> theLists d' = theLists d.
Proof.
  intros Hstep. revert d. induction l as [|a l IH]; simpl; intros d Hrun.
  - by injection Hrun as <-.
  - destruct (f d a) as [d1|] eqn:Hd1; simpl in Hrun; [|discriminate].
    rewrite (IH _ Hrun). by eapply Hstep.
Qed.

(** One step through a sequence of pointer operations: the operation at
    the head succeeded, and left the lists as they were. *)
Ltac head_of H :=
  lazymatch type of H with
  | mbind _ _ = Some _ =>
      let x := fresh "x" in
      let E := fresh "E" in
      apply bind_Some in H as (x & E & H); cbv beta in H
  | match ?m with _ => _ end = Some _ =>
      let E := fresh "E" in
      destruct m eqn:E; try discriminate H
  end.

Ltac lists_of_steps :=
  repeat match goal with
    | E : onVertex _ _ _ = Some _ |- _ => apply onVertex_lists in E as (E & _ & _)
    | E : onHalfEdge _ _ _ = Some _ |- _ => apply onHalfEdge_lists in E as (E & _ & _)
    | E : onFace _ _ _ = Some _ |- _ => apply onFace_lists in E as (E & _ & _)
    | E : NewVertex _ = _ |- _ => apply NewVertex_lists in E
    | E : NewHalfEdge _ = _ |- _ => apply NewHalfEdge_lists in E
    | E : NewFace _ = _ |- _ => apply NewFace_lists in E
    end.


Lemma NewNodes_NewVertex (n : nat) (d d' : HEPolyhedron) (ps : list nat) :
  NewNodes NewVertex n d = (Some ps, d') ->
  length (itsVertexList d') = (n + length (itsVertexList d))%nat
  /\ itsHalfEdgeList d' = itsHalfEdgeList d /\ itsFaceList d' = itsFaceList d.
Proof.
  revert d ps. induction n as [|n IH]; simpl; intros d ps Hrun.
  - by injection Hrun as <- <-.
  - destruct (NewVertex d) as [[p|] d1] eqn:Hnew; [|discriminate Hrun].
    destruct (NewNodes NewVertex n d1) as [[qs|] d2] eqn:Hmore; [|discriminate Hrun].
    injection Hrun as <- <-. destruct (IH _ _ Hmore) as (Hv & -> & ->).
    apply NewVertex_lists in Hnew. unfold theLists in Hnew. simplify_eq.
    rewrite Hv. repeat split; try congruence.
    replace (itsVertexList d1) with (p :: itsVertexList d) by congruence. simpl. lia.
Qed.

Lemma NewNodes_NewHalfEdge (n : nat) (d d' : HEPolyhedron) (ps : list nat) :
  NewNodes NewHalfEdge n d = (Some ps, d') ->
  length (itsHalfEdgeList d') = (n + length (itsHalfEdgeList d))%nat
  /\ itsVertexList d' = itsVertexList d /\ itsFaceList d' = itsFaceList d.
Proof.
  revert d ps. induction n as [|n IH]; simpl; intros d ps Hrun.
  - by injection Hrun as <- <-.
  - destruct (NewHalfEdge d) as [[p|] d1] eqn:Hnew; [|discriminate Hrun].
    destruct (NewNodes NewHalfEdge n d1) as [[qs|] d2] eqn:Hmore; [|discriminate Hrun].
    injection Hrun as <- <-. destruct (IH _ _ Hmore) as (Hv & -> & ->).
    apply NewHalfEdge_lists in Hnew. unfold theLists in Hnew. simplify_eq.
    rewrite Hv. repeat split; try congruence.
    replace (itsHalfEdgeList d1) with (p :: itsHalfEdgeList d) by congruence. simpl. lia.
Qed.

Lemma NewNodes_NewFace (n : nat) (d d' : HEPolyhedron) (ps : list nat) :
  NewNodes NewFace n d = (Some ps, d') ->
  length (itsFaceList d') = (n + length (itsFaceList d))%nat
  /\ itsVertexList d' = itsVertexList d /\ itsHalfEdgeList d' = itsHalfEdgeList d.
Proof.
  revert d ps. induction n as [|n IH]; simpl; intros d ps Hrun.
  - by injection Hrun as <- <-.
  - destruct (NewFace d) as [[p|] d1] eqn:Hnew; [|discriminate Hrun].
    destruct (NewNodes NewFace n d1) as [[qs|] d2] eqn:Hmore; [|discriminate Hrun].
    injection Hrun as <- <-. destruct (IH _ _ Hmore) as (Hv & -> & ->).
    apply NewFace_lists in Hnew. unfold theLists in Hnew. simplify_eq.
    rewrite Hv. repeat split; try congruence.
    replace (itsFaceList d1) with (p :: itsFaceList d) by congruence. simpl. lia.
Qed.

Lemma EulerSum_lists (d d' : HEPolyhedron) :
  theLists d' = theLists d -> EulerSum d' = EulerSum d.
Proof.
  unfold theLists, EulerSum, NumVertices, NumHalfEdges, NumFaces.
  by intros [= -> -> ->].
Qed.

(** A loop body made of pointer operations leaves the lists alone. *)
Ltac body_keeps_lists :=
  let a := fresh "a" in
  let Hs := fresh "Hs" in
  intros a ? ? Hs; try destruct a; repeat head_of Hs; lists_of_steps; congruence.

Ltac loops_keep_lists :=
  repeat match goal with
    | E : iterM _ _ _ = Some _ |- _ => apply iterM_lists in E; [|body_keeps_lists]
    end.

Section Cuts.
Context `{LibM} `{Matrices} `{Colors}.

Lemma MakeBanana_Euler (memory : nat) (A B C : Matrix) (d : HEPolyhedron) :
  MakeBanana memory A B C None = Some (None, Some d) -> SatisfiesEuler d.
Proof.
  unfold MakeBanana. intros Hrun. destruct memory as [|memory]; [discriminate Hrun|].
  destruct (NewNodes NewVertex 2 _) as [[vs|] d1] eqn:Hv; [|discriminate Hrun].
  destruct (NewNodes NewHalfEdge 6 d1) as [[es|] d2] eqn:He; [|discriminate Hrun].
  destruct (NewNodes NewFace 3 d2) as [[fs|] d3] eqn:Hf; [|discriminate Hrun].
  apply NewNodes_NewVertex in Hv as (Hv1 & Hv2 & Hv3).
  apply NewNodes_NewHalfEdge in He as (He1 & He2 & He3).
  apply NewNodes_NewFace in Hf as (Hf1 & Hf2 & Hf3).
  repeat head_of Hrun. injection Hrun as <-.
  loops_keep_lists. lists_of_steps.
  unfold SatisfiesEuler, EulerSum, NumVertices, NumHalfEdges, NumFaces.
  match goal with
  | |- context [itsVertexList ?y] => assert (Hlists : theLists y = theLists d3) by congruence
  end.
  unfold theLists in Hlists. injection Hlists as Ha Hb Hc.
  rewrite Ha, Hb, Hc, Hf1, Hf2, Hf3, He1, He2, He3, Hv1, Hv2, Hv3. reflexivity.
Qed.

Lemma MakeLens_Euler (memory : nat) (A B : Matrix) (d : HEPolyhedron) :
  MakeLens memory A B None = Some (None, Some d) -> SatisfiesEuler d.
Proof.
  unfold MakeLens. intros Hrun.
  apply bind_Some in Hrun as ([e|n] & _ & Hrun); [discriminate Hrun|].
  destruct memory as [|memory]; [discriminate Hrun|].
  destruct (GET_MEMORY (emptyPolyhedron memory)) as [[a|] d0] eqn:Hm0; [|discriminate Hrun].
  destruct (NewNodes NewVertex _ d0) as [[vs|] d1] eqn:Hv; [|discriminate Hrun].
  destruct (GET_MEMORY d1) as [[a1|] d1'] eqn:Hm1; [|discriminate Hrun].
  destruct (NewNodes NewHalfEdge _ d1') as [[es|] d2] eqn:He; [|discriminate Hrun].
  destruct (NewNodes NewFace 2 d2) as [[fs|] d3] eqn:Hf; [|discriminate Hrun].
  apply NewNodes_NewVertex in Hv as (Hv1 & Hv2 & Hv3).
  apply NewNodes_NewHalfEdge in He as (He1 & He2 & He3).
  apply NewNodes_NewFace in Hf as (Hf1 & Hf2 & Hf3).
  repeat head_of Hrun. injection Hrun as <-.
  loops_keep_lists. lists_of_steps.
  unfold SatisfiesEuler, EulerSum, NumVertices, NumHalfEdges, NumFaces. simpl.
  match goal with
  | |- context [itsVertexList ?y] => assert (Hlists : theLists y = theLists d3) by congruence
  end.
  assert (H0lists : theLists d0 = ([], [], [])).
  { unfold GET_MEMORY in Hm0. simpl in Hm0. destruct memory; by injection Hm0 as _ <-. }
  assert (H1lists : theLists d1' = theLists d1).
  { unfold GET_MEMORY in Hm1. destruct (itsFreeMemory d1); by injection Hm1 as _ <-. }
  unfold theLists in Hlists, H0lists, H1lists.
  injection Hlists as Ha Hb Hc. injection H0lists as Ha0 Hb0 Hc0.
  injection H1lists as Ha1 Hb1 Hc1.
  rewrite Ha, Hb, Hc, Hf1, Hf2, Hf3, He1, He2, He3, Ha1, Hb1, Hc1, Hv1, Hv2, Hv3,
    Ha0, Hb0, Hc0. simpl. lia.
Qed.

(** What one [SplitEdge] adds: nothing, or a vertex and two half edges. *)
Lemma SplitEdge_lists (theHalfspace : Vector) (e : nat) (d d' : HEPolyhedron) :
  SplitEdge theHalfspace e d = Some (None, d') ->
  theLists d' = theLists d
  \/ exists v a b, theLists d'
       = (v :: itsVertexList d, a :: b :: itsHalfEdgeList d, itsFaceList d).
Proof.
  unfold SplitEdge. intros Hrun.
  do 5 head_of Hrun.
  destruct x3; [|injection Hrun as <-; by left].
  destruct (NewVertex d) as [[vn|] d1] eqn:Hv; [|discriminate Hrun].
  do 6 head_of Hrun.
  destruct (NewHalfEdge _) as [[ea|] d2] eqn:Ha; [|discriminate Hrun].
  destruct (NewHalfEdge d2) as [[eb|] d3] eqn:Hb; [|discriminate Hrun].
  repeat head_of Hrun. injection Hrun as <-.
  lists_of_steps. right. exists vn, eb, ea.
  unfold theLists in *. simplify_eq. congruence.
Qed.

Lemma SetFaceAround_lists (fuel : nat) (d d' : HEPolyhedron) (start e f : nat) :
  SetFaceAround fuel d start e f = Some d' -> theLists d' = theLists d.
Proof.
  revert d e. induction fuel as [|fuel IH]; simpl; intros d e Hrun; [discriminate|].
  do 2 head_of Hrun. lists_of_steps.
  destruct (decide (x0 = start)).
  - injection Hrun as <-. assumption.
  - rewrite (IH _ _ Hrun). assumption.
Qed.

(** What one [SplitFace] adds: nothing, or two half edges and a face. *)
Lemma SplitFace_lists (f : nat) (d d' : HEPolyhedron) :
  SplitFace f d = Some (None, d') ->
  theLists d' = theLists d
  \/ exists a b g, theLists d'
       = (itsVertexList d, a :: b :: itsHalfEdgeList d, g :: itsFaceList d).
Proof.
  unfold SplitFace. intros Hrun.
  do 3 head_of Hrun.
  destruct x1 as [[theGoingOutEdge|] [theGoingInEdge|]];
    try (injection Hrun as <-; by left).
  destruct (NewHalfEdge d) as [[ea|] d1] eqn:Ha; [|discriminate Hrun].
  destruct (NewHalfEdge d1) as [[eb|] d2] eqn:Hb; [|discriminate Hrun].
  destruct (NewFace d2) as [[g|] d3] eqn:Hg; [|discriminate Hrun].
  repeat head_of Hrun. injection Hrun as <-.
  match goal with E : SetFaceAround _ _ _ _ _ = Some _ |- _ =>
    apply SetFaceAround_lists in E end.
  lists_of_steps. right. exists eb, ea, g.
  unfold theLists in *. simplify_eq. congruence.
Qed.

Lemma forEach_EulerSum (body : nat -> HEPolyhedron -> option (ErrorText * HEPolyhedron))
    (l : list nat) (d d' : HEPolyhedron) :
  (forall p x y, body p x = Some (None, y) -> EulerSum y = EulerSum x) ->
  forEach body l d = Some (None, d') -> EulerSum d' = EulerSum d.
Proof.
  intros Hbody. revert d. induction l as [|p l IH]; simpl; intros d Hrun.
  - by injection Hrun as <-.
  - apply bind_Some in Hrun as ([[e|] d1] & Hstep & Hrun); [discriminate Hrun|].
    rewrite (IH _ Hrun). by eapply Hbody.
Qed.

Lemma EulerSum_cons (d d' : HEPolyhedron) :
  (exists v a b, theLists d'
     = (v :: itsVertexList d, a :: b :: itsHalfEdgeList d, itsFaceList d))
  \/ (exists a b g, theLists d'
     = (itsVertexList d, a :: b :: itsHalfEdgeList d, g :: itsFaceList d)) ->
  EulerSum d' = EulerSum d.
Proof.
  unfold theLists, EulerSum, NumVertices, NumHalfEdges, NumFaces.
  intros [(v & a & b & [= -> -> ->])|(a & b & g & [= -> -> ->])]; simpl length; lia.
Qed.

Lemma ClassifyVertices_lists (theHalfspace : Vector) (d d' : HEPolyhedron) (b : bool) :
  ClassifyVertices theHalfspace d = Some (b, d') -> theLists d' = theLists d.
Proof.
  unfold ClassifyVertices.
  assert (Hloop : forall l st st',
    iterM (fun st p =>
             let '(theCutIsNontrivial, d) := st in
             v ← theVertices d !! p;
             let s := ClassifyVertex theHalfspace v in
             d' ← onVertex p (with_itsHalfspaceStatus s) d;
             Some (theCutIsNontrivial || bool_decide (s = VertexOutsideHalfspace), d'))
          l st = Some st' -> theLists (snd st') = theLists (snd st)).
  { induction l as [|p l IH]; simpl; intros st st' Hrun.
    - by injection Hrun as <-.
    - apply bind_Some in Hrun as (st1 & Hstep & Hrun). rewrite (IH _ _ Hrun).
      destruct st as [c x]. do 2 head_of Hstep. injection Hstep as <-.
      lists_of_steps. assumption. }
  intros Hrun. apply (Hloop _ _ _ Hrun).
Qed.

Lemma AdvanceOutbound_lists (fuel : nat) (d d' : HEPolyhedron) (v : nat) :
  AdvanceOutbound fuel d v = Some d' -> theLists d' = theLists d.
Proof.
  revert d. induction fuel as [|fuel IH]; simpl; intros d Hrun; [discriminate|].
  do 3 head_of Hrun. destruct x1; [|by injection Hrun as <-].
  do 3 head_of Hrun. lists_of_steps. rewrite (IH _ Hrun). assumption.
Qed.

Lemma AdvanceCycle_lists (fuel : nat) (d d' : HEPolyhedron) (e : nat) :
  AdvanceCycle fuel d e = Some d' -> theLists d' = theLists d.
Proof.
  revert d. induction fuel as [|fuel IH]; simpl; intros d Hrun; [discriminate|].
  do 2 head_of Hrun. destruct x0; [|by injection Hrun as <-].
  do 3 head_of Hrun. lists_of_steps. rewrite (IH _ Hrun). assumption.
Qed.

Lemma MarkHalfEdge_lists (d d' : HEPolyhedron) (e : nat) :
  MarkHalfEdge d e = Some d' ->
  theLists d' = theLists d /\ theVertices d' = theVertices d.
Proof.
  unfold MarkHalfEdge. intros Hrun. do 2 head_of Hrun. destruct x0.
  - do 2 head_of Hrun.
    apply onHalfEdge_lists in E1 as (? & ? & ?). apply onFace_lists in Hrun as (? & ? & ?).
    split; congruence.
  - apply onHalfEdge_lists in Hrun as (? & ? & ?). by split.
Qed.

Lemma KeepOutboundAlive_lists (d d' : HEPolyhedron) (v : nat) :
  KeepOutboundAlive d v = Some d' -> theLists d' = theLists d.
Proof.
  unfold KeepOutboundAlive. intros Hrun. head_of Hrun.
  destruct (decide _); [by eapply AdvanceOutbound_lists|by injection Hrun as <-].
Qed.

Lemma InstallNewFace_lists (g : nat) (d d' : HEPolyhedron) (e : nat) :
  InstallNewFace g d e = Some d' -> theLists d' = theLists d.
Proof.
  unfold InstallNewFace. intros Hrun. head_of Hrun.
  destruct x; [by injection Hrun as <-|]. do 2 head_of Hrun.
  destruct (HEFace_itsDeletionFlag x0); [|by injection Hrun as <-].
  do 2 head_of Hrun. apply AdvanceCycle_lists in Hrun. lists_of_steps. congruence.
Qed.

(** The three deletion walks keep the nodes that are not marked. *)
Lemma DeleteVertices_filter (m : HEPolyhedron) (l l' : list nat) (d d' : HEPolyhedron) :
  theVertices d ⊆ theVertices m ->
  DeleteVertices l d = Some (l', d') ->
  l' = filter (fun p => statusOf m p <> Some VertexOutsideHalfspace) l
  /\ theLists d' = theLists d /\ theHalfEdges d' = theHalfEdges d
  /\ theFaces d' = theFaces d.
Proof.
  revert l' d. induction l as [|p l IH]; simpl; intros l' d Hsub Hrun.
  - by injection Hrun as <- <-.
  - apply bind_Some in Hrun as (s & Hs & Hrun).
    assert (Hm : statusOf m p = Some s).
    { unfold statusOf in *. apply bind_Some in Hs as (v & Hv & Hs).
      by rewrite (lookup_weaken _ _ _ _ Hv Hsub). }
    destruct (decide (s = VertexOutsideHalfspace)) as [->|Hne].
    + rewrite filter_cons_False by (rewrite Hm; tauto).
      apply IH in Hrun; [exact Hrun|].
      simpl. etransitivity; [apply delete_subseteq|exact Hsub].
    + rewrite filter_cons_True by (rewrite Hm; congruence).
      apply bind_Some in Hrun as ([l1 d1] & Hrest & Hrun). injection Hrun as <- <-.
      destruct (IH _ _ Hsub Hrest) as (-> & ? & ? & ?). by repeat split.
Qed.

Lemma DeleteHalfEdges_filter (m : HEPolyhedron) (l l' : list nat) (d d' : HEPolyhedron) :
  theHalfEdges d ⊆ theHalfEdges m ->
  DeleteHalfEdges l d = Some (l', d') ->
  l' = filter (fun p => flagOf m p <> Some true) l
  /\ theLists d' = theLists d /\ theVertices d' = theVertices d
  /\ theFaces d' = theFaces d.
Proof.
  revert l' d. induction l as [|p l IH]; simpl; intros l' d Hsub Hrun.
  - by injection Hrun as <- <-.
  - apply bind_Some in Hrun as (s & Hs & Hrun).
    assert (Hm : flagOf m p = Some s).
    { unfold flagOf in *. apply bind_Some in Hs as (v & Hv & Hs).
      by rewrite (lookup_weaken _ _ _ _ Hv Hsub). }
    destruct s.
    + rewrite filter_cons_False by (rewrite Hm; tauto).
      apply IH in Hrun; [exact Hrun|].
      simpl. etransitivity; [apply delete_subseteq|exact Hsub].
    + rewrite filter_cons_True by (rewrite Hm; congruence).
      apply bind_Some in Hrun as ([l1 d1] & Hrest & Hrun). injection Hrun as <- <-.
      destruct (IH _ _ Hsub Hrest) as (-> & ? & ? & ?). by repeat split.
Qed.

Lemma DeleteFaces_filter (m : HEPolyhedron) (l l' : list nat) (d d' : HEPolyhedron) :
  theFaces d ⊆ theFaces m ->
  DeleteFaces l d = Some (l', d') ->
  l' = filter (fun p => HEFace_itsDeletionFlag <$> theFaces m !! p <> Some true) l
  /\ theLists d' = theLists d /\ theVertices d' = theVertices d
  /\ theHalfEdges d' = theHalfEdges d.
Proof.
  revert l' d. induction l as [|p l IH]; simpl; intros l' d Hsub Hrun.
  - by injection Hrun as <- <-.
  - apply bind_Some in Hrun as (F & HF & Hrun).
    assert (Hm : theFaces m !! p = Some F) by (by eapply lookup_weaken).
    destruct (HEFace_itsDeletionFlag F) eqn:Hflag.
    + rewrite filter_cons_False by (rewrite Hm; simpl; rewrite Hflag; tauto).
      apply IH in Hrun; [exact Hrun|].
      simpl. etransitivity; [apply delete_subseteq|exact Hsub].
    + rewrite filter_cons_True by (rewrite Hm; simpl; rewrite Hflag; congruence).
      apply bind_Some in Hrun as ([l1 d1] & Hrest & Hrun). injection Hrun as <- <-.
      destruct (IH _ _ Hsub Hrest) as (-> & ? & ? & ?). by repeat split.
Qed.

Lemma IntersectWithHalfspace_stages (d d' : HEPolyhedron) (aMatrix : Matrix) :
  IntersectWithHalfspace d aMatrix = Some (None, d') ->
  (MarkedCut d aMatrix = None /\ theLists d' = theLists d)
  \/ exists m, MarkedCut d aMatrix = Some m /\ DeleteMarked m = Some d'
       /\ EulerSum m = EulerSum d + 2 /\ DeletionOf m d'.
Proof.
  unfold IntersectWithHalfspace, MarkedCut. intros Hrun.
  destruct (MatrixIsIdentity aMatrix); [injection Hrun as <-; by left|].
  apply bind_Some in Hrun as ([theCutIsNontrivial d0] & Hclassify & Hrun).
  rewrite Hclassify. cbn [mbind option_bind].
  apply ClassifyVertices_lists in Hclassify.
  destruct theCutIsNontrivial; cbn [negb] in *; [|injection Hrun as <-; by left].
  apply bind_Some in Hrun as ([[e|] d1] & Hedges & Hrun); [discriminate Hrun|].
  rewrite Hedges. cbn [mbind option_bind].
  apply bind_Some in Hrun as ([[e|] d2] & Hfaces & Hrun); [discriminate Hrun|].
  rewrite Hfaces. cbn [mbind option_bind].
  destruct (NewFace d2) as [[theNewFace|] d3] eqn:Hnew; [|discriminate Hrun].
  apply forEach_EulerSum in Hedges; cycle 1.
  { intros p x y Hstep. destruct (SplitEdge_lists _ _ _ _ Hstep) as [Hsame|Hmore].
    - by apply EulerSum_lists.
    - apply EulerSum_cons. by left. }
  apply forEach_EulerSum in Hfaces; cycle 1.
  { intros p x y Hstep. destruct (SplitFace_lists _ _ _ Hstep) as [Hsame|Hmore].
    - by apply EulerSum_lists.
    - apply EulerSum_cons. by right. }
  apply NewFace_lists in Hnew.
  apply bind_Some in Hrun as (d4 & Hclear & Hrun). rewrite Hclear. cbn [mbind option_bind].
  apply bind_Some in Hrun as (d5 & Hmark & Hrun). rewrite Hmark. cbn [mbind option_bind].
  apply bind_Some in Hrun as (d6 & Hkeep & Hrun). rewrite Hkeep. cbn [mbind option_bind].
  apply bind_Some in Hrun as (d7 & Hinstall & Hrun). rewrite Hinstall. cbn [mbind option_bind].
  apply bind_Some in Hrun as (d8 & Hhalfspace & Hrun). rewrite Hhalfspace.
  cbn [mbind option_bind].
  apply bind_Some in Hrun as (m & Hmatrix & Hrun). rewrite Hmatrix.
  apply iterM_lists in Hclear; [|body_keeps_lists].
  apply iterM_lists in Hmark; [|intros a x y Hs; by apply MarkHalfEdge_lists in Hs as [? _]].
  apply iterM_lists in Hkeep; [|intros a x y Hs; by apply KeepOutboundAlive_lists in Hs].
  apply iterM_lists in Hinstall; [|intros a x y Hs; by apply InstallNewFace_lists in Hs].
  lists_of_steps.
  right. exists m. split; [reflexivity|].
  assert (Hdelete : DeleteMarked m = Some d').
  { unfold DeleteMarked.
    apply bind_Some in Hrun as (r1 & -> & Hrun). cbn [mbind option_bind].
    apply bind_Some in Hrun as (r2 & -> & Hrun). cbn [mbind option_bind].
    apply bind_Some in Hrun as (r3 & -> & Hrun). cbn [mbind option_bind].
    by injection Hrun as <-. }
  split; [exact Hdelete|].
  apply bind_Some in Hrun as ([vl m1] & Hvertices & Hrun). simpl in Hrun.
  apply bind_Some in Hrun as ([hl m2] & Hhalfedges & Hrun). simpl in Hrun.
  apply bind_Some in Hrun as ([fl m3] & Hfacelist & Hrun). simpl in Hrun.
  injection Hrun as <-.
  apply (DeleteVertices_filter m) in Hvertices as (-> & Hl1 & He1 & Hf1); [|done].
  apply (DeleteHalfEdges_filter m) in Hhalfedges as (-> & Hl2 & Hv2 & Hf2);
    [|simpl; by rewrite He1].
  simpl in Hf2.
  apply (DeleteFaces_filter m) in Hfacelist as (-> & Hl3 & Hv3 & He3);
    [|simpl; by rewrite Hf2, Hf1].
  split.
  - assert (Hm : theLists m = theLists d3) by congruence.
    rewrite (EulerSum_lists _ _ Hm), <- (EulerSum_lists _ _ Hclassify), <- Hedges, <- Hfaces.
    unfold theLists, EulerSum, NumVertices, NumHalfEdges, NumFaces in *.
    injection Hnew as -> -> ->. simpl length. lia.
  - unfold theLists in Hl1, Hl2, Hl3. simpl in Hl2, Hl3.
    injection Hl1 as Hv1' He1' Hf1'. injection Hl2 as Hv2' He2' Hf2'.
    injection Hl3 as Hv3' He3' Hf3'.
    unfold DeletionOf. simpl. repeat split; congruence.
Qed.

(** V - E + F = 2 holds for the banana and for the lens that a construction
    starts from.  A call of [IntersectWithHalfspace] on a polyhedron with
    V - E + F = 2 that returns without an error either returns before it
    changes a list (the matrix is the identity, or no vertex lies outside
    the halfspace), or it goes through its two parts.  The first part,
    [MarkedCut], adds nodes that raise V - E + F by one (a vertex with the
    edge it splits, an edge with the face it splits, and the new face) and
    marks nodes.  The second part, [DeleteMarked], deletes the marked
    nodes: the vertices outside the halfspace and the half edges and faces
    flagged for deletion.  So after the cut the formula holds if and only
    if the vertices, edges and faces that the second part deletes from the
    result of the first have V - E + F = 1. *)
Theorem IntersectWithHalfspace_Euler :
  (forall (memory : nat) (A B C : Matrix) (d : DirichletDomain),
     MakeBanana memory A B C None = Some (None, Some d) -> SatisfiesEuler d)
  /\ (forall (memory : nat) (A B : Matrix) (d : DirichletDomain),
     MakeLens memory A B None = Some (None, Some d) -> SatisfiesEuler d)
  /\ (forall (d d' : DirichletDomain) (aMatrix : Matrix),
     SatisfiesEuler d ->
     IntersectWithHalfspace d aMatrix = Some (None, d') ->
     (MarkedCut d aMatrix = None /\ theLists d' = theLists d /\ SatisfiesEuler d')
     \/ exists m : HEPolyhedron,
          MarkedCut d aMatrix = Some m /\ DeleteMarked m = Some d'
          /\ EulerSum m = 6 /\ DeletionOf m d'
          /\ (SatisfiesEuler d'
              <-> 2 * (NumVertices m - NumVertices d')
                  - (NumHalfEdges m - NumHalfEdges d')
                  + 2 * (NumFaces m - NumFaces d') = 2)).
Proof.
  split; [exact MakeBanana_Euler|]. split; [exact MakeLens_Euler|].
  intros d d' aMatrix Heuler Hcut.
  destruct (IntersectWithHalfspace_stages d d' aMatrix Hcut)
    as [[Hnone Hsame]|(m & Hmarked & Hdelete & Hm & Hdeleted)].
  - left. split; [assumption|]. split; [assumption|]. unfold SatisfiesEuler.
    by rewrite (EulerSum_lists _ _ Hsame).
  - right. exists m. unfold SatisfiesEuler in *. rewrite Heuler in Hm.
    split; [exact Hmarked|]. split; [exact Hdelete|].
    split; [exact Hm|]. split; [exact Hdeleted|].
    unfold EulerSum in *. lia.
Qed.

End Cuts.

(** The condition on the deleted part is not vacuous.  On the reference
    arithmetic and on a list of matrices that is the list of no holonomy
    group (five translations by multiples of 1000.1, far beyond every
    tiling radius, without their inverses), the construction succeeds and
    returns a polyhedron with 8 vertices, 11 edges and 6 faces.  At this
    size the rounding errors of the halfspace equation exceed
    [VERTEX_HALFSPACE_EPSILON], and a vertex that lies on the cutting plane
    is taken to lie outside it. *)
Lemma far_generators_leave_Euler :
  exists d : DirichletDomain,
    @ConstructDirichletDomain Reference.libm Reference.matrices Reference.colors
      1000 (Some farGenerators) None = Some (None, Some d)
    /\ NumVertices d = 8 /\ NumHalfEdges d = 22 /\ NumFaces d = 6
    /\ ~ SatisfiesEuler d.
Proof.
  eexists. split; [vm_compute; reflexivity|].
  repeat split; try (vm_compute; reflexivity).
  intros Heuler. vm_compute in Heuler. discriminate Heuler.
Qed.

Lemma IntersectWithHalfspace_Euler_witness :
  SatisfiesEuler cubeBanana
  /\ ((@MarkedCut Reference.matrices cubeBanana (flatTranslation 0 0 1) = None
       /\ theLists cubeBananaCut = theLists cubeBanana /\ SatisfiesEuler cubeBananaCut)
      \/ exists m : HEPolyhedron,
           @MarkedCut Reference.matrices cubeBanana (flatTranslation 0 0 1) = Some m
           /\ DeleteMarked m = Some cubeBananaCut
           /\ EulerSum m = 6 /\ DeletionOf m cubeBananaCut
           /\ (SatisfiesEuler cubeBananaCut
               <-> 2 * (NumVertices m - NumVertices cubeBananaCut)
                   - (NumHalfEdges m - NumHalfEdges cubeBananaCut)
                   + 2 * (NumFaces m - NumFaces cubeBananaCut) = 2)).
Proof.
  destruct (@IntersectWithHalfspace_Euler Reference.libm Reference.matrices)
    as (Hbanana & _ & Hcut).
  assert (Hseed : SatisfiesEuler cubeBanana).
  { apply (Hbanana 1000%nat (flatTranslation 1 0 0) (flatTranslation (-1) 0 0)
             (flatTranslation 0 1 0)).
    vm_compute. reflexivity. }
  split; [exact Hseed|].
  apply (Hcut cubeBanana cubeBananaCut (flatTranslation 0 0 1) Hseed).
  vm_compute. reflexivity.
Defined.

(** ** Short lists of matrices *)

Section Construct.
Context `{LibM} `{Matrices} `{Colors}.

(** C2, as amended.  The special case is decided by the number of
    matrices in the list, the identity included: with fewer than 3
    matrices [ConstructDirichletDomain] returns no error and leaves the
    output location NULL when there is a matrix at all, and returns the
    error about no matrices when the list is empty.  For the list that
    holds one matrix, the identity say, it returns no error and no
    polyhedron. *)
Theorem ConstructDirichletDomain_few_matrices (memory : nat) (G : MatrixList) :
  itsNumMatrices G < 3 ->
  ConstructDirichletDomain memory (Some G) None
  = (if 0 <? itsNumMatrices G
     then Some (None, None)
     else Some (Some "ConstructDirichletDomain() received no matrices."%string, None))
  /\ (forall M : Matrix,
        G = [M] -> ConstructDirichletDomain memory (Some G) None = Some (None, None)).
Proof.
  intros Hfew.
  assert (Hshort : ConstructDirichletDomain memory (Some G) None
                   = if 0 <? itsNumMatrices G
                     then Some (None, None)
                     else Some (Some "ConstructDirichletDomain() received no matrices."%string,
                                None)).
  { unfold ConstructDirichletDomain.
    destruct (itsNumMatrices G <? 3) eqn:Hlt; [reflexivity|].
    apply Z.ltb_ge in Hlt. lia. }
  split; [exact Hshort|].
  intros M HG. rewrite Hshort, HG. reflexivity.
Qed.

End Construct.

(** C2, as the design document has it, fails: the identity, a hyperbolic
    translation and its inverse are 3 matrices, 2 of them not the identity,
    and the construction goes on to [MakeLens], which returns the error
    about hyperbolic slab spaces. *)
Lemma ConstructDirichletDomain_two_generators :
  ~ @FewNonIdentityMatricesClaim Reference.libm Reference.matrices Reference.colors 100
      [Reference.MatrixIdentity_model; hyperbolicTranslation; hyperbolicTranslationBack].
Proof.
  unfold FewNonIdentityMatricesClaim. intros Hclaim.
  destruct Hclaim as [Htrivial|[Hempty _]].
  - vm_compute. reflexivity.
  - vm_compute in Htrivial. discriminate Htrivial.
  - discriminate Hempty.
Qed.

Lemma ConstructDirichletDomain_few_matrices_witness :
  @ConstructDirichletDomain Reference.libm Reference.matrices Reference.colors
    100 (Some [Reference.MatrixIdentity_model]) None = Some (None, None).
Proof.
  destruct (@ConstructDirichletDomain_few_matrices Reference.libm Reference.matrices
              Reference.colors 100 [Reference.MatrixIdentity_model])
    as [_ Hone].
  - vm_compute. reflexivity.
  - apply (Hone Reference.MatrixIdentity_model). reflexivity.
Defined.

(** ** Face pairing *)

Section FaceColors.
Context `{LibM} `{Matrices} `{Colors}.

Lemma onFace_store (p : nat) (f : HEFace -> HEFace) (d d1 : HEPolyhedron) :
  onFace p f d = Some d1 ->
  exists F, theFaces d !! p = Some F
            /\ theFaces d1 = <[p := f F]> (theFaces d)
            /\ itsFaceList d1 = itsFaceList d.
Proof.
  unfold onFace. destruct (theFaces d !! p) as [F|]; simpl; [|discriminate].
  intros [= <-]. by exists F.
Qed.

Lemma FindMate_store (d d1 : HEPolyhedron) (M : Matrix) (l : list nat) :
  (forall p, HEFace_itsMatrix <$> theFaces d1 !! p = HEFace_itsMatrix <$> theFaces d !! p) ->
  FindMate d1 M l = FindMate d M l.
Proof.
  intros Hsame. induction l as [|q l IH]; simpl; [reflexivity|].
  specialize (Hsame q).
  destruct (theFaces d1 !! q) as [Q1|], (theFaces d !! q) as [Q|];
    simpl in *; try discriminate; [|reflexivity].
  injection Hsame as ->. by rewrite IH.
Qed.

Lemma drop_cons_lookup {A} (l : list A) (k : nat) (p : A) (rest : list A) :
  drop k l = p :: rest -> l !! k = Some p /\ drop (S k) l = rest /\ (k < length l)%nat.
Proof.
  intros Hdrop.
  assert (Hk : l !! k = Some p).
  { rewrite <- (Nat.add_0_r k), <- lookup_drop, Hdrop. reflexivity. }
  split; [assumption|]. split; [|by eapply lookup_lt_Some].
  rewrite (drop_S _ _ _ Hk) in Hdrop. by injection Hdrop.
Qed.

Lemma FindMate_first (d : HEPolyhedron) (F : HEFace) (l : list nat) (k : nat)
    (r : option nat) :
  FindMate d (MatrixGeometricInverse (HEFace_itsMatrix F)) (drop (S k) l) = Some r ->
  exists mate, FirstMatch (theFaces d) F l k mate
               /\ r = (fun x : nat * nat * HEFace => snd (fst x)) <$> mate.
Proof.
  remember (drop (S k) l) as rest eqn:Hrest. revert k Hrest.
  induction rest as [|a rest IH]; simpl; intros k Hrest.
  - intros [= <-]. exists None. split; [|reflexivity].
    intros j' q' Q' Hlt Hj'. exfalso.
    assert (Hlen : (length l <= S k)%nat).
    { apply (f_equal length) in Hrest. rewrite length_drop in Hrest. simpl in Hrest. lia. }
    apply lookup_lt_Some in Hj'. lia.
  - symmetry in Hrest. destruct (drop_cons_lookup _ _ _ _ Hrest) as (Ha & Hrest' & Hlt).
    destruct (theFaces d !! a) as [A|] eqn:HA; simpl; [|discriminate].
    destruct (MatrixEquality _ _ _) eqn:Hmatch.
    + intros [= <-]. exists (Some (S k, a, A)). split; [|reflexivity].
      split; [assumption|]. split; [lia|]. split; [assumption|]. split; [exact Hmatch|].
      intros j' q' Q' Hj'. lia.
    + intros Hfind. destruct (IH (S k) (eq_sym Hrest') Hfind) as (mate & Hfirst & ->).
      exists mate. split; [|reflexivity].
      assert (Hnot : forall q' Q', l !! S k = Some q' -> theFaces d !! q' = Some Q' ->
                                   ~ Matches F Q').
      { intros q' Q' Hq' HQ'. rewrite Ha in Hq'. injection Hq' as <-.
        rewrite HA in HQ'. injection HQ' as <-. unfold Matches. by rewrite Hmatch. }
      destruct mate as [[[j q] Q]|]; simpl in *.
      * destruct Hfirst as (Hj & Hkj & HQ & HM & Hmin).
        split; [assumption|]. split; [lia|]. split; [assumption|]. split; [assumption|].
        intros j' q' Q' Hj' Hq' HQ'. destruct (decide (j' = S k)) as [->|Hne].
        -- by eapply Hnot.
        -- apply (Hmin j' q' Q'); auto; lia.
      * intros j' q' Q' Hj' Hq' HQ'. destruct (decide (j' = S k)) as [->|Hne].
        -- by eapply Hnot.
        -- apply (Hfirst j' q' Q'); auto; lia.
Qed.

Lemma ColorsSound_skip (l : list nat) (k : nat) (theCount : Z) (m : gmap nat HEFace)
    (p : nat) (F : HEFace) :
  l !! k = Some p -> m !! p = Some F -> itsColorIndex F <> UNASSIGNED_COLOR_INDEX ->
  NoDup l -> ColorsSound l k theCount m -> ColorsSound l (S k) theCount m.
Proof.
  intros Hk HF Hassigned Hnodup [Hc Hr Hv Hs]. split; auto; [lia|].
  intros i a A Hi Hlt HA.
  destruct (decide (i = k)) as [->|Hne].
  - rewrite Hk in Hi. injection Hi as <-. rewrite HF in HA. by injection HA as <-.
  - apply (Hv i a A Hi); [lia|assumption].
Qed.

(** The visit of an unassigned face [p]: it takes the index [theCount], and
    so does the face [q] that the search finds, if it finds one. *)
Lemma ColorsSound_assign (l : list nat) (k : nat) (theCount : Z) (m : gmap nat HEFace)
    (p : nat) (F : HEFace) (mate : option (nat * nat * HEFace)) :
  NoDup l -> Z.of_nat (length l) < UNASSIGNED_COLOR_INDEX ->
  l !! k = Some p -> m !! p = Some F ->
  ColorsSound l k theCount m ->
  FirstMatch m F l k mate ->
  ColorsSound l (S k) (theCount + 1)
    (match mate with
     | Some (_, q, Q) =>
         <[q := with_itsColorIndex theCount Q]> (<[p := with_itsColorIndex theCount F]> m)
     | None => <[p := with_itsColorIndex theCount F]> m
     end).
Proof.
  intros Hnodup Hsize Hk HF [Hc Hr Hv Hs] Hmate.
  assert (Hklt : (k < length l)%nat) by (by eapply lookup_lt_Some).
  assert (Hfresh : theCount <> UNASSIGNED_COLOR_INDEX) by lia.
  (* every face of the new store either has the index theCount and is p or
     the mate, or is a face of the old store *)
  assert (Hcases : forall a A,
    match mate with
    | Some (_, q, Q) =>
        <[q := with_itsColorIndex theCount Q]> (<[p := with_itsColorIndex theCount F]> m)
    | None => <[p := with_itsColorIndex theCount F]> m
    end !! a = Some A ->
    (itsColorIndex A = theCount
     /\ ((a = p /\ HEFace_itsMatrix A = HEFace_itsMatrix F)
         \/ match mate with
            | Some (_, q, Q) => a = q /\ HEFace_itsMatrix A = HEFace_itsMatrix Q
            | None => False
            end))
    \/ (a <> p /\ match mate with Some (_, q, _) => a <> q | None => True end
        /\ m !! a = Some A)).
  { intros a A. destruct mate as [[[j q] Q]|].
    - rewrite lookup_insert_Some. intros [[<- <-]|[Hne HA]].
      + left. split; [reflexivity|]. right. by split.
      + apply lookup_insert_Some in HA as [[<- <-]|[Hne' HA]].
        * left. split; [reflexivity|]. left. by split.
        * right. by repeat split.
    - rewrite lookup_insert_Some. intros [[<- <-]|[Hne HA]].
      + left. split; [reflexivity|]. left. by split.
      + right. by repeat split. }
  split.
  - lia.
  - intros i a A Hi HA Hassigned. destruct (Hcases a A HA) as [[Hidx _]|(_ & _ & Hold)].
    + lia.
    + specialize (Hr i a A Hi Hold Hassigned). lia.
  - intros i a A Hi Hlt HA. destruct (Hcases a A HA) as [[Hidx _]|(Hne & _ & Hold)].
    + lia.
    + apply (Hv i a A Hi); [|assumption].
      destruct (decide (i = k)) as [->|]; [|lia].
      rewrite Hk in Hi. by injection Hi as <-.
  - intros i j' a b A B Hi Hj Hlt HA HB Hassigned Hsame.
    destruct (Hcases a A HA) as [[HidxA HwhoA]|(HneA & HneA' & HoldA)];
      destruct (Hcases b B HB) as [[HidxB HwhoB]|(HneB & HneB' & HoldB)].
    + (* both have the new index: a is p and b is the mate *)
      destruct HwhoA as [[-> HmA]|HwhoA].
      * assert (i = k) as -> by (eapply NoDup_lookup; eassumption).
        destruct HwhoB as [[-> _]|HwhoB].
        { assert (j' = k) by (eapply NoDup_lookup; eassumption). lia. }
        destruct mate as [[[j q] Q]|]; [|contradiction].
        destruct HwhoB as [-> HmB]. destruct Hmate as (_ & _ & _ & Hmatch & _).
        unfold Matches in *. by rewrite HmA, HmB.
      * destruct mate as [[[j q] Q]|]; [|contradiction].
        destruct HwhoA as [-> _]. destruct Hmate as (Hq & Hkj & _ & _ & _).
        assert (i = j) as -> by (eapply NoDup_lookup; eassumption).
        destruct HwhoB as [[-> _]|[-> _]].
        { assert (j' = k) by (eapply NoDup_lookup; eassumption). lia. }
        { assert (j' = j) by (eapply NoDup_lookup; eassumption). lia. }
    + (* only a has the new index: b would have it too *)
      assert (itsColorIndex B <> UNASSIGNED_COLOR_INDEX) as HBa by assumption.
      specialize (Hr j' b B Hj HoldB HBa). lia.
    + assert (itsColorIndex A <> UNASSIGNED_COLOR_INDEX) as HAa by lia.
      specialize (Hr i a A Hi HoldA HAa). lia.
    + by apply (Hs i j' a b A B).
Qed.

(** The loop rule of [AssignColorIndices]: a property of the visited
    prefix, the counter and the store that the two kinds of visit preserve
    holds when the loop is done. *)
Lemma AssignColorIndices_loop (l : list nat) (P : nat -> Z -> gmap nat HEFace -> Prop) :
  NoDup l -> Z.of_nat (length l) < UNASSIGNED_COLOR_INDEX ->
  (forall k c m, P k c m -> 0 <= c <= Z.of_nat k) ->
  (forall k c m p F,
     l !! k = Some p -> m !! p = Some F -> itsColorIndex F <> UNASSIGNED_COLOR_INDEX ->
     P k c m -> P (S k) c m) ->
  (forall k c m p F mate,
     l !! k = Some p -> m !! p = Some F -> itsColorIndex F = UNASSIGNED_COLOR_INDEX ->
     FirstMatch m F l k mate ->
     P k c m -> P (S k) (c + 1) (AfterVisit m p F c mate)) ->
  forall (rest : list nat) (k : nat) (theCount theCount' : Z) (d d' : HEPolyhedron),
    drop k l = rest -> (k <= length l)%nat ->
    P k theCount (theFaces d) ->
    AssignColorIndices rest theCount d = Some (theCount', d') ->
    P (length l) theCount' (theFaces d') /\ itsFaceList d' = itsFaceList d.
Proof.
  intros Hnodup Hsize Hbound Hskip Hassign rest. induction rest as [|p rest IH];
    intros k theCount theCount' d d' Hdrop Hkle HP Hrun.
  - simpl in Hrun. injection Hrun as <- <-.
    assert (k = length l) as ->.
    { apply (f_equal length) in Hdrop. rewrite length_drop in Hdrop. simpl in Hdrop. lia. }
    auto.
  - destruct (drop_cons_lookup _ _ _ _ Hdrop) as (Hk & Hdrop' & Hklt).
    simpl in Hrun.
    destruct (theFaces d !! p) as [F|] eqn:HF; simpl in Hrun; [|discriminate].
    destruct (itsColorIndex F =? UNASSIGNED_COLOR_INDEX) eqn:Hunassigned.
    + apply Z.eqb_eq in Hunassigned.
      destruct (onFace p (with_itsColorIndex theCount) d) as [d1|] eqn:Hd1;
        simpl in Hrun; [|discriminate].
      destruct (onFace_store _ _ _ _ Hd1) as (F' & HF' & Hstore1 & Hlist1).
      rewrite HF in HF'. injection HF' as <-.
      destruct (FindMate d1 _ rest) as [theMate|] eqn:Hfind; simpl in Hrun; [|discriminate].
      assert (Hcount : uint_incr theCount = theCount + 1).
      { apply uint_incr_small. specialize (Hbound _ _ _ HP).
        unfold UNASSIGNED_COLOR_INDEX, UINT_MODULUS in *. lia. }
      rewrite Hcount in Hrun. rewrite <- Hdrop' in Hfind.
      destruct (FindMate_first _ _ _ _ _ Hfind) as (mate & Hfirst1 & ->).
      (* the faces after p are those of the store before the visit *)
      assert (Hafter : forall j q, (k < j)%nat -> l !! j = Some q ->
                                   theFaces d1 !! q = theFaces d !! q).
      { intros j q Hlt Hq. rewrite Hstore1. apply lookup_insert_ne. intros ->.
        assert (k = j) by (eapply NoDup_lookup; eassumption). lia. }
      assert (Hfirst : FirstMatch (theFaces d) F l k mate).
      { destruct mate as [[[j q] Q]|]; simpl in *.
        - destruct Hfirst1 as (Hj & Hkj & HQ & HM & Hmin).
          split; [assumption|]. split; [assumption|].
          split; [by rewrite <- (Hafter j q)|]. split; [assumption|].
          intros j' q' Q' Hj' Hq' HQ'. apply (Hmin j' q' Q'); auto.
          rewrite (Hafter j' q'); auto; lia.
        - intros j' q' Q' Hj' Hq' HQ'. apply (Hfirst1 j' q' Q'); auto.
          by rewrite (Hafter j' q'). }
      specialize (Hassign k theCount (theFaces d) p F mate Hk HF Hunassigned Hfirst HP).
      destruct mate as [[[j q] Q]|]; simpl in Hrun, Hassign.
      * destruct (onFace q (with_itsColorIndex theCount) d1) as [d2|] eqn:Hd2;
          simpl in Hrun; [|discriminate].
        destruct (onFace_store _ _ _ _ Hd2) as (Q' & HQ' & Hstore2 & Hlist2).
        destruct Hfirst as (Hj & Hkj & HQ & _).
        rewrite (Hafter j q Hkj Hj), HQ in HQ'. injection HQ' as <-.
        rewrite <- Hstore1, <- Hstore2 in Hassign.
        destruct (IH (S k) (theCount + 1) theCount' d2 d' Hdrop' Hklt Hassign Hrun)
          as (Hfinal & Hlist).
        split; [assumption|congruence].
      * rewrite <- Hstore1 in Hassign.
        destruct (IH (S k) (theCount + 1) theCount' d1 d' Hdrop' Hklt Hassign Hrun)
          as (Hfinal & Hlist).
        split; [assumption|congruence].
    + apply Z.eqb_neq in Hunassigned.
      apply (IH (S k) theCount theCount' d d' Hdrop' Hklt); [|assumption].
      by eapply Hskip.
Qed.

Lemma reset_colors (l : list nat) (d d1 : HEPolyhedron) :
  iterM (fun d p => onFace p (with_itsColorIndex UNASSIGNED_COLOR_INDEX) d) l d = Some d1 ->
  itsFaceList d1 = itsFaceList d
  /\ (forall p, HEFace_itsMatrix <$> theFaces d1 !! p = HEFace_itsMatrix <$> theFaces d !! p)
  /\ (forall p F, p ∈ l -> theFaces d1 !! p = Some F ->
        itsColorIndex F = UNASSIGNED_COLOR_INDEX)
  /\ (forall p F, theFaces d !! p = Some F -> itsColorIndex F = UNASSIGNED_COLOR_INDEX ->
        exists F1, theFaces d1 !! p = Some F1 /\ itsColorIndex F1 = UNASSIGNED_COLOR_INDEX).
Proof.
  revert d. induction l as [|a l IH]; simpl; intros d Hrun.
  - injection Hrun as <-. split; [reflexivity|]. split; [reflexivity|].
    split; [intros p F Hp; by apply elem_of_nil in Hp|]. eauto.
  - destruct (onFace a _ d) as [d0|] eqn:Hd0; simpl in Hrun; [|discriminate].
    destruct (onFace_store _ _ _ _ Hd0) as (A & HA & Hstore & Hlist).
    destruct (IH d0 Hrun) as (Hl & Hm & Hin & Hkeep).
    assert (Hkeep0 : forall p F, theFaces d0 !! p = Some F ->
              (p = a \/ exists F0, theFaces d !! p = Some F0
                                   /\ itsColorIndex F0 = itsColorIndex F)
              /\ (p = a -> itsColorIndex F = UNASSIGNED_COLOR_INDEX)).
    { intros p F. rewrite Hstore, lookup_insert_Some. intros [[<- <-]|[Hne HF]].
      - split; [by left|]. reflexivity.
      - split; [right; eauto|]. intros ->. done. }
    split; [congruence|]. split.
    { intros p. rewrite Hm, Hstore. destruct (decide (p = a)) as [->|Hne].
      - by rewrite lookup_insert_eq, HA.
      - by rewrite lookup_insert_ne. }
    split.
    { intros p F Hp HF. apply elem_of_cons in Hp as [->|Hp]; [|by eapply Hin].
      assert (Ha0 : exists F0, theFaces d0 !! a = Some F0
                               /\ itsColorIndex F0 = UNASSIGNED_COLOR_INDEX).
      { rewrite Hstore, lookup_insert_eq. eauto. }
      destruct Ha0 as (F0 & HF0 & Hc0).
      destruct (Hkeep a F0 HF0 Hc0) as (F1 & HF1 & Hc1). congruence. }
    intros p F HF Hc. destruct (decide (p = a)) as [->|Hne].
    + apply (Hkeep a (with_itsColorIndex UNASSIGNED_COLOR_INDEX A)); [|reflexivity].
      by rewrite Hstore, lookup_insert_eq.
    + apply (Hkeep p F); [|assumption]. by rewrite Hstore, lookup_insert_ne.
Qed.

Lemma ColorFace_keeps (theCount : Z) (l : list nat) (d d' : HEPolyhedron) :
  iterM (ColorFace theCount) l d = Some d' ->
  itsFaceList d' = itsFaceList d
  /\ (forall p, (fun F => (itsColorIndex F, HEFace_itsMatrix F)) <$> theFaces d' !! p
                = (fun F => (itsColorIndex F, HEFace_itsMatrix F)) <$> theFaces d !! p).
Proof.
  revert d. induction l as [|a l IH]; simpl; intros d Hrun.
  - by injection Hrun as <-.
  - destruct (ColorFace theCount d a) as [d0|] eqn:Hd0; simpl in Hrun; [|discriminate].
    unfold ColorFace in Hd0.
    destruct (theFaces d !! a) as [A|] eqn:HA; simpl in Hd0; [|discriminate].
    destruct (onFace_store _ _ _ _ Hd0) as (A' & HA' & Hstore & Hlist).
    rewrite HA in HA'. injection HA' as <-.
    destruct (IH d0 Hrun) as (Hl & Hsame).
    split; [congruence|]. intros p. rewrite Hsame, Hstore.
    destruct (decide (p = a)) as [->|Hne].
    + by rewrite lookup_insert_eq, HA.
    + by rewrite lookup_insert_ne.
Qed.



Lemma SameMatrices_sym (m m0 : gmap nat HEFace) : SameMatrices m m0 -> SameMatrices m0 m.
Proof. intros Hsame a. by rewrite Hsame. Qed.










End FaceColors.


(** The hypothesis [PairedFaces] cannot be dropped.  On the reference
    arithmetic and on a list of matrices that is the list of no discrete
    group (the translations by (10, 1e-7, 0) and by (10, -1e-7, 0) are
    both in it), each of the two has the translation by (-10, 0, 0) for
    its inverse within 1e-6.  The first face of the list, of the
    translation by (10, -1e-7, 0), gives its index 0 to the last face, of
    the translation by (-10, 0, 0); the second face then overwrites it
    with its own index 1.  The first and the last face pass the test and
    have the indices 0 and 1. *)
Lemma near_duplicates_share_a_mate :
  exists d : DirichletDomain,
    @ConstructDirichletDomain Reference.libm Reference.matrices Reference.colors
      1000 (Some nearDuplicateGenerators) None = Some (None, Some d)
    /\ ~ @FacePairingClaim Reference.matrices d.
Proof.
  eexists. split; [vm_compute; reflexivity|].
  intros Hclaim.
  edestruct (Hclaim 0%nat 6%nat) as [_ Hcolor];
    [vm_compute; reflexivity|vm_compute; reflexivity|discriminate
    |vm_compute; reflexivity|vm_compute; reflexivity|vm_compute; reflexivity|].
  vm_compute in Hcolor. discriminate Hcolor.
Qed.

(** ** Culling and sorting *)

Section CullingCounts.
Context `{LibM} `{Matrices} `{LibC}.

Lemma CullCell_CountsAgree V t R r planes (st st' : CullState) (i : nat) (k : Z) :
  CullCell V t R r planes st i = Some st' ->
  k < UINT_MODULUS - 1 ->
  CountsAgree k st -> CountsAgree (k + 1) st'.
Proof.
  unfold CullCell, CountsAgree. intros Hstep Hk (Hsum & Hp & Hr & Hv).
  destruct (cs_cells st !! i) as [c|]; simpl in Hstep; [|discriminate].
  destruct (_ || _).
  - destruct (cs_visible st !! _); simpl in Hstep; [|discriminate].
    destruct (decide _); injection Hstep as <-; simpl;
      rewrite !uint_incr_small by lia; lia.
  - injection Hstep as <-; simpl; lia.
Qed.

Lemma iterM_CullCell_CountsAgree V t R r planes (l : list nat) (st st' : CullState) (k : Z) :
  iterM (CullCell V t R r planes) l st = Some st' ->
  k + Z.of_nat (length l) < UINT_MODULUS ->
  CountsAgree k st -> CountsAgree (k + Z.of_nat (length l)) st'.
Proof.
  revert st k. induction l as [|i l IH]; simpl; intros st k Hrun Hk Hinv.
  - injection Hrun as <-. by rewrite Z.add_0_r.
  - destruct (CullCell V t R r planes st i) as [st1|] eqn:Hstep; simpl in Hrun; [|discriminate].
    replace (k + Z.of_nat (S (length l))) with ((k + 1) + Z.of_nat (length l)) by lia.
    apply (IH st1); [assumption|lia|].
    eapply CullCell_CountsAgree; [eassumption|lia|assumption].
Qed.

(** C5.  After a call of [CullAndSortVisibleCells] that returns, the number
    of visible plain cells and the number of visible reflected cells add up
    to the number of visible cells.  [itsNumCells] is an [unsigned int]. *)
Theorem CullAndSortVisibleCells_counts (aHoneycomb aHoneycomb' : Honeycomb)
    (aViewMatrix : Matrix)
    (anImageWidth anImageHeight aHorizonRadius aDirichletDomainRadius : double)
    (aSpaceType : SpaceType) :
  itsNumCells aHoneycomb < UINT_MODULUS ->
  CullAndSortVisibleCells aHoneycomb aViewMatrix anImageWidth anImageHeight
    aHorizonRadius aDirichletDomainRadius aSpaceType = Some aHoneycomb' ->
  itsNumVisiblePlainCells aHoneycomb' + itsNumVisibleReflectedCells aHoneycomb'
  = itsNumVisibleCells aHoneycomb'.
Proof.
  unfold CullAndSortVisibleCells, itsNumCells. intros Hsize Hrun.
  destruct (match aSpaceType with SpaceNone => None | _ => _ end) as [r|];
    simpl in Hrun; [|discriminate].
  destruct (MakeCullingHyperplanes _ _) as [planes|]; simpl in Hrun; [|discriminate].
  destruct (iterM _ _ _) as [st|] eqn:Hloop; simpl in Hrun; [|discriminate].
  destruct (SortVisibleCells _ _ _) as [visible|]; simpl in Hrun; [|discriminate].
  injection Hrun as <-. simpl.
  apply (iterM_CullCell_CountsAgree _ _ _ _ _ _ _ _ 0) in Hloop.
  - apply Hloop.
  - rewrite length_seq. lia.
  - unfold CountsAgree; simpl; lia.
Qed.

End CullingCounts.

Lemma CullAndSortVisibleCells_counts_witness :
  threeCellsCulled = Some threeCellsSorted
  /\ itsNumVisiblePlainCells threeCellsSorted + itsNumVisibleReflectedCells threeCellsSorted
     = itsNumVisibleCells threeCellsSorted.
Proof.
  assert (Hrun : threeCellsCulled = Some threeCellsSorted) by (vm_compute; reflexivity).
  split; [exact Hrun|].
  apply (@CullAndSortVisibleCells_counts Reference.libm Reference.matrices Reference.libc
           threeCells threeCellsSorted Reference.MatrixIdentity_model 2 2 10 1 SpaceFlat).
  - vm_compute. reflexivity.
  - exact Hrun.
Defined.

Lemma insert_sorted_Permutation {A} (compare : A -> A -> Z) (a : A) (l : list A) :
  Reference.insert_sorted compare a l ≡ₚ a :: l.
Proof.
  induction l as [|b l IH]; simpl; [reflexivity|].
  destruct (compare a b <=? 0); [reflexivity|].
  rewrite IH. apply Permutation_swap.
Qed.

Lemma qsort_model_Permutation {A} (compare : A -> A -> Z) (l : list A) :
  Reference.qsort_model compare l ≡ₚ l.
Proof.
  induction l as [|a l IH]; simpl; [reflexivity|].
  by rewrite insert_sorted_Permutation, IH.
Qed.

Lemma ConsistentOn_subseteq {A} (compare : A -> A -> Z) (l k : list A) :
  l ⊆ k -> ConsistentOn compare k -> ConsistentOn compare l.
Proof.
  intros Hsub [Hsym Htrans]. split.
  - intros a b Ha Hb. apply Hsym; by apply Hsub.
  - intros a b c Ha Hb Hc. apply Htrans; by apply Hsub.
Qed.

Lemma insert_sorted_Ascending {A} (compare : A -> A -> Z) (a : A) (l : list A) :
  ConsistentOn compare (a :: l) -> Ascending compare l ->
  Ascending compare (Reference.insert_sorted compare a l).
Proof.
  induction l as [|b l IH]; simpl; intros Hc Hl.
  - split; [constructor|exact I].
  - destruct Hl as [Hb Hl]. pose proof Hc as [Hsym Htrans].
    assert (Ha : a ∈ a :: b :: l) by apply list_elem_of_here.
    assert (Hb' : b ∈ a :: b :: l) by apply list_elem_of_further, list_elem_of_here.
    destruct (compare a b <=? 0) eqn:Hab.
    + apply Z.leb_le in Hab. simpl. split; [|by split].
      constructor; [assumption|].
      rewrite Forall_forall in Hb |- *. intros c Hc'.
      apply (Htrans a b c); auto. by do 2 apply list_elem_of_further.
    + apply Z.leb_gt in Hab. simpl. split.
      * rewrite insert_sorted_Permutation. constructor; [|assumption].
        specialize (Hsym a b Ha Hb'). lia.
      * apply IH; [|assumption].
        apply (ConsistentOn_subseteq _ _ (a :: b :: l)); [|assumption].
        intros x Hx. apply elem_of_cons in Hx as [->|Hx]; [assumption|].
        by do 2 apply list_elem_of_further.
Qed.

Lemma qsort_model_Ascending {A} (compare : A -> A -> Z) (l : list A) :
  ConsistentOn compare l -> Ascending compare (Reference.qsort_model compare l).
Proof.
  induction l as [|a l IH]; simpl; intros Hc; [exact I|].
  apply insert_sorted_Ascending.
  - apply (ConsistentOn_subseteq _ _ (a :: l)); [|assumption].
    intros x. rewrite !elem_of_cons, qsort_model_Permutation. tauto.
  - apply IH. apply (ConsistentOn_subseteq _ _ (a :: l)); [|assumption].
    intros x Hx. by apply list_elem_of_further.
Qed.

Lemma Ascending_InAscendingOrder {A} (compare : A -> A -> Z) (l : list A) :
  Ascending compare l -> InAscendingOrder compare l.
Proof.
  induction l as [|x l IH]; intros Hl i j a b Hij Hi Hj.
  - by rewrite lookup_nil in Hi.
  - destruct Hl as [Hx Hl]. destruct j as [|j]; [lia|]. simpl in Hj.
    destruct i as [|i]; simpl in Hi.
    + injection Hi as <-. rewrite Forall_forall in Hx. apply Hx.
      by eapply list_elem_of_lookup_2.
    + apply (IH Hl i j); auto; lia.
Qed.

Lemma libc_qsort_sorts : @qsort_sorts Reference.libc.
Proof.
  intros A compare l Hc. split.
  - apply qsort_model_Permutation.
  - apply Ascending_InAscendingOrder. by apply qsort_model_Ascending.
Qed.

Section Sorting.
Context `{LibM} `{Matrices} `{LibC}.

Lemma AcceptedCells_S V t R r planes (cells : list Honeycell) (k : nat) :
  AcceptedCells V t R r planes cells (S k)
  = AcceptedCells V t R r planes cells k
    ++ (if decide (CellIsAccepted V t R r planes <$> cells !! k = Some true)
        then [k] else []).
Proof.
  unfold AcceptedCells. rewrite seq_S, filter_app. reflexivity.
Qed.

Lemma AcceptedCells_length V t R r planes (cells : list Honeycell) (k : nat) :
  (length (AcceptedCells V t R r planes cells k) <= k)%nat.
Proof.
  unfold AcceptedCells. etransitivity; [apply length_filter|]. by rewrite length_seq.
Qed.

Lemma CullCell_Culled V t R r planes (cells0 : list Honeycell) (k : nat)
    (st st' : CullState) :
  Z.of_nat k < UINT_MODULUS - 1 ->
  Culled V (AcceptedCells V t R r planes cells0) cells0 k st ->
  CullCell V t R r planes st k = Some st' ->
  Culled V (AcceptedCells V t R r planes cells0) cells0 (S k) st'.
Proof.
  intros Hk [Hlen Hcount Hvisible Hdone Htodo] Hstep. unfold CullCell in Hstep.
  apply bind_Some in Hstep as (c0 & Hc0 & Hstep).
  assert (Hc0' : cells0 !! k = Some c0) by (by rewrite <- Htodo).
  assert (Hcells : forall i c,
            (i < S k)%nat ->
            <[k := set_cell_distance (CellDistance V c0) c0]> (cs_cells st) !! i = Some c ->
            exists c1, cells0 !! i = Some c1
                       /\ c = set_cell_distance (CellDistance V c1) c1).
  { intros i c Hi Hc. destruct (decide (i = k)) as [->|Hne].
    - rewrite list_lookup_insert_eq in Hc by (by eapply lookup_lt_Some).
      injection Hc as <-. eauto.
    - rewrite list_lookup_insert_ne in Hc by done. apply (Hdone i c); [lia|done]. }
  assert (Hrest : forall i, (S k <= i)%nat ->
            <[k := set_cell_distance (CellDistance V c0) c0]> (cs_cells st) !! i
            = cells0 !! i).
  { intros i Hi. rewrite list_lookup_insert_ne by lia. apply Htodo. lia. }
  pose proof (AcceptedCells_length V t R r planes cells0 k) as Hbound.
  pose proof (AcceptedCells_S V t R r planes cells0 k) as Hnext.
  rewrite Hc0' in Hnext. simpl in Hnext.
  change (bool_decide (t = SpaceSpherical) || _)
    with (CellIsAccepted V t R r planes c0) in Hstep.
  destruct (CellIsAccepted V t R r planes c0) eqn:Haccepted.
  - rewrite decide_True in Hnext by done.
    apply bind_Some in Hstep as (old & Hold & Hstep).
    rewrite Hcount, Nat2Z.id in Hold, Hstep.
    assert (Hincr : uint_incr (Z.of_nat (length (AcceptedCells V t R r planes cells0 k)))
                    = Z.of_nat (length (AcceptedCells V t R r planes cells0 (S k)))).
    { rewrite Hnext, length_app. simpl. unfold uint_incr.
      rewrite Z.mod_small; lia. }
    assert (Htake : take (length (AcceptedCells V t R r planes cells0 (S k)))
                      (<[length (AcceptedCells V t R r planes cells0 k) := Some k]>
                         (cs_visible st))
                    = Some <$> AcceptedCells V t R r planes cells0 (S k)).
    { rewrite Hnext, length_app, fmap_app. simpl.
      rewrite Nat.add_1_r.
      rewrite (take_S_r _ _ (Some k))
        by (apply list_lookup_insert_eq; by eapply lookup_lt_Some).
      by rewrite take_insert_ge, Hvisible by lia. }
    destruct (decide _); injection Hstep as <-; split; simpl;
      [by rewrite length_insert|exact Hincr|exact Htake|exact Hcells|exact Hrest
      |by rewrite length_insert|exact Hincr|exact Htake|exact Hcells|exact Hrest].
  - rewrite decide_False in Hnext by (by intros [=]). rewrite app_nil_r in Hnext.
    injection Hstep as <-. split; simpl; rewrite ?Hnext;
      [by rewrite length_insert|exact Hcount|exact Hvisible|exact Hcells|exact Hrest].
Qed.

Lemma iterM_CullCell_Culled V t R r planes (cells0 : list Honeycell) (n k : nat)
    (st st' : CullState) :
  Z.of_nat (k + n) < UINT_MODULUS ->
  Culled V (AcceptedCells V t R r planes cells0) cells0 k st ->
  iterM (CullCell V t R r planes) (seq k n) st = Some st' ->
  Culled V (AcceptedCells V t R r planes cells0) cells0 (k + n) st'.
Proof.
  revert k st. induction n as [|n IH]; simpl; intros k st Hsize Hinv Hrun.
  - injection Hrun as <-. by rewrite Nat.add_0_r.
  - apply bind_Some in Hrun as (st1 & Hstep & Hrun).
    replace (k + S n)%nat with (S k + n)%nat by lia.
    apply (IH (S k) st1); [lia| |assumption].
    eapply CullCell_Culled; [|eassumption..]. lia.
Qed.

(** The comparison function on two cells whose distances are numbers. *)
Lemma CompareCellCenterDistances_frank (c1 c2 : Honeycell) :
  PrimFloat.is_nan (itsDistanceCameraToCellCenter c1) = false ->
  PrimFloat.is_nan (itsDistanceCameraToCellCenter c2) = false ->
  CompareCellCenterDistances c1 c2
  = if frank (itsDistanceCameraToCellCenter c1) <? frank (itsDistanceCameraToCellCenter c2)
    then -1
    else if frank (itsDistanceCameraToCellCenter c2)
            <? frank (itsDistanceCameraToCellCenter c1)
         then 1 else 0.
Proof.
  intros H1' H2'. unfold CompareCellCenterDistances, gtb.
  by destruct (sub_sign _ _ H1' H2') as [-> ->].
Qed.

Lemma CompareCellCenterDistances_le (c1 c2 : Honeycell) :
  PrimFloat.is_nan (itsDistanceCameraToCellCenter c1) = false ->
  PrimFloat.is_nan (itsDistanceCameraToCellCenter c2) = false ->
  CompareCellCenterDistances c1 c2 <= 0
  <-> PrimFloat.leb (itsDistanceCameraToCellCenter c1) (itsDistanceCameraToCellCenter c2)
      = true.
Proof.
  intros H1' H2'. rewrite (CompareCellCenterDistances_frank _ _ H1' H2').
  rewrite (leb_frank _ _ H1' H2'), Z.leb_le.
  destruct (Z.ltb_spec (frank (itsDistanceCameraToCellCenter c1))
              (frank (itsDistanceCameraToCellCenter c2)));
    destruct (Z.ltb_spec (frank (itsDistanceCameraToCellCenter c2))
                (frank (itsDistanceCameraToCellCenter c1))); lia.
Qed.

Lemma CompareCellCenterDistances_consistent (l : list (nat * Honeycell)) :
  Forall (fun y => PrimFloat.is_nan (itsDistanceCameraToCellCenter (snd y)) = false) l ->
  ConsistentOn (fun a b : nat * Honeycell => CompareCellCenterDistances (snd a) (snd b)) l.
Proof.
  rewrite Forall_forall. intros Hnumbers. split.
  - intros a b Ha Hb.
    rewrite !CompareCellCenterDistances_frank by auto.
    destruct (Z.ltb_spec (frank (itsDistanceCameraToCellCenter (snd a)))
                (frank (itsDistanceCameraToCellCenter (snd b))));
      destruct (Z.ltb_spec (frank (itsDistanceCameraToCellCenter (snd b)))
                  (frank (itsDistanceCameraToCellCenter (snd a)))); simpl; lia.
  - intros a b c Ha Hb Hc.
    rewrite !CompareCellCenterDistances_le, !leb_frank, !Z.leb_le by auto. lia.
Qed.

(** The pointers that [qsort] is given, with the cells they point to. *)
Lemma pointed_cells (cells : list Honeycell) (ps : list nat)
    (pointed : list (nat * Honeycell)) :
  mapM (fun p : option nat => i ← p; c ← cells !! i; Some (i, c)) (Some <$> ps)
  = Some pointed ->
  fst <$> pointed = ps /\ Forall (fun y => cells !! fst y = Some (snd y)) pointed.
Proof.
  rewrite mapM_Some. revert pointed.
  induction ps as [|p ps IH]; simpl; intros pointed Hall.
  - apply Forall2_nil_inv_l in Hall as ->. by split.
  - apply Forall2_cons_inv_l in Hall as (y & k & Hy & Hrest & ->).
    simpl in Hy. apply bind_Some in Hy as (c & Hc & [= <-]).
    destruct (IH _ Hrest) as [<- Hcells]. split; [reflexivity|]. by constructor.
Qed.

(** C6.  After a call of [CullAndSortVisibleCells] that returns, the first
    [itsNumVisibleCells] entries of [itsVisibleCells] point to the accepted
    cells, each of them once, and of two of these entries the earlier one
    points to a cell whose [itsDistanceCameraToCellCenter] is less than or
    equal to that of the later one.  [qsort] does what the C standard says
    of it, and [itsNumCells] is an [unsigned int]; in a spherical space,
    where every cell is accepted, no distance is a NaN. *)
Theorem CullAndSortVisibleCells_sorted (aHoneycomb aHoneycomb' : Honeycomb)
    (aViewMatrix : Matrix)
    (anImageWidth anImageHeight aHorizonRadius aDirichletDomainRadius : double)
    (aSpaceType : SpaceType) :
  qsort_sorts ->
  itsNumCells aHoneycomb < UINT_MODULUS ->
  (aSpaceType = SpaceSpherical ->
   forall c, c ∈ itsCells aHoneycomb ->
             PrimFloat.is_nan (CellDistance aViewMatrix c) = false) ->
  CullAndSortVisibleCells aHoneycomb aViewMatrix anImageWidth anImageHeight
    aHorizonRadius aDirichletDomainRadius aSpaceType = Some aHoneycomb' ->
  exists (theAdjustedDirichletDomainRadius : double) (theCullingHyperplanes : list Vector)
         (sorted : list nat),
    CullingParameters anImageWidth anImageHeight aDirichletDomainRadius aSpaceType
    = Some (theAdjustedDirichletDomainRadius, theCullingHyperplanes)
    /\ itsNumVisibleCells aHoneycomb' = Z.of_nat (length sorted)
    /\ take (length sorted) (itsVisibleCells aHoneycomb') = Some <$> sorted
    /\ sorted ≡ₚ AcceptedCells aViewMatrix aSpaceType
                   (aHorizonRadius + aDirichletDomainRadius)%float
                   theAdjustedDirichletDomainRadius theCullingHyperplanes
                   (itsCells aHoneycomb) (length (itsCells aHoneycomb))
    /\ forall (i j p q : nat) (c1 c2 : Honeycell),
         (i <= j)%nat -> sorted !! i = Some p -> sorted !! j = Some q ->
         itsCells aHoneycomb' !! p = Some c1 -> itsCells aHoneycomb' !! q = Some c2 ->
         PrimFloat.leb (itsDistanceCameraToCellCenter c1)
                       (itsDistanceCameraToCellCenter c2) = true.
Proof.
  intros Hqsort Hsize Hnumbers Hrun. unfold CullAndSortVisibleCells in Hrun.
  apply bind_Some in Hrun as (adjusted & Hadjusted & Hrun).
  apply bind_Some in Hrun as (planes & Hplanes & Hrun).
  apply bind_Some in Hrun as (st & Hloop & Hrun).
  apply bind_Some in Hrun as (visible & Hsort & Hrun).
  injection Hrun as <-. simpl. unfold itsNumCells in Hsize.
  set (cells0 := itsCells aHoneycomb) in *.
  set (R := (aHorizonRadius + aDirichletDomainRadius)%float) in *.
  set (accepted := AcceptedCells aViewMatrix aSpaceType R adjusted planes cells0) in *.
  exists adjusted, planes.
  (* the loop *)
  apply (iterM_CullCell_Culled _ _ _ _ _ cells0 _ 0) in Hloop; cycle 1.
  { simpl. lia. }
  { split; simpl; try done. intros i c Hi. lia. }
  simpl in Hloop. fold accepted in Hloop.
  destruct Hloop as [Hlen Hcount Hvisible Hdone Htodo].
  set (ps := accepted (length cells0)) in *.
  (* the call of qsort *)
  unfold SortVisibleCells in Hsort.
  apply bind_Some in Hsort as (pointed & Hpointed & Hsort). injection Hsort as <-.
  rewrite Hcount, Nat2Z.id, Hvisible in Hpointed.
  destruct (pointed_cells _ _ _ Hpointed) as [Hfst Hcells].
  rewrite Forall_forall in Hcells.
  (* the distances of the accepted cells are numbers *)
  assert (Hnumber : forall y, y ∈ pointed ->
            PrimFloat.is_nan (itsDistanceCameraToCellCenter (snd y)) = false).
  { intros [p c] Hy. simpl.
    assert (Hp : p ∈ ps).
    { rewrite <- Hfst. apply list_elem_of_fmap. by exists (p, c). }
    apply list_elem_of_filter in Hp as [Haccepted Hp].
    apply elem_of_seq in Hp as [_ Hp]. simpl in Hp.
    specialize (Hcells _ Hy). simpl in Hcells.
    destruct (Hdone p c Hp Hcells) as (c0 & Hc0 & ->). simpl.
    rewrite Hc0 in Haccepted. simpl in Haccepted. injection Haccepted as Haccepted.
    destruct (decide (aSpaceType = SpaceSpherical)) as [Hs|Hs].
    - apply (Hnumbers Hs). by eapply list_elem_of_lookup_2.
    - unfold CellIsAccepted in Haccepted. rewrite bool_decide_false in Haccepted by done.
      simpl in Haccepted. apply andb_prop in Haccepted as [Haccepted _].
      apply andb_prop in Haccepted as [_ Hnear].
      by apply ltb_is_number in Hnear as [Hnear _]. }
  destruct (Hqsort _ (fun a b : nat * Honeycell =>
                        CompareCellCenterDistances (snd a) (snd b)) pointed)
    as [Hperm Hascending].
  { apply CompareCellCenterDistances_consistent. by apply Forall_forall. }
  set (result := qsort (fun a b : nat * Honeycell =>
                          CompareCellCenterDistances (snd a) (snd b)) pointed) in *.
  exists (fst <$> result).
  assert (Hsame : length (fst <$> result) = length ps).
  { by rewrite length_fmap, Hperm, <- Hfst, length_fmap. }
  split; [unfold CullingParameters; by rewrite Hadjusted, Hplanes|].
  split; [by rewrite Hcount, Hsame|]. split.
  { rewrite list_fmap_compose. apply take_app_length'. by rewrite !length_fmap. }
  split; [by rewrite Hperm, Hfst|].
  intros i j p q c1 c2 Hij Hi Hj Hc1 Hc2.
  apply list_lookup_fmap_Some in Hi as ([p' c1'] & -> & Hi).
  apply list_lookup_fmap_Some in Hj as ([q' c2'] & -> & Hj).
  simpl in Hc1, Hc2.
  assert (H1' : (p', c1') ∈ pointed) by (rewrite <- Hperm; by eapply list_elem_of_lookup_2).
  assert (H2' : (q', c2') ∈ pointed) by (rewrite <- Hperm; by eapply list_elem_of_lookup_2).
  pose proof (Hcells _ H1') as Hp. pose proof (Hcells _ H2') as Hq. simpl in Hp, Hq.
  rewrite Hp in Hc1. injection Hc1 as <-. rewrite Hq in Hc2. injection Hc2 as <-.
  pose proof (Hnumber _ H1') as Hn1. pose proof (Hnumber _ H2') as Hn2. simpl in Hn1, Hn2.
  destruct (decide (i = j)) as [->|Hne].
  - rewrite Hi in Hj. injection Hj as <- <-.
    rewrite (leb_frank _ _ Hn1 Hn1). apply Z.leb_refl.
  - apply CompareCellCenterDistances_le; [assumption..|].
    apply (Hascending i j (p', c1') (q', c2')); [lia|assumption..].
Qed.

End Sorting.

Lemma CullAndSortVisibleCells_sorted_witness :
  exists (theAdjustedDirichletDomainRadius : double) (theCullingHyperplanes : list Vector)
         (sorted : list nat),
    @CullingParameters Reference.libm 2 2 1 SpaceFlat
    = Some (theAdjustedDirichletDomainRadius, theCullingHyperplanes)
    /\ itsNumVisibleCells threeCellsSorted = Z.of_nat (length sorted)
    /\ take (length sorted) (itsVisibleCells threeCellsSorted) = Some <$> sorted
    /\ sorted ≡ₚ @AcceptedCells Reference.matrices Reference.MatrixIdentity_model SpaceFlat
                   (10 + 1)%float theAdjustedDirichletDomainRadius theCullingHyperplanes
                   (itsCells threeCells) (length (itsCells threeCells))
    /\ forall (i j p q : nat) (c1 c2 : Honeycell),
         (i <= j)%nat -> sorted !! i = Some p -> sorted !! j = Some q ->
         itsCells threeCellsSorted !! p = Some c1 ->
         itsCells threeCellsSorted !! q = Some c2 ->
         PrimFloat.leb (itsDistanceCameraToCellCenter c1)
           (itsDistanceCameraToCellCenter c2) = true.
Proof.
  apply (@CullAndSortVisibleCells_sorted Reference.libm Reference.matrices Reference.libc
           threeCells threeCellsSorted Reference.MatrixIdentity_model 2 2 10 1 SpaceFlat).
  - exact libc_qsort_sorts.
  - vm_compute. reflexivity.
  - intros Hspherical. discriminate Hspherical.
  - vm_compute. reflexivity.
Defined.

(** *** The call returns *)

Section CullingReturns.
Context `{LibM} `{Matrices} `{LibC}.

Lemma CullCell_visible_length V t R r planes (st st' : CullState) (k : nat) :
  CullCell V t R r planes st k = Some st' ->
  length (cs_visible st') = length (cs_visible st).
Proof.
  unfold CullCell. intros Hstep.
  apply bind_Some in Hstep as (c0 & Hc0 & Hstep).
  destruct (_ || _).
  - apply bind_Some in Hstep as (old & Hold & Hstep).
    destruct (decide _); injection Hstep as <-; simpl; by rewrite length_insert.
  - by injection Hstep as <-.
Qed.

Lemma CullCell_returns V t R r planes (cells0 : list Honeycell) (k : nat) (st : CullState) :
  Culled V (AcceptedCells V t R r planes cells0) cells0 k st ->
  (k < length cells0)%nat ->
  (length cells0 <= length (cs_visible st))%nat ->
  is_Some (CullCell V t R r planes st k).
Proof.
  intros [Hlen Hcount Hvisible Hdone Htodo] Hk Hroom. unfold CullCell.
  destruct (lookup_lt_is_Some_2 (cs_cells st) k ltac:(lia)) as [c0 Hc0].
  rewrite Hc0. simpl.
  destruct (_ || _); [|eauto].
  pose proof (AcceptedCells_length V t R r planes cells0 k) as Hbound.
  destruct (lookup_lt_is_Some_2 (cs_visible st) (Z.to_nat (cs_numVisible st))) as [old Hold].
  { rewrite Hcount, Nat2Z.id. lia. }
  rewrite Hold. simpl. destruct (decide _); eauto.
Qed.

Lemma iterM_CullCell_returns V t R r planes (cells0 : list Honeycell) (n k : nat)
    (st : CullState) :
  Z.of_nat (k + n) < UINT_MODULUS ->
  (k + n <= length cells0)%nat ->
  (length cells0 <= length (cs_visible st))%nat ->
  Culled V (AcceptedCells V t R r planes cells0) cells0 k st ->
  is_Some (iterM (CullCell V t R r planes) (seq k n) st).
Proof.
  revert k st. induction n as [|n IH]; simpl; intros k st Hsize Hn Hroom Hinv; [eauto|].
  destruct (CullCell_returns V t R r planes cells0 k st Hinv ltac:(lia) Hroom)
    as [st1 Hstep].
  rewrite Hstep. simpl. apply (IH (S k) st1); [lia|lia| |].
  - by rewrite (CullCell_visible_length _ _ _ _ _ _ _ _ Hstep).
  - eapply CullCell_Culled; [|eassumption..]. lia.
Qed.

Lemma AcceptedCells_lt V t R r planes (cells : list Honeycell) (k i : nat) :
  i ∈ AcceptedCells V t R r planes cells k -> (i < k)%nat.
Proof.
  unfold AcceptedCells. intros Hi. apply list_elem_of_filter in Hi as [_ Hi].
  apply elem_of_seq in Hi. lia.
Qed.

Lemma SortVisibleCells_returns (cells : list Honeycell) (ps : list nat)
    (visible : list (option nat)) :
  take (length ps) visible = Some <$> ps ->
  Forall (fun i => (i < length cells)%nat) ps ->
  is_Some (SortVisibleCells cells (length ps) visible).
Proof.
  intros Htake Hps. unfold SortVisibleCells. rewrite Htake.
  assert (Hpointed : is_Some (mapM (fun p : option nat => i ← p; c ← cells !! i; Some (i, c))
                                (Some <$> ps))).
  { apply mapM_is_Some. apply Forall_fmap. eapply Forall_impl; [exact Hps|].
    intros i Hi. simpl. destruct (lookup_lt_is_Some_2 cells i Hi) as [c ->]. simpl. eauto. }
  destruct Hpointed as [pointed ->]. simpl. eauto.
Qed.

(** [CullAndSortVisibleCells] returns: when the space type is not
    [SpaceNone], the image has a size that [MakeCullingHyperplanes]
    accepts, and [itsVisibleCells] has room for every cell, the call
    neither aborts nor writes past the end of [itsVisibleCells]. *)
Theorem CullAndSortVisibleCells_returns (aHoneycomb : Honeycomb) (aViewMatrix : Matrix)
    (anImageWidth anImageHeight aHorizonRadius aDirichletDomainRadius : double)
    (aSpaceType : SpaceType) :
  aSpaceType <> SpaceNone ->
  is_Some (MakeCullingHyperplanes anImageWidth anImageHeight) ->
  itsNumCells aHoneycomb < UINT_MODULUS ->
  (length (itsCells aHoneycomb) <= length (itsVisibleCells aHoneycomb))%nat ->
  is_Some (CullAndSortVisibleCells aHoneycomb aViewMatrix anImageWidth anImageHeight
             aHorizonRadius aDirichletDomainRadius aSpaceType).
Proof.
  intros Hspace [planes Hplanes] Hsize Hroom. unfold CullAndSortVisibleCells.
  unfold itsNumCells in Hsize.
  destruct (match aSpaceType with SpaceNone => None | _ => _ end) as [r|] eqn:Hr;
    [|by destruct aSpaceType].
  simpl. rewrite Hplanes. simpl.
  set (R := (aHorizonRadius + aDirichletDomainRadius)%float).
  set (cells0 := itsCells aHoneycomb) in *.
  set (st0 := mkCullState cells0 0 0 0 (itsVisibleCells aHoneycomb)).
  assert (Hstart : Culled aViewMatrix (AcceptedCells aViewMatrix aSpaceType R r planes cells0)
                     cells0 0 st0).
  { split; simpl; try done. intros i c Hi. lia. }
  destruct (iterM_CullCell_returns aViewMatrix aSpaceType R r planes cells0
              (length cells0) 0 st0 ltac:(simpl; lia) ltac:(simpl; lia) Hroom Hstart)
    as [st Hloop].
  rewrite Hloop. simpl.
  apply iterM_CullCell_Culled with (cells0 := cells0) in Hloop; [|simpl; lia|exact Hstart].
  simpl in Hloop. destruct Hloop as [Hlen Hcount Hvisible _ _].
  rewrite Hcount, Nat2Z.id.
  destruct (SortVisibleCells_returns (cs_cells st)
              (AcceptedCells aViewMatrix aSpaceType R r planes cells0 (length cells0))
              (cs_visible st) Hvisible) as [visible ->]; [|simpl; eauto].
  apply Forall_forall. intros i Hi. rewrite Hlen. by eapply AcceptedCells_lt.
Qed.

End CullingReturns.

Lemma CullAndSortVisibleCells_returns_witness : is_Some threeCellsCulled.
Proof.
  apply (@CullAndSortVisibleCells_returns Reference.libm Reference.matrices Reference.libc
           threeCells Reference.MatrixIdentity_model 2 2 10 1 SpaceFlat).
  - intros Hnone. discriminate Hnone.
  - vm_compute. eexists. reflexivity.
  - vm_compute. reflexivity.
  - simpl. lia.
Defined.

Lemma cstring_app (s post : list Byte) :
  CHAR_NUL ∉ s -> cstring (s ++ CHAR_NUL :: post) = s.
Proof.
  induction s as [|c s IH]; simpl; intros Hs; [reflexivity|].
  apply not_elem_of_cons in Hs as [Hc Hs].
  destruct (Z.eqb_spec c CHAR_NUL) as [->|_]; [done|]. by rewrite IH.
Qed.

Lemma cstring_split (text : list Byte) :
  ZeroTerminated text ->
  exists post, text = cstring text ++ CHAR_NUL :: post.
Proof.
  unfold ZeroTerminated. induction text as [|c text IH]; simpl; intros Hz.
  - by apply elem_of_nil in Hz.
  - destruct (Z.eqb_spec c CHAR_NUL) as [->|Hc]; [by exists text|].
    apply elem_of_cons in Hz as [Hz|Hz]; [congruence|].
    destruct (IH Hz) as [post Hpost]. exists post. simpl. by rewrite <- Hpost.
Qed.

Lemma cstring_no_zero (text : list Byte) : CHAR_NUL ∉ cstring text.
Proof.
  induction text as [|c text IH]; simpl; [apply not_elem_of_nil|].
  destruct (Z.eqb_spec c CHAR_NUL) as [->|Hc]; [apply not_elem_of_nil|].
  apply not_elem_of_cons. split; [congruence|assumption].
Qed.

Lemma WithoutComments_subseteq (inComment : bool) (s : list Byte) (c : Byte) :
  c ∈ WithoutComments inComment s -> c ∈ s.
Proof.
  revert inComment. induction s as [|x s IH]; simpl; intros inComment Hc; [assumption|].
  destruct inComment.
  - destruct ((x =? CHAR_CR) || (x =? CHAR_LF)).
    + apply elem_of_cons in Hc as [->|Hc]; [left|right; eauto].
    + right; eauto.
  - destruct (x =? CHAR_HASH).
    + right; eauto.
    + apply elem_of_cons in Hc as [->|Hc]; [left|right; eauto].
Qed.

Lemma WithoutComments_no_hash (inComment : bool) (s : list Byte) :
  CHAR_HASH ∉ WithoutComments inComment s.
Proof.
  revert inComment. induction s as [|x s IH]; simpl; intros inComment;
    [destruct inComment; apply not_elem_of_nil|].
  destruct inComment.
  - destruct (Z.eqb_spec x CHAR_CR) as [->|_]; simpl.
    { apply not_elem_of_cons. split; [discriminate|apply IH]. }
    destruct (Z.eqb_spec x CHAR_LF) as [->|_]; simpl; [|apply IH].
    apply not_elem_of_cons. split; [discriminate|apply IH].
  - destruct (Z.eqb_spec x CHAR_HASH) as [->|Hx]; [apply IH|].
    apply not_elem_of_cons. split; [congruence|apply IH].
Qed.

Lemma WithoutComments_id (s : list Byte) :
  CHAR_HASH ∉ s -> WithoutComments false s = s.
Proof.
  induction s as [|x s IH]; simpl; intros Hs; [reflexivity|].
  apply not_elem_of_cons in Hs as [Hx Hs].
  destruct (Z.eqb_spec x CHAR_HASH) as [->|_]; [done|]. by rewrite IH.
Qed.

(** A comment runs to the first byte that ends it. *)
Lemma comment_split (s : list Byte) :
  ZeroTerminated s ->
  exists skipped e post,
    s = skipped ++ e :: post /\ Forall (fun c => EndsComment c = false) skipped
    /\ EndsComment e = true.
Proof.
  unfold ZeroTerminated. induction s as [|c s IH]; intros Hz.
  - by apply elem_of_nil in Hz.
  - destruct (EndsComment c) eqn:Hc.
    + exists [], c, s. by repeat split.
    + apply elem_of_cons in Hz as [Hz|Hz]; [by rewrite <- Hz in Hc|].
      destruct (IH Hz) as (skipped & e & post & -> & Hskipped & He).
      exists (c :: skipped), e, post. repeat split; [|assumption]. by constructor.
Qed.

Lemma not_EndsComment (c : Byte) :
  EndsComment c = false ->
  (c =? CHAR_CR) = false /\ (c =? CHAR_LF) = false /\ (c =? CHAR_NUL) = false.
Proof.
  unfold EndsComment. destruct (c =? CHAR_CR), (c =? CHAR_LF), (c =? CHAR_NUL); by simpl.
Qed.

Lemma comment_skipped (skipped s : list Byte) :
  Forall (fun c => EndsComment c = false) skipped ->
  WithoutComments true (cstring (skipped ++ s)) = WithoutComments true (cstring s).
Proof.
  induction skipped as [|c skipped IH]; intros Hskipped; [reflexivity|].
  apply Forall_cons in Hskipped as [Hc Hskipped].
  destruct (not_EndsComment c Hc) as (Hcr & Hlf & Hnul).
  simpl. rewrite Hnul. simpl. rewrite Hcr, Hlf. simpl. by apply IH.
Qed.

Lemma SkipComment_spec (fuel : nat) (pre skipped post : list Byte) (x e : Byte) :
  Forall (fun c => EndsComment c = false) skipped -> EndsComment e = true ->
  (length skipped < fuel)%nat ->
  SkipComment fuel (pre ++ x :: skipped ++ e :: post) (length pre)
  = Some (S (length pre + length skipped)).
Proof.
  revert pre x skipped. induction fuel as [|fuel IH]; intros pre x skipped Hskipped He Hfuel;
    [lia|].
  simpl. destruct skipped as [|c skipped]; simpl.
  - replace (pre ++ x :: e :: post) with ((pre ++ [x]) ++ e :: post)
      by (by rewrite <- app_assoc).
    rewrite (list_lookup_middle _ _ _ (S (length pre))) by (rewrite length_app; simpl; lia).
    simpl. unfold EndsComment in He.
    destruct (e =? CHAR_CR), (e =? CHAR_LF), (e =? CHAR_NUL); simpl in *;
      try discriminate; f_equal; lia.
  - apply Forall_cons in Hskipped as [Hc Hskipped].
    replace (pre ++ x :: c :: skipped ++ e :: post)
      with ((pre ++ [x]) ++ c :: skipped ++ e :: post) by (by rewrite <- app_assoc).
    rewrite (list_lookup_middle _ _ _ (S (length pre))) by (rewrite length_app; simpl; lia).
    simpl. unfold EndsComment in Hc.
    destruct (c =? CHAR_CR), (c =? CHAR_LF), (c =? CHAR_NUL); simpl in *; try discriminate.
    replace (S (length pre)) with (length (pre ++ [x])) by (rewrite length_app; simpl; lia).
    rewrite IH; [|assumption..|simpl in Hfuel; lia].
    f_equal. rewrite length_app. simpl. lia.
Qed.

(** What the outer loop reads before its next write: nothing but the byte
    to copy, or a comment and the byte that ends it. *)
Lemma next_byte (rest : list Byte) :
  ZeroTerminated rest ->
  exists pre e rest',
    rest = pre ++ e :: rest'
    /\ (pre = [] /\ e <> CHAR_HASH
        \/ exists skipped, pre = CHAR_HASH :: skipped
             /\ Forall (fun c => EndsComment c = false) skipped /\ EndsComment e = true).
Proof.
  intros Hz. destruct rest as [|c rest]; [by apply elem_of_nil in Hz|].
  destruct (decide (c = CHAR_HASH)) as [->|Hc].
  - apply elem_of_cons in Hz as [Hz|Hz]; [discriminate|].
    destruct (comment_split rest Hz) as (skipped & e & post & -> & Hskipped & He).
    exists (CHAR_HASH :: skipped), e, post. split; [reflexivity|]. right. eauto.
  - exists [], c, rest. split; [reflexivity|]. by left.
Qed.

Lemma insert_first (out J post : list Byte) (e : Byte) :
  J <> [] ->
  <[length out := e]> (out ++ J ++ post) = out ++ (e :: tail J) ++ post.
Proof.
  intros HJ. destruct J as [|x J]; [done|]. simpl.
  rewrite insert_app_r_alt by lia. by rewrite Nat.sub_diag.
Qed.

Lemma RemoveComments_loop_spec (fuel : nat) (out junk rest : list Byte) :
  ZeroTerminated rest -> (length rest <= fuel)%nat ->
  RemoveComments_loop fuel (out ++ junk ++ rest) (length out + length junk) (length out)
  = Some (out ++ (WithoutComments false (cstring rest) ++ [CHAR_NUL])
              ++ drop (S (length (WithoutComments false (cstring rest)))) (junk ++ rest)).
Proof.
  revert out junk rest.
  induction fuel as [|fuel IH]; intros out junk rest Hz Hfuel.
  { destruct rest; [by apply elem_of_nil in Hz|simpl in Hfuel; lia]. }
  destruct (next_byte rest Hz) as (pre & e & rest' & -> & Hpre).
  set (text := out ++ junk ++ pre ++ e :: rest').
  set (J := junk ++ pre ++ [e]).
  assert (Htext : text = out ++ J ++ rest').
  { unfold text, J. by rewrite <- !app_assoc. }
  assert (HJ : J <> []).
  { unfold J. destruct junk, pre; discriminate. }
  (* the read location after the comment, if there is one *)
  assert (Hread : (c ← text !! (length out + length junk)%nat;
                   if c =? CHAR_HASH
                   then SkipComment (length text) text (length out + length junk)
                   else Some (length out + length junk)%nat)
                  = Some (length out + length junk + length pre)%nat).
  { destruct Hpre as [[-> He]|(skipped & -> & Hskipped & Hend)].
    - unfold text. simpl.
      rewrite app_assoc, (list_lookup_middle _ _ _ (length out + length junk))
        by (by rewrite length_app).
      simpl. destruct (Z.eqb_spec e CHAR_HASH); [done|]. f_equal. lia.
    - unfold text. simpl.
      rewrite (app_assoc out junk), (list_lookup_middle _ _ _ (length out + length junk))
        by (by rewrite length_app).
      simpl.
      replace (length out + length junk)%nat with (length (out ++ junk))
        by (by rewrite length_app).
      rewrite SkipComment_spec; [|assumption..|].
      + f_equal. simpl. lia.
      + rewrite !length_app. simpl. rewrite length_app. simpl. lia. }
  assert (Hbyte : text !! (length out + length junk + length pre)%nat = Some e).
  { unfold text. rewrite !app_assoc. apply list_lookup_middle. by rewrite !length_app. }
  assert (Hw : is_Some (text !! length out)).
  { apply lookup_lt_is_Some_2. rewrite Htext, !length_app.
    destruct J; [done|]. simpl. lia. }
  destruct Hw as [old Hw].
  assert (Hwrite : <[length out := e]> text = out ++ (e :: tail J) ++ rest').
  { rewrite Htext. by apply insert_first. }
  assert (Hrest : junk ++ pre ++ e :: rest' = J ++ rest').
  { unfold J. by rewrite <- !app_assoc. }
  cbn [RemoveComments_loop]. fold text.
  destruct (text !! (length out + length junk)%nat) as [c|] eqn:Hc; simpl in Hread;
    [|discriminate Hread].
  cbn [mbind option_bind]. rewrite Hread. cbn [mbind option_bind].
  rewrite Hbyte. cbn [mbind option_bind]. rewrite Hw. cbn [mbind option_bind].
  rewrite Hwrite, Hrest.
  destruct (Z.eqb_spec e CHAR_NUL) as [->|He]; simpl.
  - (* the zero: the loop ends *)
    assert (HW : WithoutComments false (cstring (pre ++ CHAR_NUL :: rest')) = []).
    { destruct Hpre as [[-> _]|(skipped & -> & Hskipped & _)]; [reflexivity|].
      simpl. by rewrite comment_skipped. }
    rewrite HW. simpl. destruct J; [done|]. reflexivity.
  - (* another byte: the loop goes on *)
    assert (HW : WithoutComments false (cstring (pre ++ e :: rest'))
                 = e :: WithoutComments false (cstring rest')).
    { destruct Hpre as [[-> Hhash]|(skipped & -> & Hskipped & Hend)].
      - simpl. destruct (Z.eqb_spec e CHAR_NUL); [done|].
        simpl. by destruct (Z.eqb_spec e CHAR_HASH).
      - simpl. rewrite comment_skipped by done. simpl.
        destruct (Z.eqb_spec e CHAR_NUL); [done|]. simpl.
        unfold EndsComment in Hend.
        destruct ((e =? CHAR_CR) || (e =? CHAR_LF)); [reflexivity|].
        simpl in Hend. by destruct (Z.eqb_spec e CHAR_NUL). }
    rewrite HW.
    assert (Hz' : ZeroTerminated rest').
    { unfold ZeroTerminated in *. rewrite elem_of_app, elem_of_cons in Hz.
      destruct Hz as [Hz|[Hz|Hz]]; [|congruence|assumption].
      destruct Hpre as [[-> _]|(skipped & -> & Hskipped & _)];
        [by apply elem_of_nil in Hz|].
      apply elem_of_cons in Hz as [Hz|Hz]; [discriminate|].
      rewrite Forall_forall in Hskipped. specialize (Hskipped _ Hz). discriminate. }
    replace (S (length out + length junk + length pre))
      with (length (out ++ [e]) + length (tail J))%nat.
    2:{ rewrite length_app. unfold J. destruct junk as [|j junk]; simpl.
        - destruct pre; simpl; rewrite ?length_app; simpl; lia.
        - rewrite !length_app. simpl. lia. }
    replace (S (length out)) with (length (out ++ [e])) by (rewrite length_app; simpl; lia).
    pose proof (IH (out ++ [e]) (tail J) rest' Hz') as Hnext.
    rewrite <- app_assoc in Hnext. simpl in Hnext. rewrite Hnext.
    + f_equal. rewrite <- !app_assoc. simpl. do 3 f_equal.
      destruct J; [done|]. reflexivity.
    + rewrite length_app in Hfuel. simpl in Hfuel. lia.
Qed.

(** [RemoveComments] returns on every zero-terminated text; the buffer
    keeps its length, and the string it holds afterwards is the string it
    held before without the comments. *)
Theorem RemoveComments_removes_comments (anInputText : list Byte) :
  ZeroTerminated anInputText ->
  exists text,
    RemoveComments anInputText = Some text
    /\ length text = length anInputText
    /\ cstring text = WithoutComments false (cstring anInputText)
    /\ CHAR_HASH ∉ cstring text.
Proof.
  intros Hz. unfold RemoveComments.
  pose proof (RemoveComments_loop_spec (length anInputText) [] [] anInputText Hz
                ltac:(lia)) as Hrun.
  simpl in Hrun. rewrite Hrun. eexists. split; [reflexivity|].
  set (W := WithoutComments false (cstring anInputText)).
  assert (HW : CHAR_NUL ∉ W).
  { intros Hin. apply WithoutComments_subseteq in Hin. by apply cstring_no_zero in Hin. }
  assert (Hlen : (length W <= length (cstring anInputText))%nat).
  { unfold W. generalize (cstring anInputText) false. intros s.
    induction s as [|c s IH]; intros b; simpl; [by destruct b|].
    destruct b; [destruct (_ || _)|destruct (_ =? _)]; simpl;
      pose proof (IH false); pose proof (IH true); lia. }
  destruct (cstring_split anInputText Hz) as [post Hpost].
  assert (Hsize : (S (length (cstring anInputText)) <= length anInputText)%nat).
  { rewrite Hpost at 2. rewrite length_app. simpl. lia. }
  split; [|split].
  - rewrite length_app, length_app, length_drop. simpl. lia.
  - rewrite <- app_assoc. simpl. by apply cstring_app.
  - rewrite <- app_assoc. simpl. rewrite cstring_app by done.
    apply WithoutComments_no_hash.
Qed.

(** A text without comments is left as it is, byte for byte; so a second
    [RemoveComments] changes nothing. *)
Theorem RemoveComments_idempotent (anInputText text : list Byte) :
  ZeroTerminated anInputText ->
  RemoveComments anInputText = Some text ->
  RemoveComments text = Some text.
Proof.
  intros Hz Hrun.
  assert (Hfixed : forall s, ZeroTerminated s -> CHAR_HASH ∉ cstring s ->
                             RemoveComments s = Some s).
  { intros s Hs Hhash. unfold RemoveComments.
    pose proof (RemoveComments_loop_spec (length s) [] [] s Hs ltac:(lia)) as Hloop.
    simpl in Hloop. rewrite Hloop. f_equal.
    rewrite WithoutComments_id by done.
    destruct (cstring_split s Hs) as [post Hpost].
    remember (cstring s) as c eqn:Hcs. clear Hcs. subst s.
    replace (c ++ CHAR_NUL :: post) with ((c ++ [CHAR_NUL]) ++ post)
      by (by rewrite <- app_assoc).
    by rewrite drop_app_length' by (rewrite length_app; simpl; lia). }
  destruct (RemoveComments_removes_comments anInputText Hz)
    as (text' & Hrun' & Hlen & Hstring & Hhash).
  rewrite Hrun in Hrun'. injection Hrun' as <-.
  apply Hfixed; [|assumption].
  (* the result is zero-terminated *)
  unfold RemoveComments in Hrun.
  pose proof (RemoveComments_loop_spec (length anInputText) [] [] anInputText Hz
                ltac:(lia)) as Hloop.
  simpl in Hloop. rewrite Hloop in Hrun.
  injection Hrun as <-. unfold ZeroTerminated.
  rewrite !elem_of_app. left. right. apply list_elem_of_here.
Qed.

(** [StringBeginsWith] returns on zero-terminated strings without a read
    past either zero, and says whether the one string begins with the
    other. *)
Theorem StringBeginsWith_prefix (anInputText aPossibleBeginning : list Byte) :
  ZeroTerminated anInputText -> ZeroTerminated aPossibleBeginning ->
  StringBeginsWith anInputText aPossibleBeginning
  = Some (bool_decide (cstring aPossibleBeginning `prefix_of` cstring anInputText)).
Proof.
  unfold ZeroTerminated. revert anInputText.
  induction aPossibleBeginning as [|b bs IH]; intros a Ha Hb.
  - by apply elem_of_nil in Hb.
  - cbn [StringBeginsWith cstring]. destruct (Z.eqb_spec b CHAR_NUL) as [->|Hbz].
    + by rewrite bool_decide_eq_true_2 by apply prefix_nil.
    + apply elem_of_cons in Hb as [Hb|Hb]; [congruence|].
      destruct a as [|x a]; [by apply elem_of_nil in Ha|].
      cbn [cstring]. destruct (Z.eqb_spec x b) as [->|Hne]; cbn [negb].
      * destruct (Z.eqb_spec b CHAR_NUL); [done|].
        apply elem_of_cons in Ha as [Ha|Ha]; [congruence|].
        rewrite (IH a Ha Hb). f_equal. apply bool_decide_ext.
        split; [apply prefix_cons|apply prefix_cons_inv_2].
      * rewrite bool_decide_eq_false_2; [reflexivity|].
        destruct (Z.eqb_spec x CHAR_NUL).
        -- intros Hp. by apply prefix_nil_inv in Hp.
        -- intros Hp. by apply prefix_cons_inv_1 in Hp.
Qed.

Lemma RemoveComments_removes_comments_witness :
  exists text,
    RemoveComments commentedText = Some text
    /\ length text = length commentedText
    /\ cstring text = WithoutComments false (cstring commentedText)
    /\ CHAR_HASH ∉ cstring text.
Proof.
  apply RemoveComments_removes_comments.
  apply (list_elem_of_lookup_2 _ 9%nat). reflexivity.
Defined.

Lemma RemoveComments_idempotent_witness :
  RemoveComments [49; 32; 10; 50; 0; 110; 101; 10; 50; 0]
  = Some [49; 32; 10; 50; 0; 110; 101; 10; 50; 0].
Proof.
  apply (RemoveComments_idempotent commentedText).
  - apply (list_elem_of_lookup_2 _ 9%nat). reflexivity.
  - vm_compute. reflexivity.
Defined.

Lemma StringBeginsWith_prefix_witness :
  StringBeginsWith commentedText commentBeginning
  = Some (bool_decide (cstring commentBeginning `prefix_of` cstring commentedText)).
Proof.
  apply StringBeginsWith_prefix.
  - apply (list_elem_of_lookup_2 _ 9%nat). reflexivity.
  - apply (list_elem_of_lookup_2 _ 3%nat). reflexivity.
Defined.

Lemma eqb_frank (x y : float) :
  PrimFloat.is_nan x = false -> PrimFloat.is_nan y = false ->
  PrimFloat.eqb x y = (frank x =? frank y).
Proof.
  intros Hx Hy. rewrite FloatAxioms.eqb_spec. unfold SFeqb, frank.
  rewrite (SFcompare_rank _ _ (Prim2SF_valid x) (Prim2SF_valid y)
             (is_nan_false x Hx) (is_nan_false y Hy)).
  destruct (Z.compare_spec (rank (Prim2SF x)) (rank (Prim2SF y)));
    destruct (Z.eqb_spec (rank (Prim2SF x)) (rank (Prim2SF y))); try reflexivity; lia.
Qed.

(** The three tests on a number: exactly one of them holds. *)
Lemma SpaceTypeOfGenerator_number (t : SpaceType) (M : Matrix) :
  PrimFloat.is_nan (mget M 3 3) = false ->
  SpaceTypeOfGenerator t M = GeometryOf M /\ GeometryOf M <> SpaceNone.
Proof.
  intros Hnum. unfold GeometryOf, SpaceTypeOfGenerator, gtb.
  assert (H1 : PrimFloat.is_nan 1 = false) by reflexivity.
  rewrite (ltb_frank _ _ Hnum H1), (ltb_frank _ _ H1 Hnum), (eqb_frank _ _ Hnum H1).
  destruct (Z.ltb_spec (frank (mget M 3 3)) (frank 1));
    destruct (Z.ltb_spec (frank 1) (frank (mget M 3 3)));
    destruct (Z.eqb_spec (frank (mget M 3 3)) (frank 1)); try lia;
    by split.
Qed.

Lemma DetectSpaceType_loop_error (l : list Matrix) (a t : SpaceType) (e : string)
    (r : SpaceType) :
  DetectSpaceType_loop l a t = (Some e, r) -> r = SpaceNone.
Proof.
  revert a t. induction l as [|M l IH]; simpl; intros a t Hrun; [discriminate|].
  destruct (decide (a = SpaceNone)); [by eapply IH|].
  destruct (decide (a <> SpaceTypeOfGenerator t M)); [by injection Hrun as _ <-|].
  by eapply IH.
Qed.

Lemma DetectSpaceType_loop_agreed (l : list Matrix) (a t : SpaceType) :
  a <> SpaceNone ->
  Forall (fun M => PrimFloat.is_nan (mget M 3 3) = false) l ->
  DetectSpaceType_loop l a t = (None, a) <-> Forall (fun M => GeometryOf M = a) l.
Proof.
  intros Ha. revert t. induction l as [|M l IH]; simpl; intros t Hnum.
  - split; [constructor|reflexivity].
  - apply Forall_cons in Hnum as [HM Hnum].
    destruct (SpaceTypeOfGenerator_number t M HM) as [-> Hgeo].
    destruct (decide (a = SpaceNone)); [done|].
    destruct (decide (a <> GeometryOf M)) as [Hne|Heq].
    + split; [discriminate|]. intros Hall. apply Forall_cons in Hall as [Hall _]. congruence.
    + apply dec_stable in Heq. rewrite (IH (GeometryOf M) Hnum).
      split; [by constructor|]. intros Hall. by apply Forall_cons in Hall as [_ Hall].
Qed.

Lemma DetectSpaceType_loop_result (l : list Matrix) (a t r : SpaceType) :
  a <> SpaceNone -> DetectSpaceType_loop l a t = (None, r) -> r = a.
Proof.
  intros Ha. revert t. induction l as [|M l IH]; simpl; intros t Hrun.
  - by injection Hrun as <-.
  - destruct (decide (a = SpaceNone)); [done|].
    destruct (decide (a <> SpaceTypeOfGenerator t M)); [discriminate|]. by eapply IH.
Qed.

(** [DetectSpaceType] on generators whose entries [m[3][3]] are numbers:
    it reports no error exactly when all generators have one geometry, and
    then it sets [*aSpaceType] to that geometry; when it reports an error
    it sets [*aSpaceType] to [SpaceNone].  With no generators it reports
    no error and the space is spherical. *)
Theorem DetectSpaceType_agrees (aGeneratorList : MatrixList) :
  Forall (fun M => PrimFloat.is_nan (mget M 3 3) = false) aGeneratorList ->
  (aGeneratorList = [] -> DetectSpaceType aGeneratorList = (None, SpaceSpherical))
  /\ (forall M l, aGeneratorList = M :: l ->
        (fst (DetectSpaceType aGeneratorList) = None
         <-> Forall (fun M' => GeometryOf M' = GeometryOf M) l)
        /\ (fst (DetectSpaceType aGeneratorList) = None ->
            snd (DetectSpaceType aGeneratorList) = GeometryOf M
            /\ GeometryOf M <> SpaceNone)
        /\ (fst (DetectSpaceType aGeneratorList) <> None ->
            snd (DetectSpaceType aGeneratorList) = SpaceNone)).
Proof.
  intros Hnum. split; [by intros ->|].
  intros M l ->. apply Forall_cons in Hnum as [HM Hnum].
  destruct (SpaceTypeOfGenerator_number SpaceNone M HM) as [_ Hgeo].
  unfold DetectSpaceType. simpl.
  destruct (decide (SpaceNone = SpaceNone)); [|done].
  fold (GeometryOf M).
  destruct (DetectSpaceType_loop l (GeometryOf M) (GeometryOf M)) as [[msg|] r] eqn:Hrun; simpl.
  - split; [|split; [discriminate|]].
    + split; [discriminate|]. intros Hall.
      apply (DetectSpaceType_loop_agreed l _ (GeometryOf M) Hgeo Hnum) in Hall. congruence.
    + intros _. by eapply DetectSpaceType_loop_error.
  - pose proof (DetectSpaceType_loop_result _ _ _ _ Hgeo Hrun) as ->.
    split; [|split; [done|done]].
    split; [|done]. intros _.
    by apply (DetectSpaceType_loop_agreed l _ (GeometryOf M) Hgeo Hnum).
Qed.

Lemma DetectSpaceType_agrees_witness :
  (cubeGenerators = [] -> DetectSpaceType cubeGenerators = (None, SpaceSpherical))
  /\ (forall M l, cubeGenerators = M :: l ->
        (fst (DetectSpaceType cubeGenerators) = None
         <-> Forall (fun M' => GeometryOf M' = GeometryOf M) l)
        /\ (fst (DetectSpaceType cubeGenerators) = None ->
            snd (DetectSpaceType cubeGenerators) = GeometryOf M
            /\ GeometryOf M <> SpaceNone)
        /\ (fst (DetectSpaceType cubeGenerators) <> None ->
            snd (DetectSpaceType cubeGenerators) = SpaceNone)).
Proof.
  apply DetectSpaceType_agrees.
  repeat (apply Forall_cons; split; [reflexivity|]). apply Forall_nil. exact I.
Defined.

Section ConstructHoneycombs.
Context `{LibM} `{Matrices} `{LibC}.

Lemma SetCells_cells (memory : Allocation) (l : list Matrix) (done : list Honeycell)
    (rest : list Honeycell) :
  rest = (fun i => mkHoneycell zeroMatrix zeroVector (freshDistance memory i))
           <$> seq (length done) (length l) ->
  SetCells l (length done) (Some (done ++ rest))
  = Some (Some (done ++ imap (fun i => CellOf memory (length done + i)) l)).
Proof.
  revert done rest. induction l as [|M l IH]; intros done rest Hrest.
  - simpl in *. by subst rest.
  - simpl in Hrest. subst rest. cbn [SetCells SetCell mbind option_bind].
    rewrite list_lookup_middle by done. cbn [mbind option_bind].
    rewrite insert_app_r_alt by lia. rewrite Nat.sub_diag.
    specialize (IH (done ++ [CellOf memory (length done) M]) _ eq_refl).
    rewrite length_app in IH. simpl in IH. rewrite Nat.add_1_r in IH.
    rewrite <- app_assoc in IH. simpl in *. unfold CellOf in *. simpl in *.
    refine (eq_trans IH _). rewrite <- app_assoc, Nat.add_0_r. simpl.
    do 4 f_equal. apply imap_ext. intros i x _. simpl. do 2 f_equal. lia.
Qed.

Lemma SetCells_NULL (l : list Matrix) (i : nat) :
  l <> [] -> SetCells l i None = None.
Proof. by destruct l. Qed.


Lemma ConstructHoneycomb_cells_and_size (memory : Allocation) (G : MatrixList)
    (aDirichletDomain : option DirichletDomain) (aHoneycomb : Honeycomb) :
  0 < sizeof_Honeycell memory ->
  ConstructHoneycomb memory (Some G) aDirichletDomain None = Some (None, Some aHoneycomb) ->
  itsCells aHoneycomb = imap (CellOf memory) G
  /\ itsVisibleCells aHoneycomb = replicate (length G) None
  /\ Z.of_nat (length (itsCells aHoneycomb)) < UINT_MODULUS.
Proof.
  unfold ConstructHoneycomb, AllocateHoneycomb, itsNumMatrices. intros Hsizeof Hrun.
  destruct (Z.ltb_spec (0xFFFFFFFF / sizeof_Honeycell memory) (Z.of_nat (length G)));
    [discriminate|].
  assert (Hfew : Z.of_nat (length G) < UINT_MODULUS).
  { assert (0xFFFFFFFF / sizeof_Honeycell memory <= 0xFFFFFFFF)
      by (apply Z.div_le_upper_bound; lia).
    unfold UINT_MODULUS. lia. }
  destruct (_ <? _); [discriminate|].
  destruct (gotHoneycomb memory); simpl in Hrun; [|discriminate].
  destruct (gotVisibleCells memory); [|discriminate].
  rewrite Nat2Z.id in Hrun.
  destruct (gotCells memory).
  - pose proof (SetCells_cells memory G [] _ eq_refl) as Hcells. simpl in Hcells.
    rewrite Hcells in Hrun. simpl in Hrun. injection Hrun as <-. simpl.
    split; [|split; [reflexivity|by rewrite length_imap]].
    apply imap_ext. intros i x _. reflexivity.
  - destruct G as [|M G]; [|discriminate Hrun].
    simpl in Hrun. injection Hrun as <-. simpl. by repeat split.
Qed.

(** The honeycomb of a successful [ConstructHoneycomb]: one cell for each
    matrix of the holonomy group, in the order of the group, with the
    matrix and the image of the basepoint (0,0,0,1) under it; no cell is
    visible yet, and [itsVisibleCells] has a NULL for each cell. *)
Theorem ConstructHoneycomb_cells (memory : Allocation) (G : MatrixList)
    (aDirichletDomain : option DirichletDomain) (aHoneycomb : Honeycomb) :
  ConstructHoneycomb memory (Some G) aDirichletDomain None = Some (None, Some aHoneycomb) ->
  itsCells aHoneycomb = imap (CellOf memory) G
  /\ itsNumVisibleCells aHoneycomb = 0
  /\ itsNumVisiblePlainCells aHoneycomb = 0
  /\ itsNumVisibleReflectedCells aHoneycomb = 0
  /\ itsVisibleCells aHoneycomb = replicate (length G) None.
Proof.
  unfold ConstructHoneycomb, AllocateHoneycomb, itsNumMatrices. intros Hrun.
  destruct (_ || _); [discriminate|].
  destruct (gotHoneycomb memory); simpl in Hrun; [|discriminate].
  destruct (gotVisibleCells memory); [|discriminate].
  rewrite Nat2Z.id in Hrun.
  destruct (gotCells memory).
  - pose proof (SetCells_cells memory G [] _ eq_refl) as Hcells. simpl in Hcells.
    rewrite Hcells in Hrun. simpl in Hrun. injection Hrun as <-. simpl.
    split; [|done]. apply imap_ext. intros i x _. reflexivity.
  - destruct G as [|M G]; [|discriminate Hrun].
    simpl in Hrun. injection Hrun as <-. by repeat split.
Qed.

(** [ConstructHoneycomb] tests the allocation of the honeycomb and of
    [itsVisibleCells], not that of [itsCells]: it returns, with a message
    or a honeycomb, unless [itsCells] alone could not be allocated and the
    group has a matrix, and then its loop writes through the NULL
    [itsCells]. *)
Theorem ConstructHoneycomb_unchecked_itsCells (memory : Allocation) (G : MatrixList)
    (aDirichletDomain : option DirichletDomain) :
  ConstructHoneycomb memory (Some G) aDirichletDomain None = None
  <-> itsNumMatrices G <= 0xFFFFFFFF / sizeof_Honeycell memory
      /\ match aDirichletDomain with
         | Some d => Z.of_nat (length (itsVertexList d)) mod UINT_MODULUS
         | None => 0
         end <= 0xFFFFFFFF / sizeof_Vector memory
      /\ gotHoneycomb memory = true /\ gotCells memory = false
      /\ gotVisibleCells memory = true /\ G <> [].
Proof.
  unfold ConstructHoneycomb, AllocateHoneycomb, itsNumMatrices.
  set (nv := match aDirichletDomain with Some d => _ | None => 0 end).
  destruct (Z.ltb_spec (0xFFFFFFFF / sizeof_Honeycell memory) (Z.of_nat (length G)));
    [simpl; split; [discriminate|lia]|].
  destruct (Z.ltb_spec (0xFFFFFFFF / sizeof_Vector memory) nv);
    [simpl; split; [discriminate|lia]|].
  simpl. destruct (gotHoneycomb memory); simpl;
    [|split; [discriminate|intros (_ & _ & ? & _); discriminate]].
  destruct (gotVisibleCells memory);
    [|split; [discriminate|intros (_ & _ & _ & _ & ? & _); discriminate]].
  rewrite Nat2Z.id. destruct (gotCells memory).
  - pose proof (SetCells_cells memory G [] _ eq_refl) as Hcells. simpl in Hcells.
    rewrite Hcells. simpl. split; [discriminate|intros (_ & _ & _ & ? & _); discriminate].
  - destruct G as [|M G]; simpl.
    + split; [discriminate|]. by intros (_ & _ & _ & _ & _ & ?).
    + split; [|done]. intros _. by repeat split.
Qed.

(** A honeycomb from [ConstructHoneycomb] can be culled: on it
    [CullAndSortVisibleCells] neither aborts nor writes past the end of
    [itsVisibleCells], whatever the view. *)
Theorem ConstructHoneycomb_then_CullAndSortVisibleCells (memory : Allocation)
    (G : MatrixList) (aDirichletDomain : option DirichletDomain) (aHoneycomb : Honeycomb)
    (aViewMatrix : Matrix)
    (anImageWidth anImageHeight aHorizonRadius aDirichletDomainRadius : double)
    (aSpaceType : SpaceType) :
  0 < sizeof_Honeycell memory ->
  ConstructHoneycomb memory (Some G) aDirichletDomain None = Some (None, Some aHoneycomb) ->
  aSpaceType <> SpaceNone ->
  is_Some (MakeCullingHyperplanes anImageWidth anImageHeight) ->
  is_Some (CullAndSortVisibleCells aHoneycomb aViewMatrix anImageWidth anImageHeight
             aHorizonRadius aDirichletDomainRadius aSpaceType).
Proof.
  intros Hsizeof Hrun Hspace [planes Hplanes].
  destruct (ConstructHoneycomb_cells_and_size memory G aDirichletDomain aHoneycomb Hsizeof Hrun)
    as (Hcells & Hvisible & Hsize).
  unfold CullAndSortVisibleCells.
  destruct (match aSpaceType with SpaceNone => None | _ => _ end) as [r|] eqn:Hr;
    [|by destruct aSpaceType].
  simpl. rewrite Hplanes. simpl.
  set (R := (aHorizonRadius + aDirichletDomainRadius)%float).
  set (cells0 := itsCells aHoneycomb) in *.
  set (st0 := mkCullState cells0 0 0 0 (itsVisibleCells aHoneycomb)).
  assert (Hstart : Culled aViewMatrix (AcceptedCells aViewMatrix aSpaceType R r planes cells0)
                     cells0 0 st0).
  { split; simpl; try done. intros i c Hi. lia. }
  assert (Hroom : (length cells0 <= length (cs_visible st0))%nat).
  { simpl. rewrite Hvisible, length_replicate. by rewrite Hcells, length_imap. }
  destruct (iterM_CullCell_returns aViewMatrix aSpaceType R r planes cells0
              (length cells0) 0 st0 ltac:(simpl; lia) ltac:(simpl; lia) Hroom Hstart)
    as [st Hloop].
  rewrite Hloop. simpl.
  apply iterM_CullCell_Culled with (cells0 := cells0) in Hloop; [|simpl; lia|exact Hstart].
  simpl in Hloop. destruct Hloop as [Hlen Hcount Hvis _ _].
  rewrite Hcount, Nat2Z.id.
  destruct (SortVisibleCells_returns (cs_cells st)
              (AcceptedCells aViewMatrix aSpaceType R r planes cells0 (length cells0))
              (cs_visible st) Hvis) as [visible ->]; [|simpl; eauto].
  apply Forall_forall. intros i Hi. rewrite Hlen. by eapply AcceptedCells_lt.
Qed.

End ConstructHoneycombs.

Lemma ConstructHoneycomb_cells_witness :
  itsCells cubeHoneycomb = imap (@CellOf Reference.matrices plentiful) cubeGenerators
  /\ itsNumVisibleCells cubeHoneycomb = 0
  /\ itsNumVisiblePlainCells cubeHoneycomb = 0
  /\ itsNumVisibleReflectedCells cubeHoneycomb = 0
  /\ itsVisibleCells cubeHoneycomb = replicate (length cubeGenerators) None.
Proof.
  apply (@ConstructHoneycomb_cells Reference.matrices plentiful cubeGenerators
           (Some cubeDomain) cubeHoneycomb).
  vm_compute. reflexivity.
Defined.

Lemma ConstructHoneycomb_unchecked_itsCells_witness :
  @ConstructHoneycomb Reference.matrices withoutCells (Some cubeGenerators)
    (Some cubeDomain) None = None.
Proof.
  apply (@ConstructHoneycomb_unchecked_itsCells Reference.matrices).
  vm_compute. repeat split; discriminate.
Defined.

Lemma ConstructHoneycomb_then_CullAndSortVisibleCells_witness :
  is_Some (@CullAndSortVisibleCells Reference.libm Reference.matrices Reference.libc
             cubeHoneycomb Reference.MatrixIdentity_model 2 2 10 1 SpaceFlat).
Proof.
  apply (@ConstructHoneycomb_then_CullAndSortVisibleCells Reference.libm Reference.matrices
           Reference.libc plentiful cubeGenerators (Some cubeDomain) cubeHoneycomb).
  - reflexivity.
  - vm_compute. reflexivity.
  - discriminate.
  - vm_compute. eauto.
Defined.

Section CullingMore.
Context `{LibM} `{Matrices} `{LibC}.

(** [CullAndSortVisibleCells] measures every cell, visible or not: after
    the call each cell holds the distance of its center from the camera,
    and its matrix and its center are the ones it had. *)
Theorem CullAndSortVisibleCells_measures_cells (aHoneycomb aHoneycomb' : Honeycomb)
    (aViewMatrix : Matrix)
    (anImageWidth anImageHeight aHorizonRadius aDirichletDomainRadius : double)
    (aSpaceType : SpaceType) :
  itsNumCells aHoneycomb < UINT_MODULUS ->
  CullAndSortVisibleCells aHoneycomb aViewMatrix anImageWidth anImageHeight
    aHorizonRadius aDirichletDomainRadius aSpaceType = Some aHoneycomb' ->
  itsCells aHoneycomb'
  = (fun c => mkHoneycell (Honeycell_itsMatrix c) (itsCellCenterInWorldSpace c)
                (VectorGeometricDistance
                   (VectorTimesMatrix (itsCellCenterInWorldSpace c) aViewMatrix)))
      <$> itsCells aHoneycomb.
Proof.
  unfold CullAndSortVisibleCells, itsNumCells. intros Hsize Hrun.
  destruct (match aSpaceType with SpaceNone => None | _ => _ end) as [r|];
    simpl in Hrun; [|discriminate].
  destruct (MakeCullingHyperplanes _ _) as [planes|]; simpl in Hrun; [|discriminate].
  destruct (iterM _ _ _) as [st|] eqn:Hloop; simpl in Hrun; [|discriminate].
  destruct (SortVisibleCells _ _ _) as [visible|]; simpl in Hrun; [|discriminate].
  injection Hrun as <-. simpl.
  set (cells0 := itsCells aHoneycomb) in *.
  apply (iterM_CullCell_Culled aViewMatrix aSpaceType _ r planes cells0 (length cells0) 0)
    in Hloop; [|simpl; lia|].
  2:{ split; simpl; try done. intros i c Hi. lia. }
  simpl in Hloop. destruct Hloop as [Hlen _ _ Hdone _].
  apply list_eq. intros i. rewrite list_lookup_fmap.
  destruct (cs_cells st !! i) as [c|] eqn:Hc.
  - destruct (Hdone i c) as (c0 & -> & ->); [|assumption|reflexivity].
    apply lookup_lt_Some in Hc. lia.
  - apply lookup_ge_None in Hc. rewrite Hlen in Hc.
    by rewrite (proj2 (lookup_ge_None cells0 i) Hc).
Qed.

Lemma AcceptedCells_spherical V R r planes (cells : list Honeycell) (k : nat) :
  (k <= length cells)%nat ->
  AcceptedCells V SpaceSpherical R r planes cells k = seq 0 k.
Proof.
  induction k as [|k IH]; intros Hk; [reflexivity|].
  rewrite AcceptedCells_S, IH, seq_S by lia.
  destruct (lookup_lt_is_Some_2 cells k ltac:(lia)) as [c ->].
  by rewrite decide_True by reflexivity.
Qed.

(** In a spherical space [CullAndSortVisibleCells] culls nothing: every
    cell counts as visible. *)
Theorem CullAndSortVisibleCells_spherical (aHoneycomb aHoneycomb' : Honeycomb)
    (aViewMatrix : Matrix)
    (anImageWidth anImageHeight aHorizonRadius aDirichletDomainRadius : double) :
  itsNumCells aHoneycomb < UINT_MODULUS ->
  CullAndSortVisibleCells aHoneycomb aViewMatrix anImageWidth anImageHeight
    aHorizonRadius aDirichletDomainRadius SpaceSpherical = Some aHoneycomb' ->
  itsNumVisibleCells aHoneycomb' = itsNumCells aHoneycomb.
Proof.
  unfold CullAndSortVisibleCells, itsNumCells. intros Hsize Hrun. simpl in Hrun.
  destruct (MakeCullingHyperplanes _ _) as [planes|]; simpl in Hrun; [|discriminate].
  destruct (iterM _ _ _) as [st|] eqn:Hloop; simpl in Hrun; [|discriminate].
  destruct (SortVisibleCells _ _ _) as [visible|]; simpl in Hrun; [|discriminate].
  injection Hrun as <-. simpl.
  set (cells0 := itsCells aHoneycomb) in *.
  apply (iterM_CullCell_Culled aViewMatrix SpaceSpherical _ _ planes cells0
           (length cells0) 0) in Hloop; [|simpl; lia|].
  2:{ split; simpl; try done. intros i c Hi. lia. }
  simpl in Hloop. destruct Hloop as [_ -> _ _ _]. f_equal.
  by rewrite AcceptedCells_spherical, length_seq by lia.
Qed.

End CullingMore.

Lemma CullAndSortVisibleCells_measures_cells_witness :
  itsCells threeCellsSorted
  = (fun c => mkHoneycell (Honeycell_itsMatrix c) (itsCellCenterInWorldSpace c)
                (@VectorGeometricDistance Reference.matrices
                   (@VectorTimesMatrix Reference.matrices (itsCellCenterInWorldSpace c)
                      Reference.MatrixIdentity_model)))
      <$> itsCells threeCells.
Proof.
  apply (@CullAndSortVisibleCells_measures_cells Reference.libm Reference.matrices
           Reference.libc threeCells threeCellsSorted Reference.MatrixIdentity_model
           2 2 10 1 SpaceFlat).
  - vm_compute. reflexivity.
  - vm_compute. reflexivity.
Defined.

Lemma CullAndSortVisibleCells_spherical_witness :
  itsNumVisibleCells threeCellsOnSphere = itsNumCells threeCells.
Proof.
  apply (@CullAndSortVisibleCells_spherical Reference.libm Reference.matrices
           Reference.libc threeCells threeCellsOnSphere Reference.MatrixIdentity_model
           2 2 3.15 1).
  - vm_compute. reflexivity.
  - vm_compute. reflexivity.
Defined.

Lemma is_nan_true (x : float) : PrimFloat.is_nan x = true -> Prim2SF x = S754_nan.
Proof.
  unfold PrimFloat.is_nan. rewrite FloatAxioms.eqb_spec. intros Hx.
  destruct (Prim2SF x) as [s|s| |s m e] eqn:Hsf; try reflexivity; exfalso;
    pose proof (Prim2SF_valid x) as Hvalid; rewrite Hsf in Hvalid;
    rewrite SFeqb_refl in Hx; try discriminate Hx; try assumption; discriminate.
Qed.

Lemma sub_nan (x y : float) :
  PrimFloat.is_nan x = true \/ PrimFloat.is_nan y = true ->
  PrimFloat.ltb (x - y) 0 = false /\ PrimFloat.ltb 0 (x - y) = false.
Proof.
  intros Hnan. rewrite !ltb_spec, sub_spec.
  assert (Hsub : SF64sub (Prim2SF x) (Prim2SF y) = S754_nan).
  { destruct Hnan as [Hx%is_nan_true|Hy%is_nan_true].
    - rewrite Hx. reflexivity.
    - rewrite Hy. by destruct (Prim2SF x). }
  rewrite Hsub. by split.
Qed.

(** [CompareCellCenterDistances] takes the sign of the difference of the
    two distances.  On numbers, infinite ones included, that sign is the
    order of the distances: -1 when the first is less, +1 when it is
    greater, 0 when they are equal; no rounding of the difference changes
    it.  When a distance is a NaN the answer is 0. *)
Theorem CompareCellCenterDistances_order (c1 c2 : Honeycell) :
  (PrimFloat.is_nan (itsDistanceCameraToCellCenter c1) = false ->
   PrimFloat.is_nan (itsDistanceCameraToCellCenter c2) = false ->
   CompareCellCenterDistances c1 c2
   = if PrimFloat.ltb (itsDistanceCameraToCellCenter c1) (itsDistanceCameraToCellCenter c2)
     then -1
     else if PrimFloat.ltb (itsDistanceCameraToCellCenter c2)
               (itsDistanceCameraToCellCenter c1)
     then 1 else 0)
  /\ (PrimFloat.is_nan (itsDistanceCameraToCellCenter c1) = true
      \/ PrimFloat.is_nan (itsDistanceCameraToCellCenter c2) = true ->
      CompareCellCenterDistances c1 c2 = 0).
Proof.
  split.
  - intros H1 H2. unfold CompareCellCenterDistances, gtb.
    destruct (sub_sign _ _ H1 H2) as [-> ->].
    by rewrite (ltb_frank _ _ H1 H2), (ltb_frank _ _ H2 H1).
  - intros Hnan. unfold CompareCellCenterDistances, gtb.
    by destruct (sub_nan _ _ Hnan) as [-> ->].
Qed.

Lemma CompareCellCenterDistances_order_witness :
  CompareCellCenterDistances nearCell farCell = -1
  /\ CompareCellCenterDistances farCell nearCell = 1
  /\ CompareCellCenterDistances nearCell lostCell = 0.
Proof.
  split; [|split].
  - apply (proj1 (CompareCellCenterDistances_order nearCell farCell)); reflexivity.
  - apply (proj1 (CompareCellCenterDistances_order farCell nearCell)); reflexivity.
  - apply (proj2 (CompareCellCenterDistances_order nearCell lostCell)). right. reflexivity.
Defined.

Section Gestures.
Context `{LibM} `{Matrices}.

(** [GesturePinch] keeps the aperture between 0 and 1: when the sum it
    computes is a number the new aperture is at least 0 and at most 1, and
    it is the sum itself when that lies between 0 and 1.  A sum that is
    a NaN passes both tests and becomes the aperture. *)
Theorem GesturePinch_clamps (md : ModelData) (anExpansionFactor : double) :
  let theSum :=
    (itsAperture md + APERTURE_DILATION_CONSTANT * (anExpansionFactor - 1))%float in
  let theAperture := itsAperture (GesturePinch md anExpansionFactor) in
  (PrimFloat.is_nan theSum = false ->
     PrimFloat.leb 0 theAperture = true /\ PrimFloat.leb theAperture 1 = true
     /\ (PrimFloat.leb 0 theSum = true -> PrimFloat.leb theSum 1 = true ->
         theAperture = theSum))
  /\ (PrimFloat.is_nan theSum = true -> theAperture = theSum).
Proof.
  intros theSum theAperture. unfold theAperture, GesturePinch. simpl. fold theSum.
  assert (N0 : PrimFloat.is_nan 0 = false) by reflexivity.
  assert (N1 : PrimFloat.is_nan 1 = false) by reflexivity.
  assert (F0 : frank 0 = 0) by reflexivity.
  assert (F1 : 0 < frank 1) by reflexivity.
  split.
  - intros Hnum. unfold gtb.
    rewrite (ltb_frank _ _ Hnum N0).
    destruct (Z.ltb_spec (frank theSum) (frank 0)) as [Hneg|Hpos].
    + replace (PrimFloat.ltb 1 0) with false by reflexivity.
      repeat split. intros Hle. rewrite (leb_frank _ _ N0 Hnum) in Hle.
      apply Z.leb_le in Hle. lia.
    + rewrite (ltb_frank _ _ N1 Hnum).
      destruct (Z.ltb_spec (frank 1) (frank theSum)) as [Hbig|Hsmall].
      * repeat split. intros _ Hle. rewrite (leb_frank _ _ Hnum N1) in Hle.
        apply Z.leb_le in Hle. lia.
      * rewrite (leb_frank _ _ N0 Hnum), (leb_frank _ _ Hnum N1).
        repeat split; apply Z.leb_le; lia.
  - intros Hnan. unfold gtb.
    assert (Hlt : forall y, PrimFloat.ltb theSum y = false /\ PrimFloat.ltb y theSum = false).
    { intros y. rewrite !ltb_spec, (is_nan_true _ Hnan). split; [reflexivity|].
      unfold SFltb. by destruct (Prim2SF y). }
    destruct (Hlt 0%float) as [-> _]. by destruct (Hlt 1%float) as [_ ->].
Qed.

Lemma StayInDirichletDomain_loop_restores (store : gmap nat HEFace) (l : list nat)
    (aPlacement thePlacement : Matrix) :
  StayInDirichletDomain_loop store l aPlacement = Some thePlacement ->
  exists faces : list HEFace,
    faces `sublist_of` omap (fun p => store !! p) l
    /\ thePlacement = Restored aPlacement faces.
Proof.
  revert aPlacement. induction l as [|p l IH]; simpl; intros aPlacement Hrun.
  - injection Hrun as <-. by exists [].
  - destruct (store !! p) as [f|]; simpl in Hrun; [|discriminate].
    destruct (IH _ Hrun) as (faces & Hsub & ->).
    unfold StayInDirichletDomain_step.
    destruct (gtb (theFaceValue f aPlacement) RESTORING_EPSILON).
    + exists (f :: faces). split; [by apply sublist_skip|reflexivity].
    + exists faces. split; [by apply sublist_cons|reflexivity].
Qed.

(** [StayInDirichletDomain] moves a placement by face pairings only: what
    it returns is the placement multiplied by the inverses of the matrices
    of some of the faces, each face at most once, in the order of the list
    of faces.  Without a Dirichlet domain it returns the placement. *)
Theorem StayInDirichletDomain_by_face_pairings (aDirichletDomain : option DirichletDomain)
    (aPlacement thePlacement : Matrix) :
  StayInDirichletDomain aDirichletDomain aPlacement = Some thePlacement ->
  match aDirichletDomain with
  | None => thePlacement = aPlacement
  | Some d =>
      exists faces : list HEFace,
        faces `sublist_of` FacesOf d /\ thePlacement = Restored aPlacement faces
  end.
Proof.
  destruct aDirichletDomain as [d|]; simpl; intros Hrun.
  - by apply StayInDirichletDomain_loop_restores.
  - by injection Hrun as <-.
Qed.

End Gestures.

Lemma GesturePinch_clamps_witness :
  PrimFloat.leb 0 (itsAperture (GesturePinch moving 3)) = true
  /\ PrimFloat.leb (itsAperture (GesturePinch moving 3)) 1 = true.
Proof.
  destruct (GesturePinch_clamps moving 3) as [Hnumber _].
  destruct (Hnumber eq_refl) as (Hlow & Hhigh & _). split; assumption.
Defined.

Lemma StayInDirichletDomain_by_face_pairings_witness :
  exists faces : list HEFace,
    faces `sublist_of` FacesOf cubeDomain
    /\ cubeRestored = @Restored Reference.matrices cubeStrayed faces.
Proof.
  apply (@StayInDirichletDomain_by_face_pairings Reference.matrices (Some cubeDomain)).
  vm_compute. reflexivity.
Defined.

(** ** What a construction leaves *)

Lemma iterM_invariant {A B} (I : B -> Prop) (f : B -> A -> option B) (l : list A)
    (b b' : B) :
  (forall a x y, I x -> f x a = Some y -> I y) ->
  I b -> iterM f l b = Some b' -> I b'.
Proof.
  intros Hstep. revert b. induction l as [|a l IH]; simpl; intros b Hb Hrun.
  - by injection Hrun as <-.
  - apply bind_Some in Hrun as (b1 & Hb1 & Hrun). eauto.
Qed.

Lemma forEach_invariant (I : HEPolyhedron -> Prop)
    (body : nat -> HEPolyhedron -> option (ErrorText * HEPolyhedron))
    (l : list nat) (d d' : HEPolyhedron) (e : ErrorText) :
  (forall p x y e', I x -> body p x = Some (e', y) -> I y) ->
  I d -> forEach body l d = Some (e, d') -> I d'.
Proof.
  intros Hstep. revert d. induction l as [|p l IH]; simpl; intros d Hd Hrun.
  - by injection Hrun as <- <-.
  - apply bind_Some in Hrun as ([[e1|] d1] & Hd1 & Hrun).
    + injection Hrun as <- <-. eauto.
    + eauto.
Qed.

Lemma onVertex_type (p : nat) (f : HEVertex -> HEVertex) (d d' : HEPolyhedron) :
  onVertex p f d = Some d' -> HEPolyhedron_itsSpaceType d' = HEPolyhedron_itsSpaceType d.
Proof.
  unfold onVertex. destruct (theVertices d !! p); simpl; [|discriminate]. by intros [= <-].
Qed.

Lemma onHalfEdge_type (p : nat) (f : HEHalfEdge -> HEHalfEdge) (d d' : HEPolyhedron) :
  onHalfEdge p f d = Some d' -> HEPolyhedron_itsSpaceType d' = HEPolyhedron_itsSpaceType d.
Proof.
  unfold onHalfEdge. destruct (theHalfEdges d !! p); simpl; [|discriminate].
  by intros [= <-].
Qed.

Lemma onFace_type (p : nat) (f : HEFace -> HEFace) (d d' : HEPolyhedron) :
  onFace p f d = Some d' -> HEPolyhedron_itsSpaceType d' = HEPolyhedron_itsSpaceType d.
Proof.
  unfold onFace. destruct (theFaces d !! p); simpl; [|discriminate]. by intros [= <-].
Qed.

(** The pointer operations of a loop body, one after the other: none of
    them changes the space type. *)
Ltac types_of_steps :=
  repeat match goal with
    | E : onVertex _ _ _ = Some _ |- _ => apply onVertex_type in E
    | E : onHalfEdge _ _ _ = Some _ |- _ => apply onHalfEdge_type in E
    | E : onFace _ _ _ = Some _ |- _ => apply onFace_type in E
    end.

Section Finish.
Context `{LibM} `{Matrices} `{Colors}.

Lemma AssignColorIndices_type (l : list nat) (c c' : Z) (d d' : HEPolyhedron) :
  AssignColorIndices l c d = Some (c', d') ->
  HEPolyhedron_itsSpaceType d' = HEPolyhedron_itsSpaceType d.
Proof.
  revert c d. induction l as [|p l IH]; simpl; intros c d Hrun.
  - by injection Hrun as _ <-.
  - apply bind_Some in Hrun as (F & _ & Hrun). destruct (_ =? _); [|by eapply IH].
    apply bind_Some in Hrun as (d1 & H1' & Hrun).
    apply bind_Some in Hrun as (theMate & _ & Hrun).
    apply bind_Some in Hrun as (d2 & H2' & Hrun).
    rewrite (IH _ _ Hrun).
    destruct theMate; [|injection H2' as <-]; types_of_steps; congruence.
Qed.

Lemma AssignFaceColors_type (d d' : HEPolyhedron) :
  AssignFaceColors d = Some d' ->
  HEPolyhedron_itsSpaceType d' = HEPolyhedron_itsSpaceType d.
Proof.
  unfold AssignFaceColors. intros Hrun. do 2 head_of Hrun. destruct x0 as [c d1].
  apply AssignColorIndices_type in E0. simpl in *.
  apply (iterM_invariant (fun y => HEPolyhedron_itsSpaceType y = HEPolyhedron_itsSpaceType d))
    in E; [| |reflexivity].
  2:{ intros a y z Hy Hstep. types_of_steps. congruence. }
  apply (iterM_invariant (fun y => HEPolyhedron_itsSpaceType y = HEPolyhedron_itsSpaceType d))
    in Hrun; [assumption| |congruence].
  intros a y z Hy Hstep. unfold ColorFace in Hstep. head_of Hstep.
  types_of_steps. congruence.
Qed.

Lemma ComputeFaceCenters_type (d d' : HEPolyhedron) :
  ComputeFaceCenters d = Some d' ->
  HEPolyhedron_itsSpaceType d' = HEPolyhedron_itsSpaceType d.
Proof.
  unfold ComputeFaceCenters. intros Hrun.
  apply (iterM_invariant (fun y => HEPolyhedron_itsSpaceType y = HEPolyhedron_itsSpaceType d))
    in Hrun; [assumption| |reflexivity].
  intros a y z Hy Hstep. unfold ComputeFaceCenter in Hstep. head_of Hstep.
  types_of_steps. congruence.
Qed.

Lemma WallDimensionsAround_type (fuel : nat) (d d' : HEPolyhedron) (start e : nat)
    (c : Vector) (b b' : double) :
  WallDimensionsAround fuel d start e c b = Some (b', d') ->
  HEPolyhedron_itsSpaceType d' = HEPolyhedron_itsSpaceType d.
Proof.
  revert d e b. induction fuel as [|fuel IH]; simpl; intros d e b Hrun; [discriminate|].
  do 6 head_of Hrun. destruct (decide _).
  - injection Hrun as _ <-. by types_of_steps.
  - rewrite (IH _ _ _ Hrun). by types_of_steps.
Qed.

Lemma ComputeWallDimensions_type (d d' : HEPolyhedron) :
  ComputeWallDimensions d = Some d' ->
  HEPolyhedron_itsSpaceType d' = HEPolyhedron_itsSpaceType d.
Proof.
  unfold ComputeWallDimensions. intros Hrun. head_of Hrun. destruct x as [b d1].
  apply (iterM_invariant
           (fun st => HEPolyhedron_itsSpaceType (snd st) = HEPolyhedron_itsSpaceType d))
    in E; [| |reflexivity].
  2:{ intros a [b0 y] [b1 z] Hy Hstep. do 2 head_of Hstep.
      apply WallDimensionsAround_type in Hstep. simpl in *. congruence. }
  simpl in E. destruct (gtb b 0); [|by injection Hrun as <-].
  apply (iterM_invariant (fun y => HEPolyhedron_itsSpaceType y = HEPolyhedron_itsSpaceType d))
    in Hrun; [assumption| |assumption].
  intros a y z Hy Hstep. head_of Hstep. types_of_steps. congruence.
Qed.

Lemma ComputeVertexFigures_type (d d' : HEPolyhedron) (e : ErrorText) :
  ComputeVertexFigures d = Some (e, d') ->
  HEPolyhedron_itsSpaceType d' = HEPolyhedron_itsSpaceType d.
Proof.
  unfold ComputeVertexFigures. intros Hrun.
  set (I := fun y => HEPolyhedron_itsSpaceType y = HEPolyhedron_itsSpaceType d).
  assert (Houter : forall p x y e', I x -> ComputeOuterPoint p x = Some (e', y) -> I y).
  { unfold I, ComputeOuterPoint. intros p x y e' Hx Hstep. do 5 head_of Hstep.
    destruct (fst _); [by injection Hstep as _ <-|].
    do 2 head_of Hstep. injection Hstep as _ <-. types_of_steps. congruence. }
  assert (Hcenter : forall p x y e', I x -> ComputeCenterPoint p x = Some (e', y) -> I y).
  { unfold I, ComputeCenterPoint. intros p x y e' Hx Hstep. do 4 head_of Hstep.
    injection Hstep as _ <-. types_of_steps. congruence. }
  assert (Hinner : forall p x y e', I x -> ComputeInnerPoint p x = Some (e', y) -> I y).
  { unfold I, ComputeInnerPoint. intros p x y e' Hx Hstep. do 5 head_of Hstep.
    injection Hstep as _ <-. types_of_steps. congruence. }
  apply bind_Some in Hrun as ([[e1|] d1] & H1' & Hrun).
  { injection Hrun as <- <-. exact (forEach_invariant I _ _ _ _ _ Houter eq_refl H1'). }
  apply (forEach_invariant I) in H1'; [|assumption|reflexivity].
  apply bind_Some in Hrun as ([[e2|] d2] & H2' & Hrun).
  { injection Hrun as <- <-. exact (forEach_invariant I _ _ _ _ _ Hcenter H1' H2'). }
  apply (forEach_invariant I) in H2'; [|assumption..].
  exact (forEach_invariant I _ _ _ _ _ Hinner H2' Hrun).
Qed.

Lemma FinishDirichletDomain_outcome (G : MatrixList) (d : HEPolyhedron) (e : ErrorText)
    (out : option DirichletDomain) :
  FinishDirichletDomain G d = Some (e, out) ->
  match e with
  | Some _ => out = None
  | None => exists d' M1, out = Some d' /\ G !! 1%nat = Some M1
                          /\ HEPolyhedron_itsSpaceType d' = RecordedSpaceType M1
  end.
Proof.
  unfold FinishDirichletDomain. intros Hrun.
  apply bind_Some in Hrun as ([[e1|] d1] & _ & Hrun); [by injection Hrun as <- <-|].
  apply bind_Some in Hrun as (M1 & HM1 & Hrun).
  fold (RecordedSpaceType M1) in Hrun.
  set (I := fun y => HEPolyhedron_itsSpaceType y = RecordedSpaceType M1).
  assert (Hnorm : forall (f : Vector -> HEVertex -> HEVertex) (t : HEPolyhedron -> SpaceType)
                         (old : HEVertex -> Vector) p x y e',
            I x ->
            (V ← theVertices x !! p;
             let r := NormalizeInto (itsRawPosition V) (t x) (old V) in
             d ← onVertex p (f (snd r)) x;
             Some (fst r, d)) = Some (e', y) -> I y).
  { unfold I. intros f t old p x y e' Hx Hstep. do 2 head_of Hstep.
    injection Hstep as _ <-. types_of_steps. congruence. }
  apply bind_Some in Hrun as ([[e2|] d2] & H2' & Hrun); [by injection Hrun as <- <-|].
  apply (forEach_invariant I) in H2'; [|apply (Hnorm with_itsNormalizedPosition)|done].
  apply bind_Some in Hrun as ([[e3|] d3] & H3' & Hrun); [by injection Hrun as <- <-|].
  apply (forEach_invariant I) in H3';
    [|apply (Hnorm with_itsRawPosition (fun _ => SpaceSpherical))|assumption].
  apply bind_Some in Hrun as (d4 & H4' & Hrun). apply AssignFaceColors_type in H4'.
  apply bind_Some in Hrun as (d5 & H5' & Hrun). apply ComputeFaceCenters_type in H5'.
  apply bind_Some in Hrun as (d6 & H6' & Hrun). apply ComputeWallDimensions_type in H6'.
  apply bind_Some in Hrun as ([[e7|] d7] & H7' & Hrun); [by injection Hrun as <- <-|].
  apply ComputeVertexFigures_type in H7'.
  apply bind_Some in Hrun as (d8 & H8' & Hrun). injection Hrun as <- <-.
  exists d8, M1. split; [reflexivity|]. split; [assumption|].
  unfold ComputeOutradius in H8'. head_of H8'. injection H8' as <-. simpl.
  unfold I in *. congruence.
Qed.

(** [ConstructDirichletDomain] leaves no polyhedron behind when it reports
    an error.  When it reports none for a group of at least 3 matrices,
    there is a polyhedron, and its space type is the one of the second
    matrix of the group: spherical when the entry [m[3][3]] is less than
    1, flat when it is 1, hyperbolic otherwise. *)
Theorem ConstructDirichletDomain_outcome (memory : nat) (G : MatrixList) (e : ErrorText)
    (out : option DirichletDomain) :
  ConstructDirichletDomain memory (Some G) None = Some (e, out) ->
  match e with
  | Some _ => out = None
  | None =>
      (3 <= length G)%nat ->
      exists d M1, out = Some d /\ G !! 1%nat = Some M1
                   /\ HEPolyhedron_itsSpaceType d = RecordedSpaceType M1
  end.
Proof.
  unfold ConstructDirichletDomain, itsNumMatrices. intros Hrun.
  destruct (Z.ltb_spec (Z.of_nat (length G)) 3) as [Hfew|Hmany].
  { destruct (0 <? _); injection Hrun as <- <-; [lia|reflexivity]. }
  assert (Hfinish : forall d, FinishDirichletDomain G d = Some (e, out) ->
            match e with
            | Some _ => out = None
            | None => (3 <= length G)%nat ->
                exists d M1, out = Some d /\ G !! 1%nat = Some M1
                             /\ HEPolyhedron_itsSpaceType d = RecordedSpaceType M1
            end).
  { intros d Hd. apply FinishDirichletDomain_outcome in Hd. destruct e; auto. }
  apply bind_Some in Hrun as (M0 & _ & Hrun).
  destruct (negb _); [by injection Hrun as <- <-|].
  apply bind_Some in Hrun as (M1 & _ & Hrun).
  apply bind_Some in Hrun as (M2 & _ & Hrun).
  apply bind_Some in Hrun as (theThirdIndex & _ & Hrun).
  destruct (decide _).
  - apply bind_Some in Hrun as (M3 & _ & Hrun).
    apply bind_Some in Hrun as ([[e1|] [d1|]] & _ & Hrun);
      try (by injection Hrun as <- <-); [|discriminate Hrun].
    apply bind_Some in Hrun as (theFourthIndex & _ & Hrun).
    destruct (decide _); [|by injection Hrun as <- <-].
    apply bind_Some in Hrun as (M4 & _ & Hrun).
    apply bind_Some in Hrun as ([[e2|] d2] & _ & Hrun); [by injection Hrun as <- <-|].
    by eapply Hfinish.
  - apply bind_Some in Hrun as ([[e1|] [d1|]] & _ & Hrun);
      try (by injection Hrun as <- <-); [|discriminate Hrun].
    by eapply Hfinish.
Qed.

End Finish.

Lemma ConstructDirichletDomain_outcome_witness :
  exists d M1, Some cubeDomain = Some d /\ cubeGenerators !! 1%nat = Some M1
               /\ HEPolyhedron_itsSpaceType d = RecordedSpaceType M1.
Proof.
  apply (@ConstructDirichletDomain_outcome Reference.libm Reference.matrices
           Reference.colors 1000 cubeGenerators None (Some cubeDomain)).
  - vm_compute. reflexivity.
  - simpl. lia.
Defined.

Section Colored.
Context `{LibM} `{Matrices} `{Colors}.

(** [AssignFaceColors] leaves no face with the marker 0xFFFFFFFF: every
    face of the list has a color index that is at least 0 and less than
    the number of faces. *)
Theorem AssignFaceColors_indices (d d' : HEPolyhedron) :
  NoDup (itsFaceList d) ->
  Z.of_nat (length (itsFaceList d)) < UNASSIGNED_COLOR_INDEX ->
  AssignFaceColors d = Some d' ->
  forall (p : nat) (F : HEFace),
    p ∈ itsFaceList d' -> theFaces d' !! p = Some F ->
    0 <= itsColorIndex F < NumFaces d'.
Proof.
  intros Hnodup Hsize Hrun. unfold AssignFaceColors in Hrun.
  destruct (iterM _ (itsFaceList d) d) as [d0|] eqn:Hreset; simpl in Hrun; [|discriminate].
  destruct (reset_colors _ _ _ Hreset) as (Hl0 & Hm0 & Hunassigned & _).
  rewrite Hl0 in Hrun.
  destruct (AssignColorIndices (itsFaceList d) 0 d0) as [[theCount d1]|] eqn:Hassign;
    simpl in Hrun; [|discriminate].
  set (l := itsFaceList d) in *.
  assert (Hstart : ColorsSound l 0 0 (theFaces d0)).
  { split.
    - lia.
    - intros i p F Hi HF Hc. contradict Hc. eapply Hunassigned; [|eassumption].
      by eapply list_elem_of_lookup_2.
    - intros i p F _ Hlt. lia.
    - intros i j p q F M _ Hj _ _ HM Hc. contradict Hc. eapply Hunassigned; [|eassumption].
      by eapply list_elem_of_lookup_2. }
  assert (Hloop : ColorsSound l (length l) theCount (theFaces d1)
                  /\ itsFaceList d1 = itsFaceList d0).
  { refine (AssignColorIndices_loop l (fun k c m => ColorsSound l k c m) Hnodup Hsize _ _ _
              l 0%nat 0 theCount d0 d1 eq_refl ltac:(lia) Hstart Hassign).
    - intros k c m [Hc _ _ _]. exact Hc.
    - intros k c m p X Hk HX Hassigned Hs. by eapply ColorsSound_skip.
    - intros k c m p X mate Hk HX Hun Hfirst Hs. by apply ColorsSound_assign. }
  destruct Hloop as ([Hc Hr Hv Hs] & Hl1).
  destruct (ColorFace_keeps _ _ _ _ Hrun) as (Hl2 & Hsame).
  intros p F Hp HF. unfold NumFaces. rewrite Hl2, Hl1, Hl0 in Hp |- *. fold l in Hp |- *.
  specialize (Hsame p). rewrite HF in Hsame. simpl in Hsame.
  destruct (theFaces d1 !! p) as [F1|] eqn:HF1; simpl in Hsame; [|discriminate].
  injection Hsame as Hindex _.
  apply list_elem_of_lookup_1 in Hp as [i Hi].
  assert (Hassigned : itsColorIndex F1 <> UNASSIGNED_COLOR_INDEX).
  { apply (Hv i p F1 Hi); [by eapply lookup_lt_Some|assumption]. }
  specialize (Hr i p F1 Hi HF1 Hassigned). lia.
Qed.

(** [ComputeOutradius] records the greatest distance of a vertex from the
    basepoint: no vertex lies farther than [itsOutradius], which is 0 or
    the distance of one of the vertices.  The distances are numbers. *)
Theorem ComputeOutradius_greatest (d d' : HEPolyhedron) :
  (forall p V, p ∈ itsVertexList d -> theVertices d !! p = Some V ->
     PrimFloat.is_nan (VectorGeometricDistance (itsNormalizedPosition V)) = false) ->
  ComputeOutradius d = Some d' ->
  (forall p V, p ∈ itsVertexList d -> theVertices d !! p = Some V ->
     PrimFloat.leb (VectorGeometricDistance (itsNormalizedPosition V)) (itsOutradius d')
     = true)
  /\ (itsOutradius d' = 0%float
      \/ exists p V, p ∈ itsVertexList d /\ theVertices d !! p = Some V
           /\ itsOutradius d' = VectorGeometricDistance (itsNormalizedPosition V)).
Proof.
  unfold ComputeOutradius. intros Hnum Hrun.
  apply bind_Some in Hrun as (r & Hloop & Hrun). injection Hrun as <-. simpl.
  set (dist := fun V => VectorGeometricDistance (itsNormalizedPosition V)) in *.
  assert (Hgen : forall l r0,
    (forall p, p ∈ l -> p ∈ itsVertexList d) ->
    PrimFloat.is_nan r0 = false ->
    iterM (fun theOutradius p =>
             V ← theVertices d !! p;
             let theDistance := VectorGeometricDistance (itsNormalizedPosition V) in
             Some (if PrimFloat.ltb theOutradius theDistance
                   then theDistance else theOutradius)) l r0 = Some r ->
    PrimFloat.is_nan r = false
    /\ PrimFloat.leb r0 r = true
    /\ (forall p V, p ∈ l -> theVertices d !! p = Some V -> PrimFloat.leb (dist V) r = true)
    /\ (r = r0 \/ exists p V, p ∈ l /\ theVertices d !! p = Some V /\ r = dist V)).
  { induction l as [|q l IH]; simpl; intros r0 Hsub Hr0 Hrun.
    - injection Hrun as <-. split; [assumption|]. split.
      + rewrite (leb_frank _ _ Hr0 Hr0). apply Z.leb_le. lia.
      + split; [intros p V Hp; by apply elem_of_nil in Hp|by left].
    - apply bind_Some in Hrun as (r1 & Hstep & Hrun).
      apply bind_Some in Hstep as (Q & HQ & Hstep). injection Hstep as <-.
      assert (HdQ : PrimFloat.is_nan (dist Q) = false).
      { apply (Hnum q); [apply Hsub; left|assumption]. }
      fold (dist Q) in Hrun.
      assert (Hr1 : PrimFloat.is_nan (if PrimFloat.ltb r0 (dist Q) then dist Q else r0)
                    = false) by (by destruct (PrimFloat.ltb r0 (dist Q))).
      destruct (IH _ (fun p Hp => Hsub p (list_elem_of_further _ _ _ Hp)) Hr1 Hrun)
        as (Hr & Hle & Hall & Hone).
      assert (Hmax : frank r0 <= frank r /\ frank (dist Q) <= frank r).
      { rewrite (ltb_frank _ _ Hr0 HdQ) in Hle.
        destruct (Z.ltb_spec (frank r0) (frank (dist Q)));
          rewrite leb_frank in Hle by assumption; apply Z.leb_le in Hle; lia. }
      split; [assumption|]. split; [rewrite leb_frank by assumption; apply Z.leb_le; lia|].
      split.
      + intros p V Hp HV. apply elem_of_cons in Hp as [->|Hp]; [|by eapply Hall].
        rewrite HQ in HV. injection HV as <-.
        rewrite leb_frank by assumption. apply Z.leb_le. lia.
      + destruct Hone as [->|(p & V & Hp & HV & ->)].
        * destruct (PrimFloat.ltb r0 (dist Q)); [|by left].
          right. exists q, Q. split; [left|done].
        * right. exists p, V. split; [by right|done]. }
  destruct (Hgen (itsVertexList d) 0%float (fun p Hp => Hp) eq_refl Hloop)
    as (_ & _ & Hall & Hone).
  split; [exact Hall|]. destruct Hone as [->|Hone]; [by left|by right].
Qed.

End Colored.

Lemma AssignFaceColors_indices_witness :
  Forall (fun p => match theFaces cubeRecolored !! p with
                   | Some F => 0 <= itsColorIndex F < NumFaces cubeRecolored
                   | None => True
                   end) (itsFaceList cubeRecolored).
Proof.
  apply Forall_forall. intros p Hp.
  destruct (theFaces cubeRecolored !! p) as [F|] eqn:HF; [|exact I].
  apply (@AssignFaceColors_indices Reference.matrices Reference.colors cubeDomain
           cubeRecolored) with p; try assumption.
  - apply (bool_decide_eq_true_1 _). vm_compute. reflexivity.
  - vm_compute. reflexivity.
  - vm_compute. reflexivity.
Defined.

Lemma ComputeOutradius_greatest_witness :
  (forall p V, p ∈ itsVertexList cubeDomain -> theVertices cubeDomain !! p = Some V ->
     PrimFloat.leb (@VectorGeometricDistance Reference.matrices (itsNormalizedPosition V))
       (itsOutradius cubeMeasured) = true)
  /\ (itsOutradius cubeMeasured = 0%float
      \/ exists p V, p ∈ itsVertexList cubeDomain /\ theVertices cubeDomain !! p = Some V
           /\ itsOutradius cubeMeasured
              = @VectorGeometricDistance Reference.matrices (itsNormalizedPosition V)).
Proof.
  apply (@ComputeOutradius_greatest Reference.matrices cubeDomain cubeMeasured).
  - intros p V Hp HV.
    assert (Hall : forallb (fun p =>
              match theVertices cubeDomain !! p with
              | Some V => negb (PrimFloat.is_nan
                            (@VectorGeometricDistance Reference.matrices
                               (itsNormalizedPosition V)))
              | None => true
              end) (itsVertexList cubeDomain) = true) by (vm_compute; reflexivity).
    rewrite forallb_forall in Hall. specialize (Hall p (proj1 (list_elem_of_In _ _) Hp)).
    rewrite HV in Hall. by apply negb_true_iff in Hall.
  - vm_compute. reflexivity.
Defined.

Section Seeds.
Context `{LibM} `{Matrices} `{Colors}.

(** [MakeBanana] asks for the polyhedron and 11 nodes.  When it gets them
    it returns a sound half-edge mesh of 2 vertices, 3 edges and 3 faces,
    whatever the three matrices are; when it does not, it returns its
    out-of-memory message and no polyhedron. *)
Theorem MakeBanana_mesh (memory : nat) (A B C : Matrix) :
  match MakeBanana memory A B C None with
  | Some (None, Some d) =>
      (12 <= memory)%nat /\ MeshIsSound d = true
      /\ NumVertices d = 2 /\ NumHalfEdges d = 6 /\ NumFaces d = 3
  | Some (Some e, None) =>
      (memory < 12)%nat /\ e = "Out of memory in MakeBanana()."%string
  | _ => False
  end.
Proof.
  do 12 (destruct memory as [|memory]; [vm_compute; split; [lia|reflexivity]|]).
  vm_compute. repeat split. lia.
Qed.

Lemma forEach_error (body : nat -> HEPolyhedron -> option (ErrorText * HEPolyhedron))
    (l : list nat) (d d' : HEPolyhedron) (e : string) :
  (forall p x y e', body p x = Some (Some e', y) -> Some e' = theMemoryError) ->
  forEach body l d = Some (Some e, d') -> Some e = theMemoryError.
Proof.
  intros Hbody. revert d. induction l as [|p l IH]; simpl; intros d Hrun; [discriminate|].
  apply bind_Some in Hrun as ([[e1|] d1] & Hstep & Hrun).
  - injection Hrun as <- <-. by eapply Hbody.
  - by eapply IH.
Qed.

Lemma ClassifyVertex_WithoutStatus (theHalfspace : Vector) (v V : HEVertex) :
  WithoutStatus v = WithoutStatus V ->
  ClassifyVertex theHalfspace v = ClassifyVertex theHalfspace V.
Proof.
  unfold WithoutStatus, with_itsHalfspaceStatus, ClassifyVertex. by intros [= -> _ _ _].
Qed.

Lemma ClassifyVertices_nothing_outside (theHalfspace : Vector) (d d' : HEPolyhedron)
    (b : bool) :
  (forall p V, p ∈ itsVertexList d -> theVertices d !! p = Some V ->
     ClassifyVertex theHalfspace V <> VertexOutsideHalfspace) ->
  ClassifyVertices theHalfspace d = Some (b, d') ->
  b = false
  /\ theLists d' = theLists d /\ theHalfEdges d' = theHalfEdges d
  /\ theFaces d' = theFaces d
  /\ forall p, WithoutStatus <$> theVertices d' !! p = WithoutStatus <$> theVertices d !! p.
Proof.
  intros Hinside. unfold ClassifyVertices.
  set (I := fun st : bool * HEPolyhedron =>
              fst st = false
              /\ theLists (snd st) = theLists d /\ theHalfEdges (snd st) = theHalfEdges d
              /\ theFaces (snd st) = theFaces d
              /\ forall p, WithoutStatus <$> theVertices (snd st) !! p
                           = WithoutStatus <$> theVertices d !! p).
  assert (Hloop : forall l st st',
    (forall p, p ∈ l -> p ∈ itsVertexList d) -> I st ->
    iterM (fun st p =>
             let '(theCutIsNontrivial, d) := st in
             v ← theVertices d !! p;
             let s := ClassifyVertex theHalfspace v in
             d' ← onVertex p (with_itsHalfspaceStatus s) d;
             Some (theCutIsNontrivial || bool_decide (s = VertexOutsideHalfspace), d'))
          l st = Some st' -> I st').
  { induction l as [|p l IH]; simpl; intros st st' Hsub Hst Hrun.
    - by injection Hrun as <-.
    - apply bind_Some in Hrun as (st1 & Hstep & Hrun).
      apply (IH st1 st' (fun q Hq => Hsub q (list_elem_of_further _ _ _ Hq))); [|assumption].
      destruct st as [c x]. destruct Hst as (Hc & Hl & He & Hf & Hv). simpl in *. subst c.
      apply bind_Some in Hstep as (v & Hv' & Hstep).
      apply bind_Some in Hstep as (y & Hy & Hstep). injection Hstep as <-.
      pose proof (Hv p) as Hp. rewrite Hv' in Hp. simpl in Hp.
      destruct (theVertices d !! p) as [V|] eqn:HV; simpl in Hp; [|discriminate].
      assert (Hp' : WithoutStatus v = WithoutStatus V) by congruence. clear Hp.
      rewrite (ClassifyVertex_WithoutStatus _ _ _ Hp').
      assert (Hin : ClassifyVertex theHalfspace V <> VertexOutsideHalfspace).
      { apply (Hinside p); [apply Hsub; left|assumption]. }
      unfold onVertex in Hy. rewrite Hv' in Hy. simpl in Hy. injection Hy as <-.
      unfold I. simpl. split; [by rewrite bool_decide_eq_false_2|].
      split; [assumption|]. split; [assumption|]. split; [assumption|].
      intros q. destruct (decide (q = p)) as [->|Hne].
      + rewrite lookup_insert_eq, HV. simpl. f_equal.
        unfold WithoutStatus, with_itsHalfspaceStatus in *. simpl. congruence.
      + rewrite lookup_insert_ne by done. apply Hv. }
  intros Hrun.
  apply (Hloop _ _ _ (fun p Hp => Hp)) in Hrun; [exact Hrun|]. by repeat split.
Qed.

(** A halfspace that leaves no vertex outside cuts nothing:
    [IntersectWithHalfspace] reports no error and changes nothing but the
    [itsHalfspaceStatus] of vertices; the three lists, the half edges, the
    faces and all other fields of the vertices are what they were. *)
Theorem IntersectWithHalfspace_cuts_nothing (d d' : DirichletDomain) (aMatrix : Matrix)
    (e : ErrorText) :
  (forall p V, p ∈ itsVertexList d -> theVertices d !! p = Some V ->
     ClassifyVertex (MakeHalfspaceInequality aMatrix) V <> VertexOutsideHalfspace) ->
  IntersectWithHalfspace d aMatrix = Some (e, d') ->
  e = None
  /\ theLists d' = theLists d /\ theHalfEdges d' = theHalfEdges d
  /\ theFaces d' = theFaces d
  /\ forall p, WithoutStatus <$> theVertices d' !! p = WithoutStatus <$> theVertices d !! p.
Proof.
  intros Hinside. unfold IntersectWithHalfspace. intros Hrun.
  destruct (MatrixIsIdentity aMatrix); [by injection Hrun as <- <-|].
  apply bind_Some in Hrun as ([theCutIsNontrivial d0] & Hclassify & Hrun).
  destruct (ClassifyVertices_nothing_outside _ _ _ _ Hinside Hclassify)
    as (-> & Hrest).
  simpl in Hrun. by injection Hrun as <- <-.
Qed.

Lemma SplitEdge_error (theHalfspace : Vector) (p : nat) (x y : HEPolyhedron)
    (e : string) :
  SplitEdge theHalfspace p x = Some (Some e, y) -> Some e = theMemoryError.
Proof.
  unfold SplitEdge. intros Hrun. do 5 head_of Hrun.
  destruct x4; [|discriminate Hrun].
  destruct (NewVertex x) as [[vn|] d1]; [|by injection Hrun as <- _].
  do 6 head_of Hrun.
  destruct (NewHalfEdge _) as [[ea|] d2]; [|by injection Hrun as <- _].
  destruct (NewHalfEdge d2) as [[eb|] d3]; [|by injection Hrun as <- _].
  repeat head_of Hrun. discriminate Hrun.
Qed.

Lemma SplitFace_error (p : nat) (x y : HEPolyhedron) (e : string) :
  SplitFace p x = Some (Some e, y) -> Some e = theMemoryError.
Proof.
  unfold SplitFace. intros Hrun. do 3 head_of Hrun.
  destruct x2 as [[out|] [inn|]]; try discriminate Hrun.
  destruct (NewHalfEdge x) as [[ea|] d1]; [|by injection Hrun as <- _].
  destruct (NewHalfEdge d1) as [[eb|] d2]; [|by injection Hrun as <- _].
  destruct (NewFace d2) as [[fn|] d3]; [|by injection Hrun as <- _].
  repeat head_of Hrun. discriminate Hrun.
Qed.

(** The only error that [IntersectWithHalfspace] reports is that a memory
    request failed. *)
Theorem IntersectWithHalfspace_error (d d' : DirichletDomain) (aMatrix : Matrix)
    (e : string) :
  IntersectWithHalfspace d aMatrix = Some (Some e, d') -> Some e = theMemoryError.
Proof.
  unfold IntersectWithHalfspace. intros Hrun.
  destruct (MatrixIsIdentity aMatrix); [discriminate Hrun|].
  apply bind_Some in Hrun as ([theCutIsNontrivial d0] & _ & Hrun).
  destruct theCutIsNontrivial; simpl in Hrun; [|discriminate Hrun].
  apply bind_Some in Hrun as ([[e1|] d1] & Hedges & Hrun).
  { injection Hrun as <- <-.
    exact (forEach_error _ _ _ _ _ (SplitEdge_error _) Hedges). }
  apply bind_Some in Hrun as ([[e2|] d2] & Hfaces & Hrun).
  { injection Hrun as <- <-. exact (forEach_error _ _ _ _ _ SplitFace_error Hfaces). }
  destruct (NewFace d2) as [[theNewFace|] d3]; [|by injection Hrun as <- _].
  repeat head_of Hrun. discriminate Hrun.
Qed.

End Seeds.

Lemma IntersectWithHalfspace_cuts_nothing_witness :
  theLists cubeCutFar = theLists cubeDomain
  /\ theHalfEdges cubeCutFar = theHalfEdges cubeDomain
  /\ theFaces cubeCutFar = theFaces cubeDomain
  /\ forall p, WithoutStatus <$> theVertices cubeCutFar !! p
               = WithoutStatus <$> theVertices cubeDomain !! p.
Proof.
  apply (@IntersectWithHalfspace_cuts_nothing Reference.matrices cubeDomain cubeCutFar
           (flatTranslation 0 0 4) None).
  - intros p V Hp HV.
    assert (Hall : forallb (fun p =>
              match theVertices cubeDomain !! p with
              | Some V =>
                  match @ClassifyVertex Reference.matrices
                          (@MakeHalfspaceInequality Reference.matrices
                             (flatTranslation 0 0 4)) V with
                  | VertexOutsideHalfspace => false
                  | _ => true
                  end
              | None => true
              end) (itsVertexList cubeDomain) = true) by (vm_compute; reflexivity).
    rewrite forallb_forall in Hall. specialize (Hall p (proj1 (list_elem_of_In _ _) Hp)).
    rewrite HV in Hall. by destruct (ClassifyVertex _ V).
  - vm_compute. reflexivity.
Defined.

Lemma IntersectWithHalfspace_error_witness :
  Some (fst tightBananaCut) = theMemoryError.
Proof.
  apply (@IntersectWithHalfspace_error Reference.matrices tightBanana (snd tightBananaCut)
           (flatTranslation 0 0 1)).
  vm_compute. reflexivity.
Defined.

Section Reading.
Context `{Reader}.

Lemma SkipWhitespace_suffix (s t : list Byte) :
  SkipWhitespace s = Some t -> t <> [] /\ (length t <= length s)%nat.
Proof.
  induction s as [|c s IH]; simpl; [discriminate|].
  destruct (_ || _).
  - intros Hs. destruct (IH Hs). split; [assumption|lia].
  - intros [= <-]. split; [discriminate|simpl; lia].
Qed.

Lemma ReadOneNumber_success (s stop : list Byte) (x : double) (e : ErrorText) :
  ReadOneNumber s = Some (true, x, stop, e) ->
  e = None /\ (length stop < length s)%nat.
Proof.
  unfold ReadOneNumber. intros Hrun.
  apply bind_Some in Hrun as (t & Ht & Hrun).
  apply SkipWhitespace_suffix in Ht as [Hne Hlen].
  destruct (Nat.eqb_spec (snd (strtod t)) 0) as [Hzero|Hpos]; simpl in Hrun.
  - apply bind_Some in Hrun as (c & _ & Hrun). discriminate Hrun.
  - injection Hrun as _ <- <-. split; [reflexivity|].
    rewrite length_drop. destruct t; [done|]. simpl in *. lia.
Qed.

(** The fuel of the model is never used up. *)
Lemma NumbersFrom_fuel (f1 f2 : nat) (s : list Byte) :
  (length s < f1)%nat -> (length s < f2)%nat -> NumbersFrom f1 s = NumbersFrom f2 s.
Proof.
  revert f2 s. induction f1 as [|f1 IH]; intros f2 s H1 H2; [lia|].
  destruct f2 as [|f2]; [lia|]. simpl.
  destruct (ReadOneNumber s) as [[[[[] x] stop] e]|] eqn:Hread; try reflexivity.
  apply ReadOneNumber_success in Hread as [_ Hlen]. f_equal. apply IH; lia.
Qed.

Lemma NumbersFrom_length (f : nat) (s : list Byte) :
  (length (NumbersFrom f s) <= length s)%nat.
Proof.
  revert s. induction f as [|f IH]; intros s; simpl; [lia|].
  destruct (ReadOneNumber s) as [[[[[] x] stop] e]|] eqn:Hread; simpl; try lia.
  apply ReadOneNumber_success in Hread as [_ Hlen]. specialize (IH stop). lia.
Qed.

Lemma CountNumbers_counts (f : nat) (s : list Byte) (n c : Z) (e : ErrorText) :
  (length s < f)%nat ->
  CountNumbers f s n = Some (c, e) ->
  c = (n + Z.of_nat (length (NumbersFrom f s))) mod UINT_MODULUS \/
  (NumbersFrom f s = [] /\ c = n).
Proof.
  revert s n. induction f as [|f IH]; intros s n Hf; [lia|]. simpl.
  destruct (ReadOneNumber s) as [[[[[] x] stop] e']|] eqn:Hread;
    [|intros [= <- _]; by right|discriminate].
  intros Hrun. pose proof Hread as Hsuccess.
  apply ReadOneNumber_success in Hsuccess as [_ Hlen].
  left. destruct (IH stop _ ltac:(lia) Hrun) as [->|[Hnil ->]].
  - unfold uint_incr. rewrite Zplus_mod_idemp_l. f_equal. simpl length. lia.
  - rewrite Hnil. reflexivity.
Qed.

Lemma CountNumbers_error (f : nat) (s : list Byte) (n c : Z) (e : string) :
  CountNumbers f s n = Some (c, Some e) -> e = theOtherTextMessage.
Proof.
  revert s n. induction f as [|f IH]; intros s n; [discriminate|]. simpl.
  destruct (ReadOneNumber s) as [[[[[] x] stop] e']|] eqn:Hread;
    [apply IH| |discriminate].
  intros [= ? ?]. subst. unfold ReadOneNumber in Hread.
  apply bind_Some in Hread as (t & _ & Hread).
  destruct (negb (_ =? _)%nat); [discriminate|].
  apply bind_Some in Hread as (c' & _ & Hread).
  destruct (negb (c' =? CHAR_NUL)); congruence.
Qed.

Lemma ReadEntries_reads (jk : list (nat * nat)) (i f : nat) (s : list Byte)
    (l : list Matrix) (M : Matrix) :
  (length jk <= length (NumbersFrom f s))%nat ->
  l !! i = Some M ->
  exists stop f',
    ReadEntries jk i s l
    = Some (None, stop,
            <[i := WriteEntries M jk (take (length jk) (NumbersFrom f s))]> l)
    /\ NumbersFrom f' stop = drop (length jk) (NumbersFrom f s).
Proof.
  revert f s l M. induction jk as [|[j k] jk IH]; intros f s l M Hlen HM.
  - exists s, f. cbn [ReadEntries length take]. unfold WriteEntries. cbn [zip zip_with foldl].
    rewrite (list_insert_id l i M HM). by rewrite drop_0.
  - destruct f as [|f]; [simpl in Hlen; lia|]. simpl in Hlen |- *.
    destruct (ReadOneNumber s) as [[[[[] x] stop] e]|] eqn:Hread;
      simpl in Hlen; try lia.
    cbn [mbind option_bind]. rewrite HM. cbn [mbind option_bind negb].
    destruct (IH f stop (<[i := mset M j k x]> l) (mset M j k x) ltac:(lia))
      as (stop' & f' & -> & Hrest).
    { apply list_lookup_insert_eq. by eapply lookup_lt_Some. }
    exists stop', f'. split; [|exact Hrest].
    by rewrite list_insert_insert_eq.
Qed.

Lemma EntriesOf_WriteEntries (M : Matrix) (xs : list double) :
  length xs = 16%nat -> EntriesOf (WriteEntries M theEntries xs) = xs.
Proof.
  intros Hlen. do 17 (destruct xs as [|? xs]; try discriminate Hlen). reflexivity.
Qed.

Lemma take_add_drop {A} (l : list A) (a b : nat) :
  (a <= length l)%nat -> take (a + b) l = take a l ++ take b (drop a l).
Proof.
  intros Ha. rewrite <- (take_drop a l) at 1. apply take_app_add'.
  by rewrite length_take_le.
Qed.

Lemma ReadGenerators_reads (n i f : nat) (s : list Byte) (l : list Matrix) :
  (16 * n <= length (NumbersFrom f s))%nat ->
  (i + n = length l)%nat ->
  exists l',
    ReadGenerators n i s l = Some (None, l')
    /\ length l' = length l
    /\ take i l' = take i l
    /\ concat (EntriesOf <$> drop i l') = take (16 * n) (NumbersFrom f s).
Proof.
  revert i f s l. induction n as [|n IH]; intros i f s l Hmany Hroom.
  - exists l. simpl. split; [reflexivity|]. split; [reflexivity|]. split; [reflexivity|].
    rewrite drop_ge by lia. reflexivity.
  - destruct (lookup_lt_is_Some_2 l i ltac:(lia)) as [M HM].
    destruct (ReadEntries_reads theEntries i f s l M) as (stop & f' & Hread & Hrest);
      [simpl; lia|assumption|].
    cbn [ReadGenerators]. rewrite Hread. cbn [mbind option_bind].
    change (length theEntries) with 16%nat in *.
    set (xs := take 16 (NumbersFrom f s)) in *.
    assert (Hxs : length xs = 16%nat).
    { unfold xs. rewrite length_take. lia. }
    rewrite list_lookup_insert_eq by (by eapply lookup_lt_Some).
    cbn [mbind option_bind]. rewrite list_insert_insert_eq.
    set (M' := set_itsParity _ _).
    destruct (IH (S i) f' stop (<[i := M']> l)) as (l' & -> & Hlen' & Hkept & Hread').
    { rewrite Hrest, length_drop. simpl. lia. }
    { rewrite length_insert. lia. }
    exists l'. split; [reflexivity|]. rewrite length_insert in Hlen'.
    split; [assumption|].
    assert (Hi : l' !! i = Some M').
    { rewrite <- (lookup_take_lt l' (S i) i) by lia. rewrite Hkept.
      rewrite lookup_take_lt by lia. apply list_lookup_insert_eq. lia. }
    split.
    + assert (Hshort : forall k : list Matrix, take i k = take i (take (S i) k)).
      { intros k. rewrite take_take. f_equal. lia. }
      rewrite (Hshort l'), Hkept, <- Hshort. by rewrite take_insert_ge by lia.
    + rewrite (drop_S l' M' i Hi). rewrite fmap_cons. cbn [concat]. rewrite Hread', Hrest.
      replace (EntriesOf M') with xs.
      * unfold xs. replace (16 * S n)%nat with (16 + 16 * n)%nat by lia.
        symmetry. apply take_add_drop. lia.
      * symmetry. exact (EntriesOf_WriteEntries M xs Hxs).
Qed.

Lemma ReadMatrices_outcome (anInputText : list Byte) (e : ErrorText)
    (out : option MatrixList) :
  AllocatesArrays ->
  ReadMatrices anInputText None = Some (e, out) ->
  match e with
  | Some msg =>
      (msg = theOtherTextMessage \/ msg = theMultipleOf16Message
       \/ msg = theAllocationMessage)
      /\ out = FreeMatrixList None
  | None =>
      exists theMatrices : MatrixList,
        out = Some theMatrices
        /\ (Z.of_nat (length (Numbers anInputText)) mod UINT_MODULUS) mod 16 = 0
        /\ itsNumMatrices theMatrices
           = (Z.of_nat (length (Numbers anInputText)) mod UINT_MODULUS) / 16
        /\ concat (EntriesOf <$> theMatrices)
           = take (Z.to_nat (Z.of_nat (length (Numbers anInputText)) mod UINT_MODULUS))
               (Numbers anInputText)
  end.
Proof.
  intros Halloc. unfold ReadMatrices, Numbers. intros Hrun.
  set (f := S (length anInputText)) in *.
  destruct (CountNumbers f anInputText 0) as [[c [msg|]]|] eqn:Hcount; [| |discriminate].
  { injection Hrun as <- <-. apply CountNumbers_error in Hcount. auto. }
  assert (Hc : c = Z.of_nat (length (NumbersFrom f anInputText)) mod UINT_MODULUS).
  { destruct (CountNumbers_counts f anInputText 0 c None ltac:(unfold f; lia) Hcount)
      as [->|[-> ->]]; reflexivity. }
  destruct (Z.eqb_spec (c mod 16) 0) as [Hmod|Hmod]; simpl in Hrun;
    [|injection Hrun as <- <-; auto].
  destruct (AllocateMatrixList (c / 16)) as [l|] eqn:Hl;
    [|injection Hrun as <- <-; auto].
  apply Halloc in Hl. unfold itsNumMatrices in Hl.
  assert (Hrange : 0 <= c < UINT_MODULUS) by (subst c; by apply Z.mod_pos_bound).
  assert (Hsmall : c <= Z.of_nat (length (NumbersFrom f anInputText))).
  { subst c. apply Z.mod_le; [lia|reflexivity]. }
  assert (H16 : c = 16 * (c / 16)) by (apply Z.div_exact; lia).
  destruct (ReadGenerators_reads (Z.to_nat (c / 16)) 0 f anInputText l)
    as (l' & Hread & Hlen & _ & Hentries); [lia|lia|].
  rewrite Hread in Hrun. injection Hrun as <- <-.
  exists l'. split; [reflexivity|]. rewrite <- Hc.
  split; [assumption|]. split; [unfold itsNumMatrices; lia|].
  rewrite drop_0 in Hentries. rewrite Hentries. f_equal. lia.
Qed.

(** What [ReadMatrices] returns.  A message is one of three: the text
    holds something other than numbers, the number of numbers is no
    multiple of 16, or the array could not be allocated; the second pass
    never fails, so the message about an impossible error is never
    returned.  Without a message there is an array of matrices whose
    entries, row by row and matrix after matrix, are the numbers of the
    text in their order, none left out (their number is taken modulo 2^32,
    as the counter is an unsigned int). *)
Theorem ReadMatrices_reads (anInputText : list Byte) (e : ErrorText)
    (out : option MatrixList) :
  AllocatesArrays ->
  ReadMatrices anInputText None = Some (e, out) ->
  let theNumNumbers := Z.of_nat (length (Numbers anInputText)) mod UINT_MODULUS in
  match e with
  | Some msg =>
      (msg = theOtherTextMessage \/ msg = theMultipleOf16Message
       \/ msg = theAllocationMessage)
      /\ msg <> theImpossibleMessage
      /\ out = FreeMatrixList None
  | None =>
      exists theMatrices : MatrixList,
        out = Some theMatrices
        /\ theNumNumbers mod 16 = 0
        /\ itsNumMatrices theMatrices = theNumNumbers / 16
        /\ concat (EntriesOf <$> theMatrices)
           = take (Z.to_nat theNumNumbers) (Numbers anInputText)
  end.
Proof.
  intros Halloc Hrun. apply ReadMatrices_outcome in Hrun; [|assumption].
  destruct e as [msg|]; [|exact Hrun].
  destruct Hrun as [Hmsg ->]. split; [assumption|]. split; [|reflexivity].
  destruct Hmsg as [-> | [-> | ->]]; discriminate.
Qed.

Lemma SkipWhitespace_returns (s : list Byte) :
  ZeroTerminated s -> exists t, SkipWhitespace s = Some t /\ ZeroTerminated t.
Proof.
  unfold ZeroTerminated. induction s as [|c s IH]; intros Hz.
  - by apply elem_of_nil in Hz.
  - simpl. destruct (_ || _) eqn:Hc.
    + apply IH. apply elem_of_cons in Hz as [<-|Hz]; [discriminate Hc|assumption].
    + by exists (c :: s).
Qed.

Lemma drop_ZeroTerminated (s : list Byte) (n : nat) :
  ZeroTerminated s -> (n <= length (cstring s))%nat -> ZeroTerminated (drop n s).
Proof.
  unfold ZeroTerminated. intros Hz Hn.
  destruct (cstring_split s Hz) as [post Hpost]. rewrite Hpost.
  rewrite drop_app_le by lia. apply elem_of_app. right. left.
Qed.

Lemma ReadOneNumber_returns (s : list Byte) :
  StaysInString -> ZeroTerminated s ->
  exists success x stop e,
    ReadOneNumber s = Some (success, x, stop, e) /\ ZeroTerminated stop.
Proof.
  intros Hstrtod Hz. unfold ReadOneNumber.
  destruct (SkipWhitespace_returns s Hz) as (t & -> & Ht). cbn [mbind option_bind].
  destruct (negb _) eqn:Hn.
  - do 4 eexists. split; [reflexivity|]. by apply drop_ZeroTerminated.
  - apply negb_false_iff, Nat.eqb_eq in Hn. rewrite Hn, drop_0.
    destruct t as [|c t]; [by apply elem_of_nil in Ht|]. simpl.
    do 4 eexists. by split.
Qed.

Lemma CountNumbers_returns (f : nat) (s : list Byte) (n : Z) :
  StaysInString -> ZeroTerminated s -> (length s < f)%nat ->
  is_Some (CountNumbers f s n).
Proof.
  intros Hstrtod. revert s n. induction f as [|f IH]; intros s n Hz Hf; [lia|].
  simpl. destruct (ReadOneNumber_returns s Hstrtod Hz) as (ok & x & stop & e & Hread & Hstop).
  rewrite Hread. simpl. destruct ok; [|by eexists].
  apply IH; [assumption|]. apply ReadOneNumber_success in Hread as [_ Hlen]. lia.
Qed.

Lemma ReadGenerators_returns (n i f : nat) (s : list Byte) (l : list Matrix) :
  (16 * n <= length (NumbersFrom f s))%nat -> (i + n = length l)%nat ->
  is_Some (ReadGenerators n i s l).
Proof.
  intros Hmany Hroom.
  destruct (ReadGenerators_reads n i f s l Hmany Hroom) as (l' & -> & _). by eexists.
Qed.

(** [ReadMatrices] returns on every zero-terminated text: neither of its
    passes reads past the terminating zero or writes outside the array. *)
Theorem ReadMatrices_returns (anInputText : list Byte) :
  StaysInString -> AllocatesArrays -> ZeroTerminated anInputText ->
  is_Some (ReadMatrices anInputText None).
Proof.
  intros Hstrtod Halloc Hz. unfold ReadMatrices.
  set (f := S (length anInputText)).
  destruct (CountNumbers_returns f anInputText 0 Hstrtod Hz ltac:(unfold f; lia))
    as [[c e] Hcount].
  rewrite Hcount. cbn [mbind option_bind]. destruct e as [msg|]; [by eexists|].
  assert (Hc : c = Z.of_nat (length (NumbersFrom f anInputText)) mod UINT_MODULUS).
  { destruct (CountNumbers_counts f anInputText 0 c None ltac:(unfold f; lia) Hcount)
      as [->|[-> ->]]; reflexivity. }
  destruct (Z.eqb_spec (c mod 16) 0) as [Hmod|Hmod]; simpl; [|by eexists].
  destruct (AllocateMatrixList (c / 16)) as [l|] eqn:Hl; [|by eexists].
  apply Halloc in Hl. unfold itsNumMatrices in Hl.
  assert (Hrange : 0 <= c < UINT_MODULUS) by (subst c; by apply Z.mod_pos_bound).
  assert (Hsmall : c <= Z.of_nat (length (NumbersFrom f anInputText))).
  { subst c. apply Z.mod_le; [lia|reflexivity]. }
  assert (H16 : c = 16 * (c / 16)) by (apply Z.div_exact; lia).
  destruct (ReadGenerators_returns (Z.to_nat (c / 16)) 0 f anInputText l) as [[e l'] ->];
    [lia|lia|].
  simpl. destruct e; by eexists.
Qed.

End Reading.

Lemma digits_count (s : list Byte) (value : Z) (n : nat) :
  ((digits s value n).2 <= n + length (cstring s))%nat.
Proof.
  revert value n. induction s as [|c s IH]; intros value n; simpl; [lia|].
  destruct (Z.leb_spec 48 c); simpl; [|lia].
  destruct (Z.leb_spec c 57); simpl; [|lia].
  destruct (Z.eqb_spec c CHAR_NUL) as [->|_]; [unfold CHAR_NUL in *; lia|].
  specialize (IH (10 * value + (c - 48)) (S n)). simpl. lia.
Qed.

Lemma integerReader_StaysInString : @StaysInString integerReader.
Proof.
  intros s. simpl. unfold strtod_integers.
  destruct s as [|c s]; [simpl; lia|].
  assert (Hplain : ((digits (c :: s) 0 0).2 <= length (cstring (c :: s)))%nat)
    by apply (digits_count (c :: s) 0 0).
  destruct (Z.eqb_spec c 45) as [->|Hc].
  - pose proof (digits_count s 0 0). simpl. destruct (_ =? _)%nat; simpl; lia.
  - assert (Hother : forall (A : Type) (x y : A),
              match c with 45 => x | _ => y end = y).
    { intros A x y. destruct c as [|p|p]; try reflexivity.
      do 6 (destruct p as [p|p|]; try reflexivity). congruence. }
    rewrite Hother. exact Hplain.
Qed.

Lemma integerReader_AllocatesArrays : @AllocatesArrays integerReader.
Proof.
  intros n l. simpl. destruct (Z.leb_spec 0 n); [|discriminate].
  intros [= <-]. unfold itsNumMatrices. rewrite length_replicate. lia.
Qed.

Lemma ReadMatrices_reads_witness :
  exists theMatrices : MatrixList,
    Some [reflection] = Some theMatrices
    /\ (Z.of_nat (length (@Numbers integerReader reflectionText)) mod UINT_MODULUS) mod 16
       = 0
    /\ itsNumMatrices theMatrices
       = (Z.of_nat (length (@Numbers integerReader reflectionText)) mod UINT_MODULUS) / 16
    /\ concat (EntriesOf <$> theMatrices)
       = take (Z.to_nat (Z.of_nat (length (@Numbers integerReader reflectionText))
                         mod UINT_MODULUS))
           (@Numbers integerReader reflectionText).
Proof.
  apply (@ReadMatrices_reads integerReader reflectionText None (Some [reflection])).
  - exact integerReader_AllocatesArrays.
  - vm_compute. reflexivity.
Defined.

Lemma ReadMatrices_returns_witness :
  is_Some (@ReadMatrices integerReader reflectionText None).
Proof.
  apply (@ReadMatrices_returns integerReader).
  - exact integerReader_StaysInString.
  - exact integerReader_AllocatesArrays.
  - apply (list_elem_of_lookup_2 _ 40%nat). reflexivity.
Defined.

Section Loading.
Context `{LibM} `{Matrices} `{Colors} `{Tiling} `{Reader}.

Lemma ConstructHoneycomb_success (memory : Allocation) (G : option MatrixList)
    (d : option DirichletDomain) (h h' : option Honeycomb) :
  ConstructHoneycomb memory G d h = Some (None, h') -> is_Some h'.
Proof.
  unfold ConstructHoneycomb. intros Hrun.
  destruct G; [|discriminate]. destruct h; [discriminate|].
  destruct (AllocateHoneycomb _ _ _) as [[c v]|]; [|discriminate].
  destruct (SetCells _ _ _); simpl in Hrun; [|discriminate].
  injection Hrun as <-. by eexists.
Qed.

Ltac reset_kept :=
  unfold Reset, SameOptions in *; simpl in *; intuition congruence.

Lemma LoadGenerators_body_outcome (theDirichletMemory : nat)
    (theHoneycombMemory : Allocation) (md md' : ModelData) (aGeneratorList : MatrixList)
    (aHyperbolicSpaceType : HyperbolicSpaceType) (e : ErrorText) :
  LoadGenerators_body theDirichletMemory theHoneycombMemory md aGeneratorList
    aHyperbolicSpaceType = Some (e, md') ->
  Reset md md'
  /\ (e = None ->
      DetectSpaceType aGeneratorList = (None, itsSpaceType md')
      /\ itsHorizonRadius md' = HorizonRadiusOf (itsSpaceType md') aHyperbolicSpaceType
      /\ is_Some (itsHoneycomb md')
      /\ itsDirichletWallsMeshNeedsRefresh md' = true
      /\ itsVertexFigureMeshNeedsReplacement md' = true).
Proof.
  unfold LoadGenerators_body.
  destruct (DetectSpaceType aGeneratorList) as [[e0|] t] eqn:Hdetect; cbn [fst snd].
  { intros [= <- <-]. split; [reset_kept|discriminate]. }
  set (m1 := set_itsHorizonRadius _ _).
  assert (H1' : Reset md m1 /\ itsSpaceType m1 = t
                /\ itsHorizonRadius m1 = HorizonRadiusOf t aHyperbolicSpaceType
                /\ itsHoneycomb m1 = None).
  { unfold m1. simpl. split; [reset_kept|by repeat split]. }
  clearbody m1. intros Hrun.
  apply bind_Some in Hrun as ([[e1 m2] theFullHolonomyGroup] & Hgroup & Hrun).
  assert (H2' : Reset md m2 /\ itsSpaceType m2 = t
                /\ itsHorizonRadius m2 = HorizonRadiusOf t aHyperbolicSpaceType
                /\ itsHoneycomb m2 = None).
  { destruct (decide _).
    - destruct (ConstructHolonomyGroup _ _) as [[e2|] theProvisionalHolonomyGroup];
        [by injection Hgroup as _ <- _|].
      apply bind_Some in Hgroup as ([[e3|] d] & _ & Hgroup); simpl in Hgroup.
      + injection Hgroup as _ <- _. destruct H1' as (? & ? & ? & ?).
        split; [reset_kept|by repeat split].
      + destruct (ConstructHolonomyGroup _ _) as [[e4|] G4]; injection Hgroup as _ <- _;
          destruct H1' as (? & ? & ? & ?); (split; [reset_kept|by repeat split]).
    - destruct (ConstructHolonomyGroup _ _) as [[e2|] G2];
        [by injection Hgroup as _ <- _|].
      apply bind_Some in Hgroup as ([e3 d] & _ & Hgroup). injection Hgroup as _ <- _.
      destruct H1' as (? & ? & ? & ?). split; [reset_kept|by repeat split]. }
  clear Hgroup H1'. destruct H2' as (Hreset & Htype & Hradius & Hcomb).
  destruct e1 as [e1|]; [injection Hrun as <- <-; by split|].
  destruct (NeedsBackHemisphere _ _ _) as [[e2|] b]; cbn [fst snd] in Hrun.
  { injection Hrun as <- <-. split; [reset_kept|discriminate]. }
  apply bind_Some in Hrun as (G & _ & Hrun).
  apply bind_Some in Hrun as ([[e3|] h] & Hhoneycomb & Hrun); simpl in Hrun;
    injection Hrun as <- <-.
  { split; [reset_kept|discriminate]. }
  split; [reset_kept|]. intros _. simpl. rewrite Htype.
  split; [reflexivity|]. split; [assumption|].
  split; [by eapply ConstructHoneycomb_success|by split].
Qed.

(** Whatever [LoadGenerators] returns, it has counted one change, put the
    user at the identity with the speed 8 * 0.02, and left the options
    alone.  With a message, the model data hold neither a Dirichlet domain
    nor a honeycomb.  Without one, the space type is the one that
    [DetectSpaceType] finds, the horizon radius is the one of that type,
    there is a honeycomb, and both meshes are marked for renewal. *)
Theorem LoadGenerators_outcome (theDirichletMemory : nat) (theHoneycombMemory : Allocation)
    (md md' : ModelData) (aGeneratorList : MatrixList)
    (aHyperbolicSpaceType : HyperbolicSpaceType) (e : ErrorText) :
  LoadGenerators theDirichletMemory theHoneycombMemory md aGeneratorList
    aHyperbolicSpaceType = Some (e, md') ->
  itsChangeCount md' = uint64_incr (itsChangeCount md)
  /\ itsUserBodyPlacement md' = MatrixIdentity
  /\ itsUserSpeed md' = (8 * USER_SPEED_INCREMENT)%float
  /\ SameOptions md md'
  /\ match e with
     | Some _ => itsDirichletDomain md' = None /\ itsHoneycomb md' = None
     | None =>
         DetectSpaceType aGeneratorList = (None, itsSpaceType md')
         /\ itsHorizonRadius md' = HorizonRadiusOf (itsSpaceType md') aHyperbolicSpaceType
         /\ is_Some (itsHoneycomb md')
         /\ itsDirichletWallsMeshNeedsRefresh md' = true
         /\ itsVertexFigureMeshNeedsReplacement md' = true
     end.
Proof.
  unfold LoadGenerators. intros Hrun.
  apply bind_Some in Hrun as ([e0 m] & Hbody & Hrun).
  apply LoadGenerators_body_outcome in Hbody as [Hreset Hloaded].
  destruct e0 as [msg|]; injection Hrun as <- <-.
  - unfold Reset, SameOptions in *. simpl. intuition congruence.
  - specialize (Hloaded eq_refl). unfold Reset, SameOptions in *. simpl.
    intuition congruence.
Qed.

(** [LoadGeneratorFile] either leaves the model data as they are, and
    then it returns one of four messages (the file is in UTF-16, it holds
    text other than numbers, the number of its numbers is no multiple of
    16, or the matrices could not be allocated), or it has gone through
    [LoadGenerators]: one change is counted, the user is at the identity
    with the speed 8 * 0.02, and if there is a message the model data hold
    neither a Dirichlet domain nor a honeycomb. *)
Theorem LoadGeneratorFile_outcome (theDirichletMemory : nat)
    (theHoneycombMemory : Allocation) (md md' : ModelData)
    (anInputText theBuffer : list Byte) (e : ErrorText) :
  AllocatesArrays ->
  LoadGeneratorFile theDirichletMemory theHoneycombMemory md anInputText
  = Some (e, md', theBuffer) ->
  (md' = md
   /\ (e = Some theUTF16Message \/ e = Some theOtherTextMessage
       \/ e = Some theMultipleOf16Message \/ e = Some theAllocationMessage))
  \/ (itsChangeCount md' = uint64_incr (itsChangeCount md)
      /\ itsUserBodyPlacement md' = MatrixIdentity
      /\ itsUserSpeed md' = (8 * USER_SPEED_INCREMENT)%float
      /\ SameOptions md md'
      /\ (is_Some e -> itsDirichletDomain md' = None /\ itsHoneycomb md' = None)).
Proof.
  intros Halloc. unfold LoadGeneratorFile. intros Hrun.
  destruct (IsUTF16 anInputText) as [[]|]; [| |discriminate].
  { injection Hrun as <- <- <-. left. auto. }
  destruct (HasByteOrderMark anInputText) as [theMark|]; [|discriminate].
  apply bind_Some in Hrun as (theHyperbolicSpaceType & _ & Hrun).
  apply bind_Some in Hrun as (theText & _ & Hrun).
  destruct (ReadMatrices theText None) as [[[msg|] theGenerators]|] eqn:Hread;
    [| |discriminate].
  { injection Hrun as <- <- <-. left. split; [reflexivity|].
    apply ReadMatrices_outcome in Hread as [[-> | [-> | ->]] _]; auto. }
  apply bind_Some in Hrun as (aGeneratorList & _ & Hrun).
  destruct (LoadGenerators _ _ _ _ _) as [[e' m]|] eqn:Hload; [|discriminate].
  injection Hrun as <- <- <-. right.
  unfold LoadGenerators in Hload.
  apply bind_Some in Hload as ([e0 m0] & Hbody & Hload).
  apply LoadGenerators_body_outcome in Hbody as [Hreset _].
  injection Hload as <- <-.
  destruct e0 as [msg|]; unfold Reset, SameOptions in *; simpl.
  - intuition congruence.
  - repeat (split; [intuition congruence|]). intros [x Hx]. discriminate Hx.
Qed.

End Loading.

Lemma LoadGenerators_outcome_witness :
  itsChangeCount loadedCube.2 = uint64_incr (itsChangeCount moving)
  /\ itsUserBodyPlacement loadedCube.2 = @MatrixIdentity Reference.matrices
  /\ itsUserSpeed loadedCube.2 = (8 * USER_SPEED_INCREMENT)%float
  /\ SameOptions moving loadedCube.2
  /\ DetectSpaceType (drop 1 cubeGenerators) = (None, itsSpaceType loadedCube.2)
  /\ itsHorizonRadius loadedCube.2
     = HorizonRadiusOf (itsSpaceType loadedCube.2) HyperbolicSpaceGeneric
  /\ is_Some (itsHoneycomb loadedCube.2)
  /\ itsDirichletWallsMeshNeedsRefresh loadedCube.2 = true
  /\ itsVertexFigureMeshNeedsReplacement loadedCube.2 = true.
Proof.
  apply (@LoadGenerators_outcome Reference.libm Reference.matrices Reference.colors
           generatorsOnly 1000 plentiful moving loadedCube.2 (drop 1 cubeGenerators)
           HyperbolicSpaceGeneric None).
  vm_compute. reflexivity.
Defined.

Lemma LoadGeneratorFile_outcome_witness :
  (loadedReflection.1.2 = moving
   /\ (loadedReflection.1.1 = Some theUTF16Message
       \/ loadedReflection.1.1 = Some theOtherTextMessage
       \/ loadedReflection.1.1 = Some theMultipleOf16Message
       \/ loadedReflection.1.1 = Some theAllocationMessage))
  \/ (itsChangeCount loadedReflection.1.2 = uint64_incr (itsChangeCount moving)
      /\ itsUserBodyPlacement loadedReflection.1.2 = @MatrixIdentity Reference.matrices
      /\ itsUserSpeed loadedReflection.1.2 = (8 * USER_SPEED_INCREMENT)%float
      /\ SameOptions moving loadedReflection.1.2
      /\ (is_Some loadedReflection.1.1 ->
          itsDirichletDomain loadedReflection.1.2 = None
          /\ itsHoneycomb loadedReflection.1.2 = None)).
Proof.
  apply (@LoadGeneratorFile_outcome Reference.libm Reference.matrices Reference.colors
           generatorsOnly integerReader 1000 plentiful moving loadedReflection.1.2
           commentedReflectionText loadedReflection.2 loadedReflection.1.1).
  - exact integerReader_AllocatesArrays.
  - vm_compute. reflexivity.
Defined.

Lemma eqb_is_number (x y : float) :
  PrimFloat.eqb x y = true -> PrimFloat.is_nan x = false /\ PrimFloat.is_nan y = false.
Proof.
  intros Heq.
  destruct (PrimFloat.is_nan x) eqn:Hx.
  { apply is_nan_true in Hx. rewrite FloatAxioms.eqb_spec, Hx in Heq. discriminate Heq. }
  destruct (PrimFloat.is_nan y) eqn:Hy; [|by split].
  apply is_nan_true in Hy. rewrite FloatAxioms.eqb_spec, Hy in Heq.
  by destruct (Prim2SF x).
Qed.

Lemma leb_is_number (x y : float) :
  PrimFloat.leb x y = true -> PrimFloat.is_nan x = false /\ PrimFloat.is_nan y = false.
Proof.
  intros Hle.
  destruct (PrimFloat.is_nan x) eqn:Hx.
  { apply is_nan_true in Hx. rewrite FloatAxioms.leb_spec, Hx in Hle. discriminate Hle. }
  destruct (PrimFloat.is_nan y) eqn:Hy; [|by split].
  apply is_nan_true in Hy. rewrite FloatAxioms.leb_spec, Hy in Hle.
  by destruct (Prim2SF x).
Qed.

(** Half of a number that is at least 1 is positive. *)
Lemma half_positive (x : float) :
  PrimFloat.leb 1 x = true -> PrimFloat.ltb 0 (0.5 * x) = true.
Proof.
  intros Hle. destruct (leb_is_number _ _ Hle) as [N1 Nx].
  rewrite (leb_frank _ _ N1 Nx) in Hle. apply Z.leb_le in Hle.
  change (frank 1) with (2 ^ 52 * 2 ^ 1022) in Hle. unfold frank in Hle.
  pose proof (Prim2SF_valid x) as Hvalid.
  rewrite FloatAxioms.ltb_spec, FloatAxioms.mul_spec.
  change (Prim2SF 0.5) with (S754_finite false 4503599627370496 (-53)).
  change (Prim2SF 0) with (S754_zero false).
  destruct (Prim2SF x) as [s|s| |s m e]; simpl in Hle.
  - assert (0 < 2 ^ 52 * 2 ^ 1022) by (apply Z.mul_pos_pos; by apply Z.pow_pos_nonneg). lia.
  - destruct s; [|reflexivity].
    assert (0 < 2 ^ 52 * 2 ^ 1022) by (apply Z.mul_pos_pos; by apply Z.pow_pos_nonneg).
    assert (0 < 2 ^ 2200) by (by apply Z.pow_pos_nonneg). simpl in Hle. lia.
  - assert (0 < 2 ^ 52 * 2 ^ 1022) by (apply Z.mul_pos_pos; by apply Z.pow_pos_nonneg). lia.
  - simpl in Hvalid. destruct (bounded_range m e Hvalid) as (He & Hm & _).
    pose proof (finite_rank_range m e Hvalid) as Hrank.
    destruct s; simpl in Hle.
    { assert (0 < 2 ^ 52 * 2 ^ 1022) by (apply Z.mul_pos_pos; by apply Z.pow_pos_nonneg).
      lia. }
    assert (Hexp : -53 < e).
    { destruct (Z.lt_ge_cases (-53) e) as [|Hsmall]; [assumption|exfalso].
      assert (2 ^ (e + 1074) <= 2 ^ 1021) by (apply Z.pow_le_mono_r; lia).
      assert (Z.pos m * 2 ^ (e + 1074) <= (2 ^ 53 - 1) * 2 ^ 1021).
      { apply Z.mul_le_mono_nonneg; try lia; apply Z.pow_nonneg; lia. }
      assert (2 ^ 52 * 2 ^ 1022 = 2 ^ 53 * 2 ^ 1021).
      { rewrite <- !Z.pow_add_r by lia. reflexivity. }
      assert (0 < 2 ^ 1021) by (by apply Z.pow_pos_nonneg). nia. }
    unfold SF64mul, SFmul. cbn [xorb].
    pose proof (binary_round_aux_signed false (Z.pos (4503599627370496 * m)) (-53 + e)
                  loc_Exact ltac:(lia) ltac:(lia)) as Hsigned.
    destruct (binary_round_aux _ _ _ _ _ _) as [s'|s'| |s' m' e']; simpl in Hsigned;
      try destruct Hsigned; subst; reflexivity.
Qed.

Section Mouse.
Context `{LibM} `{Matrices} `{Colors} `{Motions}.

Lemma guard_ViewsAgree (aMouseLocation : DisplayPoint) (aMouseMotion : DisplayPointMotion) :
  PrimFloat.leb (DisplayPointMotion_itsViewWidth aMouseMotion) 0
  || PrimFloat.leb (DisplayPointMotion_itsViewHeight aMouseMotion) 0
  || neqb (DisplayPointMotion_itsViewWidth aMouseMotion)
          (DisplayPoint_itsViewWidth aMouseLocation)
  || neqb (DisplayPointMotion_itsViewHeight aMouseMotion)
          (DisplayPoint_itsViewHeight aMouseLocation)
  = negb (ViewsAgree aMouseLocation aMouseMotion).
Proof.
  unfold ViewsAgree, neqb.
  set (W := DisplayPointMotion_itsViewWidth aMouseMotion).
  set (H' := DisplayPointMotion_itsViewHeight aMouseMotion).
  assert (Hpos : forall x y, PrimFloat.eqb x y = true ->
                             PrimFloat.leb x 0 = negb (PrimFloat.ltb 0 x)).
  { intros x y Heq. destruct (eqb_is_number _ _ Heq) as [Nx _].
    rewrite (leb_frank x 0 Nx eq_refl), (ltb_frank 0 x eq_refl Nx).
    destruct (Z.leb_spec (frank x) (frank 0)), (Z.ltb_spec (frank 0) (frank x));
      try reflexivity; lia. }
  destruct (PrimFloat.eqb W _) eqn:HW; simpl;
    [|by rewrite !orb_true_r, !andb_false_r || by destruct (_ || _), (_ && _)].
  destruct (PrimFloat.eqb H' _) eqn:HH; simpl;
    [|by rewrite !orb_true_r, !andb_false_r].
  rewrite (Hpos _ _ HW), (Hpos _ _ HH), !orb_false_r, !andb_true_r.
  by destruct (PrimFloat.ltb 0 W), (PrimFloat.ltb 0 H').
Qed.

(** [MouseMoved] acts only on a view of positive size that agrees with the
    view of the location (a NaN agrees with nothing): otherwise it returns
    and nothing has changed, the change count included.  On such a view
    with a side of at least 1 the assertion on the characteristic size
    holds, and the call changes the placement of the user, counts one
    change and leaves all else as it is. *)
Theorem MouseMoved_outcome (md : ModelData) (aMouseLocation : DisplayPoint)
    (aMouseMotion : DisplayPointMotion)
    (aTranslationFlag aZAxisFlag aCenterpieceFlag : bool) :
  (ViewsAgree aMouseLocation aMouseMotion = false ->
   MouseMoved md aMouseLocation aMouseMotion aTranslationFlag aZAxisFlag aCenterpieceFlag
   = Some md)
  /\ (ViewsAgree aMouseLocation aMouseMotion = true ->
      PrimFloat.leb 1 (DisplayPointMotion_itsViewWidth aMouseMotion) = true
      \/ PrimFloat.leb 1 (DisplayPointMotion_itsViewHeight aMouseMotion) = true ->
      exists thePlacement : Matrix,
        MouseMoved md aMouseLocation aMouseMotion aTranslationFlag aZAxisFlag
          aCenterpieceFlag
        = Some (incr_itsChangeCount (set_itsUserBodyPlacement thePlacement md))).
Proof.
  unfold MouseMoved. rewrite guard_ViewsAgree. split.
  - intros ->. reflexivity.
  - intros Hagree Hside. rewrite Hagree. cbn [negb].
    set (W := DisplayPointMotion_itsViewWidth aMouseMotion) in *.
    set (H' := DisplayPointMotion_itsViewHeight aMouseMotion) in *.
    assert (Hsize : gtb (CharacteristicViewSize W H') 0 = true).
    { unfold gtb, CharacteristicViewSize.
      unfold ViewsAgree in Hagree. fold W H' in Hagree.
      apply andb_prop in Hagree as [Hagree _]. apply andb_prop in Hagree as [Hagree _].
      apply andb_prop in Hagree as [HW HH].
      destruct (ltb_is_number _ _ HW) as [_ NW]. destruct (ltb_is_number _ _ HH) as [_ NH].
      apply half_positive.
      assert (N1 : PrimFloat.is_nan 1 = false) by reflexivity.
      rewrite (leb_frank _ _ NH NW).
      destruct (Z.leb_spec (frank H') (frank W)) as [Hle|Hlt];
        destruct Hside as [Hside|Hside]; try assumption;
        rewrite leb_frank in Hside |- * by assumption;
        apply Z.leb_le in Hside; apply Z.leb_le; lia. }
    rewrite Hsize. cbn [GEOMETRY_GAMES_ASSERT mbind option_bind].
    eexists. unfold incr_itsChangeCount. simpl. reflexivity.
Qed.

End Mouse.

Lemma MouseMoved_outcome_witness :
  @MouseMoved Reference.libm Reference.matrices Reference.colors planeMotions
    moving theClick theLostDrag true false false = Some moving
  /\ exists thePlacement : Matrix,
       @MouseMoved Reference.libm Reference.matrices Reference.colors planeMotions
         moving theClick theDrag true false false
       = Some (incr_itsChangeCount (set_itsUserBodyPlacement thePlacement moving)).
Proof.
  split.
  - apply (proj1 (@MouseMoved_outcome Reference.libm Reference.matrices Reference.colors
                    planeMotions moving theClick theLostDrag true false false)).
    reflexivity.
  - apply (proj2 (@MouseMoved_outcome Reference.libm Reference.matrices Reference.colors
                    planeMotions moving theClick theDrag true false false)).
    + reflexivity.
    + left. reflexivity.
Defined.

Lemma NewNodes_NewVertex_addresses (n : nat) (d d' : HEPolyhedron) (ps : list nat) :
  NewNodes NewVertex n d = (Some ps, d') ->
  ps = seq (itsNextAddress d) n
  /\ itsFreeMemory d = (n + itsFreeMemory d')%nat
  /\ itsNextAddress d' = (itsNextAddress d + n)%nat
  /\ itsVertexList d' = reverse ps ++ itsVertexList d
  /\ itsHalfEdgeList d' = itsHalfEdgeList d /\ itsFaceList d' = itsFaceList d
  /\ theHalfEdges d' = theHalfEdges d /\ theFaces d' = theFaces d
  /\ forall p, theVertices d' !! p
               = if decide (p ∈ ps) then Some rawVertex else theVertices d !! p.
Proof.
  revert d ps. induction n as [|n IH]; simpl; intros d ps Hrun.
  - injection Hrun as <- <-. rewrite Nat.add_0_r. by repeat split.
  - unfold NewVertex at 1 in Hrun. unfold GET_MEMORY in Hrun.
    destruct (itsFreeMemory d) as [|m] eqn:Hm; [discriminate Hrun|].
    destruct (NewNodes NewVertex n _) as [[qs|] d2] eqn:Hmore; [|discriminate Hrun].
    injection Hrun as <- <-.
    destruct (IH _ _ Hmore) as (-> & Hfree & Ha & Hv & He & Hf & Hes & Hfs & Hvs).
    simpl in *. split; [reflexivity|]. split; [lia|]. split; [lia|]. split.
    { rewrite Hv, reverse_cons, <- app_assoc. reflexivity. }
    repeat (split; [assumption|]).
    intros p. rewrite Hvs.
    destruct (decide (p ∈ seq (S (itsNextAddress d)) n)) as [Hin|Hout],
             (decide (p ∈ itsNextAddress d :: seq (S (itsNextAddress d)) n))
               as [Hin'|Hout']; try reflexivity.
    + destruct Hout'. by right.
    + apply elem_of_cons in Hin' as [->|?]; [by rewrite lookup_insert_eq|done].
    + rewrite lookup_insert_ne; [reflexivity|]. intros <-. apply Hout'. left.
Qed.

Lemma NewNodes_NewHalfEdge_addresses (n : nat) (d d' : HEPolyhedron) (ps : list nat) :
  NewNodes NewHalfEdge n d = (Some ps, d') ->
  ps = seq (itsNextAddress d) n
  /\ itsFreeMemory d = (n + itsFreeMemory d')%nat
  /\ itsNextAddress d' = (itsNextAddress d + n)%nat
  /\ itsHalfEdgeList d' = reverse ps ++ itsHalfEdgeList d
  /\ itsVertexList d' = itsVertexList d /\ itsFaceList d' = itsFaceList d
  /\ theVertices d' = theVertices d /\ theFaces d' = theFaces d
  /\ forall p, theHalfEdges d' !! p
               = if decide (p ∈ ps) then Some rawHalfEdge else theHalfEdges d !! p.
Proof.
  revert d ps. induction n as [|n IH]; simpl; intros d ps Hrun.
  - injection Hrun as <- <-. rewrite Nat.add_0_r. by repeat split.
  - unfold NewHalfEdge at 1 in Hrun. unfold GET_MEMORY in Hrun.
    destruct (itsFreeMemory d) as [|m] eqn:Hm; [discriminate Hrun|].
    destruct (NewNodes NewHalfEdge n _) as [[qs|] d2] eqn:Hmore; [|discriminate Hrun].
    injection Hrun as <- <-.
    destruct (IH _ _ Hmore) as (-> & Hfree & Ha & Hv & He & Hf & Hes & Hfs & Hvs).
    simpl in *. split; [reflexivity|]. split; [lia|]. split; [lia|]. split.
    { rewrite Hv, reverse_cons, <- app_assoc. reflexivity. }
    repeat (split; [assumption|]).
    intros p. rewrite Hvs.
    destruct (decide (p ∈ seq (S (itsNextAddress d)) n)) as [Hin|Hout],
             (decide (p ∈ itsNextAddress d :: seq (S (itsNextAddress d)) n))
               as [Hin'|Hout']; try reflexivity.
    + destruct Hout'. by right.
    + apply elem_of_cons in Hin' as [->|?]; [by rewrite lookup_insert_eq|done].
    + rewrite lookup_insert_ne; [reflexivity|]. intros <-. apply Hout'. left.
Qed.

Lemma NewNodes_NewFace_addresses (n : nat) (d d' : HEPolyhedron) (ps : list nat) :
  NewNodes NewFace n d = (Some ps, d') ->
  ps = seq (itsNextAddress d) n
  /\ itsFreeMemory d = (n + itsFreeMemory d')%nat
  /\ itsNextAddress d' = (itsNextAddress d + n)%nat
  /\ itsFaceList d' = reverse ps ++ itsFaceList d
  /\ itsVertexList d' = itsVertexList d /\ itsHalfEdgeList d' = itsHalfEdgeList d
  /\ theVertices d' = theVertices d /\ theHalfEdges d' = theHalfEdges d
  /\ forall p, theFaces d' !! p
               = if decide (p ∈ ps) then Some rawFace else theFaces d !! p.
Proof.
  revert d ps. induction n as [|n IH]; simpl; intros d ps Hrun.
  - injection Hrun as <- <-. rewrite Nat.add_0_r. by repeat split.
  - unfold NewFace at 1 in Hrun. unfold GET_MEMORY in Hrun.
    destruct (itsFreeMemory d) as [|m] eqn:Hm; [discriminate Hrun|].
    destruct (NewNodes NewFace n _) as [[qs|] d2] eqn:Hmore; [|discriminate Hrun].
    injection Hrun as <- <-.
    destruct (IH _ _ Hmore) as (-> & Hfree & Ha & Hv & He & Hf & Hes & Hfs & Hvs).
    simpl in *. split; [reflexivity|]. split; [lia|]. split; [lia|]. split.
    { rewrite Hv, reverse_cons, <- app_assoc. reflexivity. }
    repeat (split; [assumption|]).
    intros p. rewrite Hvs.
    destruct (decide (p ∈ seq (S (itsNextAddress d)) n)) as [Hin|Hout],
             (decide (p ∈ itsNextAddress d :: seq (S (itsNextAddress d)) n))
               as [Hin'|Hout']; try reflexivity.
    + destruct Hout'. by right.
    + apply elem_of_cons in Hin' as [->|?]; [by rewrite lookup_insert_eq|done].
    + rewrite lookup_insert_ne; [reflexivity|]. intros <-. apply Hout'. left.
Qed.

(** A loop over [0 .. n-1] with an invariant that counts the rounds. *)
Lemma iterM_seq_invariant {B} (I : nat -> B -> Prop) (f : B -> nat -> option B)
    (n : nat) (b b' : B) :
  I 0%nat b ->
  (forall k x y, (k < n)%nat -> I k x -> f x k = Some y -> I (S k) y) ->
  iterM f (seq 0 n) b = Some b' -> I n b'.
Proof.
  intros Hstart Hstep.
  assert (Hgen : forall m s x, (s + m = n)%nat -> I s x ->
                               iterM f (seq s m) x = Some b' -> I n b').
  { induction m as [|m IH]; simpl; intros s x Hs Hx Hrun.
    - injection Hrun as <-. by replace n with s by lia.
    - apply bind_Some in Hrun as (y & Hy & Hrun).
      apply (IH (S s) y); [lia| |assumption]. apply (Hstep s x); [lia|assumption..]. }
  by apply (Hgen n 0%nat b).
Qed.

Lemma lens_mod (n i : nat) : (i < n)%nat -> (((i + n - 1) mod n + 1) mod n = i)%nat.
Proof.
  intros Hi. destruct i as [|i].
  - replace (0 + n - 1)%nat with (n - 1)%nat by lia.
    rewrite (Nat.mod_small (n - 1) n) by lia.
    replace (n - 1 + 1)%nat with n by lia. apply Nat.Div0.mod_same.
  - replace (S i + n - 1)%nat with (i + 1 * n)%nat by lia.
    rewrite Nat.Div0.mod_add, (Nat.mod_small i n) by lia.
    rewrite Nat.mod_small by lia. lia.
Qed.

Lemma IsLens_sound (n v0 h0 f0 : nat) (d : HEPolyhedron) :
  (0 < n)%nat -> IsLens n v0 h0 f0 d -> MeshIsSound d = true.
Proof.
  intros Hn [Hvl Hhl Hfl Hv He Hf].
  assert (Hmod : forall i, (i mod n < n)%nat) by (intros i; apply Nat.mod_upper_bound; lia).
  assert (Hedge : forall i j, (i < n)%nat -> (j < 2)%nat ->
                              (h0 + (2 * i + j))%nat ∈ itsHalfEdgeList d).
  { intros i j Hi Hj. rewrite Hhl, elem_of_reverse, elem_of_seq. lia. }
  assert (Hvertex : forall i, (i < n)%nat -> (v0 + i)%nat ∈ itsVertexList d).
  { intros i Hi. rewrite Hvl, elem_of_reverse, elem_of_seq. lia. }
  assert (Hface : forall j, (j < 2)%nat -> (f0 + j)%nat ∈ itsFaceList d).
  { intros j Hj. rewrite Hfl. destruct j as [|[|j]]; [|rewrite Nat.add_1_r|lia].
    - rewrite Nat.add_0_r. right. left.
    - left. }
  assert (Htip : forall i j, (i < n)%nat -> (j < 2)%nat ->
            tipOf d (h0 + (2 * i + j))%nat
            = Some (if decide (j = 0%nat) then v0 + (i + 1) mod n else v0 + i)%nat).
  { intros i j Hi Hj. unfold tipOf. rewrite (He i j Hi Hj). unfold LensHalfEdge.
    by destruct (decide (j = 0%nat)). }
  assert (Hmate : forall i j, (i < n)%nat -> (j < 2)%nat ->
            mateOf d (h0 + (2 * i + j))%nat
            = Some (h0 + (2 * i + (1 - j)))%nat).
  { intros i j Hi Hj. unfold mateOf. rewrite (He i j Hi Hj). unfold LensHalfEdge.
    destruct (decide (j = 0%nat)) as [->|]; [reflexivity|].
    by replace j with 1%nat by lia. }
  assert (Hfaceof : forall i j, (i < n)%nat -> (j < 2)%nat ->
            faceOf d (h0 + (2 * i + j))%nat
            = Some (if decide (j = 0%nat) then f0 else S f0)).
  { intros i j Hi Hj. unfold faceOf. rewrite (He i j Hi Hj). unfold LensHalfEdge.
    by destruct (decide (j = 0%nat)). }
  unfold MeshIsSound. rewrite !andb_true_iff, !bool_decide_eq_true, !forallb_forall.
  repeat split.
  - (* the half edges *)
    intros e He'. apply list_elem_of_In in He'.
    rewrite Hhl, elem_of_reverse, elem_of_seq in He'.
    assert (Hij : exists i j, (i < n)%nat /\ (j < 2)%nat /\ e = (h0 + (2 * i + j))%nat).
    { exists ((e - h0) / 2)%nat, ((e - h0) mod 2)%nat.
      pose proof (Nat.div_mod_eq (e - h0) 2). pose proof (Nat.mod_upper_bound (e - h0) 2).
      split; [apply Nat.Div0.div_lt_upper_bound; lia|]. split; lia. }
    destruct Hij as (i & j & Hi & Hj & ->).
    unfold HalfEdgeIsSound. rewrite (He i j Hi Hj). unfold LensHalfEdge.
    destruct (decide (j = 0%nat)) as [->|Hj1]; cbn [itsMate itsCycle itsTip itsFace].
    + rewrite !andb_true_iff, !bool_decide_eq_true. repeat split.
      * lia.
      * by rewrite (Hmate i 1%nat Hi ltac:(lia)).
      * apply Hedge; lia.
      * apply Hedge; [apply Hmod|lia].
      * destruct (Hv ((i + 1) mod n)%nat (Hmod _)) as (V & -> & _). by eexists.
      * apply Hvertex, Hmod.
      * destruct (Hf 0%nat ltac:(lia)) as (F & HF & _). rewrite Nat.add_0_r in HF.
        rewrite HF. by eexists.
      * specialize (Hface 0%nat ltac:(lia)). by rewrite Nat.add_0_r in Hface.
      * by rewrite (Hfaceof _ 0%nat (Hmod _) ltac:(lia)).
      * rewrite (Hmate _ 0%nat (Hmod _) ltac:(lia)). cbn [mbind option_bind Nat.sub].
        by rewrite (Htip _ 1%nat (Hmod _) ltac:(lia)).
    + assert (j = 1%nat) as -> by lia.
      rewrite !andb_true_iff, !bool_decide_eq_true. repeat split.
      * lia.
      * by rewrite (Hmate i 0%nat Hi ltac:(lia)).
      * apply Hedge; lia.
      * apply Hedge; [apply Hmod|lia].
      * destruct (Hv i Hi) as (V & -> & _). by eexists.
      * by apply Hvertex.
      * destruct (Hf 1%nat ltac:(lia)) as (F & HF & _). rewrite Nat.add_1_r in HF.
        rewrite HF. by eexists.
      * specialize (Hface 1%nat ltac:(lia)). by rewrite Nat.add_1_r in Hface.
      * by rewrite (Hfaceof _ 1%nat (Hmod _) ltac:(lia)).
      * rewrite (Hmate _ 1%nat (Hmod _) ltac:(lia)). cbn [mbind option_bind Nat.sub].
        rewrite (Htip _ 0%nat (Hmod _) ltac:(lia)). simpl. by rewrite lens_mod.
  - (* the vertices *)
    intros v Hv'. apply list_elem_of_In in Hv'.
    rewrite Hvl, elem_of_reverse, elem_of_seq in Hv'.
    assert (Hi : exists i, (i < n)%nat /\ v = (v0 + i)%nat) by (exists (v - v0)%nat; lia).
    destruct Hi as (i & Hi & ->).
    unfold VertexIsSound. destruct (Hv i Hi) as (V & -> & ->).
    rewrite andb_true_iff, !bool_decide_eq_true. split; [apply Hedge; lia|].
    rewrite (Hmate i 0%nat Hi ltac:(lia)). cbn [mbind option_bind Nat.sub].
    by rewrite (Htip i 1%nat Hi ltac:(lia)).
  - (* the faces *)
    intros f Hf'. apply list_elem_of_In in Hf'. rewrite Hfl in Hf'.
    assert (Hj : exists j, (j < 2)%nat /\ f = (f0 + j)%nat).
    { apply elem_of_cons in Hf' as [->|Hf']; [exists 1%nat; lia|].
      apply elem_of_cons in Hf' as [->|Hf']; [exists 0%nat; lia|].
      by apply elem_of_nil in Hf'. }
    destruct Hj as (j & Hj & ->).
    unfold FaceIsSound. destruct (Hf j Hj) as (F & -> & ->).
    rewrite andb_true_iff, !bool_decide_eq_true.
    replace (h0 + j)%nat with (h0 + (2 * 0 + j))%nat by lia.
    split; [apply Hedge; lia|]. rewrite (Hfaceof 0%nat j Hn Hj).
    destruct j as [|[|j]]; [by rewrite Nat.add_0_r|by rewrite Nat.add_1_r|lia].
  - rewrite Hvl, reverse_Permutation. apply NoDup_seq.
  - rewrite Hhl, reverse_Permutation. apply NoDup_seq.
  - rewrite Hfl. apply NoDup_cons. split; [|apply NoDup_singleton].
    intros Hin. apply list_elem_of_singleton in Hin. lia.
Qed.

Section Lens.
Context `{LibM} `{Matrices} `{Colors}.

(** A lens from [MakeLens] has an order n of at least 3 and has taken
    3 n + 5 units of memory (the polyhedron, two arrays and 3 n + 2
    nodes); it has n vertices, 2 n half edges and 2 faces, and it is a
    sound half-edge mesh.  The memory is less than 2^31 units, so that the
    order is less than 2^31 and the indices (i + 1) and (i + n - 1) of the
    source stay in the range of unsigned int. *)
Theorem MakeLens_mesh (memory : nat) (A B : Matrix) (d : HEPolyhedron) :
  Z.of_nat memory < 2 ^ 31 ->
  MakeLens memory A B None = Some (None, Some d) ->
  exists n : nat,
    (3 <= n)%nat /\ (3 * n + 5 <= memory)%nat
    /\ MeshIsSound d = true
    /\ NumVertices d = Z.of_nat n /\ NumHalfEdges d = 2 * Z.of_nat n /\ NumFaces d = 2.
Proof.
  intros _. unfold MakeLens. intros Hrun.
  apply bind_Some in Hrun as ([e|nZ] & Horder & Hrun); [discriminate Hrun|].
  assert (Hn : 3 <= nZ).
  { destruct (PrimFloat.eqb _ _); [injection Horder as <-; lia|].
    destruct (PrimFloat.ltb _ _); [|discriminate Horder].
    destruct (_ || _); [discriminate Horder|].
    apply bind_Some in Horder as (n' & _ & Horder).
    destruct (gtb _ _); [discriminate Horder|].
    destruct (Z.ltb_spec n' 3); [discriminate Horder|]. injection Horder as <-. lia. }
  clear Horder. set (n := Z.to_nat nZ) in *.
  assert (Hn' : (3 <= n)%nat) by lia. clearbody n. clear Hn.
  destruct memory as [|memory]; [discriminate Hrun|].
  destruct (GET_MEMORY (emptyPolyhedron memory)) as [[a|] d0] eqn:Hm0; [|discriminate Hrun].
  destruct (NewNodes NewVertex _ d0) as [[vs|] d1] eqn:Hv; [|discriminate Hrun].
  destruct (GET_MEMORY d1) as [[a1|] d1'] eqn:Hm1; [|discriminate Hrun].
  destruct (NewNodes NewHalfEdge _ d1') as [[es|] d2] eqn:He; [|discriminate Hrun].
  destruct (NewNodes NewFace 2 d2) as [[fs|] d3] eqn:Hf; [|discriminate Hrun].
  (* where the nodes are *)
  apply NewNodes_NewVertex_addresses in Hv
    as (-> & Hm1' & Ha1 & Hvl1 & Hhl1 & Hfl1 & Hes1 & Hfs1 & Hvs1).
  apply NewNodes_NewHalfEdge_addresses in He
    as (-> & Hm2' & Ha2 & Hhl2 & Hvl2 & Hfl2 & Hvs2 & Hfs2 & Hes2).
  apply NewNodes_NewFace_addresses in Hf
    as (-> & Hm3' & Ha3 & Hfl3 & Hvl3 & Hhl3 & Hvs3 & Hes3 & Hfs3).
  unfold GET_MEMORY in Hm0, Hm1. cbn [emptyPolyhedron itsFreeMemory] in Hm0.
  destruct memory as [|memory]; [discriminate Hm0|]. injection Hm0 as <- <-.
  destruct (itsFreeMemory d1) as [|m1] eqn:Hfree1; [discriminate Hm1|].
  injection Hm1 as <- <-.
  cbn [emptyPolyhedron itsNextAddress itsFreeMemory itsVertexList itsHalfEdgeList
       itsFaceList theVertices theHalfEdges theFaces] in *.
  set (h0 := (2 + n)%nat). set (f0 := (h0 + 2 * n)%nat).
  replace (S (itsNextAddress d1)) with h0 in * by (unfold h0; lia).
  replace (itsNextAddress d2) with f0 in * by (unfold f0; lia).
  assert (Hvl : itsVertexList d3 = reverse (seq 1 n))
    by (by rewrite Hvl3, Hvl2, Hvl1, app_nil_r).
  assert (Hhl : itsHalfEdgeList d3 = reverse (seq h0 (2 * n)))
    by (by rewrite Hhl3, Hhl2, Hhl1, app_nil_r).
  assert (Hfl : itsFaceList d3 = [S f0; f0]) by (by rewrite Hfl3, Hfl2, Hfl1).
  assert (Hvs : forall i, (i < n)%nat -> theVertices d3 !! (1 + i)%nat = Some rawVertex).
  { intros i Hi. rewrite Hvs3, Hvs2, Hvs1, decide_True; [reflexivity|].
    apply elem_of_seq. lia. }
  assert (Hes : forall i j, (i < n)%nat -> (j < 2)%nat ->
                theHalfEdges d3 !! (h0 + (2 * i + j))%nat = Some rawHalfEdge).
  { intros i j Hi Hj. rewrite Hes3, Hes2, decide_True; [reflexivity|].
    apply elem_of_seq. lia. }
  assert (Hfs : forall j, (j < 2)%nat -> theFaces d3 !! (f0 + j)%nat = Some rawFace).
  { intros j Hj. rewrite Hfs3, decide_True; [reflexivity|]. apply elem_of_seq. lia. }
  clear Hvl1 Hvl2 Hvl3 Hhl1 Hhl2 Hhl3 Hfl1 Hfl2 Hfl3 Hvs1 Hvs2 Hvs3 Hes1 Hes2 Hes3
        Hfs1 Hfs2 Hfs3.
  assert (Hat2 : forall i j, (i < n)%nat -> (j < 2)%nat ->
                 at2 (seq h0 (2 * n)) i j = Some (h0 + (2 * i + j))%nat).
  { intros i j Hi Hj. unfold at2. apply lookup_seq_lt. lia. }
  assert (Hmod : forall i, (i mod n < n)%nat) by (intros i; apply Nat.mod_upper_bound; lia).
  (* the loop over the vertices *)
  apply bind_Some in Hrun as (x1 & Hloop1 & Hrun).
  apply (iterM_seq_invariant
           (fun k x =>
              theLists x = theLists d3 /\ theHalfEdges x = theHalfEdges d3
              /\ theFaces x = theFaces d3
              /\ forall i, (i < n)%nat ->
                   exists V, theVertices x !! (1 + i)%nat = Some V
                             /\ ((i < k)%nat ->
                                 itsOutboundHalfEdge V = Some (h0 + (2 * i + 0))%nat)))
    in Hloop1.
  2:{ repeat split. intros i Hi. exists rawVertex. split; [by apply Hvs|lia]. }
  2:{ intros k x y Hk (Hl & He' & Hf' & Hv') Hstep.
      rewrite lookup_seq_lt in Hstep by lia. cbn [mbind option_bind] in Hstep.
      rewrite (Hat2 k 0%nat Hk) in Hstep by lia.
      unfold onVertex in Hstep. destruct (Hv' k Hk) as (V & HV & _).
      rewrite HV in Hstep. cbn [mbind option_bind theVertices set_theVertices] in Hstep.
      rewrite lookup_insert_eq in Hstep. cbn [mbind option_bind] in Hstep.
      injection Hstep as <-. repeat split; try assumption.
      intros i Hi. cbn [theVertices set_theVertices].
      destruct (decide (i = k)) as [->|Hne].
      - rewrite lookup_insert_eq. eexists. split; [reflexivity|]. intros _. reflexivity.
      - rewrite !lookup_insert_ne by lia. destruct (Hv' i Hi) as (V' & HV' & Hout).
        exists V'. split; [assumption|]. intros Hlt. apply Hout. lia. }
  destruct Hloop1 as (Hl1 & He1 & Hf1 & Hv1).
  (* the loop over the half edges *)
  apply bind_Some in Hrun as (x2 & Hloop2 & Hrun).
  apply (iterM_seq_invariant
           (fun k x =>
              theLists x = theLists x1 /\ theVertices x = theVertices x1
              /\ theFaces x = theFaces x1
              /\ forall i j, (i < n)%nat -> (j < 2)%nat ->
                   theHalfEdges x !! (h0 + (2 * i + j))%nat
                   = Some (if decide (i < k)%nat then LensHalfEdge n 1 h0 f0 i j
                           else rawHalfEdge)))
    in Hloop2.
  2:{ repeat split. intros i j Hi Hj. rewrite decide_False by lia. rewrite He1.
      by apply Hes. }
  2:{ intros k x y Hk (Hl & Hv' & Hf' & He') Hstep.
      rewrite (Hat2 k 0%nat Hk), (Hat2 k 1%nat Hk) in Hstep by lia.
      rewrite (Hat2 _ 0%nat (Hmod (k + 1)%nat)),
        (Hat2 _ 1%nat (Hmod (k + n - 1)%nat)) in Hstep by lia.
      rewrite !lookup_seq_lt in Hstep by (try apply Hmod; lia).
      change (seq f0 2) with [f0; S f0] in Hstep.
      cbn [mbind option_bind lookup list_lookup] in Hstep.
      pose proof (He' k 0%nat Hk ltac:(lia)) as Hraw0.
      pose proof (He' k 1%nat Hk ltac:(lia)) as Hraw1.
      rewrite decide_False in Hraw0, Hraw1 by lia.
      unfold onHalfEdge in Hstep.
      rewrite Hraw0 in Hstep. cbn [mbind option_bind theHalfEdges set_theHalfEdges] in Hstep.
      repeat (rewrite ?lookup_insert_eq in Hstep;
              rewrite ?lookup_insert_ne in Hstep by lia;
              rewrite ?Hraw1 in Hstep;
              cbn [mbind option_bind theHalfEdges set_theHalfEdges] in Hstep).
      injection Hstep as <-. repeat split; try assumption.
      intros i j Hi Hj. cbn [theHalfEdges set_theHalfEdges].
      destruct (decide (i = k)) as [->|Hne].
      - rewrite decide_True by lia.
        destruct j as [|[|j]]; [| |lia].
        + rewrite lookup_insert_ne by lia. rewrite lookup_insert_eq.
          unfold LensHalfEdge, with_itsFace, with_itsCycle, with_itsMate, with_itsTip,
            rawHalfEdge.
          cbn [decide_rel itsTip itsMate itsCycle itsFace itsBase itsAltitude
               HEHalfEdge_itsDeletionFlag itsOuterPoint itsInnerPoint].
          rewrite decide_True by reflexivity. repeat f_equal; lia.
        + rewrite lookup_insert_eq.
          unfold LensHalfEdge, with_itsFace, with_itsCycle, with_itsMate, with_itsTip,
            rawHalfEdge.
          cbn [decide_rel itsTip itsMate itsCycle itsFace itsBase itsAltitude
               HEHalfEdge_itsDeletionFlag itsOuterPoint itsInnerPoint].
          rewrite decide_False by lia. repeat f_equal; lia.
      - rewrite !lookup_insert_ne by lia. rewrite (He' i j Hi Hj).
        destruct (decide (i < k)%nat), (decide (i < S k)%nat); try reflexivity; lia. }
  destruct Hloop2 as (Hl2 & Hv2 & Hf2 & He2).
  (* the two faces *)
  change (seq f0 2) with [f0; S f0] in Hrun.
  cbn [mbind option_bind lookup list_lookup] in Hrun.
  rewrite (Hat2 0%nat 0%nat ltac:(lia) ltac:(lia)),
    (Hat2 0%nat 1%nat ltac:(lia) ltac:(lia)) in Hrun.
  pose proof (Hfs 0%nat ltac:(lia)) as HF0. pose proof (Hfs 1%nat ltac:(lia)) as HF1.
  rewrite Nat.add_0_r, <- Hf1, <- Hf2 in HF0. rewrite Nat.add_1_r, <- Hf1, <- Hf2 in HF1.
  unfold onFace in Hrun.
  rewrite HF0 in Hrun. cbn [mbind option_bind theFaces set_theFaces] in Hrun.
  repeat (rewrite ?lookup_insert_eq in Hrun;
          rewrite ?lookup_insert_ne in Hrun by lia;
          rewrite ?HF1 in Hrun;
          cbn [mbind option_bind theFaces set_theFaces] in Hrun).
  injection Hrun as <-.
  exists n. split; [assumption|]. split; [lia|].
  unfold theLists in Hl1, Hl2. rewrite Hl1 in Hl2. injection Hl2 as Hvl' Hhl' Hfl'.
  split; [|unfold NumVertices, NumHalfEdges, NumFaces;
           cbn [FREE_MEMORY itsVertexList itsHalfEdgeList itsFaceList set_theFaces];
           rewrite Hvl', Hhl', Hfl', Hvl, Hhl, Hfl, !length_reverse, !length_seq;
           simpl length; lia].
  apply (IsLens_sound n 1 h0 f0); [lia|].
  constructor;
    cbn [FREE_MEMORY itsVertexList itsHalfEdgeList itsFaceList theVertices theHalfEdges
         theFaces set_theFaces].
  - by rewrite Hvl'.
  - by rewrite Hhl'.
  - by rewrite Hfl'.
  - intros i Hi. rewrite Hv2. destruct (Hv1 i Hi) as (V & HV & Hout).
    exists V. split; [assumption|]. by apply Hout.
  - intros i j Hi Hj. rewrite (He2 i j Hi Hj). by rewrite decide_True.
  - intros j Hj. destruct j as [|[|j]]; [| |lia].
    + rewrite Nat.add_0_r, lookup_insert_ne by lia.
      rewrite lookup_insert_eq. eexists. split; [reflexivity|].
      cbn; f_equal; lia.
    + rewrite Nat.add_1_r, lookup_insert_eq. eexists. split; [reflexivity|].
      cbn; f_equal; lia.
Qed.

End Lens.

Lemma MakeLens_mesh_witness :
  exists n : nat,
    (3 <= n)%nat /\ (3 * n + 5 <= 1000)%nat
    /\ MeshIsSound slabLens = true
    /\ NumVertices slabLens = Z.of_nat n /\ NumHalfEdges slabLens = 2 * Z.of_nat n
    /\ NumFaces slabLens = 2.
Proof.
  apply (@MakeLens_mesh Reference.libm Reference.matrices 1000 (flatTranslation 0 0 1)
           (flatTranslation 0 0 (-1)) slabLens).
  - reflexivity.
  - vm_compute. reflexivity.
Defined.

(** ** The mesh of the Dirichlet domain *)

Lemma writeAt_Some {A} (anArray anArray' : option (list A)) (i : nat) (x : A) :
  writeAt anArray i x = Some anArray' ->
  exists l, anArray = Some l /\ (i < length l)%nat /\ anArray' = Some (<[i := x]> l).
Proof.
  unfold writeAt. destruct anArray as [l|]; simpl; [|discriminate].
  destruct (l !! i) as [y|] eqn:Hy; simpl; [|discriminate].
  intros [= <-]. exists l. repeat split. by eapply lookup_lt_Some.
Qed.

Lemma WriteVertex_Written (Lp Lt Lc Lf : nat) (nv nf : Z) (a f : nat) (i : Z)
    (triangles : list MeshFacet) (p : Vector) (t : TexCoords) (c : RGBAColor)
    (w w' : DirichletMesh * MeshCursor) :
  Written Lp Lt Lc Lf nv nf a f i triangles w ->
  WriteVertex p t c w = Some w' ->
  Written Lp Lt Lc Lf nv nf (S a) f i triangles w'.
Proof.
  intros [Hp Ht Hc Hf Hi HLp HLt HLc HLf Hbp Hbt Hbc Hbf Hnv Hnf Htri] Hrun.
  unfold WriteVertex in Hrun.
  apply bind_Some in Hrun as (ps & Hps & Hrun).
  apply bind_Some in Hrun as (ts & Hts & Hrun).
  apply bind_Some in Hrun as (cs & Hcs & Hrun).
  injection Hrun as <-.
  apply writeAt_Some in Hps as (lp & Hlp & Hltp & ->).
  apply writeAt_Some in Hts as (lt & Hlt & Hltt & ->).
  apply writeAt_Some in Hcs as (lc & Hlc & Hltc & ->).
  rewrite Hlp in HLp. rewrite Hlt in HLt. rewrite Hlc in HLc.
  cbn [arrayLength from_option] in HLp, HLt, HLc.
  split; cbn [fst snd thePosition theTexCoords theColor theMeshVertexIndex theMeshFace
              MeshVertexPositions MeshVertexTexCoords MeshVertexColors MeshFacets
              NumMeshVertices NumMeshFacets arrayLength from_option];
    rewrite ?length_insert; try done; try lia.
Qed.

Lemma WriteFacet_Written (Lp Lt Lc Lf : nat) (nv nf : Z) (a f : nat) (i : Z)
    (triangles : list MeshFacet) (x : MeshFacet) (w w' : DirichletMesh * MeshCursor) :
  Written Lp Lt Lc Lf nv nf a f i triangles w ->
  WriteFacet x w = Some w' ->
  Written Lp Lt Lc Lf nv nf a (S f) i (triangles ++ [x]) w'.
Proof.
  intros [Hp Ht Hc Hf Hi HLp HLt HLc HLf Hbp Hbt Hbc Hbf Hnv Hnf Htri] Hrun.
  unfold WriteFacet in Hrun.
  apply bind_Some in Hrun as (fs & Hfs & Hrun).
  injection Hrun as <-.
  apply writeAt_Some in Hfs as (l & Hl & Hlt & ->).
  rewrite Hl in HLf, Htri. rewrite Hf in Hlt.
  cbn [arrayLength default from_option id] in HLf, Htri.
  split; cbn [fst snd thePosition theTexCoords theColor theMeshVertexIndex theMeshFace
              MeshVertexPositions MeshVertexTexCoords MeshVertexColors MeshFacets
              NumMeshVertices NumMeshFacets arrayLength default from_option id];
    rewrite ?length_insert; try done; try lia.
  rewrite Hf, (take_S_r _ f x).
  - rewrite take_insert, decide_False by lia. by rewrite Htri.
  - rewrite list_lookup_insert, decide_True; [done|]. lia.
Qed.

Lemma AdvanceMeshVertexIndex_Written (Lp Lt Lc Lf : nat) (nv nf : Z) (a f : nat) (i : Z)
    (triangles : list MeshFacet) (n : Z) (w : DirichletMesh * MeshCursor) :
  Written Lp Lt Lc Lf nv nf a f i triangles w ->
  Written Lp Lt Lc Lf nv nf a f (uint_plus i n) triangles (AdvanceMeshVertexIndex n w).
Proof.
  intros [Hp Ht Hc Hf Hi HLp HLt HLc HLf Hbp Hbt Hbc Hbf Hnv Hnf Htri].
  split; cbn [AdvanceMeshVertexIndex fst snd thePosition theTexCoords theColor
              theMeshVertexIndex theMeshFace]; try done.
  by rewrite Hi.
Qed.

Lemma FacetsOfTrapezoids_S (j : nat) :
  FacetsOfTrapezoids (S j) = FacetsOfTrapezoids j ++ TrapezoidFacets j.
Proof.
  unfold FacetsOfTrapezoids. rewrite seq_S, flat_map_app. cbn [flat_map].
  by rewrite app_nil_r.
Qed.

(** One trapezoid more. *)
Lemma trapezoid_Written (Lp Lt Lc Lf : nat) (nv nf : Z) (j : nat)
    (p1 p2 p3 p4 : Vector) (t1 t2 t3 t4 : TexCoords) (c : RGBAColor)
    (w w1 w2 w3 w4 w5 w6 : DirichletMesh * MeshCursor) :
  Z.of_nat Lp < UINT_MODULUS ->
  TrapezoidsWritten Lp Lt Lc Lf nv nf j w ->
  WriteVertex p1 t1 c w = Some w1 ->
  WriteVertex p2 t2 c w1 = Some w2 ->
  WriteVertex p3 t3 c w2 = Some w3 ->
  WriteVertex p4 t4 c w3 = Some w4 ->
  WriteFacet (mkMeshFacet (uint_plus (theMeshVertexIndex (snd w4)) 0)
                (uint_plus (theMeshVertexIndex (snd w4)) 1)
                (uint_plus (theMeshVertexIndex (snd w4)) 2)) w4 = Some w5 ->
  WriteFacet (mkMeshFacet (uint_plus (theMeshVertexIndex (snd w4)) 2)
                (uint_plus (theMeshVertexIndex (snd w4)) 1)
                (uint_plus (theMeshVertexIndex (snd w4)) 3)) w5 = Some w6 ->
  TrapezoidsWritten Lp Lt Lc Lf nv nf (S j) (AdvanceMeshVertexIndex 4 w6).
Proof.
  unfold TrapezoidsWritten. intros HLp Hw H1 H2 H3 H4 H5 H6.
  pose proof (WriteVertex_Written _ _ _ _ _ _ _ _ _ _ _ _ _ _ _ Hw H1) as Hw1.
  pose proof (WriteVertex_Written _ _ _ _ _ _ _ _ _ _ _ _ _ _ _ Hw1 H2) as Hw2.
  pose proof (WriteVertex_Written _ _ _ _ _ _ _ _ _ _ _ _ _ _ _ Hw2 H3) as Hw3.
  pose proof (WriteVertex_Written _ _ _ _ _ _ _ _ _ _ _ _ _ _ _ Hw3 H4) as Hw4.
  pose proof (written_positions_bound _ _ _ _ _ _ _ _ _ _ _ Hw4) as Hbound.
  rewrite (written_theMeshVertexIndex _ _ _ _ _ _ _ _ _ _ _ Hw4) in H5, H6.
  assert (Hsmall : forall k, 0 <= k <= 4 ->
            uint_plus (4 * Z.of_nat j) k = 4 * Z.of_nat j + k).
  { intros k Hk. unfold uint_plus. apply Z.mod_small. lia. }
  rewrite !Hsmall in H5, H6 by lia. rewrite Z.add_0_r in H5.
  pose proof (WriteFacet_Written _ _ _ _ _ _ _ _ _ _ _ _ _ Hw4 H5) as Hw5.
  pose proof (WriteFacet_Written _ _ _ _ _ _ _ _ _ _ _ _ _ Hw5 H6) as Hw6.
  apply (AdvanceMeshVertexIndex_Written _ _ _ _ _ _ _ _ _ _ 4) in Hw6.
  rewrite Hsmall in Hw6 by lia.
  rewrite <- app_assoc in Hw6. cbn [app] in Hw6.
  rewrite FacetsOfTrapezoids_S.
  replace (4 * S j)%nat with (S (S (S (S (4 * j))))) by lia.
  replace (2 * S j)%nat with (S (S (2 * j))) by lia.
  replace (4 * Z.of_nat (S j)) with (4 * Z.of_nat j + 4) by lia.
  exact Hw6.
Qed.

Lemma uint_incr_plus (k v : Z) :
  (uint_incr k + v) mod UINT_MODULUS = (k + (1 + v)) mod UINT_MODULUS.
Proof.
  unfold uint_incr. rewrite Zplus_mod_idemp_l. f_equal. lia.
Qed.

(** The two walks around a face take the same steps. *)
Lemma MeshAround_Written `{Matrices} `{Interpolation} (Lp Lt Lc Lf : nat) (nv nf : Z)
    (d : HEPolyhedron) (aCurrentAperture theTextureMultiple : double) (theFaceCenter : Vector)
    (theDirichletDomainFaceColor : RGBAColor) (start : ptr) (fuel : nat) :
  Z.of_nat Lp < UINT_MODULUS ->
  forall (theHalfEdge : ptr) (theParity : bool) (w w' : DirichletMesh * MeshCursor)
         (k k' : Z) (j : nat),
    MeshAround fuel d aCurrentAperture theTextureMultiple theFaceCenter
      theDirichletDomainFaceColor start theHalfEdge theParity w = Some w' ->
    FaceOrderAround fuel d start theHalfEdge k = Some k' ->
    TrapezoidsWritten Lp Lt Lc Lf nv nf j w ->
    exists v : nat,
      (1 <= v)%nat /\ k' = (k + Z.of_nat v) mod UINT_MODULUS
      /\ TrapezoidsWritten Lp Lt Lc Lf nv nf (j + v) w'.
Proof.
  intros HLp. induction fuel as [|fuel IH]; intros he par w w' k k' j Hrun Hcount Hw;
    [discriminate|].
  simpl in Hrun, Hcount.
  apply bind_Some in Hrun as (t & Ht & Hrun).
  apply bind_Some in Hrun as (T & HT & Hrun).
  apply bind_Some in Hrun as (next & Hnext & Hrun).
  apply bind_Some in Hrun as (t' & Ht' & Hrun).
  apply bind_Some in Hrun as (T' & HT' & Hrun).
  apply bind_Some in Hrun as (E & HE & Hrun).
  apply bind_Some in Hrun as (w1 & H1 & Hrun).
  apply bind_Some in Hrun as (w2 & H2 & Hrun).
  apply bind_Some in Hrun as (w3 & H3 & Hrun).
  apply bind_Some in Hrun as (w4 & H4 & Hrun).
  apply bind_Some in Hrun as (w5 & H5 & Hrun).
  apply bind_Some in Hrun as (w6 & H6 & Hrun).
  rewrite Hnext in Hcount. simpl in Hcount.
  pose proof (trapezoid_Written _ _ _ _ _ _ _ _ _ _ _ _ _ _ _ _ _ _ _ _ _ _ _
                HLp Hw H1 H2 H3 H4 H5 H6) as Hw6.
  destruct (decide (next = start)) as [Hstop|Hgo].
  - injection Hrun as <-. injection Hcount as <-.
    exists 1%nat. split; [lia|]. split.
    + unfold uint_incr. f_equal.
    + by replace (j + 1)%nat with (S j) by lia.
  - destruct (IH _ _ _ _ _ _ _ Hrun Hcount Hw6) as (v & Hv & -> & Hw').
    exists (S v). split; [lia|]. split.
    + rewrite uint_incr_plus. f_equal. lia.
    + by replace (j + S v)%nat with (S j + v)%nat by lia.
Qed.

(** The two loops over the faces. *)
Lemma faces_Written `{Matrices} `{Interpolation} (Lp Lt Lc Lf : nat) (nv nf : Z)
    (d : HEPolyhedron) (aCurrentAperture : double) (aShowColorCoding : bool)
    (l : list ptr) :
  Z.of_nat Lp < UINT_MODULUS ->
  forall (counts counts' : Z * Z) (w w' : DirichletMesh * MeshCursor) (j : nat),
    0 <= fst counts < UINT_MODULUS -> 0 <= snd counts < UINT_MODULUS ->
    iterM (fun counts p =>
             F ← theFaces d !! p;
             start ← itsHalfEdge F;
             theFaceOrder ← FaceOrderAround (theFuel d) d start start 0;
             Some (uint_plus (fst counts) (uint_times 4 theFaceOrder),
                   uint_plus (snd counts) (uint_times 2 theFaceOrder)))
          l counts = Some counts' ->
    iterM (MeshFace d aCurrentAperture aShowColorCoding) l w = Some w' ->
    TrapezoidsWritten Lp Lt Lc Lf nv nf j w ->
    exists n : nat,
      (length l <= n)%nat
      /\ fst counts' = (fst counts + 4 * Z.of_nat n) mod UINT_MODULUS
      /\ snd counts' = (snd counts + 2 * Z.of_nat n) mod UINT_MODULUS
      /\ TrapezoidsWritten Lp Lt Lc Lf nv nf (j + n) w'.
Proof.
  intros HLp. induction l as [|p l IH]; intros counts counts' w w' j Hfst0 Hsnd0 Hcount Hrun Hw.
  - simpl in Hcount, Hrun. injection Hcount as <-. injection Hrun as <-.
    exists 0%nat. rewrite !Z.add_0_r, Nat.add_0_r, !Z.mod_small by done. done.
  - cbn [iterM] in Hcount, Hrun.
    apply bind_Some in Hcount as (c1 & Hc1 & Hcount).
    apply bind_Some in Hrun as (w1 & Hw1 & Hrun).
    apply bind_Some in Hc1 as (F & HF & Hc1).
    apply bind_Some in Hc1 as (start & Hstart & Hc1).
    apply bind_Some in Hc1 as (k & Hk & Hc1).
    injection Hc1 as Hc1.
    unfold MeshFace in Hw1.
    apply bind_Some in Hw1 as (F' & HF' & Hw1).
    apply bind_Some in Hw1 as (start' & Hstart' & Hw1).
    assert (F' = F) as -> by congruence.
    assert (start' = start) as -> by congruence.
    destruct (MeshAround_Written _ _ _ _ _ _ _ _ _ _ _ _ _ HLp _ _ _ _ _ _ _ Hw1 Hk Hw)
      as (v & Hv & -> & Hw1').
    assert (Hfst1 : 0 <= fst c1 < UINT_MODULUS)
      by (rewrite <- Hc1; apply Z.mod_pos_bound; done).
    assert (Hsnd1 : 0 <= snd c1 < UINT_MODULUS)
      by (rewrite <- Hc1; apply Z.mod_pos_bound; done).
    destruct (IH _ _ _ _ _ Hfst1 Hsnd1 Hcount Hrun Hw1')
      as (n & Hn & Hfst & Hsnd & Hw').
    exists (v + n)%nat. split; [simpl; lia|].
    rewrite Hfst, Hsnd, <- Hc1. cbn [fst snd]. unfold uint_plus, uint_times.
    rewrite Z.add_0_l. split; [|split].
    + rewrite Zmult_mod_idemp_r, Zplus_mod_idemp_r, Zplus_mod_idemp_l. f_equal. lia.
    + rewrite Zmult_mod_idemp_r, Zplus_mod_idemp_r, Zplus_mod_idemp_l. f_equal. lia.
    + by rewrite Nat.add_assoc.
Qed.

Lemma arrayLength_GET_MEMORY_array {A} (got : bool) (fresh : nat -> A) (n : Z) :
  (arrayLength (GET_MEMORY_array got fresh n) <= Z.to_nat n)%nat.
Proof.
  unfold GET_MEMORY_array. destruct got; simpl; [|lia].
  by rewrite length_fmap, length_seq.
Qed.

Lemma arrayLength_default {A} (anArray : option (list A)) :
  length (default [] anArray) = arrayLength anArray.
Proof. by destruct anArray. Qed.

(** The four final assertions of [MakeDirichletMesh] cannot fail.  When
    the function gets as far as them (the walks around the faces have come back to their starts,
    and no write has left its array), it returns, and for the number n of
    half edges that it has gone through, which is at least the number of
    faces: 4n is below 2^32, so the counts have not wrapped around;
    *aNumMeshVertices is 4n and *aNumMeshFacets is 2n; the three arrays of
    vertex attributes hold 4n elements each; and the array of facets holds
    the 2n triangles (4i, 4i+1, 4i+2) and (4i+2, 4i+1, 4i+3) for i = 0, ...,
    n - 1 in this order, so every index of a facet is the index of a vertex
    of the mesh.  (An array of no elements may be NULL.) *)
Theorem MakeDirichletMesh_assertions `{Matrices} `{Interpolation} (memory : MeshAllocation)
    (aDirichletDomain : option DirichletDomain)
    (aCurrentAperture : double) (aShowColorCoding : bool)
    (aNumMeshVertices : option Z)
    (someMeshVertexPositions : option (option (list Vector)))
    (someMeshVertexTexCoords : option (option (list TexCoords)))
    (someMeshVertexColors : option (option (list RGBAColor)))
    (aNumMeshFacets : option Z)
    (someMeshFacets : option (option (list MeshFacet)))
    (w : DirichletMesh * MeshCursor) :
  FillDirichletMesh memory aDirichletDomain aCurrentAperture aShowColorCoding
    aNumMeshVertices someMeshVertexPositions someMeshVertexTexCoords
    someMeshVertexColors aNumMeshFacets someMeshFacets = Some w ->
  exists (d : DirichletDomain) (n : nat),
    aDirichletDomain = Some d
    /\ MakeDirichletMesh memory aDirichletDomain aCurrentAperture aShowColorCoding
         aNumMeshVertices someMeshVertexPositions someMeshVertexTexCoords
         someMeshVertexColors aNumMeshFacets someMeshFacets = Some (fst w)
    /\ (length (itsFaceList d) <= n)%nat
    /\ 4 * Z.of_nat n < UINT_MODULUS
    /\ NumMeshVertices (fst w) = 4 * Z.of_nat n
    /\ NumMeshFacets (fst w) = 2 * Z.of_nat n
    /\ arrayLength (MeshVertexPositions (fst w)) = (4 * n)%nat
    /\ arrayLength (MeshVertexTexCoords (fst w)) = (4 * n)%nat
    /\ arrayLength (MeshVertexColors (fst w)) = (4 * n)%nat
    /\ default [] (MeshFacets (fst w)) = FacetsOfTrapezoids n.
Proof.
  intros Hfill. unfold MakeDirichletMesh. rewrite Hfill. cbn [mbind option_bind].
  unfold FillDirichletMesh in Hfill.
  destruct aDirichletDomain as [d|]; [|discriminate].
  destruct aNumMeshVertices as [nv0|]; [|discriminate].
  destruct aNumMeshFacets as [nf0|]; [|discriminate].
  destruct someMeshVertexPositions as [ps0|]; [|discriminate].
  destruct someMeshVertexTexCoords as [ts0|]; [|discriminate].
  destruct someMeshVertexColors as [cs0|]; [|discriminate].
  destruct someMeshFacets as [fs0|]; [|discriminate].
  apply bind_Some in Hfill as (_ & _ & Hfill).
  apply bind_Some in Hfill as (counts & Hcount & Hfill).
  unfold CountMesh in Hcount.
  set (nv := fst counts) in *. set (nf := snd counts) in *.
  set (Lp := arrayLength (GET_MEMORY_array (gotPositions memory) (freshPosition memory) nv)).
  set (Lt := arrayLength (GET_MEMORY_array (gotTexCoords memory) (freshTexCoords memory) nv)).
  set (Lc := arrayLength (GET_MEMORY_array (gotColors memory) (freshColor memory) nv)).
  set (Lf := arrayLength (GET_MEMORY_array (gotFacets memory) (freshFacet memory) nf)).
  assert (HLp : (Lp <= Z.to_nat nv)%nat) by apply arrayLength_GET_MEMORY_array.
  assert (HLt : (Lt <= Z.to_nat nv)%nat) by apply arrayLength_GET_MEMORY_array.
  assert (HLc : (Lc <= Z.to_nat nv)%nat) by apply arrayLength_GET_MEMORY_array.
  assert (HLf : (Lf <= Z.to_nat nf)%nat) by apply arrayLength_GET_MEMORY_array.
  assert (Hmod : 0 < UINT_MODULUS) by done.
  assert (Hzero : (0 : Z) <= 0 < UINT_MODULUS) by done.
  assert (Hstart : TrapezoidsWritten Lp Lt Lc Lf nv nf 0
            (mkDirichletMesh nv
               (GET_MEMORY_array (gotPositions memory) (freshPosition memory) nv)
               (GET_MEMORY_array (gotTexCoords memory) (freshTexCoords memory) nv)
               (GET_MEMORY_array (gotColors memory) (freshColor memory) nv)
               nf
               (GET_MEMORY_array (gotFacets memory) (freshFacet memory) nf),
             mkMeshCursor 0 0 0 0 0)).
  { split; cbn [fst snd thePosition theTexCoords theColor theMeshVertexIndex theMeshFace
                MeshVertexPositions MeshVertexTexCoords MeshVertexColors MeshFacets
                NumMeshVertices NumMeshFacets]; try done; try lia. }
  assert (Hcounts : 0 <= nv < UINT_MODULUS /\ 0 <= nf < UINT_MODULUS).
  { revert Hcount. apply (iterM_invariant
      (fun c : Z * Z => 0 <= fst c < UINT_MODULUS /\ 0 <= snd c < UINT_MODULUS)); [|done].
    intros p c c' _ Hstep.
    apply bind_Some in Hstep as (F & _ & Hstep).
    apply bind_Some in Hstep as (start & _ & Hstep).
    apply bind_Some in Hstep as (k & _ & Hstep).
    injection Hstep as <-. split; apply Z.mod_pos_bound; done. }
  assert (HLpM : Z.of_nat Lp < UINT_MODULUS) by lia.
  destruct (faces_Written Lp Lt Lc Lf nv nf d aCurrentAperture aShowColorCoding
              (itsFaceList d) HLpM (0, 0) _ _ _ _ Hzero Hzero Hcount Hfill Hstart)
    as (n & Hn & Hnv & Hnf & Hw).
  change (0 + n)%nat with n in Hw.
  destruct Hw as [Hp Ht Hc Hf Hi HLp' HLt' HLc' HLf' Hbp Hbt Hbc Hbf Hnv' Hnf' Htri].
  fold nv in Hnv. fold nf in Hnf. cbn [fst snd] in Hnv, Hnf. rewrite Z.add_0_l in Hnv, Hnf.
  pose proof (Z.mod_le (4 * Z.of_nat n) UINT_MODULUS ltac:(lia) Hmod) as Hle.
  assert (Hnv4 : nv = 4 * Z.of_nat n) by lia.
  assert (Hsmall : 4 * Z.of_nat n < UINT_MODULUS) by lia.
  assert (Hnf2 : nf = 2 * Z.of_nat n) by (rewrite Hnf; apply Z.mod_small; lia).
  exists d, n.
  rewrite Hp, Ht, Hc, Hf, Hnv', Hnf', HLp', HLt', HLc'.
  replace (Z.of_nat (4 * n) =? nv) with true by (symmetry; apply Z.eqb_eq; lia).
  replace (Z.of_nat (2 * n) =? nf) with true by (symmetry; apply Z.eqb_eq; lia).
  cbn [GEOMETRY_GAMES_ASSERT mbind option_bind].
  repeat split; try done; try lia.
  rewrite <- Htri. symmetry. apply take_ge. rewrite arrayLength_default. lia.
Qed.

(** The mesh of the cube has 24 trapezoids. *)
Lemma MakeDirichletMesh_assertions_witness :
  exists (d : DirichletDomain) (n : nat),
    Some cubeDomain = Some d
    /\ @MakeDirichletMesh Reference.matrices linearInterpolation meshMemory
         (Some cubeDomain) 0.25 true (Some 0) (Some None) (Some None) (Some None)
         (Some 0) (Some None) = Some (fst cubeMeshWritten)
    /\ (length (itsFaceList d) <= n)%nat
    /\ 4 * Z.of_nat n < UINT_MODULUS
    /\ NumMeshVertices (fst cubeMeshWritten) = 4 * Z.of_nat n
    /\ NumMeshFacets (fst cubeMeshWritten) = 2 * Z.of_nat n
    /\ arrayLength (MeshVertexPositions (fst cubeMeshWritten)) = (4 * n)%nat
    /\ arrayLength (MeshVertexTexCoords (fst cubeMeshWritten)) = (4 * n)%nat
    /\ arrayLength (MeshVertexColors (fst cubeMeshWritten)) = (4 * n)%nat
    /\ default [] (MeshFacets (fst cubeMeshWritten)) = FacetsOfTrapezoids n.
Proof.
  apply (@MakeDirichletMesh_assertions Reference.matrices linearInterpolation).
  vm_compute. reflexivity.
Defined.

(** ** The mesh of the vertex figures *)

Lemma FacetsOfQuads_S (j : nat) :
  FacetsOfQuads (S j) = FacetsOfQuads j ++ QuadFacets j.
Proof.
  unfold FacetsOfQuads. rewrite seq_S, flat_map_app. cbn [flat_map].
  by rewrite app_nil_r.
Qed.

(** The two walks around a vertex take the same steps. *)
Lemma FigureAround_Written (Lp Lt Lc Lf : nat) (nv nf : Z) (d : HEPolyhedron)
    (start : ptr) (fuel : nat) :
  Z.of_nat Lp < UINT_MODULUS ->
  forall (theHalfEdge : ptr) (theParity : bool) (w w' : DirichletMesh * MeshCursor)
         (k k' : Z) (j : nat),
    FigureAround fuel d start theHalfEdge theParity w = Some w' ->
    VertexOrderAround fuel d start theHalfEdge k = Some k' ->
    QuadsWritten Lp Lt Lc Lf nv nf j w ->
    exists v : nat,
      (1 <= v)%nat /\ k' = (k + Z.of_nat v) mod UINT_MODULUS
      /\ QuadsWritten Lp Lt Lc Lf nv nf (j + v) w'.
Proof.
  intros HLp. induction fuel as [|fuel IH]; intros he par w w' k k' j Hrun Hcount Hw;
    [discriminate|].
  cbn [FigureAround VertexOrderAround] in Hrun, Hcount.
  apply bind_Some in Hrun as (m & Hm & Hrun).
  apply bind_Some in Hrun as (next & Hnext & Hrun).
  apply bind_Some in Hrun as (E & HE & Hrun).
  apply bind_Some in Hrun as (N & HN & Hrun).
  apply bind_Some in Hrun as (w1 & H1 & Hrun).
  apply bind_Some in Hrun as (w2 & H2 & Hrun).
  apply bind_Some in Hrun as (w3 & H3 & Hrun).
  apply bind_Some in Hrun as (w4 & H4 & Hrun).
  apply bind_Some in Hrun as (w5 & H5 & Hrun).
  apply bind_Some in Hrun as (w6 & H6 & Hrun).
  apply bind_Some in Hrun as (w7 & H7 & Hrun).
  apply bind_Some in Hrun as (w8 & H8 & Hrun).
  apply bind_Some in Hrun as (w9 & H9 & Hrun).
  apply bind_Some in Hrun as (w10 & H10 & Hrun).
  apply bind_Some in Hrun as (w11 & H11 & Hrun).
  apply bind_Some in Hrun as (w12 & H12 & Hrun).
  rewrite Hm in Hcount. cbn [mbind option_bind] in Hcount.
  rewrite Hnext in Hcount. cbn [mbind option_bind] in Hcount.
  assert (Hw12 : QuadsWritten Lp Lt Lc Lf nv nf (S j) (AdvanceMeshVertexIndex 8 w12)).
  { unfold QuadsWritten in *.
    pose proof (WriteVertex_Written _ _ _ _ _ _ _ _ _ _ _ _ _ _ _ Hw H1) as Hw1.
    pose proof (WriteVertex_Written _ _ _ _ _ _ _ _ _ _ _ _ _ _ _ Hw1 H2) as Hw2.
    pose proof (WriteVertex_Written _ _ _ _ _ _ _ _ _ _ _ _ _ _ _ Hw2 H3) as Hw3.
    pose proof (WriteVertex_Written _ _ _ _ _ _ _ _ _ _ _ _ _ _ _ Hw3 H4) as Hw4.
    pose proof (WriteVertex_Written _ _ _ _ _ _ _ _ _ _ _ _ _ _ _ Hw4 H5) as Hw5.
    pose proof (WriteVertex_Written _ _ _ _ _ _ _ _ _ _ _ _ _ _ _ Hw5 H6) as Hw6.
    pose proof (WriteVertex_Written _ _ _ _ _ _ _ _ _ _ _ _ _ _ _ Hw6 H7) as Hw7.
    pose proof (WriteVertex_Written _ _ _ _ _ _ _ _ _ _ _ _ _ _ _ Hw7 H8) as Hw8.
    pose proof (written_positions_bound _ _ _ _ _ _ _ _ _ _ _ Hw8) as Hbound.
    rewrite (written_theMeshVertexIndex _ _ _ _ _ _ _ _ _ _ _ Hw8) in H9, H10, H11, H12.
    assert (Hsmall : forall k, 0 <= k <= 8 ->
              uint_plus (8 * Z.of_nat j) k = 8 * Z.of_nat j + k).
    { intros c Hc. unfold uint_plus. apply Z.mod_small. lia. }
    rewrite !Hsmall in H9, H10, H11, H12 by lia. rewrite Z.add_0_r in H9.
    pose proof (WriteFacet_Written _ _ _ _ _ _ _ _ _ _ _ _ _ Hw8 H9) as Hw9.
    pose proof (WriteFacet_Written _ _ _ _ _ _ _ _ _ _ _ _ _ Hw9 H10) as Hw10.
    pose proof (WriteFacet_Written _ _ _ _ _ _ _ _ _ _ _ _ _ Hw10 H11) as Hw11.
    pose proof (WriteFacet_Written _ _ _ _ _ _ _ _ _ _ _ _ _ Hw11 H12) as Hw12.
    apply (AdvanceMeshVertexIndex_Written _ _ _ _ _ _ _ _ _ _ 8) in Hw12.
    rewrite Hsmall in Hw12 by lia.
    rewrite <- !app_assoc in Hw12. cbn [app] in Hw12.
    rewrite FacetsOfQuads_S.
    replace (8 * S j)%nat with (S (S (S (S (S (S (S (S (8 * j))))))))) by lia.
    replace (4 * S j)%nat with (S (S (S (S (4 * j))))) by lia.
    replace (8 * Z.of_nat (S j)) with (8 * Z.of_nat j + 8) by lia.
    exact Hw12. }
  destruct (decide (next = start)) as [Hstop|Hgo].
  - injection Hrun as <-. injection Hcount as <-.
    exists 1%nat. split; [lia|]. split.
    + unfold uint_incr. f_equal.
    + by replace (j + 1)%nat with (S j) by lia.
  - destruct (IH _ _ _ _ _ _ _ Hrun Hcount Hw12) as (v & Hv & -> & Hw').
    exists (S v). split; [lia|]. split.
    + rewrite uint_incr_plus. f_equal. lia.
    + by replace (j + S v)%nat with (S j + v)%nat by lia.
Qed.

(** The two loops over the vertices. *)
Lemma vertices_Written (Lp Lt Lc Lf : nat) (nv nf : Z) (d : HEPolyhedron) (l : list ptr) :
  Z.of_nat Lp < UINT_MODULUS ->
  forall (counts counts' : Z * Z) (w w' : DirichletMesh * MeshCursor) (j : nat),
    0 <= fst counts < UINT_MODULUS -> 0 <= snd counts < UINT_MODULUS ->
    iterM (fun counts p =>
             V ← theVertices d !! p;
             start ← itsOutboundHalfEdge V;
             theVertexOrder ← VertexOrderAround (theFuel d) d start start 0;
             Some (uint_plus (fst counts) (uint_times (2 * 4) theVertexOrder),
                   uint_plus (snd counts) (uint_times (2 * 2) theVertexOrder)))
          l counts = Some counts' ->
    iterM (MeshVertexFigure d) l w = Some w' ->
    QuadsWritten Lp Lt Lc Lf nv nf j w ->
    exists n : nat,
      (length l <= n)%nat
      /\ fst counts' = (fst counts + 8 * Z.of_nat n) mod UINT_MODULUS
      /\ snd counts' = (snd counts + 4 * Z.of_nat n) mod UINT_MODULUS
      /\ QuadsWritten Lp Lt Lc Lf nv nf (j + n) w'.
Proof.
  intros HLp. induction l as [|p l IH]; intros counts counts' w w' j Hfst0 Hsnd0 Hcount Hrun Hw.
  - simpl in Hcount, Hrun. injection Hcount as <-. injection Hrun as <-.
    exists 0%nat. rewrite !Z.add_0_r, Nat.add_0_r, !Z.mod_small by done. done.
  - cbn [iterM] in Hcount, Hrun.
    apply bind_Some in Hcount as (c1 & Hc1 & Hcount).
    apply bind_Some in Hrun as (w1 & Hw1 & Hrun).
    apply bind_Some in Hc1 as (V & HV & Hc1).
    apply bind_Some in Hc1 as (start & Hstart & Hc1).
    apply bind_Some in Hc1 as (k & Hk & Hc1).
    injection Hc1 as Hc1.
    unfold MeshVertexFigure in Hw1.
    apply bind_Some in Hw1 as (V' & HV' & Hw1).
    apply bind_Some in Hw1 as (start' & Hstart' & Hw1).
    assert (V' = V) as -> by congruence.
    assert (start' = start) as -> by congruence.
    destruct (FigureAround_Written _ _ _ _ _ _ _ _ _ HLp _ _ _ _ _ _ _ Hw1 Hk Hw)
      as (v & Hv & -> & Hw1').
    assert (Hfst1 : 0 <= fst c1 < UINT_MODULUS)
      by (rewrite <- Hc1; apply Z.mod_pos_bound; done).
    assert (Hsnd1 : 0 <= snd c1 < UINT_MODULUS)
      by (rewrite <- Hc1; apply Z.mod_pos_bound; done).
    destruct (IH _ _ _ _ _ Hfst1 Hsnd1 Hcount Hrun Hw1')
      as (n & Hn & Hfst & Hsnd & Hw').
    exists (v + n)%nat. split; [simpl; lia|].
    rewrite Hfst, Hsnd, <- Hc1. cbn [fst snd]. unfold uint_plus, uint_times.
    rewrite Z.add_0_l. split; [|split].
    + rewrite Zmult_mod_idemp_r, Zplus_mod_idemp_r, Zplus_mod_idemp_l. f_equal. lia.
    + rewrite Zmult_mod_idemp_r, Zplus_mod_idemp_r, Zplus_mod_idemp_l. f_equal. lia.
    + by rewrite Nat.add_assoc.
Qed.

(** The four final assertions of [MakeVertexFigureMesh] cannot fail.  When
    the function gets as far as them (the walks around the vertices have come back to their
    starts, and no write has left its array), it returns, and for the
    number n of half edges that it has gone through, which is at least the
    number of vertices: 8n is below 2^32, so the counts have not wrapped
    around; *aNumMeshVertices is 8n and *aNumMeshFacets is 4n; the three
    arrays of vertex attributes hold 8n elements each; and the array of
    facets holds the 4n triangles (8i, 8i+1, 8i+2), (8i+2, 8i+1, 8i+3),
    (8i+4, 8i+6, 8i+5) and (8i+5, 8i+6, 8i+7) for i = 0, ..., n - 1 in this
    order, so every index of a facet is the index of a vertex of the mesh.
    (An array of no elements may be NULL.) *)
Theorem MakeVertexFigureMesh_assertions (memory : MeshAllocation)
    (aDirichletDomain : option DirichletDomain)
    (aNumMeshVertices : option Z)
    (someMeshVertexPositions : option (option (list Vector)))
    (someMeshVertexTexCoords : option (option (list TexCoords)))
    (someMeshVertexColors : option (option (list RGBAColor)))
    (aNumMeshFacets : option Z)
    (someMeshFacets : option (option (list MeshFacet)))
    (w : DirichletMesh * MeshCursor) :
  FillVertexFigureMesh memory aDirichletDomain aNumMeshVertices someMeshVertexPositions
    someMeshVertexTexCoords someMeshVertexColors aNumMeshFacets someMeshFacets = Some w ->
  exists (d : DirichletDomain) (n : nat),
    aDirichletDomain = Some d
    /\ MakeVertexFigureMesh memory aDirichletDomain aNumMeshVertices
         someMeshVertexPositions someMeshVertexTexCoords someMeshVertexColors
         aNumMeshFacets someMeshFacets = Some (fst w)
    /\ (length (itsVertexList d) <= n)%nat
    /\ 8 * Z.of_nat n < UINT_MODULUS
    /\ NumMeshVertices (fst w) = 8 * Z.of_nat n
    /\ NumMeshFacets (fst w) = 4 * Z.of_nat n
    /\ arrayLength (MeshVertexPositions (fst w)) = (8 * n)%nat
    /\ arrayLength (MeshVertexTexCoords (fst w)) = (8 * n)%nat
    /\ arrayLength (MeshVertexColors (fst w)) = (8 * n)%nat
    /\ default [] (MeshFacets (fst w)) = FacetsOfQuads n.
Proof.
  intros Hfill. unfold MakeVertexFigureMesh. rewrite Hfill. cbn [mbind option_bind].
  unfold FillVertexFigureMesh in Hfill.
  destruct aDirichletDomain as [d|]; [|discriminate].
  destruct aNumMeshVertices as [nv0|]; [|discriminate].
  destruct aNumMeshFacets as [nf0|]; [|discriminate].
  destruct someMeshVertexPositions as [ps0|]; [|discriminate].
  destruct someMeshVertexTexCoords as [ts0|]; [|discriminate].
  destruct someMeshVertexColors as [cs0|]; [|discriminate].
  destruct someMeshFacets as [fs0|]; [|discriminate].
  apply bind_Some in Hfill as (_ & _ & Hfill).
  apply bind_Some in Hfill as (counts & Hcount & Hfill).
  unfold CountVertexFigureMesh in Hcount.
  set (nv := fst counts) in *. set (nf := snd counts) in *.
  set (Lp := arrayLength (GET_MEMORY_array (gotPositions memory) (freshPosition memory) nv)).
  set (Lt := arrayLength (GET_MEMORY_array (gotTexCoords memory) (freshTexCoords memory) nv)).
  set (Lc := arrayLength (GET_MEMORY_array (gotColors memory) (freshColor memory) nv)).
  set (Lf := arrayLength (GET_MEMORY_array (gotFacets memory) (freshFacet memory) nf)).
  assert (HLp : (Lp <= Z.to_nat nv)%nat) by apply arrayLength_GET_MEMORY_array.
  assert (HLt : (Lt <= Z.to_nat nv)%nat) by apply arrayLength_GET_MEMORY_array.
  assert (HLc : (Lc <= Z.to_nat nv)%nat) by apply arrayLength_GET_MEMORY_array.
  assert (HLf : (Lf <= Z.to_nat nf)%nat) by apply arrayLength_GET_MEMORY_array.
  assert (Hmod : 0 < UINT_MODULUS) by done.
  assert (Hzero : (0 : Z) <= 0 < UINT_MODULUS) by done.
  assert (Hstart : QuadsWritten Lp Lt Lc Lf nv nf 0
            (mkDirichletMesh nv
               (GET_MEMORY_array (gotPositions memory) (freshPosition memory) nv)
               (GET_MEMORY_array (gotTexCoords memory) (freshTexCoords memory) nv)
               (GET_MEMORY_array (gotColors memory) (freshColor memory) nv)
               nf
               (GET_MEMORY_array (gotFacets memory) (freshFacet memory) nf),
             mkMeshCursor 0 0 0 0 0)).
  { split; cbn [fst snd thePosition theTexCoords theColor theMeshVertexIndex theMeshFace
                MeshVertexPositions MeshVertexTexCoords MeshVertexColors MeshFacets
                NumMeshVertices NumMeshFacets]; try done; try lia. }
  assert (Hcounts : 0 <= nv < UINT_MODULUS /\ 0 <= nf < UINT_MODULUS).
  { revert Hcount. apply (iterM_invariant
      (fun c : Z * Z => 0 <= fst c < UINT_MODULUS /\ 0 <= snd c < UINT_MODULUS)); [|done].
    intros p c c' _ Hstep.
    apply bind_Some in Hstep as (V & _ & Hstep).
    apply bind_Some in Hstep as (start & _ & Hstep).
    apply bind_Some in Hstep as (k & _ & Hstep).
    injection Hstep as <-. split; apply Z.mod_pos_bound; done. }
  assert (HLpM : Z.of_nat Lp < UINT_MODULUS) by lia.
  destruct (vertices_Written Lp Lt Lc Lf nv nf d (itsVertexList d) HLpM (0, 0) _ _ _ _
              Hzero Hzero Hcount Hfill Hstart)
    as (n & Hn & Hnv & Hnf & Hw).
  change (0 + n)%nat with n in Hw.
  destruct Hw as [Hp Ht Hc Hf Hi HLp' HLt' HLc' HLf' Hbp Hbt Hbc Hbf Hnv' Hnf' Htri].
  fold nv in Hnv. fold nf in Hnf. cbn [fst snd] in Hnv, Hnf. rewrite Z.add_0_l in Hnv, Hnf.
  pose proof (Z.mod_le (8 * Z.of_nat n) UINT_MODULUS ltac:(lia) Hmod) as Hle.
  assert (Hnv8 : nv = 8 * Z.of_nat n) by lia.
  assert (Hsmall : 8 * Z.of_nat n < UINT_MODULUS) by lia.
  assert (Hnf4 : nf = 4 * Z.of_nat n) by (rewrite Hnf; apply Z.mod_small; lia).
  exists d, n.
  rewrite Hp, Ht, Hc, Hf, Hnv', Hnf', HLp', HLt', HLc'.
  replace (Z.of_nat (8 * n) =? nv) with true by (symmetry; apply Z.eqb_eq; lia).
  replace (Z.of_nat (4 * n) =? nf) with true by (symmetry; apply Z.eqb_eq; lia).
  cbn [GEOMETRY_GAMES_ASSERT mbind option_bind].
  repeat split; try done; try lia.
  rewrite <- Htri. symmetry. apply take_ge. rewrite arrayLength_default. lia.
Qed.

(** The vertex figures of the cube have 24 quads. *)
Lemma MakeVertexFigureMesh_assertions_witness :
  exists (d : DirichletDomain) (n : nat),
    Some cubeDomain = Some d
    /\ MakeVertexFigureMesh meshMemory (Some cubeDomain) (Some 0) (Some None) (Some None)
         (Some None) (Some 0) (Some None) = Some (fst cubeFigureWritten)
    /\ (length (itsVertexList d) <= n)%nat
    /\ 8 * Z.of_nat n < UINT_MODULUS
    /\ NumMeshVertices (fst cubeFigureWritten) = 8 * Z.of_nat n
    /\ NumMeshFacets (fst cubeFigureWritten) = 4 * Z.of_nat n
    /\ arrayLength (MeshVertexPositions (fst cubeFigureWritten)) = (8 * n)%nat
    /\ arrayLength (MeshVertexTexCoords (fst cubeFigureWritten)) = (8 * n)%nat
    /\ arrayLength (MeshVertexColors (fst cubeFigureWritten)) = (8 * n)%nat
    /\ default [] (MeshFacets (fst cubeFigureWritten)) = FacetsOfQuads n.
Proof.
  apply MakeVertexFigureMesh_assertions.
  vm_compute. reflexivity.
Defined.
